(** * The distributed triangular solve of SuperLU_DIST (SRC/LBCworks.pdgstrs.c)

    A shallow embedding of [pdReDistribute_B_to_X], [pdReDistribute_X_to_B],
    [pdCompute_Diag_Inv] and [pdgstrs], and the properties of the solve that
    the specification states about them.

    Conventions of the embedding.
    - [int] and [int_t] values are integers of [Z]; signed overflow is
      undefined in C, so the model covers the runs without overflow.
    - A pointer used as an array is a function from the index to the cell
      ([array]).  A store is a point update.  Pointer arithmetic
      ([p + off]) is [shift].
    - [double] is an abstract type: the routines modelled here copy values
      and hand them to BLAS and LAPACK kernels, which are parameters.
    - A [for] loop with an integer counter is [for_]; [ABORT], [exit] and
      [return] are constructors of the result types.
    - A routine sees the allocator and [MPI_Alltoallv] through its
      [environment]; where all the processes of a mesh are taken together,
      the exchange is defined from the send buffers of the processes. *)

From Stdlib Require Import ZArith List Lia Bool String.
Import ListNotations.
Open Scope Z_scope.

Set Implicit Arguments.

(** ** Arrays *)

Definition array (A : Type) : Type := Z -> A.

Definition store {A} (a : array A) (i : Z) (v : A) : array A :=
  fun j => if j =? i then v else a j.

(** [p + off] for a pointer [p]. *)
Definition shift {A} (a : array A) (off : Z) : array A :=
  fun i => a (off + i).

Lemma store_same {A} (a : array A) i v : store a i v i = v.
Proof. unfold store. now rewrite Z.eqb_refl. Qed.

Lemma store_other {A} (a : array A) i j v : j <> i -> store a i v j = a j.
Proof. unfold store. intros H. apply Z.eqb_neq in H. now rewrite H. Qed.

(** ** Counted loops: [for (i = lo; i < hi; ++i) body] *)

Fixpoint for_from {St} (n : nat) (i : Z) (body : Z -> St -> St) (s : St) : St :=
  match n with
  | O => s
  | S n' => for_from n' (i + 1) body (body i s)
  end.

Definition for_ {St} (lo hi : Z) (body : Z -> St -> St) (s : St) : St :=
  for_from (Z.to_nat (hi - lo)) lo body s.

(** The loop rule: an invariant indexed by the counter. *)
Lemma for_from_inv {St} (P : Z -> St -> Prop) (body : Z -> St -> St) :
  forall n i s,
    P i s ->
    (forall j t, i <= j < i + Z.of_nat n -> P j t -> P (j + 1) (body j t)) ->
    P (i + Z.of_nat n) (for_from n i body s).
Proof.
  induction n as [|n IH]; intros i s Hi Hstep.
  - simpl. now replace (i + 0) with i by lia.
  - cbn [for_from].
    replace (i + Z.of_nat (S n)) with ((i + 1) + Z.of_nat n) by lia.
    apply IH.
    + apply Hstep; [lia | exact Hi].
    + intros j t Hj. apply Hstep. lia.
Qed.

Lemma for_inv {St} (P : Z -> St -> Prop) (body : Z -> St -> St) lo hi s :
  lo <= hi ->
  P lo s ->
  (forall j t, lo <= j < hi -> P j t -> P (j + 1) (body j t)) ->
  P hi (for_ lo hi body s).
Proof.
  intros Hle H0 Hstep. unfold for_.
  replace hi with (lo + Z.of_nat (Z.to_nat (hi - lo))) at 1 by lia.
  apply for_from_inv; [exact H0|].
  intros j t Hj. apply Hstep. lia.
Qed.

Lemma for_empty {St} (body : Z -> St -> St) lo hi s :
  hi <= lo -> for_ lo hi body s = s.
Proof.
  intros H. unfold for_. replace (Z.to_nat (hi - lo)) with O by lia. reflexivity.
Qed.

(** The strided loop [for (i = lo; i < hi; i += step) body], [step > 0]. *)
Fixpoint for_step_from {St} (n : nat) (i step : Z) (body : Z -> St -> St) (s : St) : St :=
  match n with
  | O => s
  | S n' => for_step_from n' (i + step) step body (body i s)
  end.

Definition for_step {St} (lo hi step : Z) (body : Z -> St -> St) (s : St) : St :=
  for_step_from (Z.to_nat ((hi - lo + step - 1) / step)) lo step body s.

(** ** Results of a routine that can call [ABORT] *)

Inductive result (A : Type) : Type :=
| Done (a : A)
| Abort (msg : string).
Arguments Abort {A} msg.

Definition bind {A B} (r : result A) (f : A -> result B) : result B :=
  match r with
  | Done a => f a
  | Abort msg => Abort msg
  end.

Notation "'do' x <- r ; k" := (bind r (fun x => k))
  (at level 10, x name, r at level 100, k at level 200).

(** ** The structures of superlu_ddefs.h that the solve reads *)

Record gridinfo_t := {
  nprow : Z;   (* number of process rows, Pr *)
  npcol : Z;   (* number of process columns, Pc *)
  iam : Z      (* my process number *)
}.

Record Glu_persist_t := {
  xsup : array Z;    (* first column of each supernode *)
  supno : array Z    (* supernode of each column *)
}.

Record ScalePermstruct_t := {
  perm_r : array Z;
  perm_c : array Z
}.

Record pxgstrs_comm_t := {
  B_to_X_SendCnt : array Z;
  X_to_B_SendCnt : array Z;
  ptr_to_ibuf : array Z;
  ptr_to_dbuf : array Z
}.

Record SOLVEstruct_t := {
  gstrs_comm : pxgstrs_comm_t;
  row_to_proc : array Z;
  diag_procs : array Z;
  num_diag_procs : Z
}.

(** ** Block index algebra

    The macros of superlu_defs.h; the header is not part of the sources at
    hand, the solve only uses them. *)

(** Modelled from the spec: the macro [BlockNum] of superlu_defs.h;
    [supno[j]] gives the supernode containing global column [j]. *)
Definition BlockNum (supno : array Z) (i : Z) : Z := supno i.

(** Modelled from the spec: the macro [FstBlockC] of superlu_defs.h;
    [xsup[k]] gives the first column of supernode [k]. *)
Definition FstBlockC (xsup : array Z) (bnum : Z) : Z := xsup bnum.

(** Modelled from the spec: the macro [SuperSize] of superlu_defs.h,
    [SuperSize(k) = xsup[k+1] - xsup[k]]. *)
Definition SuperSize (xsup : array Z) (bnum : Z) : Z := xsup (bnum + 1) - xsup bnum.

(** Modelled from the spec: the macros [PROW], [PCOL] and [PNUM] of
    superlu_defs.h; block [(i,k)] is owned by the process with
    [i mod Pr == PROW] and [k mod Pc == PCOL], numbered [PROW * Pc + PCOL]. *)
Definition PROW (bnum : Z) (grid : gridinfo_t) : Z := Z.rem bnum (nprow grid).
Definition PCOL (bnum : Z) (grid : gridinfo_t) : Z := Z.rem bnum (npcol grid).
Definition PNUM (i j : Z) (grid : gridinfo_t) : Z := i * npcol grid + j.

(** Modelled from the spec: the macros [MYROW] and [MYCOL] of
    superlu_defs.h, the mesh coordinates of process [iam], inverse to
    [PNUM]. *)
Definition MYROW (iam : Z) (grid : gridinfo_t) : Z := Z.quot iam (npcol grid).
Definition MYCOL (iam : Z) (grid : gridinfo_t) : Z := Z.rem iam (npcol grid).

(** Modelled from the spec: the macros [LBi] and [LBj] of superlu_defs.h,
    the local block-row and block-column index of a global block in the
    block-cyclic mesh; [pdgstrs] inverts them as
    [gb = myrow + lk * grid->nprow] and [gb = mycol + lk * grid->npcol]. *)
Definition LBi (bnum : Z) (grid : gridinfo_t) : Z := Z.quot bnum (nprow grid).
Definition LBj (bnum : Z) (grid : gridinfo_t) : Z := Z.quot bnum (npcol grid).

(** Modelled from the spec: the macro [CEILING] of superlu_defs.h. *)
Definition CEILING (a b : Z) : Z :=
  if Z.rem a b =? 0 then Z.quot a b else Z.quot a b + 1.

Definition SUPERLU_MAX (a b : Z) : Z := if b <? a then a else b.

Section Layout.
(** The header lengths [XK_H] and [LSUM_H] are constants of
    superlu_defs.h; the model takes them as parameters. *)
Variables XK_H LSUM_H : Z.

(** Modelled from the spec: the macro [X_BLK] of superlu_defs.h, the offset
    of the body of local block [i] in [x], past its header: the blocks
    before it hold [ilsum[i] * nrhs] values and [i] headers. *)
Definition X_BLK (ilsum : array Z) (nrhs : Z) (i : Z) : Z :=
  ilsum i * nrhs + (i + 1) * XK_H.

(** Modelled from the spec: the macro [LSUM_BLK] of superlu_defs.h, the
    same offset in [lsum]. *)
Definition LSUM_BLK (ilsum : array Z) (nrhs : Z) (i : Z) : Z :=
  ilsum i * nrhs + (i + 1) * LSUM_H.
End Layout.

(** ** MPI and the allocator, as the routines see them *)

Inductive mpi_call : Type :=
| Alltoallv_int      (* MPI_Alltoallv of row indices, mpi_int_t *)
| Alltoallv_double.  (* MPI_Alltoallv of numerical values, MPI_DOUBLE *)

Section Redistribute.
Context {double : Type}.
(** The conversion of an [int_t] to a [double], as in [x[l - XK_H] = k]. *)
Variable of_int : Z -> double.
Variables XK_H : Z.

(** What the process cannot decide by itself: whether an allocation of a
    given number of cells succeeds, and what the other processes deliver
    in a collective exchange.  [alltoallv] takes the send buffer, the send
    counts and displacements, the receive counts and displacements, and
    gives the receive buffer.  A fresh buffer is not initialised. *)
Record environment := {
  can_alloc : Z -> bool;
  heap_int : array Z;        (* what a fresh int_t buffer holds *)
  heap_double : array double; (* what a fresh double buffer holds *)
  alltoallv_i : array Z -> array Z -> array Z -> array Z -> array Z -> array Z;
  alltoallv_d : array double -> array Z -> array Z -> array Z -> array Z -> array double
}.

(** What a redistribution leaves behind: the array it fills ([x] for
    B to X, [B] for X to B), the scratch pointers of [gstrs_comm], the MPI
    calls it made, and its return value. *)
Record redistributed := {
  filled : array double;
  ibuf_ptr : array Z;
  dbuf_ptr : array Z;
  mpi_calls : list mpi_call;
  returned : Z
}.

(** *** pdReDistribute_B_to_X *)

(** Body of the loop over the local rows when [procs == 1]
    (lines 215 to 228). *)
Definition B_to_X_row (B : array double) (nrhs ldb fst_row : Z)
    (ilsum : array Z) (perm_r perm_c xsup supno : array Z)
    (i : Z) (x : array double) : array double :=
  let irow := perm_c (perm_r (i + fst_row)) in
  let k := BlockNum supno irow in
  let knsupc := SuperSize xsup k in
  let l := X_BLK XK_H ilsum nrhs k in
  let x := store x (l - XK_H) (of_int k) in
  let irow := irow - FstBlockC xsup k in
  for_ 0 nrhs (fun j x => store x (l + irow + j * knsupc) (B (i + j * ldb))) x.

(** Body of the loop that packs a local row into the send buffers
    (lines 256 to 269); the state is
    [(send_ibuf, send_dbuf, ptr_to_ibuf, ptr_to_dbuf)]. *)
Definition B_to_X_pack (B : array double) (nrhs ldb fst_row : Z)
    (perm_r perm_c supno : array Z) (grid : gridinfo_t) (i : Z)
    (st : array Z * array double * array Z * array Z)
    : array Z * array double * array Z * array Z :=
  let '(send_ibuf, send_dbuf, ptr_i, ptr_d) := st in
  let l := fst_row + i in
  let irow := perm_c (perm_r l) in
  let gbi := BlockNum supno irow in
  let p := PNUM (PROW gbi grid) (PCOL gbi grid) grid in
  let k := ptr_i p in
  let send_ibuf := store send_ibuf k irow in
  let ptr_i := store ptr_i p (ptr_i p + 1) in
  let k := ptr_d p in
  let '(send_dbuf, _) :=
    for_ 0 nrhs (fun j '(buf, k) => (store buf k (B (i + j * ldb)), k + 1))
         (send_dbuf, k) in
  let ptr_d := store ptr_d p (ptr_d p + nrhs) in
  (send_ibuf, send_dbuf, ptr_i, ptr_d).

(** Body of the loop that copies one received row into [x]
    (lines 304 to 315); the state is [(x, ii, jj)]. *)
Definition B_to_X_scatter (nrhs : Z) (ilsum xsup supno : array Z)
    (grid : gridinfo_t) (recv_ibuf : array Z) (recv_dbuf : array double)
    (st : array double * Z * Z) : array double * Z * Z :=
  let '(x, ii, jj) := st in
  let irow := recv_ibuf ii in
  let k := BlockNum supno irow in
  let knsupc := SuperSize xsup k in
  let lk := LBi k grid in
  let l := X_BLK XK_H ilsum nrhs lk in
  let x := store x (l - XK_H) (of_int k) in
  let irow := irow - FstBlockC xsup k in
  let '(x, jj) :=
    for_ 0 nrhs (fun j '(x, jj) => (store x (l + irow + j * knsupc) (recv_dbuf jj), jj + 1))
         (x, jj) in
  (x, ii + 1, jj).

(** Lines 298 to 317: the rows received from every process are copied into
    [x]; the state is [(x, ii, jj)]. *)
Definition B_to_X_receive (nrhs : Z) (ilsum xsup supno : array Z)
    (grid : gridinfo_t) (procs : Z) (RecvCnt rdispls_nrhs : array Z)
    (recv_ibuf : array Z) (recv_dbuf : array double) (x : array double)
    : array double * Z * Z :=
  for_ 0 procs
    (fun p '(x, ii, _) =>
       for_ 0 (RecvCnt p)
         (fun _ => B_to_X_scatter nrhs ilsum xsup supno grid recv_ibuf recv_dbuf)
         (x, ii, rdispls_nrhs p))
    (x, 0, 0).

(** Lines 249 to 270: the pointers into the send buffers start at the
    displacements, and the local rows are packed; the result is
    [(send_ibuf, send_dbuf, ptr_to_ibuf, ptr_to_dbuf)].  [heap_i] and
    [heap_d] are what the fresh buffers hold. *)
Definition B_to_X_send (heap_i : array Z) (heap_d : array double)
    (B : array double) (m_loc nrhs ldb fst_row : Z)
    (perm_r perm_c supno : array Z) (grid : gridinfo_t) (procs : Z)
    (sdispls ptr_i ptr_d : array Z)
    : array Z * array double * array Z * array Z :=
  let '(ptr_i, ptr_d) :=
    for_ 0 procs (fun p '(ptr_i, ptr_d) =>
                    (store ptr_i p (sdispls p), store ptr_d p (sdispls p * nrhs)))
         (ptr_i, ptr_d) in
  for_ 0 m_loc (B_to_X_pack B nrhs ldb fst_row perm_r perm_c supno grid)
       (heap_i, heap_d, ptr_i, ptr_d).

Definition pdReDistribute_B_to_X (env : environment)
    (B : array double) (m_loc nrhs ldb fst_row : Z) (ilsum : array Z)
    (x : array double) (ScalePermstruct : ScalePermstruct_t)
    (Glu_persist : Glu_persist_t) (grid : gridinfo_t)
    (SOLVEstruct : SOLVEstruct_t) : result redistributed :=
  let comm := gstrs_comm SOLVEstruct in
  let perm_r := perm_r ScalePermstruct in
  let perm_c := perm_c ScalePermstruct in
  let procs := nprow grid * npcol grid in
  let xsup := xsup Glu_persist in
  let supno := supno Glu_persist in
  let SendCnt := B_to_X_SendCnt comm in
  let SendCnt_nrhs := shift (B_to_X_SendCnt comm) procs in
  let RecvCnt := shift (B_to_X_SendCnt comm) (2 * procs) in
  let RecvCnt_nrhs := shift (B_to_X_SendCnt comm) (3 * procs) in
  let sdispls := shift (B_to_X_SendCnt comm) (4 * procs) in
  let sdispls_nrhs := shift (B_to_X_SendCnt comm) (5 * procs) in
  let rdispls := shift (B_to_X_SendCnt comm) (6 * procs) in
  let rdispls_nrhs := shift (B_to_X_SendCnt comm) (7 * procs) in
  let ptr_i := ptr_to_ibuf comm in
  let ptr_d := ptr_to_dbuf comm in
  if procs =? 1 then
    (* faster memory copy when procs=1 *)
    let x := for_ 0 m_loc
               (B_to_X_row B nrhs ldb fst_row ilsum perm_r perm_c xsup supno) x in
    Done {| filled := x; ibuf_ptr := ptr_i; dbuf_ptr := ptr_d;
            mpi_calls := []; returned := 0 |}
  else
    let k := sdispls (procs - 1) + SendCnt (procs - 1) in (* total number of sends *)
    let l := rdispls (procs - 1) + RecvCnt (procs - 1) in (* total number of receives *)
    if negb (can_alloc env (k + l)) then Abort "Malloc fails for send_ibuf[]." else
    if negb (can_alloc env ((k + l) * nrhs)) then Abort "Malloc fails for send_dbuf[]." else
    if negb (can_alloc env procs) then Abort "Malloc fails for req_send[]." else
    if negb (can_alloc env procs) then Abort "Malloc fails for req_recv[]." else
    if negb (can_alloc env procs) then Abort "Malloc fails for status_send[]." else
    if negb (can_alloc env procs) then Abort "Malloc fails for status_recv[]." else
    let '(send_ibuf, send_dbuf, ptr_i, ptr_d) :=
      B_to_X_send (heap_int env) (heap_double env) B m_loc nrhs ldb fst_row
                  perm_r perm_c supno grid procs sdispls ptr_i ptr_d in
    let recv_ibuf := alltoallv_i env send_ibuf SendCnt sdispls RecvCnt rdispls in
    let recv_dbuf :=
      alltoallv_d env send_dbuf SendCnt_nrhs sdispls_nrhs RecvCnt_nrhs rdispls_nrhs in
    let '(x, _, _) :=
      B_to_X_receive nrhs ilsum xsup supno grid procs RecvCnt rdispls_nrhs
                     recv_ibuf recv_dbuf x in
    Done {| filled := x; ibuf_ptr := ptr_i; dbuf_ptr := ptr_d;
            mpi_calls := [Alltoallv_int; Alltoallv_double]; returned := 0 |}.

(** *** pdReDistribute_X_to_B *)

(** Body of the loop over the supernodes when [procs == 1]
    (lines 413 to 423). *)
Definition X_to_B_block (x : array double) (ldb fst_row nrhs : Z)
    (ilsum xsup : array Z) (grid : gridinfo_t) (k : Z) (B : array double)
    : array double :=
  let knsupc := SuperSize xsup k in
  let lk := LBi k grid in
  let irow := FstBlockC xsup k in
  let l := X_BLK XK_H ilsum nrhs lk in
  for_ 0 knsupc
    (fun i B =>
       for_ 0 nrhs
         (fun j B => store B (irow - fst_row + i + j * ldb) (x (l + i + j * knsupc))) B)
    B.

(** Body of the loop that packs the rows of supernode [k] into the send
    buffers (lines 453 to 473); the state is
    [(send_ibuf, send_dbuf, ptr_to_ibuf, ptr_to_dbuf)]. *)
Definition X_to_B_pack (x : array double) (nrhs : Z) (ilsum xsup : array Z)
    (grid : gridinfo_t) (row_to_proc : array Z) (k : Z)
    (st : array Z * array double * array Z * array Z)
    : array Z * array double * array Z * array Z :=
  let knsupc := SuperSize xsup k in
  let lk := LBi k grid in
  let irow := FstBlockC xsup k in
  let l := X_BLK XK_H ilsum nrhs lk in
  for_ 0 knsupc
    (fun i '(send_ibuf, send_dbuf, ptr_i, ptr_d) =>
       let ii := irow + i in   (* [irow] is incremented once per row *)
       let q := row_to_proc ii in
       let jj := ptr_i q in
       let send_ibuf := store send_ibuf jj ii in
       let jj := ptr_d q in
       let '(send_dbuf, _) :=
         for_ 0 nrhs (fun j '(buf, jj) => (store buf jj (x (l + i + j * knsupc)), jj + 1))
              (send_dbuf, jj) in
       let ptr_i := store ptr_i q (ptr_i q + 1) in
       let ptr_d := store ptr_d q (ptr_d q + nrhs) in
       (send_ibuf, send_dbuf, ptr_i, ptr_d))
    st.

(** Body of the loop that copies one received row into [B]
    (lines 499 to 505); the state is [(B, k)]. *)
Definition X_to_B_unpack (ldb fst_row nrhs : Z) (recv_ibuf : array Z)
    (recv_dbuf : array double) (i : Z) (st : array double * Z) : array double * Z :=
  let '(B, k) := st in
  let irow := recv_ibuf i in
  let irow := irow - fst_row in  (* relative row number *)
  for_ 0 nrhs (fun j '(B, k) => (store B (irow + j * ldb) (recv_dbuf k), k + 1)) (B, k).

(** Lines 443 to 476: the pointers into the send buffers start at the
    displacements, and every diagonal process packs the rows of its
    supernodes; the result is
    [(send_ibuf, send_dbuf, ptr_to_ibuf, ptr_to_dbuf)]. *)
Definition X_to_B_send (heap_i : array Z) (heap_d : array double)
    (x : array double) (nrhs : Z) (ilsum xsup : array Z) (grid : gridinfo_t)
    (row_to_proc : array Z) (nsupers procs num_diag_procs : Z)
    (diag_procs sdispls sdispls_nrhs ptr_i ptr_d : array Z)
    : array Z * array double * array Z * array Z :=
  let iam := iam grid in
  let '(ptr_i, ptr_d) :=
    for_ 0 procs (fun p '(ptr_i, ptr_d) =>
                    (store ptr_i p (sdispls p), store ptr_d p (sdispls_nrhs p)))
         (ptr_i, ptr_d) in
  for_ 0 num_diag_procs            (* for all diagonal processes *)
    (fun p st =>
       let pkk := diag_procs p in
       if iam =? pkk then
         for_step p nsupers num_diag_procs
           (X_to_B_pack x nrhs ilsum xsup grid row_to_proc) st
       else st)
    (heap_i, heap_d, ptr_i, ptr_d).

Definition pdReDistribute_X_to_B (env : environment)
    (n : Z) (B : array double) (m_loc ldb fst_row nrhs : Z)
    (x : array double) (ilsum : array Z) (ScalePermstruct : ScalePermstruct_t)
    (Glu_persist : Glu_persist_t) (grid : gridinfo_t)
    (SOLVEstruct : SOLVEstruct_t) : result redistributed :=
  let row_to_proc := row_to_proc SOLVEstruct in
  let comm := gstrs_comm SOLVEstruct in
  let xsup := xsup Glu_persist in
  let nsupers := supno Glu_persist (n - 1) + 1 in
  let iam := iam grid in
  let procs := nprow grid * npcol grid in
  let SendCnt := X_to_B_SendCnt comm in
  let SendCnt_nrhs := shift (X_to_B_SendCnt comm) procs in
  let RecvCnt := shift (X_to_B_SendCnt comm) (2 * procs) in
  let RecvCnt_nrhs := shift (X_to_B_SendCnt comm) (3 * procs) in
  let sdispls := shift (X_to_B_SendCnt comm) (4 * procs) in
  let sdispls_nrhs := shift (X_to_B_SendCnt comm) (5 * procs) in
  let rdispls := shift (X_to_B_SendCnt comm) (6 * procs) in
  let rdispls_nrhs := shift (X_to_B_SendCnt comm) (7 * procs) in
  let ptr_i := ptr_to_ibuf comm in
  let ptr_d := ptr_to_dbuf comm in
  if procs =? 1 then
    (* faster memory copy when procs=1 *)
    let B := for_ 0 nsupers (X_to_B_block x ldb fst_row nrhs ilsum xsup grid) B in
    Done {| filled := B; ibuf_ptr := ptr_i; dbuf_ptr := ptr_d;
            mpi_calls := []; returned := 0 |}
  else
    let k := sdispls (procs - 1) + SendCnt (procs - 1) in (* total number of sends *)
    let l := rdispls (procs - 1) + RecvCnt (procs - 1) in (* total number of receives *)
    if negb (can_alloc env (k + l)) then Abort "Malloc fails for send_ibuf[]." else
    if negb (can_alloc env ((k + l) * nrhs)) then Abort "Malloc fails for send_dbuf[]." else
    if negb (can_alloc env procs) then Abort "Malloc fails for req_send[]." else
    if negb (can_alloc env procs) then Abort "Malloc fails for req_recv[]." else
    if negb (can_alloc env procs) then Abort "Malloc fails for status_send[]." else
    if negb (can_alloc env procs) then Abort "Malloc fails for status_recv[]." else
    let num_diag_procs := num_diag_procs SOLVEstruct in
    let diag_procs := diag_procs SOLVEstruct in
    let '(send_ibuf, send_dbuf, ptr_i, ptr_d) :=
      X_to_B_send (heap_int env) (heap_double env) x nrhs ilsum xsup grid row_to_proc
                  nsupers procs num_diag_procs diag_procs sdispls sdispls_nrhs
                  ptr_i ptr_d in
    let recv_ibuf := alltoallv_i env send_ibuf SendCnt sdispls RecvCnt rdispls in
    let recv_dbuf :=
      alltoallv_d env send_dbuf SendCnt_nrhs sdispls_nrhs RecvCnt_nrhs rdispls_nrhs in
    let '(B, _) :=
      for_ 0 m_loc (X_to_B_unpack ldb fst_row nrhs recv_ibuf recv_dbuf) (B, 0) in
    Done {| filled := B; ibuf_ptr := ptr_i; dbuf_ptr := ptr_d;
            mpi_calls := [Alltoallv_int; Alltoallv_double]; returned := 0 |}.

End Redistribute.

(** * Properties of the redistribution *)

(** ** Stores in a loop: what a cell holds after the loop *)

(** A cell no iteration touches keeps its content. *)
Lemma for_frame {A} (body : Z -> array A -> array A) lo hi x c :
  (forall j y, lo <= j < hi -> body j y c = y c) ->
  for_ lo hi body x c = x c.
Proof.
  intros Hbody. destruct (Z_le_gt_dec lo hi) as [Hle|Hgt].
  - apply (for_inv (fun _ y => y c = x c)); [exact Hle | reflexivity |].
    intros j t Hj Ht. now rewrite Hbody.
  - rewrite for_empty by lia. reflexivity.
Qed.

(** A cell that iteration [j0] sets and no later iteration touches. *)
Lemma for_set {A} (body : Z -> array A -> array A) lo hi x c j0 v :
  lo <= j0 < hi ->
  (forall y, body j0 y c = v) ->
  (forall j y, j0 < j < hi -> body j y c = y c) ->
  for_ lo hi body x c = v.
Proof.
  intros Hj0 Hset Hlater.
  assert (H : hi <= j0 \/ for_ lo hi body x c = v).
  { apply (for_inv (fun j y => j <= j0 \/ y c = v)); [lia | left; lia |].
    intros j t Hj [Hlt | Hv].
    - destruct (Z.eq_dec j j0) as [->|Hne]; [right; apply Hset | left; lia].
    - destruct (Z_le_gt_dec j j0) as [Hle|Hgt].
      + destruct (Z.eq_dec j j0) as [->|Hne]; [right; apply Hset | left; lia].
      + right. rewrite Hlater by lia. exact Hv. }
  destruct H as [H|H]; [lia | exact H].
Qed.

(** ** The block layout of [x] *)

Section BlockLayout.
Variable XK_H : Z.
Variables (ilsum size : array Z) (nrhs nlb : Z).
Hypothesis header_len : 1 <= XK_H.
Hypothesis nrhs_nonneg : 0 <= nrhs.

(** The local blocks follow one another: [ilsum] is the running sum of their
    sizes. *)
Definition blocks_laid_out : Prop :=
  forall lk, 0 <= lk < nlb -> 0 <= size lk /\ ilsum lk + size lk <= ilsum (lk + 1).

Hypothesis laid_out : blocks_laid_out.

Lemma ilsum_chain_nat :
  forall (d : nat) a, 0 <= a -> a + 1 + Z.of_nat d <= nlb ->
    ilsum a + size a <= ilsum (a + 1 + Z.of_nat d).
Proof.
  induction d as [|d IH]; intros a Ha Hb.
  - replace (a + 1 + Z.of_nat 0) with (a + 1) by lia.
    apply laid_out. lia.
  - specialize (IH a Ha ltac:(lia)).
    destruct (laid_out (lk := a + 1 + Z.of_nat d)) as [Hs Hstep]; [lia|].
    replace (a + 1 + Z.of_nat (S d)) with (a + 1 + Z.of_nat d + 1) by lia.
    lia.
Qed.

Lemma ilsum_chain a b :
  0 <= a -> a < b -> b <= nlb -> ilsum a + size a <= ilsum b.
Proof.
  intros Ha Hab Hb.
  replace b with (a + 1 + Z.of_nat (Z.to_nat (b - a - 1))) by lia.
  apply ilsum_chain_nat; lia.
Qed.

(** The body of block [a] ends before the header of every later block. *)
Lemma body_before_header a b :
  0 <= a -> a < b -> b <= nlb ->
  X_BLK XK_H ilsum nrhs a + size a * nrhs <= X_BLK XK_H ilsum nrhs b - XK_H.
Proof.
  intros Ha Hab Hb. pose proof (ilsum_chain Ha Hab Hb) as Hc.
  unfold X_BLK. nia.
Qed.

(** A cell [rel + j * size] of the body of block [a]. *)
Lemma body_cell_bounds a rel j :
  0 <= rel < size a -> 0 <= j < nrhs ->
  X_BLK XK_H ilsum nrhs a <= X_BLK XK_H ilsum nrhs a + rel + j * size a
    < X_BLK XK_H ilsum nrhs a + size a * nrhs.
Proof. intros Hrel Hj. nia. Qed.

(** No header cell lies in the body of a block. *)
Lemma header_not_in_body a b rel j :
  0 <= a < nlb -> 0 <= b < nlb ->
  0 <= rel < size b -> 0 <= j < nrhs ->
  X_BLK XK_H ilsum nrhs a - XK_H <> X_BLK XK_H ilsum nrhs b + rel + j * size b.
Proof.
  intros Ha Hb Hrel Hj.
  pose proof (body_cell_bounds Hrel Hj) as Hcell.
  destruct (Z.lt_trichotomy a b) as [Hlt | [-> | Hgt]].
  - destruct (laid_out (lk := a)) as [Hs _]; [lia|].
    pose proof (@body_before_header a b ltac:(lia) Hlt ltac:(lia)). nia.
  - lia.
  - pose proof (@body_before_header b a ltac:(lia) Hgt ltac:(lia)). lia.
Qed.

(** Two body cells coincide only for the same block, row and column. *)
Lemma body_cells_distinct a b rel rel' j j' :
  0 <= a < nlb -> 0 <= b < nlb ->
  0 <= rel < size a -> 0 <= rel' < size b ->
  0 <= j < nrhs -> 0 <= j' < nrhs ->
  X_BLK XK_H ilsum nrhs a + rel + j * size a
    = X_BLK XK_H ilsum nrhs b + rel' + j' * size b ->
  a = b /\ rel = rel' /\ j = j'.
Proof.
  intros Ha Hb Hrel Hrel' Hj Hj' Heq.
  pose proof (body_cell_bounds Hrel Hj) as Hca.
  pose proof (body_cell_bounds Hrel' Hj') as Hcb.
  destruct (Z.lt_trichotomy a b) as [Hlt | [-> | Hgt]].
  - pose proof (@body_before_header a b ltac:(lia) Hlt ltac:(lia)). lia.
  - split; [reflexivity|].
    assert (j = j') by nia. subst j'. split; [lia | reflexivity].
  - pose proof (@body_before_header b a ltac:(lia) Hgt ltac:(lia)). lia.
Qed.

(** Distinct blocks have distinct header cells. *)
Lemma headers_distinct a b :
  0 <= a < nlb -> 0 <= b < nlb ->
  X_BLK XK_H ilsum nrhs a - XK_H = X_BLK XK_H ilsum nrhs b - XK_H -> a = b.
Proof.
  intros Ha Hb Heq.
  destruct (Z.lt_trichotomy a b) as [Hlt | [-> | Hgt]]; [|reflexivity|].
  - destruct (laid_out (lk := a)) as [Hs _]; [lia|].
    pose proof (@body_before_header a b ltac:(lia) Hlt ltac:(lia)). nia.
  - destruct (laid_out (lk := b)) as [Hs _]; [lia|].
    pose proof (@body_before_header b a ltac:(lia) Hgt ltac:(lia)). nia.
Qed.

(** A header cell lies outside the body of every block. *)
Lemma header_outside_bodies a b :
  0 <= a < nlb -> 0 <= b < nlb ->
  X_BLK XK_H ilsum nrhs a - XK_H < X_BLK XK_H ilsum nrhs b \/
  X_BLK XK_H ilsum nrhs b + size b * nrhs <= X_BLK XK_H ilsum nrhs a - XK_H.
Proof.
  intros Ha Hb.
  destruct (Z.lt_trichotomy a b) as [Hlt | [-> | Hgt]].
  - left. destruct (laid_out (lk := a)) as [Hs _]; [lia|].
    pose proof (@body_before_header a b ltac:(lia) Hlt ltac:(lia)). nia.
  - left. lia.
  - right. apply body_before_header; lia.
Qed.

End BlockLayout.

(** ** The single-process path of B to X *)

(** Row [i] of the local part of [B] is row [perm_c[perm_r[fst_row + i]]]
    of the permuted system. *)
Definition permuted_row (SP : ScalePermstruct_t) (fst_row i : Z) : Z :=
  perm_c SP (perm_r SP (i + fst_row)).

(** The number of supernodes, [supno[n-1] + 1]. *)
Definition nsupers_of (Glu : Glu_persist_t) (n : Z) : Z := supno Glu (n - 1) + 1.

(** The header cell of local block [lk] of [x]. *)
Definition X_header (XK_H : Z) (ilsum : array Z) (nrhs lk : Z) : Z :=
  X_BLK XK_H ilsum nrhs lk - XK_H.

(** The cell of [x] that receives [B[i + j*ldb]] when [procs == 1]. *)
Definition X_cell (XK_H : Z) (ilsum : array Z) (nrhs : Z) (Glu : Glu_persist_t)
    (SP : ScalePermstruct_t) (fst_row i j : Z) : Z :=
  let irow := permuted_row SP fst_row i in
  let k := BlockNum (supno Glu) irow in
  X_BLK XK_H ilsum nrhs k + (irow - FstBlockC (xsup Glu) k) + j * SuperSize (xsup Glu) k.

(** Every row below [n] lies in the supernode [supno] gives for it. *)
Definition supernodes_cover (Glu : Glu_persist_t) (n nsupers : Z) : Prop :=
  forall r, 0 <= r < n ->
    0 <= supno Glu r < nsupers /\
    xsup Glu (supno Glu r) <= r < xsup Glu (supno Glu r + 1).

(** What the single-process copy relies on: a one by one mesh, a header of at
    least one cell, local rows that the permutation sends to distinct rows
    below [n], and blocks of [x] laid out one after the other. *)
Record single_process_input (XK_H : Z) (grid : gridinfo_t) (Glu : Glu_persist_t)
    (SP : ScalePermstruct_t) (ilsum : array Z) (n m_loc nrhs fst_row : Z) : Prop := {
  sp_nprow : nprow grid = 1;
  sp_npcol : npcol grid = 1;
  sp_header : 1 <= XK_H;
  sp_nrhs : 0 <= nrhs;
  sp_rows : forall i, 0 <= i < m_loc -> 0 <= permuted_row SP fst_row i < n;
  sp_inj : forall i i', 0 <= i < m_loc -> 0 <= i' < m_loc ->
             permuted_row SP fst_row i = permuted_row SP fst_row i' -> i = i';
  sp_cover : supernodes_cover Glu n (nsupers_of Glu n);
  sp_layout : blocks_laid_out ilsum (SuperSize (xsup Glu)) (nsupers_of Glu n)
}.

Section SingleProcessBtoX.
Context {double : Type}.
Variable of_int : Z -> double.
Variable XK_H : Z.
Variables (grid : gridinfo_t) (Glu : Glu_persist_t) (SP : ScalePermstruct_t).
Variables (ilsum : array Z) (n m_loc nrhs ldb fst_row : Z).
Variable B : array double.
Hypothesis wf : single_process_input XK_H grid Glu SP ilsum n m_loc nrhs fst_row.

Let row := B_to_X_row of_int XK_H B nrhs ldb fst_row ilsum
             (perm_r SP) (perm_c SP) (xsup Glu) (supno Glu).
Let blk (i : Z) := BlockNum (supno Glu) (permuted_row SP fst_row i).
Let cell := X_cell XK_H ilsum nrhs Glu SP fst_row.
Let hdr := X_header XK_H ilsum nrhs.

(** The block of a local row, and the row's place in it. *)
Lemma row_block i :
  0 <= i < m_loc ->
  0 <= blk i < nsupers_of Glu n /\
  0 <= permuted_row SP fst_row i - FstBlockC (xsup Glu) (blk i)
    < SuperSize (xsup Glu) (blk i).
Proof.
  intros Hi. destruct (sp_cover wf (sp_rows wf Hi)) as [Hk Hr].
  unfold blk, BlockNum, FstBlockC, SuperSize. lia.
Qed.

Lemma cell_not_header i j k :
  0 <= i < m_loc -> 0 <= j < nrhs -> 0 <= k < nsupers_of Glu n -> hdr k <> cell i j.
Proof.
  intros Hi Hj Hk. destruct (row_block Hi) as [Hb Hrel].
  apply (header_not_in_body (sp_header wf) (sp_nrhs wf) (sp_layout wf)); assumption.
Qed.

(** Distinct rows have distinct value cells. *)
Lemma cells_distinct i i' j j' :
  0 <= i < m_loc -> 0 <= i' < m_loc -> 0 <= j < nrhs -> 0 <= j' < nrhs ->
  cell i j = cell i' j' -> i = i' /\ j = j'.
Proof.
  intros Hi Hi' Hj Hj' Heq.
  destruct (row_block Hi) as [Hb Hrel]. destruct (row_block Hi') as [Hb' Hrel'].
  destruct (body_cells_distinct (sp_header wf) (sp_nrhs wf) (sp_layout wf)
              Hb Hb' Hrel Hrel' Hj Hj' Heq) as (Hk & Hr & Hjj).
  split; [|exact Hjj].
  apply (sp_inj wf); try assumption.
  rewrite Hk in Hr. lia.
Qed.

(** The effect of one iteration of the row loop. *)
Lemma row_frame i y c :
  c <> hdr (blk i) -> (forall j, 0 <= j < nrhs -> c <> cell i j) -> row i y c = y c.
Proof.
  intros Hh Hc. unfold row, B_to_X_row. rewrite for_frame.
  - apply store_other. exact Hh.
  - intros j t Hj. apply store_other. apply (Hc j Hj).
Qed.

Lemma row_header i y :
  0 <= i < m_loc -> row i y (hdr (blk i)) = of_int (blk i).
Proof.
  intros Hi. unfold row, B_to_X_row. rewrite for_frame.
  - apply store_same.
  - intros j t Hj. apply store_other.
    apply (cell_not_header Hi Hj). apply (row_block Hi).
Qed.

Lemma row_data i j y :
  0 <= i < m_loc -> 0 <= j < nrhs -> row i y (cell i j) = B (i + j * ldb).
Proof.
  intros Hi Hj. unfold row, B_to_X_row.
  apply for_set with (j0 := j); [exact Hj | intros t; apply store_same |].
  intros j' t Hj'. apply store_other. intros Heq.
  destruct (@cells_distinct i i j j') as [_ Hjj]; try assumption; lia.
Qed.

(** After the loop over the local rows: every value in its cell, every
    header in place. *)
Lemma rows_copied x :
  let x' := for_ 0 m_loc row x in
  (forall i j, 0 <= i < m_loc -> 0 <= j < nrhs -> x' (cell i j) = B (i + j * ldb)) /\
  (forall i, 0 <= i < m_loc -> x' (hdr (blk i)) = of_int (blk i)).
Proof.
  intros x'. subst x'.
  destruct (Z_le_gt_dec 0 m_loc) as [Hle|Hgt]; [|split; intros; lia].
  apply (for_inv (fun m y =>
    (forall i j, 0 <= i < m -> 0 <= j < nrhs -> y (cell i j) = B (i + j * ldb)) /\
    (forall i, 0 <= i < m -> y (hdr (blk i)) = of_int (blk i)))); [exact Hle | split; intros; lia |].
  intros m y Hm [Hdata Hhdr]. split.
  - intros i j Hi Hj. destruct (Z.eq_dec i m) as [->|Hne].
    + apply row_data; assumption.
    + rewrite row_frame; [apply Hdata; lia | |].
      * intros Heq. symmetry in Heq. revert Heq.
        apply cell_not_header; [lia | exact Hj | apply (row_block Hm)].
      * intros j' Hj' Heq.
        destruct (@cells_distinct i m j j') as [Him _]; try assumption; lia.
  - intros i Hi. destruct (Z.eq_dec (blk i) (blk m)) as [Heq|Hne].
    + rewrite Heq. apply row_header. exact Hm.
    + assert (Him : i <> m) by (intros ->; apply Hne; reflexivity).
      rewrite row_frame; [apply Hhdr; lia | |].
      * intros Heq. apply Hne.
        apply (headers_distinct (sp_header wf) (sp_nrhs wf) (sp_layout wf));
          [apply (@row_block i); lia | apply (row_block Hm) | exact Heq].
      * intros j' Hj'. apply cell_not_header; [exact Hm | exact Hj' |].
        apply (@row_block i). lia.
Qed.

End SingleProcessBtoX.

(** ** The single-process path of X to B *)

(** What the single-process copy back relies on, besides
    [single_process_input]: [supno] names the only supernode whose column
    range holds a row, the rows of every supernode are local rows of [B], and
    a column of [B] has room for them. *)
Record single_process_output (Glu : Glu_persist_t) (n m_loc ldb fst_row : Z) : Prop := {
  so_unique : forall k r, 0 <= k < nsupers_of Glu n ->
                xsup Glu k <= r < xsup Glu (k + 1) -> supno Glu r = k;
  so_local : forall k, 0 <= k < nsupers_of Glu n ->
               fst_row <= xsup Glu k /\ xsup Glu (k + 1) <= fst_row + m_loc;
  so_ldb : m_loc <= ldb
}.

Lemma column_major_inj ldb a b j j' :
  0 <= a < ldb -> 0 <= b < ldb -> a + j * ldb = b + j' * ldb -> a = b /\ j = j'.
Proof.
  intros Ha Hb Heq.
  assert (j = j') by nia. subst j'. split; [lia | reflexivity].
Qed.

Section SingleProcessXtoB.
Context {double : Type}.
Variable XK_H : Z.
Variables (grid : gridinfo_t) (Glu : Glu_persist_t).
Variables (ilsum : array Z) (n m_loc nrhs ldb fst_row : Z).
Variable x : array double.
Hypothesis wf : single_process_output Glu n m_loc ldb fst_row.

Let block := X_to_B_block XK_H x ldb fst_row nrhs ilsum (xsup Glu) grid.
Let B_cell (k i j : Z) := FstBlockC (xsup Glu) k - fst_row + i + j * ldb.

Lemma B_cells_distinct k k' i i' j j' :
  0 <= k < nsupers_of Glu n -> 0 <= k' < nsupers_of Glu n ->
  0 <= i < SuperSize (xsup Glu) k -> 0 <= i' < SuperSize (xsup Glu) k' ->
  B_cell k i j = B_cell k' i' j' -> k = k' /\ i = i' /\ j = j'.
Proof.
  intros Hk Hk' Hi Hi' Heq. unfold B_cell, FstBlockC, SuperSize in *.
  destruct (so_local wf Hk) as [Hlo Hhi]. destruct (so_local wf Hk') as [Hlo' Hhi'].
  pose proof (so_ldb wf) as Hldb.
  destruct (@column_major_inj ldb (xsup Glu k - fst_row + i) (xsup Glu k' - fst_row + i') j j')
    as [Hrow Hj]; [lia | lia | lia |].
  assert (Hkk : k = k').
  { rewrite <- (so_unique wf Hk (r := xsup Glu k + i)) by lia.
    apply (so_unique wf Hk'). lia. }
  subst k'. repeat split; [lia | exact Hj].
Qed.

Lemma block_frame k y c :
  (forall i j, 0 <= i < SuperSize (xsup Glu) k -> 0 <= j < nrhs -> c <> B_cell k i j) ->
  block k y c = y c.
Proof.
  intros Hc. unfold block, X_to_B_block. apply for_frame.
  intros i t Hi. apply for_frame. intros j u Hj. apply store_other. now apply Hc.
Qed.

Lemma block_copies k i j y :
  0 <= k < nsupers_of Glu n -> 0 <= i < SuperSize (xsup Glu) k -> 0 <= j < nrhs ->
  block k y (B_cell k i j)
    = x (X_BLK XK_H ilsum nrhs (LBi k grid) + i + j * SuperSize (xsup Glu) k).
Proof.
  intros Hk Hi Hj. unfold block, X_to_B_block.
  apply for_set with (j0 := i); [exact Hi | |].
  - intros t. apply for_set with (j0 := j); [exact Hj | intros u; apply store_same |].
    intros j' u Hj'. apply store_other. intros Heq.
    destruct (@B_cells_distinct k k i i j j') as (_ & _ & Hjj); try assumption; lia.
  - intros i' t Hi'. apply for_frame. intros j' u Hj'. apply store_other. intros Heq.
    destruct (@B_cells_distinct k k i i' j j') as (_ & Hii & _); try assumption; lia.
Qed.

(** After the loop over the supernodes, the cell of row [xsup[k] + i] and
    column [j] holds the value [x] has for it. *)
Lemma blocks_copied B k i j :
  0 <= k < nsupers_of Glu n -> 0 <= i < SuperSize (xsup Glu) k -> 0 <= j < nrhs ->
  for_ 0 (nsupers_of Glu n) block B (B_cell k i j)
    = x (X_BLK XK_H ilsum nrhs (LBi k grid) + i + j * SuperSize (xsup Glu) k).
Proof.
  intros Hk Hi Hj.
  apply for_set with (j0 := k); [exact Hk | intros y; now apply block_copies |].
  intros k' y Hk'. apply block_frame. intros i' j' Hi' Hj' Heq.
  destruct (@B_cells_distinct k k' i i' j j') as (Hkk & _ & _); try assumption; lia.
Qed.

End SingleProcessXtoB.

(** ** The redistribution on one process *)

(** On one process, [pdReDistribute_X_to_B] after [pdReDistribute_B_to_X]
    puts every value [B[i + j*ldb]] in column [j] of the row
    [perm_c[perm_r[fst_row + i]]] of [B], and distinct rows go to distinct
    rows. *)
Lemma round_trip_on_one_process :
  forall (double : Type) (of_int : Z -> double) (XK_H : Z) (env : @environment double)
         (B : array double) (m_loc nrhs ldb fst_row : Z) (ilsum : array Z)
         (x : array double) (SP : ScalePermstruct_t) (Glu : Glu_persist_t)
         (grid : gridinfo_t) (SOLVE : SOLVEstruct_t) (n : Z),
    single_process_input XK_H grid Glu SP ilsum n m_loc nrhs fst_row ->
    single_process_output Glu n m_loc ldb fst_row ->
    exists r1 r2,
      pdReDistribute_B_to_X of_int XK_H env B m_loc nrhs ldb fst_row ilsum x
        SP Glu grid SOLVE = Done r1 /\
      pdReDistribute_X_to_B XK_H env n B m_loc ldb fst_row nrhs (filled r1) ilsum
        SP Glu grid SOLVE = Done r2 /\
      (forall i j, 0 <= i < m_loc -> 0 <= j < nrhs ->
         filled r2 (permuted_row SP fst_row i - fst_row + j * ldb) = B (i + j * ldb)) /\
      (forall i i', 0 <= i < m_loc -> 0 <= i' < m_loc ->
         permuted_row SP fst_row i = permuted_row SP fst_row i' -> i = i').
Proof.
  intros double of_int XK_H env B m_loc nrhs ldb fst_row ilsum x SP Glu grid SOLVE n wf wfo.
  unfold pdReDistribute_B_to_X, pdReDistribute_X_to_B.
  rewrite (sp_nprow wf), (sp_npcol wf). cbn [Z.mul Pos.mul Z.eqb Pos.eqb].
  eexists. eexists. split; [reflexivity|]. split; [reflexivity|]. cbn [filled].
  split; [|exact (sp_inj wf)].
  intros i j Hi Hj.
  destruct (rows_copied of_int ldb B wf x) as [Hdata _].
  destruct (sp_cover wf (sp_rows wf Hi)) as [Hk Hr].
  specialize (Hdata i j Hi Hj). unfold X_cell, BlockNum in Hdata.
  set (x' := for_ 0 m_loc _ x) in *.
  set (irow := permuted_row SP fst_row i) in *.
  set (k := supno Glu irow) in *.
  assert (Hrel : 0 <= irow - FstBlockC (xsup Glu) k < SuperSize (xsup Glu) k)
    by (unfold FstBlockC, SuperSize; lia).
  pose proof (blocks_copied XK_H grid ilsum x' wfo B Hk Hrel Hj) as Hback.
  cbv beta in Hback.
  replace (irow - fst_row + j * ldb)
    with (FstBlockC (xsup Glu) k - fst_row + (irow - FstBlockC (xsup Glu) k) + j * ldb)
    by lia.
  change (supno Glu (n - 1) + 1) with (nsupers_of Glu n).
  rewrite Hback. unfold LBi. rewrite (sp_nprow wf), Z.quot_1_r. exact Hdata.
Qed.

(** ** The receiving side of B to X *)

Lemma for_from_snoc {St} (body : Z -> St -> St) :
  forall n i s,
    for_from (S n) i body s = body (i + Z.of_nat n) (for_from n i body s).
Proof.
  induction n as [|n IH]; intros i s.
  - cbn. now replace (i + 0) with i by lia.
  - change (for_from (S (S n)) i body s) with (for_from (S n) (i + 1) body (body i s)).
    rewrite IH. cbn [for_from].
    now replace (i + 1 + Z.of_nat n) with (i + Z.of_nat (S n)) by lia.
Qed.

(** One more iteration. *)
Lemma for_snoc {St} (body : Z -> St -> St) lo hi s :
  lo <= hi -> for_ lo (hi + 1) body s = body hi (for_ lo hi body s).
Proof.
  intros Hle. unfold for_.
  replace (Z.to_nat (hi + 1 - lo)) with (S (Z.to_nat (hi - lo))) by lia.
  rewrite for_from_snoc. f_equal. lia.
Qed.

(** [for_frame] for a loop whose state holds the array. *)
Lemma for_frame_in {St A} (proj : St -> array A) (body : Z -> St -> St) lo hi s c :
  (forall j t, lo <= j < hi -> proj (body j t) c = proj t c) ->
  proj (for_ lo hi body s) c = proj s c.
Proof.
  intros Hbody. destruct (Z_le_gt_dec lo hi) as [Hle|Hgt].
  - apply (for_inv (fun _ t => proj t c = proj s c)); [exact Hle | reflexivity |].
    intros j t Hj Ht. now rewrite Hbody.
  - rewrite for_empty by lia. reflexivity.
Qed.

(** The size of the local block [lk] of the process row [myrow]. *)
Definition owned_size (grid : gridinfo_t) (Glu : Glu_persist_t) (myrow lk : Z) : Z :=
  SuperSize (xsup Glu) (myrow + lk * nprow grid).

(** The number of rows received: the sum of the counts [RecvCnt[p]]. *)
Definition received_rows (RecvCnt : array Z) (p : Z) : Z :=
  for_ 0 p (fun q acc => acc + Z.max 0 (RecvCnt q)) 0.

Lemma received_rows_snoc RecvCnt p :
  0 <= p -> received_rows RecvCnt (p + 1) = received_rows RecvCnt p + Z.max 0 (RecvCnt p).
Proof. intros Hp. unfold received_rows. now rewrite for_snoc. Qed.

Lemma received_rows_mono RecvCnt p q :
  0 <= p <= q -> 0 <= received_rows RecvCnt p <= received_rows RecvCnt q.
Proof.
  intros Hpq. split.
  - apply (for_inv (fun _ acc => 0 <= acc)); [lia | lia | intros; lia].
  - replace q with (p + Z.of_nat (Z.to_nat (q - p))) by lia.
    induction (Z.to_nat (q - p)) as [|d IH]; [now replace (p + Z.of_nat 0) with p by lia|].
    replace (p + Z.of_nat (S d)) with (p + Z.of_nat d + 1) by lia.
    rewrite received_rows_snoc by lia. lia.
Qed.

(** What the receiving side relies on: a header of at least one cell, local
    blocks laid out one after the other, and received rows that lie in
    supernodes of this process row. *)
Record receive_input (XK_H : Z) (grid : gridinfo_t) (Glu : Glu_persist_t)
    (ilsum : array Z) (nrhs myrow nlb procs : Z) (RecvCnt recv_ibuf : array Z) : Prop := {
  ri_header : 1 <= XK_H;
  ri_nrhs : 0 <= nrhs;
  ri_layout : blocks_laid_out ilsum (owned_size grid Glu myrow) nlb;
  ri_rows : forall t, 0 <= t < received_rows RecvCnt procs ->
      let r := recv_ibuf t in
      let k := supno Glu r in
      0 <= LBi k grid < nlb /\
      k = myrow + LBi k grid * nprow grid /\
      xsup Glu k <= r < xsup Glu (k + 1)
}.

Section ReceivingSide.
Context {double : Type}.
Variable of_int : Z -> double.
Variable XK_H : Z.
Variables (grid : gridinfo_t) (Glu : Glu_persist_t) (ilsum : array Z).
Variables (nrhs myrow nlb procs : Z) (RecvCnt rdispls_nrhs recv_ibuf : array Z).
Variable recv_dbuf : array double.
Hypothesis wf : receive_input XK_H grid Glu ilsum nrhs myrow nlb procs RecvCnt recv_ibuf.

Let scatter := B_to_X_scatter of_int XK_H nrhs ilsum (xsup Glu) (supno Glu) grid
                              recv_ibuf recv_dbuf.
Let blk (t : Z) := BlockNum (supno Glu) (recv_ibuf t).
Let hdr (t : Z) := X_header XK_H ilsum nrhs (LBi (blk t) grid).
Let x_of (st : array double * Z * Z) : array double := fst (fst st).
Let ii_of (st : array double * Z * Z) : Z := snd (fst st).

(** The headers of the blocks of the first [m] rows received are in place. *)
Let headers_in (x : array double) (m : Z) : Prop :=
  forall t, 0 <= t < m -> x (hdr t) = of_int (blk t).

Lemma received_block t :
  0 <= t < received_rows RecvCnt procs ->
  0 <= LBi (blk t) grid < nlb /\
  owned_size grid Glu myrow (LBi (blk t) grid) = SuperSize (xsup Glu) (blk t) /\
  0 <= recv_ibuf t - FstBlockC (xsup Glu) (blk t) < SuperSize (xsup Glu) (blk t).
Proof.
  intros Ht. destruct (ri_rows wf Ht) as (Hlk & Hk & Hr).
  unfold blk, BlockNum, owned_size, FstBlockC, SuperSize in *.
  rewrite <- Hk. lia.
Qed.

(** One received row: the counter advances, the header of its block is
    written, and no other header is touched. *)
Lemma scatter_row x ii jj :
  0 <= ii < received_rows RecvCnt procs ->
  ii_of (scatter (x, ii, jj)) = ii + 1 /\
  x_of (scatter (x, ii, jj)) (hdr ii) = of_int (blk ii) /\
  (forall t, 0 <= t < received_rows RecvCnt procs -> hdr t <> hdr ii ->
     x_of (scatter (x, ii, jj)) (hdr t) = x (hdr t)).
Proof.
  intros Hii. destruct (received_block Hii) as (Hlk & Hsize & Hrel).
  rewrite <- Hsize in Hrel.
  unfold scatter, B_to_X_scatter. cbv zeta. fold (blk ii).
  rewrite <- Hsize. unfold blk in Hsize, Hrel, Hlk |- *.
  set (k := BlockNum (supno Glu) (recv_ibuf ii)) in *.
  set (l := X_BLK XK_H ilsum nrhs (LBi k grid)).
  set (x1 := store x (l - XK_H) (of_int k)).
  set (rel := recv_ibuf ii - FstBlockC (xsup Glu) k) in *.
  set (body := fun (j : Z) (s : array double * Z) => _).
  set (knsupc := owned_size grid Glu myrow (LBi k grid)) in *.
  assert (Hframe : forall c, (forall j, 0 <= j < nrhs -> c <> l + rel + j * knsupc) ->
                   fst (for_ 0 nrhs body (x1, jj)) c = x1 c).
  { intros c Hc. rewrite (for_frame_in fst); [reflexivity|].
    intros j [y jy] Hj. subst body. cbn [fst]. apply store_other. now apply Hc. }
  assert (Hnot : forall t j, 0 <= t < received_rows RecvCnt procs -> 0 <= j < nrhs ->
                   hdr t <> l + rel + j * knsupc).
  { intros t j Ht Hj. destruct (received_block Ht) as (Hlk' & _ & _).
    unfold hdr, X_header. subst l.
    apply (header_not_in_body (ri_header wf) (ri_nrhs wf) (ri_layout wf)); assumption. }
  destruct (for_ 0 nrhs body (x1, jj)) as [x2 jj2] eqn:E.
  cbn [fst] in Hframe. unfold x_of, ii_of. cbn [fst snd].
  split; [reflexivity|]. split.
  - rewrite Hframe by (intros j Hj; now apply Hnot).
    subst x1. unfold hdr, X_header. fold k. fold l. apply store_same.
  - intros t Ht Hne. rewrite Hframe by (intros j Hj; now apply Hnot).
    subst x1. apply store_other. exact Hne.
Qed.

Lemma scatter_keeps_headers x ii jj :
  0 <= ii < received_rows RecvCnt procs ->
  headers_in x ii ->
  headers_in (x_of (scatter (x, ii, jj))) (ii + 1).
Proof.
  intros Hii Hx t Ht.
  destruct (scatter_row x jj Hii) as (_ & Hnew & Hold).
  destruct (Z.eq_dec (hdr t) (hdr ii)) as [Heq|Hne].
  - assert (Hblk : blk t = blk ii).
    { destruct (ri_rows wf (t := t)) as (Hlt & Hkt & _); [lia|].
      destruct (ri_rows wf Hii) as (Hli & Hki & _).
      assert (Hsame : LBi (blk t) grid = LBi (blk ii) grid).
      { apply (headers_distinct (ri_header wf) (ri_nrhs wf) (ri_layout wf));
          [exact Hlt | exact Hli | exact Heq]. }
      unfold blk, BlockNum in *. rewrite Hkt, Hki. now rewrite Hsame. }
    rewrite Heq, Hblk. exact Hnew.
  - assert (Hti : t <> ii) by (intros ->; apply Hne; reflexivity).
    rewrite Hold; [apply Hx | | exact Hne]; lia.
Qed.

(** The rows received from one process. *)
Lemma receive_from_one p x ii jj :
  0 <= ii ->
  ii + Z.max 0 (RecvCnt p) <= received_rows RecvCnt procs ->
  headers_in x ii ->
  let st := for_ 0 (RecvCnt p) (fun _ => scatter) (x, ii, jj) in
  ii_of st = ii + Z.max 0 (RecvCnt p) /\ headers_in (x_of st) (ii_of st).
Proof.
  intros Hii Hroom Hx st. subst st.
  destruct (Z_le_gt_dec 0 (RecvCnt p)) as [Hle|Hgt].
  - replace (Z.max 0 (RecvCnt p)) with (RecvCnt p) in * by lia.
    apply (for_inv (fun i st => ii_of st = ii + i /\ headers_in (x_of st) (ii_of st)));
      [exact Hle | split; [cbn; lia | exact Hx] |].
    intros i [[y iy] jy] Hi [Hcount Hy]. unfold ii_of, x_of in Hcount, Hy.
    cbn [fst snd] in Hcount, Hy. subst iy.
    assert (Hrow : 0 <= ii + i < received_rows RecvCnt procs) by lia.
    destruct (scatter_row y jy Hrow) as (Hnext & _ & _).
    split; [rewrite Hnext; lia|].
    rewrite Hnext. now apply scatter_keeps_headers.
  - rewrite for_empty by lia. unfold ii_of, x_of. cbn [fst snd].
    split; [lia | exact Hx].
Qed.

(** After the receiving loops, the header of the block of every received row
    holds the number of its supernode. *)
Lemma received_headers x :
  let st := B_to_X_receive of_int XK_H nrhs ilsum (xsup Glu) (supno Glu) grid procs
                           RecvCnt rdispls_nrhs recv_ibuf recv_dbuf x in
  forall t, 0 <= t < received_rows RecvCnt procs ->
    x_of st (X_header XK_H ilsum nrhs (LBi (BlockNum (supno Glu) (recv_ibuf t)) grid))
      = of_int (BlockNum (supno Glu) (recv_ibuf t)).
Proof.
  intros st. subst st. unfold B_to_X_receive.
  destruct (Z_le_gt_dec 0 procs) as [Hle|Hgt].
  - assert (H : let st := for_ 0 procs
                   (fun p '(x, ii, _) =>
                      for_ 0 (RecvCnt p) (fun _ => scatter) (x, ii, rdispls_nrhs p))
                   (x, 0, 0) in
                 ii_of st = received_rows RecvCnt procs /\ headers_in (x_of st) (ii_of st)).
    { apply (for_inv (fun p st => ii_of st = received_rows RecvCnt p /\
                                  headers_in (x_of st) (ii_of st)));
        [exact Hle | split; [reflexivity | intros t Ht; cbn in Ht; lia] |].
      intros p [[y iy] jy] Hp [Hcount Hy]. unfold ii_of, x_of in Hcount, Hy.
      cbn [fst snd] in Hcount, Hy.
      rewrite received_rows_snoc by lia.
      pose proof (@received_rows_mono RecvCnt p procs ltac:(lia)) as Hmono1.
      pose proof (@received_rows_mono RecvCnt (p + 1) procs ltac:(lia)) as Hmono2.
      rewrite received_rows_snoc in Hmono2 by lia.
      rewrite <- Hcount in *.
      apply receive_from_one; [lia | lia | exact Hy]. }
    cbv zeta in H. destruct H as [Hcount Hall]. intros t Ht.
    apply Hall. rewrite Hcount. exact Ht.
  - intros t Ht. unfold received_rows in Ht. rewrite for_empty in Ht by lia. lia.
Qed.

End ReceivingSide.

(** ** Writes that keep the headers *)

Section BlockWrites.
Context {double : Type}.
Variable XK_H : Z.
Variables (ilsum size : array Z) (nrhs nlb : Z).
Hypothesis header_len : 1 <= XK_H.
Hypothesis nrhs_nonneg : 0 <= nrhs.
Hypothesis laid_out : blocks_laid_out ilsum size nlb.

(** [x'] differs from [x] only inside the body of the local block [lk]. *)
Definition writes_block (lk : Z) (x x' : array double) : Prop :=
  forall c,
    c < X_BLK XK_H ilsum nrhs lk \/ X_BLK XK_H ilsum nrhs lk + size lk * nrhs <= c ->
    x' c = x c.

(** A sequence of writes, each inside the body of a local block. *)
Inductive block_writes : array double -> array double -> Prop :=
| no_write x : block_writes x x
| write_then x x' x'' lk :
    0 <= lk < nlb -> writes_block lk x x' -> block_writes x' x'' -> block_writes x x''.

(** Such writes leave every header cell as it is. *)
Lemma block_writes_keep_header x x' lk :
  0 <= lk < nlb -> block_writes x x' ->
  x' (X_header XK_H ilsum nrhs lk) = x (X_header XK_H ilsum nrhs lk).
Proof.
  intros Hlk Hw. induction Hw as [x | x x' x'' lk' Hlk' Hw1 Hw IH]; [reflexivity|].
  rewrite IH. apply Hw1. unfold X_header.
  apply (header_outside_bodies header_len nrhs_nonneg laid_out); assumption.
Qed.

End BlockWrites.

(** ** Return values *)

Section ReturnValues.
Context {double : Type}.
Variable of_int : Z -> double.
Variable XK_H : Z.
Variable env : @environment double.
Variables (B x : array double) (n m_loc nrhs ldb fst_row : Z) (ilsum : array Z).
Variables (SP : ScalePermstruct_t) (Glu : Glu_persist_t) (grid : gridinfo_t).
Variable SOLVE : SOLVEstruct_t.

Lemma B_to_X_returns_0 r :
  pdReDistribute_B_to_X of_int XK_H env B m_loc nrhs ldb fst_row ilsum x
    SP Glu grid SOLVE = Done r ->
  returned r = 0.
Proof.
  unfold pdReDistribute_B_to_X.
  destruct (nprow grid * npcol grid =? 1).
  - intros H. injection H as <-. reflexivity.
  - repeat match goal with
           | |- context [can_alloc env ?sz] => destruct (can_alloc env sz); cbn [negb]
           end; try discriminate.
    repeat match goal with
           | |- context [let '(_, _) := ?t in _] => destruct t
           end.
    intros H. injection H as <-. reflexivity.
Qed.

Lemma X_to_B_returns_0 r :
  pdReDistribute_X_to_B XK_H env n B m_loc ldb fst_row nrhs x ilsum
    SP Glu grid SOLVE = Done r ->
  returned r = 0.
Proof.
  unfold pdReDistribute_X_to_B.
  destruct (nprow grid * npcol grid =? 1).
  - intros H. injection H as <-. reflexivity.
  - repeat match goal with
           | |- context [can_alloc env ?sz] => destruct (can_alloc env sz); cbn [negb]
           end; try discriminate.
    repeat match goal with
           | |- context [let '(_, _) := ?t in _] => destruct t
           end.
    intros H. injection H as <-. reflexivity.
Qed.

(** With enough memory the redistribution to [x] does not abort. *)
Lemma B_to_X_done :
  (forall size, can_alloc env size = true) ->
  exists r,
    pdReDistribute_B_to_X of_int XK_H env B m_loc nrhs ldb fst_row ilsum x
      SP Glu grid SOLVE = Done r.
Proof.
  intros Hmem. unfold pdReDistribute_B_to_X.
  destruct (nprow grid * npcol grid =? 1); [eexists; reflexivity|].
  rewrite !Hmem. cbn [negb].
  repeat match goal with
         | |- context [let '(_, _) := ?t in _] => destruct t
         end.
  eexists; reflexivity.
Qed.

End ReturnValues.

(** * The redistribution between processes *)

(** ** Loops as folds over the values of their counter *)

Fixpoint counter_from (n : nat) (i : Z) : list Z :=
  match n with
  | O => []
  | S n' => i :: counter_from n' (i + 1)
  end.

(** The values [lo], [lo + 1], ... below [hi]. *)
Definition counter (lo hi : Z) : list Z := counter_from (Z.to_nat (hi - lo)) lo.

Lemma for_from_fold {St} (body : Z -> St -> St) :
  forall n i s, for_from n i body s = fold_left (fun s i => body i s) (counter_from n i) s.
Proof. induction n as [|n IH]; intros i s; [reflexivity | cbn; apply IH]. Qed.

Lemma for_fold {St} (body : Z -> St -> St) lo hi s :
  for_ lo hi body s = fold_left (fun s i => body i s) (counter lo hi) s.
Proof. apply for_from_fold. Qed.

Lemma in_counter_from : forall n i k, In k (counter_from n i) <-> i <= k < i + Z.of_nat n.
Proof.
  induction n as [|n IH]; intros i k.
  - cbn. lia.
  - cbn [counter_from In]. rewrite IH. lia.
Qed.

Lemma in_counter lo hi k : In k (counter lo hi) <-> lo <= k < hi.
Proof. unfold counter. rewrite in_counter_from. lia. Qed.

(** The values [lo], [lo + step], ... below [hi]. *)
Fixpoint step_counter_from (n : nat) (i step : Z) : list Z :=
  match n with
  | O => []
  | S n' => i :: step_counter_from n' (i + step) step
  end.

Definition step_counter (lo hi step : Z) : list Z :=
  step_counter_from (Z.to_nat ((hi - lo + step - 1) / step)) lo step.

Lemma for_step_from_fold {St} (body : Z -> St -> St) step :
  forall n i s,
    for_step_from n i step body s
      = fold_left (fun s i => body i s) (step_counter_from n i step) s.
Proof. induction n as [|n IH]; intros i s; [reflexivity | cbn; apply IH]. Qed.

Lemma for_step_fold {St} (body : Z -> St -> St) lo hi step s :
  for_step lo hi step body s = fold_left (fun s i => body i s) (step_counter lo hi step) s.
Proof. apply for_step_from_fold. Qed.

Lemma in_step_counter_from step :
  forall n i k,
    In k (step_counter_from n i step) <-> exists t, 0 <= t < Z.of_nat n /\ k = i + t * step.
Proof.
  induction n as [|n IH]; intros i k.
  - cbn. split; [tauto | intros (t & Ht & _); lia].
  - cbn [step_counter_from In]. rewrite IH. split.
    + intros [<- | (t & Ht & ->)]; [exists 0; lia | exists (t + 1); lia].
    + intros (t & Ht & ->). destruct (Z.eq_dec t 0) as [->|Hne]; [left; lia|].
      right. exists (t - 1). lia.
Qed.

(** With a positive step, the values are those below [hi] that lie a
    multiple of the step above [lo]. *)
Lemma in_step_counter lo hi step k :
  0 < step ->
  In k (step_counter lo hi step) <-> lo <= k < hi /\ (k - lo) mod step = 0.
Proof.
  intros Hstep. unfold step_counter. rewrite in_step_counter_from. split.
  - intros (t & Ht & ->).
    assert (Hq : 0 <= t < (hi - lo + step - 1) / step) by lia.
    assert (Hm : step * ((hi - lo + step - 1) / step) <= hi - lo + step - 1)
      by (apply Z.mul_div_le; lia).
    split; [nia|].
    replace (lo + t * step - lo) with (t * step) by lia. apply Z_mod_mult.
  - intros [Hk Hmod]. exists ((k - lo) / step).
    assert (Hdiv : k - lo = step * ((k - lo) / step))
      by (rewrite (Z.div_mod (k - lo) step) at 1 by lia; lia).
    split; [|lia].
    assert (0 <= (k - lo) / step) by (apply Z.div_pos; lia).
    assert ((k - lo) / step < (hi - lo + step - 1) / step).
    { apply Z.div_lt_upper_bound; [lia|].
      assert (Hm : hi - lo + step - 1 < step * ((hi - lo + step - 1) / step) + step).
      { pose proof (Z.mod_pos_bound (hi - lo + step - 1) step Hstep).
        rewrite (Z.div_mod (hi - lo + step - 1) step) at 1 by lia. lia. }
      nia. }
    lia.
Qed.

(** ** The copy loops *)

(** [for (j = 0; j < nrhs; ++j) buf[k++] = v(j)]: the values of a row go to
    consecutive cells of a buffer. *)
Lemma copy_out {A} (v : Z -> A) nrhs (buf0 : array A) k0 :
  0 <= nrhs ->
  let r := for_ 0 nrhs (fun j '(buf, k) => (store buf k (v j), k + 1)) (buf0, k0) in
  snd r = k0 + nrhs /\
  (forall j, 0 <= j < nrhs -> fst r (k0 + j) = v j) /\
  (forall c, c < k0 \/ k0 + nrhs <= c -> fst r c = buf0 c).
Proof.
  intros Hn r. subst r.
  apply (for_inv (fun m (st : array A * Z) =>
    snd st = k0 + m /\
    (forall j, 0 <= j < m -> fst st (k0 + j) = v j) /\
    (forall c, c < k0 \/ k0 + m <= c -> fst st c = buf0 c))).
  - exact Hn.
  - cbn [fst snd]. repeat split; [lia | intros; lia].
  - intros m [buf k] Hm (Hk & Hin & Hout). cbn [fst snd] in *. subst k.
    repeat split; [lia | |].
    + intros j Hj. destruct (Z.eq_dec j m) as [->|Hne]; [apply store_same|].
      rewrite store_other by lia. apply Hin. lia.
    + intros c Hc. rewrite store_other by lia. apply Hout. lia.
Qed.

(** [for (j = 0; j < nrhs; ++j) x[base + j*stride] = src[jj++]]: consecutive
    cells of a buffer go to a row of a column-major array. *)
Lemma copy_in {A} (src : array A) base stride nrhs (x0 : array A) jj0 :
  0 <= nrhs -> stride <> 0 ->
  let r := for_ 0 nrhs (fun j '(x, jj) => (store x (base + j * stride) (src jj), jj + 1))
                (x0, jj0) in
  snd r = jj0 + nrhs /\
  (forall j, 0 <= j < nrhs -> fst r (base + j * stride) = src (jj0 + j)) /\
  (forall c, (forall j, 0 <= j < nrhs -> c <> base + j * stride) -> fst r c = x0 c).
Proof.
  intros Hn Hs r. subst r.
  apply (for_inv (fun m (st : array A * Z) =>
    snd st = jj0 + m /\
    (forall j, 0 <= j < m -> fst st (base + j * stride) = src (jj0 + j)) /\
    (forall c, (forall j, 0 <= j < m -> c <> base + j * stride) -> fst st c = x0 c))).
  - exact Hn.
  - cbn [fst snd]. repeat split; [lia | intros; lia].
  - intros m [x jj] Hm (Hk & Hin & Hout). cbn [fst snd] in *. subst jj.
    repeat split; [lia | |].
    + intros j Hj. destruct (Z.eq_dec j m) as [->|Hne]; [apply store_same|].
      rewrite store_other by nia. apply Hin. lia.
    + intros c Hc. rewrite store_other by (apply Hc; lia). apply Hout.
      intros j Hj. apply Hc. lia.
Qed.

(** ** Packing rows into the send buffers

    Both redistributions pack their rows in the same way: the row index
    goes to [send_ibuf] at the pointer of the destination, the [nrhs] values
    to [send_dbuf], and both pointers advance.  An item is a row to pack:
    [dest] is its destination, [key] its row index, [val] its values. *)

Definition buffers (double : Type) : Type :=
  (array Z * array double * array Z * array Z)%type.

Section Packing.
Context {double item : Type}.
Variable nrhs : Z.
Variables (dest key : item -> Z) (val : item -> Z -> double).
(** The number of processes and the displacements of the segments. *)
Variables (P : Z) (start : array Z).

Definition pack_item (it : item) (st : buffers double) : buffers double :=
  let '(send_ibuf, send_dbuf, ptr_i, ptr_d) := st in
  let p := dest it in
  let send_ibuf := store send_ibuf (ptr_i p) (key it) in
  let '(send_dbuf, _) :=
    for_ 0 nrhs (fun j '(buf, k) => (store buf k (val it j), k + 1))
         (send_dbuf, ptr_d p) in
  (send_ibuf, send_dbuf, store ptr_i p (ptr_i p + 1), store ptr_d p (ptr_d p + nrhs)).

Definition pack (l : list item) (st : buffers double) : buffers double :=
  fold_left (fun st it => pack_item it st) l st.

(** The number of items of [l] that go to process [d]. *)
Fixpoint sent_to (l : list item) (d : Z) : Z :=
  match l with
  | [] => 0
  | it :: l' => (if dest it =? d then 1 else 0) + sent_to l' d
  end.

Lemma sent_to_app l l' d : sent_to (l ++ l') d = sent_to l d + sent_to l' d.
Proof. induction l as [|a l IH]; cbn [app sent_to]; [reflexivity | rewrite IH; lia]. Qed.

Lemma sent_to_nonneg l d : 0 <= sent_to l d.
Proof. induction l as [|a l IH]; cbn [sent_to]; [lia | destruct (dest a =? d); lia]. Qed.

(** Slot [t] of the segment of process [d] holds the item [it]. *)
Definition holds (st : buffers double) (d t : Z) (it : item) : Prop :=
  let '(send_ibuf, send_dbuf, _, _) := st in
  send_ibuf (start d + t) = key it /\
  forall j, 0 <= j < nrhs -> send_dbuf ((start d + t) * nrhs + j) = val it j.

(** The buffers after the items of [l] were packed: the pointers stand
    after the slots filled, every slot filled holds an item of [l] for its
    process, and every item of [l] is in a slot. *)
Definition packed (l : list item) (st : buffers double) : Prop :=
  (forall d, 0 <= d < P ->
     snd (fst st) d = start d + sent_to l d /\
     snd st d = (start d + sent_to l d) * nrhs) /\
  (forall d t, 0 <= d < P -> 0 <= t < sent_to l d ->
     exists it, In it l /\ dest it = d /\ holds st d t it) /\
  (forall it, In it l ->
     exists t, 0 <= t < sent_to l (dest it) /\ holds st (dest it) t it).

Hypothesis nrhs_nonneg : 0 <= nrhs.

(** Packing an item leaves the other slots as they are. *)
Lemma pack_item_keeps a st d t it :
  snd (fst st) (dest a) <> start d + t ->
  snd st (dest a) = snd (fst st) (dest a) * nrhs ->
  holds st d t it -> holds (pack_item a st) d t it.
Proof.
  destruct st as [[[ib db] pi] pd]. cbn [fst snd]. intros Hne Hpd [Hi Hd].
  unfold pack_item.
  pose proof (@copy_out double (val a) nrhs db (pd (dest a)) nrhs_nonneg) as Hcopy.
  cbv zeta in Hcopy.
  destruct (for_ 0 nrhs _ (db, pd (dest a))) as [db' k']. cbn [fst snd] in Hcopy.
  destruct Hcopy as (_ & _ & Hout). unfold holds. split.
  - rewrite store_other by (intros Heq; apply Hne; symmetry; exact Heq). exact Hi.
  - intros j Hj. rewrite Hout; [apply Hd; exact Hj|].
    rewrite Hpd. nia.
Qed.

(** Packing an item fills the slot at the pointer of its destination. *)
Lemma pack_item_fills a st t :
  snd (fst st) (dest a) = start (dest a) + t ->
  snd st (dest a) = snd (fst st) (dest a) * nrhs ->
  holds (pack_item a st) (dest a) t a.
Proof.
  destruct st as [[[ib db] pi] pd]. cbn [fst snd]. intros Hpi Hpd.
  unfold pack_item.
  pose proof (@copy_out double (val a) nrhs db (pd (dest a)) nrhs_nonneg) as Hcopy.
  cbv zeta in Hcopy.
  destruct (for_ 0 nrhs _ (db, pd (dest a))) as [db' k']. cbn [fst snd] in Hcopy.
  destruct Hcopy as (_ & Hin & _). unfold holds. split.
  - rewrite Hpi. apply store_same.
  - intros j Hj. rewrite <- Hpi, <- Hpd. apply Hin. exact Hj.
Qed.

Lemma pack_item_pointers a st :
  snd (fst (pack_item a st)) = store (snd (fst st)) (dest a) (snd (fst st) (dest a) + 1) /\
  snd (pack_item a st) = store (snd st) (dest a) (snd st (dest a) + nrhs).
Proof.
  destruct st as [[[ib db] pi] pd]. unfold pack_item.
  destruct (for_ 0 nrhs _ (db, pd (dest a))) as [db' k']. cbn [fst snd]. split; reflexivity.
Qed.

(** The segments do not overlap: that of [d] ends before that of every later
    process starts, when it holds [room d] slots. *)
Variable room : Z -> Z.
Hypothesis segments : forall d d', 0 <= d -> d < d' -> d' < P -> start d + room d <= start d'.

Lemma pack_item_packed l a st :
  (forall it, In it l -> 0 <= dest it < P) ->
  0 <= dest a < P ->
  (forall d, 0 <= d < P -> sent_to (l ++ [a]) d <= room d) ->
  packed l st -> packed (l ++ [a]) (pack_item a st).
Proof.
  intros Hl Hda Hroom (Hptr & Hslots & Hitems).
  destruct (Hptr (dest a) Hda) as [Hpi Hpd].
  assert (Hpd' : snd st (dest a) = snd (fst st) (dest a) * nrhs) by (rewrite Hpi, Hpd; lia).
  assert (Hsnoc : forall d, sent_to (l ++ [a]) d
                            = sent_to l d + (if dest a =? d then 1 else 0)).
  { intros d. rewrite sent_to_app. cbn [sent_to]. lia. }
  (* an old slot is another slot than the one filled now *)
  assert (Hother : forall d t, 0 <= d < P -> 0 <= t < sent_to l d ->
                     snd (fst st) (dest a) <> start d + t).
  { intros d t Hd Ht. rewrite Hpi.
    pose proof (sent_to_nonneg l (dest a)) as Hc.
    pose proof (Hroom d Hd) as Hrd. pose proof (Hroom (dest a) Hda) as Hra.
    rewrite Hsnoc in Hrd, Hra. rewrite Z.eqb_refl in Hra.
    destruct (Z.lt_trichotomy d (dest a)) as [Hlt | [Heq | Hgt]].
    - pose proof (@segments d (dest a) ltac:(lia) Hlt ltac:(lia)).
      destruct (dest a =? d); lia.
    - subst d. lia.
    - pose proof (@segments (dest a) d ltac:(lia) Hgt ltac:(lia)). lia. }
  destruct (pack_item_pointers a st) as [Epi Epd].
  split; [|split].
  - intros d Hd. rewrite Epi, Epd, Hsnoc. destruct (Hptr d Hd) as [Hi Hdd].
    destruct (Z.eqb_spec (dest a) d) as [<-|Hne].
    + rewrite !store_same. lia.
    + rewrite !store_other by (intros Heq; apply Hne; symmetry; exact Heq). lia.
  - intros d t Hd Ht. rewrite Hsnoc in Ht.
    destruct (Z_lt_ge_dec t (sent_to l d)) as [Hold|Hnew].
    + destruct (Hslots d t Hd ltac:(lia)) as (it & Hin & Hdest & Hh).
      exists it. split; [apply in_or_app; left; exact Hin|]. split; [exact Hdest|].
      apply pack_item_keeps; [apply Hother; [exact Hd | lia] | exact Hpd' | exact Hh].
    + destruct (Z.eqb_spec (dest a) d) as [<-|Hne]; [|lia].
      assert (t = sent_to l (dest a)) by lia. subst t.
      exists a. split; [apply in_or_app; right; left; reflexivity|].
      split; [reflexivity|]. apply pack_item_fills; assumption.
  - intros it Hin. apply in_app_or in Hin. destruct Hin as [Hin | [<- | []]].
    + destruct (Hitems it Hin) as (t & Ht & Hh).
      pose proof (Hl it Hin) as Hd.
      exists t. rewrite Hsnoc. split; [destruct (dest a =? dest it); lia|].
      apply pack_item_keeps; [apply Hother; [exact Hd | exact Ht] | exact Hpd' | exact Hh].
    + exists (sent_to l (dest a)). rewrite Hsnoc, Z.eqb_refl.
      pose proof (sent_to_nonneg l (dest a)).
      split; [lia|]. apply pack_item_fills; assumption.
Qed.

(** All the items packed, from pointers at the displacements. *)
Lemma pack_packed l st0 :
  (forall it, In it l -> 0 <= dest it < P) ->
  (forall d, 0 <= d < P -> sent_to l d <= room d) ->
  (forall d, 0 <= d < P -> snd (fst st0) d = start d /\ snd st0 d = start d * nrhs) ->
  packed l (pack l st0).
Proof.
  intros Hl Hroom Hstart.
  assert (Hprefix : forall l1 l2, l = l1 ++ l2 -> packed l1 (pack l1 st0)).
  { induction l1 as [|a l1 IH] using rev_ind; intros l2 El.
    - cbn [pack fold_left]. split; [|split].
      + intros d Hd. cbn [sent_to]. destruct (Hstart d Hd) as [Hi Hdd].
        split; [etransitivity; [exact Hi | lia] | etransitivity; [exact Hdd | lia]].
      + intros d t _ Ht. cbn [sent_to] in Ht. lia.
      + intros it [].
    - unfold pack. rewrite fold_left_app. cbn [fold_left]. fold (pack l1 st0).
      rewrite <- app_assoc in El. cbn [app] in El.
      apply pack_item_packed.
      + intros it Hin. apply Hl. rewrite El. apply in_or_app. left. exact Hin.
      + apply Hl. rewrite El. apply in_or_app. right. left. reflexivity.
      + intros d Hd. specialize (Hroom d Hd). rewrite El in Hroom.
        rewrite sent_to_app in Hroom. cbn [sent_to] in Hroom.
        rewrite sent_to_app. cbn [sent_to].
        pose proof (sent_to_nonneg l2 d). lia.
      + apply (IH (a :: l2)). exact El. }
  apply (Hprefix l []). now rewrite app_nil_r.
Qed.

End Packing.

(** ** MPI_Alltoallv between the processes *)

(** [MPI_Alltoallv] as the MPI standard defines it: block [p] of the receive
    buffer of process [q], [RecvCnt[p]] cells at [rdispls[p]], is block [q]
    of the send buffer of process [p], which starts at [sdispls[q]] there.
    [send p] and [sdispls p] are the send buffer and the send displacements
    of process [p]; [recv] is what the receive buffer held. *)
Definition alltoallv {A} (procs : Z) (send : Z -> array A) (sdispls : Z -> array Z)
    (q : Z) (RecvCnt rdispls : array Z) (recv : array A) : array A :=
  for_ 0 procs
    (fun p recv =>
       for_ 0 (RecvCnt p)
         (fun t recv => store recv (rdispls p + t) (send p (sdispls p q + t))) recv)
    recv.

Lemma alltoallv_block {A} procs (send : Z -> array A) sdispls q RecvCnt rdispls recv p t :
  (forall a b, 0 <= a -> a < b -> b < procs -> rdispls a + RecvCnt a <= rdispls b) ->
  0 <= p < procs -> 0 <= t < RecvCnt p ->
  alltoallv procs send sdispls q RecvCnt rdispls recv (rdispls p + t)
    = send p (sdispls p q + t).
Proof.
  intros Hseg Hp Ht. unfold alltoallv.
  apply for_set with (j0 := p); [exact Hp | |].
  - intros y. apply for_set with (j0 := t); [exact Ht | intros u; apply store_same |].
    intros t' u Ht'. apply store_other. lia.
  - intros p' y Hp'. apply for_frame. intros t' u Ht'. apply store_other.
    pose proof (@Hseg p p' ltac:(lia) ltac:(lia) ltac:(lia)). lia.
Qed.

(** The counts are not negative and the displacements are their running
    sums, as [pxgstrs_init] sets them: the blocks follow one another from
    cell 0. *)
Definition contiguous (cnt displs : array Z) (procs : Z) : Prop :=
  forall p, 0 <= p < procs -> 0 <= cnt p /\ displs p = received_rows cnt p.

Lemma contiguous_segments cnt displs procs a b :
  contiguous cnt displs procs ->
  0 <= a -> a < b -> b < procs -> displs a + cnt a <= displs b.
Proof.
  intros Hc Ha Hab Hb.
  destruct (Hc a ltac:(lia)) as [Hcnt ->]. destruct (Hc b ltac:(lia)) as [_ ->].
  pose proof (@received_rows_snoc cnt a Ha) as Hs.
  pose proof (@received_rows_mono cnt (a + 1) b ltac:(lia)). lia.
Qed.

(** A cell below the total belongs to the block of one process. *)
Lemma block_of_cell cnt procs s :
  0 <= s < received_rows cnt procs ->
  exists p t, 0 <= p < procs /\ 0 <= t < cnt p /\ s = received_rows cnt p + t.
Proof.
  destruct (Z_le_gt_dec procs 0) as [Hle|Hgt].
  - unfold received_rows. rewrite for_empty by lia. lia.
  - replace procs with (Z.of_nat (Z.to_nat procs)) by lia.
    induction (Z.to_nat procs) as [|m IH]; intros Hs.
    + unfold received_rows in Hs. rewrite for_empty in Hs by lia. lia.
    + replace (Z.of_nat (S m)) with (Z.of_nat m + 1) in * by lia.
      rewrite received_rows_snoc in Hs by lia.
      destruct (Z_lt_ge_dec s (received_rows cnt (Z.of_nat m))) as [Hold|Hnew].
      * destruct (IH ltac:(lia)) as (p & t & Hp & Ht & Es).
        exists p, t. repeat split; try lia.
      * exists (Z.of_nat m), (s - received_rows cnt (Z.of_nat m)).
        repeat split; lia.
Qed.

(** ** Helpers on folds and on the pointers *)

Lemma fold_left_ext {St A} (f g : St -> A -> St) l :
  (forall s a, In a l -> f s a = g s a) ->
  forall s, fold_left f l s = fold_left g l s.
Proof.
  induction l as [|a l IH]; intros Hfg s; [reflexivity|].
  cbn [fold_left]. rewrite Hfg by (left; reflexivity).
  apply IH. intros s' a' Hin. apply Hfg. right. exact Hin.
Qed.

Lemma fold_left_flat_map {St A C} (f : St -> C -> St) (g : A -> list C) l :
  forall s, fold_left f (flat_map g l) s = fold_left (fun s a => fold_left f (g a) s) l s.
Proof.
  induction l as [|a l IH]; intros s; [reflexivity|].
  cbn [flat_map fold_left]. rewrite fold_left_app. apply IH.
Qed.

(** [for (p = 0; p < procs; ++p) { a[p] = f(p); b[p] = g(p); }]. *)
Lemma pointers_set (f g : Z -> Z) procs (a0 b0 : array Z) :
  let r := for_ 0 procs (fun p '(a, b) => (store a p (f p), store b p (g p))) (a0, b0) in
  forall d, 0 <= d < procs -> fst r d = f d /\ snd r d = g d.
Proof.
  intros r d Hd. subst r.
  assert (H : procs <= d \/
              (fst (for_ 0 procs (fun p '(a, b) => (store a p (f p), store b p (g p)))
                         (a0, b0)) d = f d /\
               snd (for_ 0 procs (fun p '(a, b) => (store a p (f p), store b p (g p)))
                         (a0, b0)) d = g d)).
  { apply (for_inv (fun m (st : array Z * array Z) =>
                      m <= d \/ (fst st d = f d /\ snd st d = g d))); [lia | left; lia |].
    intros m [a b] Hm [Hle | [Ha Hb]]; cbn [fst snd] in *.
    - destruct (Z.eq_dec m d) as [->|Hne]; [right; now rewrite !store_same | left; lia].
    - right. destruct (Z.eq_dec d m) as [->|Hne]; [now rewrite !store_same|].
      now rewrite !store_other. }
  destruct H as [H|H]; [lia | exact H].
Qed.

(** ** The sending side of B to X *)

(** The diagonal process of a supernode is a process of the mesh. *)
Lemma diagonal_process_range (grid : gridinfo_t) k :
  0 < nprow grid -> 0 < npcol grid -> 0 <= k ->
  0 <= PNUM (PROW k grid) (PCOL k grid) grid < nprow grid * npcol grid.
Proof.
  intros Hr Hc Hk. unfold PNUM, PROW, PCOL.
  pose proof (Z.rem_bound_pos k (nprow grid) Hk Hr).
  pose proof (Z.rem_bound_pos k (npcol grid) Hk Hc). nia.
Qed.

Section PackingBtoX.
Context {double : Type}.
Variables (B : array double) (m_loc nrhs ldb fst_row : Z).
Variables (SP : ScalePermstruct_t) (Glu : Glu_persist_t) (grid : gridinfo_t).

(** Local row [i] as the packing loop sees it: its row in the permuted
    system, the diagonal process of its supernode, and its values. *)
Definition B_to_X_key (i : Z) : Z := perm_c SP (perm_r SP (fst_row + i)).

Definition B_to_X_dest (i : Z) : Z :=
  let gbi := BlockNum (supno Glu) (B_to_X_key i) in
  PNUM (PROW gbi grid) (PCOL gbi grid) grid.

Definition B_to_X_val (i j : Z) : double := B (i + j * ldb).

Lemma B_to_X_key_row i : B_to_X_key i = permuted_row SP fst_row i.
Proof. unfold B_to_X_key, permuted_row. now rewrite Z.add_comm. Qed.

Lemma B_to_X_pack_item i st :
  B_to_X_pack B nrhs ldb fst_row (perm_r SP) (perm_c SP) (supno Glu) grid i st
    = pack_item nrhs B_to_X_dest B_to_X_key B_to_X_val i st.
Proof. destruct st as [[[ib db] pi] pd]. reflexivity. Qed.

Variables (procs : Z) (SendCnt sdispls : array Z).
Hypothesis nrhs_nonneg : 0 <= nrhs.
Hypothesis dest_range : forall i, 0 <= i < m_loc -> 0 <= B_to_X_dest i < procs.
Hypothesis displacements : contiguous SendCnt sdispls procs.
Hypothesis counted :
  forall d, 0 <= d < procs -> SendCnt d = sent_to B_to_X_dest (counter 0 m_loc) d.

(** The send buffers of a process hold its local rows, each in the segment
    of the diagonal process of its supernode. *)
Lemma B_to_X_send_packed heap_i heap_d ptr_i ptr_d :
  packed nrhs B_to_X_dest B_to_X_key B_to_X_val procs sdispls (counter 0 m_loc)
    (B_to_X_send heap_i heap_d B m_loc nrhs ldb fst_row (perm_r SP) (perm_c SP)
                 (supno Glu) grid procs sdispls ptr_i ptr_d).
Proof.
  unfold B_to_X_send.
  pose proof (@pointers_set sdispls (fun p => sdispls p * nrhs) procs ptr_i ptr_d) as Hptr.
  cbv zeta in Hptr.
  destruct (for_ 0 procs _ (ptr_i, ptr_d)) as [pi pd]. cbn [fst snd] in Hptr.
  rewrite for_fold.
  rewrite (fold_left_ext _ (fun st it => pack_item nrhs B_to_X_dest B_to_X_key B_to_X_val it st))
    by (intros s a _; apply B_to_X_pack_item).
  apply (@pack_packed double Z nrhs B_to_X_dest B_to_X_key B_to_X_val procs sdispls
           nrhs_nonneg SendCnt).
  - intros d d' Hd Hdd Hd'. now apply (contiguous_segments displacements).
  - intros it Hin. apply dest_range. now apply in_counter.
  - intros d Hd. rewrite (counted Hd). lia.
  - intros d Hd. cbn [fst snd]. apply Hptr. exact Hd.
Qed.

End PackingBtoX.

(** ** The values on the receiving side of B to X *)

(** The cell of [x] for column [j] of row [r] of the permuted system, on
    the diagonal process of the supernode of [r]. *)
Definition received_cell (XK_H : Z) (ilsum : array Z) (nrhs : Z) (Glu : Glu_persist_t)
    (grid : gridinfo_t) (r j : Z) : Z :=
  let k := BlockNum (supno Glu) r in
  X_BLK XK_H ilsum nrhs (LBi k grid) + (r - FstBlockC (xsup Glu) k)
    + j * SuperSize (xsup Glu) k.

Section ScatteringSide.
Context {double : Type}.
Variable of_int : Z -> double.
Variable XK_H : Z.
Variables (grid : gridinfo_t) (Glu : Glu_persist_t) (ilsum : array Z).
Variables (nrhs myrow nlb procs : Z) (RecvCnt rdispls_nrhs recv_ibuf : array Z).
Variable recv_dbuf : array double.
Hypothesis wf : receive_input XK_H grid Glu ilsum nrhs myrow nlb procs RecvCnt recv_ibuf.

(** The values of row [s] of the receive buffer start at cell [s * nrhs]:
    the blocks of values follow one another as the blocks of rows do. *)
Hypothesis value_blocks :
  forall p, 0 <= p < procs -> rdispls_nrhs p = received_rows RecvCnt p * nrhs.

(** A row received twice brings the same values. *)
Hypothesis consistent :
  forall s s' j, 0 <= s < received_rows RecvCnt procs ->
    0 <= s' < received_rows RecvCnt procs -> 0 <= j < nrhs ->
    recv_ibuf s = recv_ibuf s' -> recv_dbuf (s * nrhs + j) = recv_dbuf (s' * nrhs + j).

Let scatter := B_to_X_scatter of_int XK_H nrhs ilsum (xsup Glu) (supno Glu) grid
                              recv_ibuf recv_dbuf.
Let cell := received_cell XK_H ilsum nrhs Glu grid.
Let total := received_rows RecvCnt procs.

(** The values of the first [m] rows received are in their cells. *)
Let values_in (x : array double) (m : Z) : Prop :=
  forall s j, 0 <= s < m -> 0 <= j < nrhs -> x (cell (recv_ibuf s) j) = recv_dbuf (s * nrhs + j).

Lemma received_cells_distinct s s' j j' :
  0 <= s < total -> 0 <= s' < total -> 0 <= j < nrhs -> 0 <= j' < nrhs ->
  cell (recv_ibuf s) j = cell (recv_ibuf s') j' -> recv_ibuf s = recv_ibuf s' /\ j = j'.
Proof.
  intros Hs Hs' Hj Hj' Heq.
  destruct (received_block wf Hs) as (Hlk & Hsize & Hrel).
  destruct (received_block wf Hs') as (Hlk' & Hsize' & Hrel').
  destruct (ri_rows wf Hs) as (_ & Hk & _). destruct (ri_rows wf Hs') as (_ & Hk' & _).
  unfold cell, received_cell in Heq. cbv zeta in Heq.
  rewrite <- Hsize, <- Hsize' in Heq. rewrite <- Hsize in Hrel. rewrite <- Hsize' in Hrel'.
  destruct (body_cells_distinct (ri_header wf) (ri_nrhs wf) (ri_layout wf)
              Hlk Hlk' Hrel Hrel' Hj Hj' Heq) as (Hb & Hr & Hjj).
  split; [|exact Hjj].
  cbv zeta in Hk, Hk'. unfold BlockNum, FstBlockC in *.
  assert (Hkk : supno Glu (recv_ibuf s) = supno Glu (recv_ibuf s')).
  { rewrite Hk, Hk'. now rewrite Hb. }
  rewrite Hkk in Hr. lia.
Qed.

(** One received row, its values starting at cell [ii * nrhs] of the
    buffer. *)
Lemma scatter_values x ii :
  0 <= ii < total ->
  values_in x ii ->
  let st := scatter (x, ii, ii * nrhs) in
  snd (fst st) = ii + 1 /\ snd st = (ii + 1) * nrhs /\ values_in (fst (fst st)) (ii + 1).
Proof.
  intros Hii Hx st. subst st.
  destruct (received_block wf Hii) as (Hlk & Hsize & Hrel).
  unfold scatter, B_to_X_scatter. cbv zeta.
  set (k := BlockNum (supno Glu) (recv_ibuf ii)) in *.
  set (l := X_BLK XK_H ilsum nrhs (LBi k grid)).
  set (x1 := store x (l - XK_H) (of_int k)).
  set (rel := recv_ibuf ii - FstBlockC (xsup Glu) k) in *.
  set (knsupc := SuperSize (xsup Glu) k) in *.
  pose proof (@copy_in double recv_dbuf (l + rel) knsupc nrhs x1 (ii * nrhs)
                (ri_nrhs wf) ltac:(lia)) as Hcopy.
  cbv zeta in Hcopy.
  destruct (for_ 0 nrhs _ (x1, ii * nrhs)) as [x2 jj2]. cbn [fst snd] in Hcopy |- *.
  destruct Hcopy as (Hjj & Hin & Hout).
  split; [reflexivity|]. split; [lia|].
  assert (Hcell : forall j, cell (recv_ibuf ii) j = l + rel + j * knsupc) by reflexivity.
  intros s j Hs Hj.
  destruct (Z.eq_dec s ii) as [->|Hne].
  - rewrite Hcell. rewrite Hin by exact Hj. reflexivity.
  - destruct (Z.eq_dec (recv_ibuf s) (recv_ibuf ii)) as [Hsame|Hdiff].
    + rewrite Hsame, Hcell. rewrite Hin by exact Hj.
      symmetry. apply consistent; [unfold total in *; lia | exact Hii | exact Hj | exact Hsame].
    + rewrite Hout.
      * subst x1. rewrite store_other; [apply Hx; [lia | exact Hj]|].
        intros Heq. symmetry in Heq. revert Heq.
        destruct (@received_block _ _ _ _ _ _ _ _ _ _ wf s ltac:(unfold total in *; lia))
          as (Hlks & Hsizes & Hrels).
        unfold cell, received_cell. cbv zeta. rewrite <- Hsizes in Hrels |- *.
        apply (header_not_in_body (ri_header wf) (ri_nrhs wf) (ri_layout wf));
          [exact Hlk | exact Hlks | exact Hrels | exact Hj].
      * intros j' Hj' Heq. rewrite <- Hcell in Heq.
        destruct (@received_cells_distinct s ii j j') as [Hkey _]; try assumption.
        -- unfold total in *; lia.
        -- contradiction.
Qed.

(** The rows received from one process. *)
Lemma scatter_from_one p x ii :
  0 <= ii -> ii + Z.max 0 (RecvCnt p) <= total ->
  values_in x ii ->
  let st := for_ 0 (RecvCnt p) (fun _ => scatter) (x, ii, ii * nrhs) in
  snd (fst st) = ii + Z.max 0 (RecvCnt p) /\ values_in (fst (fst st)) (snd (fst st)).
Proof.
  intros Hii Hroom Hx st. subst st.
  destruct (Z_le_gt_dec 0 (RecvCnt p)) as [Hle|Hgt].
  - replace (Z.max 0 (RecvCnt p)) with (RecvCnt p) in * by lia.
    assert (H : let st := for_ 0 (RecvCnt p) (fun _ => scatter) (x, ii, ii * nrhs) in
                snd (fst st) = ii + RecvCnt p /\ snd st = snd (fst st) * nrhs /\
                values_in (fst (fst st)) (snd (fst st))).
    { apply (for_inv (fun i (st : array double * Z * Z) =>
               snd (fst st) = ii + i /\ snd st = snd (fst st) * nrhs /\
               values_in (fst (fst st)) (snd (fst st))));
        [exact Hle | cbn [fst snd]; repeat split; [lia | exact Hx] |].
      intros i [[y iy] jy] Hi (Hcount & Hjj & Hy). cbn [fst snd] in Hcount, Hjj, Hy.
      subst iy jy.
      destruct (@scatter_values y (ii + i) ltac:(lia) Hy) as (Hnext & Hjj' & Hy').
      split; [rewrite Hnext; lia|]. split; [rewrite Hjj', Hnext; reflexivity|].
      rewrite Hnext. exact Hy'. }
    cbv zeta in H. destruct H as (Hcount & _ & Hy). split; assumption.
  - rewrite for_empty by lia. cbn [fst snd]. split; [lia | exact Hx].
Qed.

(** After the receiving loops every value received is in the cell of its
    row and column. *)
Lemma received_values x :
  let st := B_to_X_receive of_int XK_H nrhs ilsum (xsup Glu) (supno Glu) grid procs
                           RecvCnt rdispls_nrhs recv_ibuf recv_dbuf x in
  forall s j, 0 <= s < total -> 0 <= j < nrhs ->
    fst (fst st) (cell (recv_ibuf s) j) = recv_dbuf (s * nrhs + j).
Proof.
  intros st. subst st. unfold B_to_X_receive.
  destruct (Z_le_gt_dec 0 procs) as [Hle|Hgt].
  - assert (H : let st := for_ 0 procs
                   (fun p '(x, ii, _) =>
                      for_ 0 (RecvCnt p) (fun _ => scatter) (x, ii, rdispls_nrhs p))
                   (x, 0, 0) in
                 snd (fst st) = total /\ values_in (fst (fst st)) (snd (fst st))).
    { apply (for_inv (fun p (st : array double * Z * Z) =>
               snd (fst st) = received_rows RecvCnt p /\
               values_in (fst (fst st)) (snd (fst st))));
        [exact Hle | split; [reflexivity | intros s j Hs; cbn in Hs; lia] |].
      intros p [[y iy] jy] Hp [Hcount Hy]. cbn [fst snd] in Hcount, Hy.
      rewrite received_rows_snoc by lia.
      pose proof (@received_rows_mono RecvCnt p procs ltac:(lia)) as Hmono1.
      pose proof (@received_rows_mono RecvCnt (p + 1) procs ltac:(lia)) as Hmono2.
      rewrite received_rows_snoc in Hmono2 by lia.
      rewrite (value_blocks Hp). rewrite <- Hcount in *.
      apply scatter_from_one; [lia | unfold total; lia | exact Hy]. }
    cbv zeta in H. destruct H as [Hcount Hall]. intros s j Hs Hj.
    apply Hall; [rewrite Hcount; exact Hs | exact Hj].
  - intros s j Hs. unfold total, received_rows in Hs. rewrite for_empty in Hs by lia. lia.
Qed.

End ScatteringSide.

(** ** The sending side of X to B *)

Lemma fold_left_map_items {St A C} (f : St -> C -> St) (g : A -> C) l :
  forall s, fold_left f (map g l) s = fold_left (fun s a => f s (g a)) l s.
Proof. induction l as [|a l IH]; intros s; [reflexivity | cbn; apply IH]. Qed.

Section PackingXtoB.
Context {double : Type}.
Variable XK_H : Z.
Variables (x : array double) (nrhs : Z) (ilsum : array Z) (Glu : Glu_persist_t).
Variables (grid : gridinfo_t) (row_to_proc : array Z).
Variables (nsupers num_diag_procs : Z) (diag_procs : array Z).

(** Row [i] of supernode [k] as the packing loop sees it: its row in the
    permuted system, the process that holds that row of [B], and its
    values in [x]. *)
Definition X_to_B_key (it : Z * Z) : Z :=
  let '(k, i) := it in FstBlockC (xsup Glu) k + i.

Definition X_to_B_dest (it : Z * Z) : Z := row_to_proc (X_to_B_key it).

Definition X_to_B_val (it : Z * Z) (j : Z) : double :=
  let '(k, i) := it in
  x (X_BLK XK_H ilsum nrhs (LBi k grid) + i + j * SuperSize (xsup Glu) k).

(** The rows of supernode [k]. *)
Definition rows_of (k : Z) : list (Z * Z) :=
  map (fun i => (k, i)) (counter 0 (SuperSize (xsup Glu) k)).

(** The rows that the process packs, in the order of its loops: for every
    entry [p] of [diag_procs] that names it, the supernodes [p],
    [p + num_diag_procs], ... *)
Definition X_to_B_items : list (Z * Z) :=
  flat_map (fun p => if iam grid =? diag_procs p
                     then flat_map rows_of (step_counter p nsupers num_diag_procs)
                     else [])
           (counter 0 num_diag_procs).

Let item := pack_item nrhs X_to_B_dest X_to_B_key X_to_B_val.

Lemma X_to_B_pack_rows k st :
  X_to_B_pack XK_H x nrhs ilsum (xsup Glu) grid row_to_proc k st
    = fold_left (fun st it => item it st) (rows_of k) st.
Proof.
  unfold X_to_B_pack, rows_of. cbv zeta. rewrite for_fold, fold_left_map_items.
  apply fold_left_ext. intros [[[ib db] pi] pd] i _. reflexivity.
Qed.

Lemma in_rows_of k it :
  In it (rows_of k) <-> fst it = k /\ 0 <= snd it < SuperSize (xsup Glu) k.
Proof.
  unfold rows_of. rewrite in_map_iff. split.
  - intros (i & <- & Hi). apply in_counter in Hi. cbn [fst snd]. split; [reflexivity | exact Hi].
  - intros [Hk Hi]. exists (snd it). split; [destruct it; cbn [fst snd] in *; now subst|].
    now apply in_counter.
Qed.

(** The rows packed are those of the supernodes whose entry of [diag_procs]
    names the process. *)
Lemma in_X_to_B_items it :
  0 < num_diag_procs ->
  In it X_to_B_items <->
  0 <= fst it < nsupers /\ iam grid = diag_procs (fst it mod num_diag_procs) /\
  0 <= snd it < SuperSize (xsup Glu) (fst it).
Proof.
  intros Hndp. unfold X_to_B_items. rewrite in_flat_map. split.
  - intros (p & Hp & Hin). apply in_counter in Hp.
    destruct (Z.eqb_spec (iam grid) (diag_procs p)) as [Hiam|Hne]; [|destruct Hin].
    apply in_flat_map in Hin. destruct Hin as (k & Hk & Hrow).
    apply in_step_counter in Hk; [|exact Hndp]. destruct Hk as [Hk Hmod].
    apply in_rows_of in Hrow. destruct Hrow as [Hfst Hsnd]. rewrite Hfst.
    assert (Hkp : k mod num_diag_procs = p).
    { replace k with (p + (k - p)) by lia.
      rewrite Z.add_mod by lia. rewrite Hmod, Z.add_0_r, Z.mod_mod by lia.
      apply Z.mod_small. lia. }
    rewrite Hkp. repeat split; try lia; assumption.
  - intros (Hk & Hiam & Hi).
    pose proof (Z.mod_pos_bound (fst it) num_diag_procs Hndp) as Hp.
    exists (fst it mod num_diag_procs). split; [apply in_counter; lia|].
    rewrite Hiam, Z.eqb_refl. apply in_flat_map. exists (fst it). split.
    + apply in_step_counter; [exact Hndp|].
      pose proof (Z.mod_le (fst it) num_diag_procs ltac:(lia) Hndp).
      split; [lia|].
      rewrite Zminus_mod, Z.mod_mod, Z.sub_diag by lia. reflexivity.
    + apply in_rows_of. split; [reflexivity | exact Hi].
Qed.

Variables (procs : Z) (SendCnt sdispls sdispls_nrhs : array Z).
Hypothesis nrhs_nonneg : 0 <= nrhs.
Hypothesis dest_range : forall it, In it X_to_B_items -> 0 <= X_to_B_dest it < procs.
Hypothesis displacements : contiguous SendCnt sdispls procs.
Hypothesis value_displacements :
  forall d, 0 <= d < procs -> sdispls_nrhs d = sdispls d * nrhs.
Hypothesis counted :
  forall d, 0 <= d < procs -> SendCnt d = sent_to X_to_B_dest X_to_B_items d.

(** The send buffers of a process hold the rows of its supernodes, each in
    the segment of the process that holds that row of [B]. *)
Lemma X_to_B_send_packed heap_i heap_d ptr_i ptr_d :
  packed nrhs X_to_B_dest X_to_B_key X_to_B_val procs sdispls X_to_B_items
    (X_to_B_send XK_H heap_i heap_d x nrhs ilsum (xsup Glu) grid row_to_proc
                 nsupers procs num_diag_procs diag_procs sdispls sdispls_nrhs
                 ptr_i ptr_d).
Proof.
  unfold X_to_B_send. cbv zeta.
  pose proof (@pointers_set sdispls sdispls_nrhs procs ptr_i ptr_d) as Hptr.
  cbv zeta in Hptr.
  destruct (for_ 0 procs _ (ptr_i, ptr_d)) as [pi pd]. cbn [fst snd] in Hptr.
  rewrite for_fold.
  rewrite (fold_left_ext _
             (fun st p => fold_left (fun st it => item it st)
                            (if iam grid =? diag_procs p
                             then flat_map rows_of (step_counter p nsupers num_diag_procs)
                             else []) st)).
  - rewrite <- fold_left_flat_map. fold X_to_B_items.
    apply (@pack_packed double (Z * Z) nrhs X_to_B_dest X_to_B_key X_to_B_val procs sdispls
             nrhs_nonneg SendCnt).
    + intros d d' Hd Hdd Hd'. now apply (contiguous_segments displacements).
    + exact dest_range.
    + intros d Hd. rewrite (counted Hd). lia.
    + intros d Hd. cbn [fst snd]. destruct (Hptr d Hd) as [Hi Hv].
      split; [exact Hi | rewrite Hv; now apply value_displacements].
  - intros st p _. destruct (iam grid =? diag_procs p); [|reflexivity].
    rewrite for_step_fold, fold_left_flat_map.
    apply fold_left_ext. intros s k _. apply X_to_B_pack_rows.
Qed.

End PackingXtoB.

(** ** The receiving side of X to B *)

Section UnpackingSide.
Context {double : Type}.
Variables (ldb fst_row nrhs m_loc : Z) (recv_ibuf : array Z) (recv_dbuf : array double).
Hypothesis nrhs_nonneg : 0 <= nrhs.

(** The rows received are local rows. *)
Hypothesis local_rows : forall s, 0 <= s < m_loc -> 0 <= recv_ibuf s - fst_row < ldb.

(** A row received twice brings the same values. *)
Hypothesis consistent :
  forall s s' j, 0 <= s < m_loc -> 0 <= s' < m_loc -> 0 <= j < nrhs ->
    recv_ibuf s = recv_ibuf s' -> recv_dbuf (s * nrhs + j) = recv_dbuf (s' * nrhs + j).

Let unpack := X_to_B_unpack ldb fst_row nrhs recv_ibuf recv_dbuf.

(** After the loop every value received is in the cell of its row and
    column of [B]. *)
Lemma unpacked_values B :
  forall s j, 0 <= s < m_loc -> 0 <= j < nrhs ->
    fst (for_ 0 m_loc unpack (B, 0)) (recv_ibuf s - fst_row + j * ldb)
      = recv_dbuf (s * nrhs + j).
Proof.
  destruct (Z_le_gt_dec 0 m_loc) as [Hle|Hgt]; [|intros; lia].
  assert (H : let st := for_ 0 m_loc unpack (B, 0) in
              snd st = m_loc * nrhs /\
              forall s j, 0 <= s < m_loc -> 0 <= j < nrhs ->
                fst st (recv_ibuf s - fst_row + j * ldb) = recv_dbuf (s * nrhs + j)).
  { apply (for_inv (fun m (st : array double * Z) =>
             snd st = m * nrhs /\
             forall s j, 0 <= s < m -> 0 <= j < nrhs ->
               fst st (recv_ibuf s - fst_row + j * ldb) = recv_dbuf (s * nrhs + j)));
      [exact Hle | cbn [fst snd]; split; [lia | intros; lia] |].
    intros m [y k] Hm [Hk Hy]. cbn [fst snd] in Hk, Hy. subst k.
    unfold unpack, X_to_B_unpack. cbv zeta.
    pose proof (local_rows Hm) as Hrow.
    pose proof (@copy_in double recv_dbuf (recv_ibuf m - fst_row) ldb nrhs y (m * nrhs)
                  nrhs_nonneg ltac:(lia)) as Hcopy.
    cbv zeta in Hcopy.
    destruct (for_ 0 nrhs _ (y, m * nrhs)) as [y' k']. cbn [fst snd] in Hcopy |- *.
    destruct Hcopy as (Hjj & Hin & Hout).
    split; [lia|]. intros s j Hs Hj.
    destruct (Z.eq_dec s m) as [->|Hne]; [now apply Hin|].
    destruct (Z.eq_dec (recv_ibuf s) (recv_ibuf m)) as [Hsame|Hdiff].
    - rewrite Hsame, Hin by exact Hj. symmetry. apply consistent; lia.
    - rewrite Hout; [apply Hy; lia|].
      intros j' Hj' Heq. pose proof (@local_rows s ltac:(lia)) as Hrow'.
      destruct (@column_major_inj ldb _ _ _ _ Hrow' Hrow Heq) as [Hr _]. lia. }
  cbv zeta in H. exact (proj2 H).
Qed.

End UnpackingSide.

(** ** From the send buffers of all processes to a receive buffer *)

Lemma for_ext {St} (f g : Z -> St -> St) lo hi s :
  (forall i t, lo <= i < hi -> f i t = g i t) -> for_ lo hi f s = for_ lo hi g s.
Proof.
  intros Hfg. rewrite !for_fold. apply fold_left_ext.
  intros t i Hi. apply Hfg. now apply in_counter.
Qed.

(** The exchange reads the send buffers and displacements of the processes
    of the mesh only. *)
Lemma alltoallv_ext {A} procs (send send' : Z -> array A) sdispls sdispls' q
    RecvCnt rdispls recv :
  (forall p, 0 <= p < procs -> send p = send' p /\ sdispls p = sdispls' p) ->
  alltoallv procs send sdispls q RecvCnt rdispls recv
    = alltoallv procs send' sdispls' q RecvCnt rdispls recv.
Proof.
  intros Hsame. unfold alltoallv. apply for_ext. intros p y Hp.
  destruct (Hsame p Hp) as [-> ->]. reflexivity.
Qed.

(** The eight arrays that the routines find in [B_to_X_SendCnt] and in
    [X_to_B_SendCnt], [procs] cells each. *)
Record exchange_plan := {
  e_SendCnt : array Z;
  e_SendCnt_nrhs : array Z;
  e_RecvCnt : array Z;
  e_RecvCnt_nrhs : array Z;
  e_sdispls : array Z;
  e_sdispls_nrhs : array Z;
  e_rdispls : array Z;
  e_rdispls_nrhs : array Z
}.

Definition plan_of (cnt : array Z) (procs : Z) : exchange_plan :=
  {| e_SendCnt := cnt;
     e_SendCnt_nrhs := shift cnt procs;
     e_RecvCnt := shift cnt (2 * procs);
     e_RecvCnt_nrhs := shift cnt (3 * procs);
     e_sdispls := shift cnt (4 * procs);
     e_sdispls_nrhs := shift cnt (5 * procs);
     e_rdispls := shift cnt (6 * procs);
     e_rdispls_nrhs := shift cnt (7 * procs) |}.

Section Exchange.
Context {double item : Type}.
Variables (procs nrhs : Z).
(** Of every process: its plan, its send buffers, and the rows it packs. *)
Variable plan : Z -> exchange_plan.
Variable sent : Z -> buffers double.
Variable items : Z -> list item.
Variables (dest key : Z -> item -> Z) (val : Z -> item -> Z -> double).
(** The receiving process and what its receive buffers held. *)
Variables (q : Z) (heap_i : array Z) (heap_d : array double).

Definition received_i : array Z :=
  alltoallv procs (fun p => fst (fst (fst (sent p)))) (fun p => e_sdispls (plan p)) q
            (e_RecvCnt (plan q)) (e_rdispls (plan q)) heap_i.

Definition received_d : array double :=
  alltoallv procs (fun p => snd (fst (fst (sent p)))) (fun p => e_sdispls_nrhs (plan p)) q
            (e_RecvCnt_nrhs (plan q)) (e_rdispls_nrhs (plan q)) heap_d.

Hypothesis nrhs_nonneg : 0 <= nrhs.
Hypothesis packed_all :
  forall p, 0 <= p < procs ->
    packed nrhs (dest p) (key p) (val p) procs (e_sdispls (plan p)) (items p) (sent p).
Hypothesis send_values :
  forall p d, 0 <= p < procs -> 0 <= d < procs ->
    e_sdispls_nrhs (plan p) d = e_sdispls (plan p) d * nrhs.
Hypothesis receive_blocks : contiguous (e_RecvCnt (plan q)) (e_rdispls (plan q)) procs.
Hypothesis receive_values :
  forall p, 0 <= p < procs ->
    e_RecvCnt_nrhs (plan q) p = e_RecvCnt (plan q) p * nrhs /\
    e_rdispls_nrhs (plan q) p = e_rdispls (plan q) p * nrhs.
(** As many rows are received from [p] as [p] packs for [q]. *)
Hypothesis matched :
  forall p, 0 <= p < procs -> e_RecvCnt (plan q) p = sent_to (dest p) (items p) q.
Hypothesis receiver : 0 <= q < procs.

Let total := received_rows (e_RecvCnt (plan q)) procs.

(** Row [s] of the receive buffers holds the item [it] of process [p]. *)
Definition delivered (s p : Z) (it : item) : Prop :=
  received_i s = key p it /\
  forall j, 0 <= j < nrhs -> received_d (s * nrhs + j) = val p it j.

(** Slot [t] of the block received from [p] is slot [t] of the segment of
    [q] in the send buffers of [p]. *)
Lemma slot_received p t it :
  0 <= p < procs -> 0 <= t < e_RecvCnt (plan q) p ->
  holds nrhs (key p) (val p) (e_sdispls (plan p)) (sent p) q t it ->
  delivered (e_rdispls (plan q) p + t) p it.
Proof.
  intros Hp Ht Hh. unfold holds in Hh.
  destruct (sent p) as [[[ib db] pi] pd] eqn:Esent. destruct Hh as [Hkey Hval].
  split.
  - unfold received_i.
    rewrite alltoallv_block;
      [| intros a b Ha Hab Hb; now apply (contiguous_segments receive_blocks)
       | exact Hp | exact Ht].
    rewrite Esent. exact Hkey.
  - intros j Hj. unfold received_d.
    destruct (receive_values Hp) as [Hcnt Hdis].
    replace ((e_rdispls (plan q) p + t) * nrhs + j)
      with (e_rdispls_nrhs (plan q) p + (t * nrhs + j)) by (rewrite Hdis; lia).
    rewrite alltoallv_block.
    + rewrite Esent. cbn [fst snd]. rewrite (send_values Hp receiver).
      replace (e_sdispls (plan p) q * nrhs + (t * nrhs + j))
        with ((e_sdispls (plan p) q + t) * nrhs + j) by lia.
      apply Hval. exact Hj.
    + intros a b Ha Hab Hb.
      destruct (@receive_values a ltac:(lia)) as [-> ->].
      destruct (@receive_values b ltac:(lia)) as [_ ->].
      pose proof (@contiguous_segments _ _ _ a b receive_blocks Ha Hab Hb). nia.
    + exact Hp.
    + rewrite Hcnt. nia.
Qed.

(** Every row received is a row that some process packed for [q]. *)
Lemma every_row_was_sent s :
  0 <= s < total ->
  exists p it, 0 <= p < procs /\ In it (items p) /\ dest p it = q /\ delivered s p it.
Proof.
  intros Hs. destruct (block_of_cell _ _ Hs) as (p & t & Hp & Ht & ->).
  destruct (receive_blocks Hp) as [_ Hdis]. rewrite <- Hdis.
  destruct (packed_all Hp) as (_ & Hslots & _).
  destruct (Hslots q t receiver ltac:(rewrite <- (matched Hp); exact Ht))
    as (it & Hin & Hdest & Hh).
  exists p, it. repeat split; try assumption; try lia.
  - now apply slot_received.
  - now apply slot_received.
Qed.

(** Every row packed for [q] is received. *)
Lemma every_row_arrives p it :
  0 <= p < procs -> In it (items p) -> dest p it = q ->
  exists s, 0 <= s < total /\ delivered s p it.
Proof.
  intros Hp Hin Hdest.
  destruct (packed_all Hp) as (_ & _ & Hitems).
  destruct (Hitems it Hin) as (t & Ht & Hh). rewrite Hdest in Ht, Hh.
  rewrite <- (matched Hp) in Ht.
  exists (e_rdispls (plan q) p + t). split; [|now apply slot_received].
  destruct (receive_blocks Hp) as [Hcnt Hdis]. rewrite Hdis.
  pose proof (@received_rows_snoc (e_RecvCnt (plan q)) p ltac:(lia)) as Hsnoc.
  pose proof (@received_rows_mono (e_RecvCnt (plan q)) (p + 1) procs ltac:(lia)) as Hmono.
  pose proof (@received_rows_mono (e_RecvCnt (plan q)) 0 p ltac:(lia)) as Hpos.
  unfold total. lia.
Qed.

End Exchange.

(** ** The routines on a mesh of several processes *)

Section SeveralProcesses.
Context {double : Type}.
Variable of_int : Z -> double.
Variable XK_H : Z.
Variable env : @environment double.
Variables (B x : array double) (n m_loc nrhs ldb fst_row : Z) (ilsum : array Z).
Variables (SP : ScalePermstruct_t) (Glu : Glu_persist_t) (grid : gridinfo_t).
Variable SOLVE : SOLVEstruct_t.
Hypothesis several : nprow grid * npcol grid <> 1.
Hypothesis memory : forall size, can_alloc env size = true.

Let procs := nprow grid * npcol grid.
Let comm := gstrs_comm SOLVE.

(** With memory, B to X on several processes returns; [x] is what the
    receiving loops make of the buffers that the exchange of the send
    buffers brings. *)
Lemma B_to_X_exchanged :
  let plan := plan_of (B_to_X_SendCnt comm) procs in
  let sent := B_to_X_send (heap_int env) (heap_double env) B m_loc nrhs ldb fst_row
                          (perm_r SP) (perm_c SP) (supno Glu) grid procs (e_sdispls plan)
                          (ptr_to_ibuf comm) (ptr_to_dbuf comm) in
  let recv_ibuf := alltoallv_i env (fst (fst (fst sent))) (e_SendCnt plan) (e_sdispls plan)
                               (e_RecvCnt plan) (e_rdispls plan) in
  let recv_dbuf := alltoallv_d env (snd (fst (fst sent))) (e_SendCnt_nrhs plan)
                               (e_sdispls_nrhs plan) (e_RecvCnt_nrhs plan)
                               (e_rdispls_nrhs plan) in
  exists r,
    pdReDistribute_B_to_X of_int XK_H env B m_loc nrhs ldb fst_row ilsum x
      SP Glu grid SOLVE = Done r /\
    filled r = fst (fst (B_to_X_receive of_int XK_H nrhs ilsum (xsup Glu) (supno Glu) grid
                                        procs (e_RecvCnt plan) (e_rdispls_nrhs plan)
                                        recv_ibuf recv_dbuf x)).
Proof.
  intros plan sent recv_ibuf recv_dbuf.
  unfold pdReDistribute_B_to_X. cbv zeta.
  apply Z.eqb_neq in several. rewrite several. rewrite !memory. cbn [negb].
  subst recv_ibuf recv_dbuf. fold procs. fold comm.
  change (B_to_X_send (heap_int env) (heap_double env) B m_loc nrhs ldb fst_row
            (perm_r SP) (perm_c SP) (supno Glu) grid procs
            (shift (B_to_X_SendCnt comm) (4 * procs)) (ptr_to_ibuf comm) (ptr_to_dbuf comm))
    with sent.
  destruct sent as [[[sib sdb] pi] pd]. cbn [fst snd].
  unfold plan, plan_of.
  cbn [e_SendCnt e_SendCnt_nrhs e_RecvCnt e_RecvCnt_nrhs e_sdispls e_sdispls_nrhs
       e_rdispls e_rdispls_nrhs].
  destruct (B_to_X_receive _ _ _ _ _ _ _ _ _ _ _ _ _) as [[x' ii] jj].
  eexists. split; reflexivity.
Qed.

(** With memory, X to B on several processes returns; [B] is what the
    unpacking loop makes of the buffers that the exchange brings. *)
Lemma X_to_B_exchanged :
  let plan := plan_of (X_to_B_SendCnt comm) procs in
  let sent := X_to_B_send XK_H (heap_int env) (heap_double env) x nrhs ilsum (xsup Glu)
                          grid (row_to_proc SOLVE) (nsupers_of Glu n) procs
                          (num_diag_procs SOLVE) (diag_procs SOLVE)
                          (e_sdispls plan) (e_sdispls_nrhs plan)
                          (ptr_to_ibuf comm) (ptr_to_dbuf comm) in
  let recv_ibuf := alltoallv_i env (fst (fst (fst sent))) (e_SendCnt plan) (e_sdispls plan)
                               (e_RecvCnt plan) (e_rdispls plan) in
  let recv_dbuf := alltoallv_d env (snd (fst (fst sent))) (e_SendCnt_nrhs plan)
                               (e_sdispls_nrhs plan) (e_RecvCnt_nrhs plan)
                               (e_rdispls_nrhs plan) in
  exists r,
    pdReDistribute_X_to_B XK_H env n B m_loc ldb fst_row nrhs x ilsum
      SP Glu grid SOLVE = Done r /\
    filled r = fst (for_ 0 m_loc (X_to_B_unpack ldb fst_row nrhs recv_ibuf recv_dbuf) (B, 0)).
Proof.
  intros plan sent recv_ibuf recv_dbuf.
  unfold pdReDistribute_X_to_B. cbv zeta.
  apply Z.eqb_neq in several. rewrite several. rewrite !memory. cbn [negb].
  subst recv_ibuf recv_dbuf. fold procs. fold comm.
  change (X_to_B_send XK_H (heap_int env) (heap_double env) x nrhs ilsum (xsup Glu) grid
            (row_to_proc SOLVE) (supno Glu (n - 1) + 1) procs
            (num_diag_procs SOLVE) (diag_procs SOLVE)
            (shift (X_to_B_SendCnt comm) (4 * procs))
            (shift (X_to_B_SendCnt comm) (5 * procs))
            (ptr_to_ibuf comm) (ptr_to_dbuf comm))
    with sent.
  destruct sent as [[[sib sdb] pi] pd]. cbn [fst snd].
  unfold plan, plan_of.
  cbn [e_SendCnt e_SendCnt_nrhs e_RecvCnt e_RecvCnt_nrhs e_sdispls e_sdispls_nrhs
       e_rdispls e_rdispls_nrhs].
  destruct (for_ 0 m_loc _ (B, 0)) as [B' k'].
  eexists. split; reflexivity.
Qed.

End SeveralProcesses.

(** The diagonal process of a supernode lies in the process row of the
    supernode, and the supernode is the local block [LBi] of that row. *)
Lemma diagonal_process_row (grid : gridinfo_t) k :
  0 < nprow grid -> 0 < npcol grid -> 0 <= k ->
  MYROW (PNUM (PROW k grid) (PCOL k grid) grid) grid = PROW k grid.
Proof.
  intros Hr Hc Hk. unfold MYROW, PNUM, PROW, PCOL.
  pose proof (Z.rem_bound_pos k (nprow grid) Hk Hr) as Hrow.
  pose proof (Z.rem_bound_pos k (npcol grid) Hk Hc) as Hcol.
  rewrite Z.quot_div_nonneg by nia.
  rewrite Z.div_add_l by lia. rewrite Z.div_small by lia. lia.
Qed.

Lemma local_block_of (grid : gridinfo_t) k :
  0 < nprow grid -> 0 <= k ->
  0 <= LBi k grid /\ k = PROW k grid + LBi k grid * nprow grid.
Proof.
  intros Hr Hk. unfold LBi, PROW. split.
  - apply Z.quot_pos; lia.
  - pose proof (Z.quot_rem' k (nprow grid)). lia.
Qed.

(** ** All the processes together *)

(** What one process holds of the distributed system: its rows of [B],
    its [x] and [ilsum], the counts and scratch pointers of its
    [gstrs_comm], and its allocator and heap. *)
Record local (double : Type) := {
  l_B : array double;
  l_m_loc : Z;
  l_ldb : Z;
  l_fst_row : Z;
  l_ilsum : array Z;
  l_x : array double;
  l_comm : pxgstrs_comm_t;
  l_can_alloc : Z -> bool;
  l_heap_int : array Z;
  l_heap_double : array double
}.

Section Distributed.
Context {double : Type}.
Variable of_int : Z -> double.
Variable XK_H : Z.
(** The mesh, and what every process holds a copy of: the permutations, the
    supernodes, [row_to_proc], [num_diag_procs] and [diag_procs]. *)
Variables (Pr Pc : Z).
Variables (SP : ScalePermstruct_t) (Glu : Glu_persist_t) (n nrhs nlb : Z).
Variables (owner : array Z) (ndp : Z) (dp : array Z).
Variable here : Z -> local double.

Local Abbreviation procs := (Pr * Pc).

Definition grid_of (q : Z) : gridinfo_t := {| nprow := Pr; npcol := Pc; iam := q |}.

Definition SOLVE_of (q : Z) : SOLVEstruct_t :=
  {| gstrs_comm := l_comm (here q); row_to_proc := owner;
     diag_procs := dp; num_diag_procs := ndp |}.

(** The environment of process [q] in an exchange: block [p] of what it
    receives comes from the send buffer of process [p], its own block from
    the buffer it passes. *)
Definition exchange_env (q : Z) (sent : Z -> buffers double) (plan : Z -> exchange_plan)
    : @environment double :=
  {| can_alloc := l_can_alloc (here q);
     heap_int := l_heap_int (here q);
     heap_double := l_heap_double (here q);
     alltoallv_i := fun send _ sdispls RecvCnt rdispls =>
       alltoallv procs (fun p => if p =? q then send else fst (fst (fst (sent p))))
                 (fun p => if p =? q then sdispls else e_sdispls (plan p))
                 q RecvCnt rdispls (l_heap_int (here q));
     alltoallv_d := fun send _ sdispls RecvCnt rdispls =>
       alltoallv procs (fun p => if p =? q then send else snd (fst (fst (sent p))))
                 (fun p => if p =? q then sdispls else e_sdispls_nrhs (plan p))
                 q RecvCnt rdispls (l_heap_double (here q)) |}.

(** *** B to X on every process *)

Definition B_to_X_plan (q : Z) : exchange_plan :=
  plan_of (B_to_X_SendCnt (l_comm (here q))) procs.

(** The send buffers that process [p] fills. *)
Definition B_to_X_sent (p : Z) : buffers double :=
  B_to_X_send (l_heap_int (here p)) (l_heap_double (here p)) (l_B (here p))
              (l_m_loc (here p)) nrhs (l_ldb (here p)) (l_fst_row (here p))
              (perm_r SP) (perm_c SP) (supno Glu) (grid_of p) procs
              (e_sdispls (B_to_X_plan p))
              (ptr_to_ibuf (l_comm (here p))) (ptr_to_dbuf (l_comm (here p))).

Definition B_to_X_at (q : Z) : result (@redistributed double) :=
  pdReDistribute_B_to_X of_int XK_H (exchange_env q B_to_X_sent B_to_X_plan)
    (l_B (here q)) (l_m_loc (here q)) nrhs (l_ldb (here q)) (l_fst_row (here q))
    (l_ilsum (here q)) (l_x (here q)) SP Glu (grid_of q) (SOLVE_of q).

(** [x] on process [q] after B to X. *)
Definition x_after (q : Z) : array double :=
  match B_to_X_at q with
  | Done r => filled r
  | Abort _ => l_x (here q)
  end.

(** *** X to B on every process, from the [x] that B to X left

    Each routine sets the scratch pointers of [gstrs_comm] before it reads
    them, so that what B to X left in them does not matter. *)

Definition X_to_B_plan (q : Z) : exchange_plan :=
  plan_of (X_to_B_SendCnt (l_comm (here q))) procs.

Definition X_to_B_sent (p : Z) : buffers double :=
  X_to_B_send XK_H (l_heap_int (here p)) (l_heap_double (here p)) (x_after p) nrhs
              (l_ilsum (here p)) (xsup Glu) (grid_of p) owner (nsupers_of Glu n) procs
              ndp dp (e_sdispls (X_to_B_plan p)) (e_sdispls_nrhs (X_to_B_plan p))
              (ptr_to_ibuf (l_comm (here p))) (ptr_to_dbuf (l_comm (here p))).

Definition X_to_B_at (q : Z) : result (@redistributed double) :=
  pdReDistribute_X_to_B XK_H (exchange_env q X_to_B_sent X_to_B_plan) n
    (l_B (here q)) (l_m_loc (here q)) (l_ldb (here q)) (l_fst_row (here q)) nrhs
    (x_after q) (l_ilsum (here q)) SP Glu (grid_of q) (SOLVE_of q).

(** *** What the routines rely on *)

(** The rows that process [p] packs in each direction, with their
    destinations. *)
Definition B_to_X_rows (p : Z) : list Z := counter 0 (l_m_loc (here p)).

Definition B_to_X_to (p : Z) : Z -> Z :=
  B_to_X_dest (l_fst_row (here p)) SP Glu (grid_of p).

Definition X_to_B_rows (p : Z) : list (Z * Z) :=
  X_to_B_items Glu (grid_of p) (nsupers_of Glu n) ndp dp.

Definition X_to_B_to (p : Z) : Z * Z -> Z := X_to_B_dest Glu owner.

(** The plans of an exchange, as [pxgstrs_init] sets them up: on every
    process the counts to send are the numbers of rows it packs for each
    process, the counts to receive are what the others send to it, the
    displacements are the running sums of the counts, and the arrays for the
    values are those for the rows times [nrhs]. *)
Definition planned {item : Type} (plan : Z -> exchange_plan)
    (rows : Z -> list item) (to : Z -> item -> Z) : Prop :=
  forall q, 0 <= q < procs ->
    contiguous (e_SendCnt (plan q)) (e_sdispls (plan q)) procs /\
    contiguous (e_RecvCnt (plan q)) (e_rdispls (plan q)) procs /\
    forall p, 0 <= p < procs ->
      e_SendCnt (plan q) p = sent_to (to q) (rows q) p /\
      e_RecvCnt (plan q) p = e_SendCnt (plan p) q /\
      e_sdispls_nrhs (plan q) p = e_sdispls (plan q) p * nrhs /\
      e_RecvCnt_nrhs (plan q) p = e_RecvCnt (plan q) p * nrhs /\
      e_rdispls_nrhs (plan q) p = e_rdispls (plan q) p * nrhs.

Record distributed_input : Prop := {
  d_mesh : 0 < Pr /\ 0 < Pc /\ Pr * Pc <> 1;
  d_header : 1 <= XK_H;
  d_nrhs : 0 <= nrhs;
  d_memory : forall q size, 0 <= q < procs -> l_can_alloc (here q) size = true;
  (* the permutation sends the rows of B to distinct rows below n *)
  d_rows : forall p i, 0 <= p < procs -> 0 <= i < l_m_loc (here p) ->
             0 <= permuted_row SP (l_fst_row (here p)) i < n;
  d_inj : forall p p' i i', 0 <= p < procs -> 0 <= p' < procs ->
            0 <= i < l_m_loc (here p) -> 0 <= i' < l_m_loc (here p') ->
            permuted_row SP (l_fst_row (here p)) i
              = permuted_row SP (l_fst_row (here p')) i' ->
            p = p' /\ i = i';
  (* the supernodes partition the rows below n *)
  d_cover : supernodes_cover Glu n (nsupers_of Glu n);
  d_unique : forall k r, 0 <= k < nsupers_of Glu n ->
               xsup Glu k <= r < xsup Glu (k + 1) -> 0 <= r < n /\ supno Glu r = k;
  (* row_to_proc names the process that holds the row of B *)
  d_owner : forall r, 0 <= r < n ->
              0 <= owner r < procs /\
              l_fst_row (here (owner r)) <= r
                < l_fst_row (here (owner r)) + l_m_loc (here (owner r));
  d_ldb : forall q, 0 <= q < procs -> l_m_loc (here q) <= l_ldb (here q);
  (* the blocks of x of every process *)
  d_layout : forall q, 0 <= q < procs ->
               blocks_laid_out (l_ilsum (here q))
                               (owned_size (grid_of q) Glu (MYROW q (grid_of q))) nlb;
  d_blocks : forall k, 0 <= k < nsupers_of Glu n -> LBi k (grid_of 0) < nlb;
  (* diag_procs names the diagonal process of every supernode *)
  d_diag_count : 0 < ndp;
  d_diag : forall k, 0 <= k < nsupers_of Glu n ->
             dp (k mod ndp) = PNUM (PROW k (grid_of 0)) (PCOL k (grid_of 0)) (grid_of 0);
  (* the counts and displacements of the two exchanges *)
  d_B_to_X : planned B_to_X_plan B_to_X_rows B_to_X_to;
  d_X_to_B : planned X_to_B_plan X_to_B_rows X_to_B_to;
  d_X_to_B_total : forall q, 0 <= q < procs ->
                     received_rows (e_RecvCnt (X_to_B_plan q)) procs = l_m_loc (here q)
}.

(** *** The rows on their way *)

Hypothesis wf : distributed_input.

Definition B_to_X_index (p : Z) : Z -> Z := B_to_X_key (l_fst_row (here p)) SP.

Definition B_to_X_values (p : Z) : Z -> Z -> double :=
  B_to_X_val (l_B (here p)) (l_ldb (here p)).

Lemma B_to_X_index_row p i : B_to_X_index p i = permuted_row SP (l_fst_row (here p)) i.
Proof. apply B_to_X_key_row. Qed.

(** The supernode of a local row. *)
Lemma local_row_supernode p i :
  0 <= p < procs -> 0 <= i < l_m_loc (here p) ->
  let r := permuted_row SP (l_fst_row (here p)) i in
  0 <= r < n /\ 0 <= supno Glu r < nsupers_of Glu n /\
  xsup Glu (supno Glu r) <= r < xsup Glu (supno Glu r + 1).
Proof.
  intros Hp Hi r. pose proof (d_rows wf Hp Hi) as Hr. fold r in Hr.
  destruct (d_cover wf Hr) as [Hk Hin]. repeat split; lia.
Qed.

Lemma B_to_X_to_range p i :
  0 <= p < procs -> 0 <= i < l_m_loc (here p) -> 0 <= B_to_X_to p i < procs.
Proof.
  intros Hp Hi. destruct (local_row_supernode Hp Hi) as (_ & Hk & _).
  destruct (d_mesh wf) as (HPr & HPc & _).
  unfold B_to_X_to, B_to_X_dest. cbv zeta. rewrite B_to_X_key_row.
  apply (@diagonal_process_range (grid_of p)); [exact HPr | exact HPc |].
  unfold BlockNum. lia.
Qed.

(** The send buffers of process [p] in B to X. *)
Lemma B_to_X_sent_packed p :
  0 <= p < procs ->
  packed nrhs (B_to_X_to p) (B_to_X_index p) (B_to_X_values p) procs
         (e_sdispls (B_to_X_plan p)) (B_to_X_rows p) (B_to_X_sent p).
Proof.
  intros Hp. destruct (d_B_to_X wf Hp) as (Hsend & _ & Hplan).
  apply (@B_to_X_send_packed double (l_B (here p)) (l_m_loc (here p)) nrhs (l_ldb (here p))
           (l_fst_row (here p)) SP Glu (grid_of p) procs
           (e_SendCnt (B_to_X_plan p)) (e_sdispls (B_to_X_plan p))).
  - exact (d_nrhs wf).
  - intros i Hi. now apply B_to_X_to_range.
  - exact Hsend.
  - intros d Hd. apply (Hplan d Hd).
Qed.

(** What an exchange brings to process [q], whatever the rows are. *)
Lemma exchange_delivers {item : Type} (plan : Z -> exchange_plan)
    (rows : Z -> list item) (to key : Z -> item -> Z) (val : Z -> item -> Z -> double)
    (sent : Z -> buffers double) q :
  planned plan rows to ->
  (forall p, 0 <= p < procs ->
     packed nrhs (to p) (key p) (val p) procs (e_sdispls (plan p)) (rows p) (sent p)) ->
  0 <= q < procs ->
  let got := delivered procs nrhs plan sent key val q
                       (l_heap_int (here q)) (l_heap_double (here q)) in
  (forall s, 0 <= s < received_rows (e_RecvCnt (plan q)) procs ->
     exists p it, 0 <= p < procs /\ In it (rows p) /\ to p it = q /\ got s p it) /\
  (forall p it, 0 <= p < procs -> In it (rows p) -> to p it = q ->
     exists s, 0 <= s < received_rows (e_RecvCnt (plan q)) procs /\ got s p it).
Proof.
  intros Hplan Hpacked Hq got.
  destruct (Hplan q Hq) as (_ & Hrecv & Hq_plan).
  assert (Hsv : forall p d, 0 <= p < procs -> 0 <= d < procs ->
                  e_sdispls_nrhs (plan p) d = e_sdispls (plan p) d * nrhs).
  { intros p d Hp Hd. destruct (Hplan p Hp) as (_ & _ & Hp_plan). apply (Hp_plan d Hd). }
  assert (Hrv : forall p, 0 <= p < procs ->
                  e_RecvCnt_nrhs (plan q) p = e_RecvCnt (plan q) p * nrhs /\
                  e_rdispls_nrhs (plan q) p = e_rdispls (plan q) p * nrhs).
  { intros p Hp. split; apply (Hq_plan p Hp). }
  assert (Hmatch : forall p, 0 <= p < procs ->
                     e_RecvCnt (plan q) p = sent_to (to p) (rows p) q).
  { intros p Hp. destruct (Hq_plan p Hp) as (_ & -> & _).
    destruct (Hplan p Hp) as (_ & _ & Hp_plan). apply (Hp_plan q Hq). }
  split.
  - intros s Hs.
    apply (every_row_was_sent plan sent rows to key val (l_heap_int (here q))
             (l_heap_double (here q)) (d_nrhs wf) Hpacked Hsv Hrecv Hrv Hmatch Hq Hs).
  - intros p it Hp Hin Hto.
    apply (every_row_arrives plan sent rows to key val (l_heap_int (here q))
             (l_heap_double (here q)) (d_nrhs wf) Hpacked Hsv Hrecv Hrv Hmatch Hq it Hp Hin Hto).
Qed.

(** *** B to X between the processes *)

Definition B_to_X_received_i (q : Z) : array Z :=
  received_i procs B_to_X_plan B_to_X_sent q (l_heap_int (here q)).

Definition B_to_X_received_d (q : Z) : array double :=
  received_d procs B_to_X_plan B_to_X_sent q (l_heap_double (here q)).

(** B to X returns on every process, and [x] is what the receiving loops
    make of the rows received. *)
Lemma B_to_X_at_done q :
  0 <= q < procs ->
  (exists r, B_to_X_at q = Done r) /\
  x_after q =
    fst (fst (B_to_X_receive of_int XK_H nrhs (l_ilsum (here q)) (xsup Glu) (supno Glu)
                             (grid_of q) procs (e_RecvCnt (B_to_X_plan q))
                             (e_rdispls_nrhs (B_to_X_plan q))
                             (B_to_X_received_i q) (B_to_X_received_d q) (l_x (here q)))).
Proof.
  intros Hq. destruct (d_mesh wf) as (_ & _ & Hmany).
  destruct (@B_to_X_exchanged double of_int XK_H (exchange_env q B_to_X_sent B_to_X_plan)
              (l_B (here q)) (l_x (here q)) (l_m_loc (here q)) nrhs (l_ldb (here q))
              (l_fst_row (here q)) (l_ilsum (here q)) SP Glu (grid_of q) (SOLVE_of q)
              Hmany (fun size => d_memory wf size Hq)) as (r & Hr & Hfilled).
  fold (B_to_X_at q) in Hr. split; [exists r; exact Hr|].
  unfold x_after. rewrite Hr, Hfilled.
  assert (Ei : alltoallv_i (exchange_env q B_to_X_sent B_to_X_plan)
                 (fst (fst (fst (B_to_X_sent q)))) (e_SendCnt (B_to_X_plan q))
                 (e_sdispls (B_to_X_plan q)) (e_RecvCnt (B_to_X_plan q))
                 (e_rdispls (B_to_X_plan q)) = B_to_X_received_i q).
  { cbn [alltoallv_i exchange_env]. unfold B_to_X_received_i, received_i.
    apply alltoallv_ext. intros p Hp.
    destruct (Z.eqb_spec p q) as [->|Hne]; split; reflexivity. }
  assert (Ed : alltoallv_d (exchange_env q B_to_X_sent B_to_X_plan)
                 (snd (fst (fst (B_to_X_sent q)))) (e_SendCnt_nrhs (B_to_X_plan q))
                 (e_sdispls_nrhs (B_to_X_plan q)) (e_RecvCnt_nrhs (B_to_X_plan q))
                 (e_rdispls_nrhs (B_to_X_plan q)) = B_to_X_received_d q).
  { cbn [alltoallv_d exchange_env]. unfold B_to_X_received_d, received_d.
    apply alltoallv_ext. intros p Hp.
    destruct (Z.eqb_spec p q) as [->|Hne]; split; reflexivity. }
  rewrite <- Ei, <- Ed. reflexivity.
Qed.

Let B_to_X_got (q : Z) : Z -> Z -> Z -> Prop :=
  delivered procs nrhs B_to_X_plan B_to_X_sent B_to_X_index B_to_X_values q
            (l_heap_int (here q)) (l_heap_double (here q)).

(** Every row that process [q] receives is a local row of some process,
    whose supernode has [q] as its diagonal process. *)
Lemma B_to_X_row_received q s :
  0 <= q < procs -> 0 <= s < received_rows (e_RecvCnt (B_to_X_plan q)) procs ->
  exists p i, 0 <= p < procs /\ 0 <= i < l_m_loc (here p) /\ B_to_X_to p i = q /\
              B_to_X_got q s p i.
Proof.
  intros Hq Hs.
  destruct (@exchange_delivers Z B_to_X_plan B_to_X_rows B_to_X_to B_to_X_index B_to_X_values
              B_to_X_sent q (d_B_to_X wf) B_to_X_sent_packed Hq)
    as [Hsent _].
  destruct (Hsent s Hs) as (p & i & Hp & Hin & Hto & Hgot).
  exists p, i. apply in_counter in Hin.
  split; [exact Hp|]. split; [lia|]. split; [exact Hto | exact Hgot].
Qed.

Lemma B_to_X_row_arrives p i :
  0 <= p < procs -> 0 <= i < l_m_loc (here p) ->
  let q := B_to_X_to p i in
  exists s, 0 <= s < received_rows (e_RecvCnt (B_to_X_plan q)) procs /\ B_to_X_got q s p i.
Proof.
  intros Hp Hi q. pose proof (B_to_X_to_range Hp Hi) as Hq. fold q in Hq.
  destruct (@exchange_delivers Z B_to_X_plan B_to_X_rows B_to_X_to B_to_X_index B_to_X_values
              B_to_X_sent q (d_B_to_X wf) B_to_X_sent_packed Hq)
    as [_ Harrives].
  apply Harrives; [exact Hp | now apply in_counter | reflexivity].
Qed.

(** The rows that process [q] receives are rows of its local blocks. *)
Lemma B_to_X_receive_input q :
  0 <= q < procs ->
  receive_input XK_H (grid_of q) Glu (l_ilsum (here q)) nrhs (MYROW q (grid_of q)) nlb
                procs (e_RecvCnt (B_to_X_plan q)) (B_to_X_received_i q).
Proof.
  intros Hq. destruct (d_mesh wf) as (HPr & HPc & _). constructor.
  - exact (d_header wf).
  - exact (d_nrhs wf).
  - exact (d_layout wf Hq).
  - intros t Ht r k.
    destruct (B_to_X_row_received Hq Ht) as (p & i & Hp & Hi & Hto & Hkey & _).
    fold (B_to_X_received_i q) in Hkey. fold r in Hkey.
    rewrite B_to_X_index_row in Hkey.
    destruct (local_row_supernode Hp Hi) as (Hr & Hk & Hin).
    rewrite <- Hkey in Hr, Hk, Hin. fold k in Hk, Hin.
    destruct (@local_block_of (grid_of q) k HPr ltac:(lia)) as [Hlb Hsplit].
    split; [|split].
    + split; [exact Hlb | exact (d_blocks wf Hk)].
    + rewrite Hsplit at 1. f_equal.
      unfold B_to_X_to, B_to_X_dest in Hto. cbv zeta in Hto.
      rewrite B_to_X_key_row, <- Hkey in Hto. unfold BlockNum in Hto. fold k in Hto.
      change (PROW k (grid_of q)) with (PROW k (grid_of p)).
      change (MYROW q (grid_of q)) with (MYROW q (grid_of p)).
      rewrite <- Hto. symmetry.
      apply (@diagonal_process_row (grid_of p) k HPr HPc). lia.
    + exact Hin.
Qed.

(** After B to X, the cell of every row and column of [B] on the diagonal
    process of the supernode of the row holds the value of [B]. *)
Lemma x_after_values p i j :
  0 <= p < procs -> 0 <= i < l_m_loc (here p) -> 0 <= j < nrhs ->
  let q := B_to_X_to p i in
  x_after q (received_cell XK_H (l_ilsum (here q)) nrhs Glu (grid_of q)
                           (permuted_row SP (l_fst_row (here p)) i) j)
    = l_B (here p) (i + j * l_ldb (here p)).
Proof.
  intros Hp Hi Hj q. pose proof (B_to_X_to_range Hp Hi) as Hq. fold q in Hq.
  destruct (B_to_X_row_arrives Hp Hi) as (s & Hs & Hkey & Hval). fold q in Hs, Hkey, Hval.
  fold (B_to_X_received_i q) in Hkey. fold (B_to_X_received_d q) in Hval.
  destruct (B_to_X_at_done Hq) as [_ ->].
  destruct (d_B_to_X wf Hq) as (_ & Hrecv & Hq_plan).
  rewrite <- B_to_X_index_row, <- Hkey.
  rewrite (received_values of_int (e_rdispls_nrhs (B_to_X_plan q)) (B_to_X_received_d q)
             (B_to_X_receive_input Hq)).
  - rewrite (Hval j Hj). reflexivity.
  - intros p' Hp'. destruct (Hq_plan p' Hp') as (_ & _ & _ & _ & ->).
    destruct (Hrecv p' Hp') as [_ ->]. reflexivity.
  - intros s1 s2 j' Hs1 Hs2 Hj' Hsame.
    destruct (B_to_X_row_received Hq Hs1) as (p1 & i1 & Hp1 & Hi1 & _ & Hkey1 & Hval1).
    destruct (B_to_X_row_received Hq Hs2) as (p2 & i2 & Hp2 & Hi2 & _ & Hkey2 & Hval2).
    fold (B_to_X_received_i q) in Hkey1, Hkey2.
    fold (B_to_X_received_d q) in Hval1, Hval2.
    rewrite Hkey1, Hkey2, !B_to_X_index_row in Hsame.
    destruct (d_inj wf Hp1 Hp2 Hi1 Hi2 Hsame) as [-> ->].
    rewrite (Hval1 j' Hj'), (Hval2 j' Hj'). reflexivity.
  - exact Hs.
  - exact Hj.
Qed.

(** After B to X, the header of the block of every row of [B], on the
    diagonal process of its supernode, holds the number of the supernode,
    and writes into the bodies of the blocks leave it there. *)
Lemma x_after_header p i x' :
  0 <= p < procs -> 0 <= i < l_m_loc (here p) ->
  let k := BlockNum (supno Glu) (permuted_row SP (l_fst_row (here p)) i) in
  let q := B_to_X_to p i in
  block_writes XK_H (l_ilsum (here q)) (owned_size (grid_of q) Glu (MYROW q (grid_of q)))
               nrhs nlb (x_after q) x' ->
  x' (X_BLK XK_H (l_ilsum (here q)) nrhs (LBi k (grid_of q)) - XK_H) = of_int k.
Proof.
  intros Hp Hi k q Hw. pose proof (B_to_X_to_range Hp Hi) as Hq. fold q in Hq.
  destruct (B_to_X_row_arrives Hp Hi) as (s & Hs & Hkey & _). fold q in Hs, Hkey.
  fold (B_to_X_received_i q) in Hkey. rewrite B_to_X_index_row in Hkey.
  pose proof (B_to_X_receive_input Hq) as Hin.
  destruct (ri_rows Hin Hs) as (Hlk & _ & _). rewrite Hkey in Hlk.
  unfold BlockNum in k. fold k in Hlk.
  change (X_BLK XK_H (l_ilsum (here q)) nrhs (LBi k (grid_of q)) - XK_H)
    with (X_header XK_H (l_ilsum (here q)) nrhs (LBi k (grid_of q))).
  rewrite (block_writes_keep_header (ri_header Hin) (ri_nrhs Hin) (ri_layout Hin) Hlk Hw).
  destruct (B_to_X_at_done Hq) as [_ ->].
  pose proof (received_headers of_int (e_rdispls_nrhs (B_to_X_plan q)) (B_to_X_received_d q)
                Hin (l_x (here q)) Hs) as Hset.
  cbv zeta in Hset. rewrite Hkey in Hset. unfold BlockNum in Hset. exact Hset.
Qed.

(** *** X to B between the processes *)

Definition X_to_B_index : Z * Z -> Z := X_to_B_key Glu.

Definition X_to_B_values (q : Z) : Z * Z -> Z -> double :=
  X_to_B_val XK_H (x_after q) nrhs (l_ilsum (here q)) Glu (grid_of q).

(** The rows that process [q] packs: those of the supernodes it is the
    diagonal process of. *)
Lemma in_X_to_B_rows q it :
  In it (X_to_B_rows q) <->
  0 <= fst it < nsupers_of Glu n /\ q = dp (fst it mod ndp) /\
  0 <= snd it < SuperSize (xsup Glu) (fst it).
Proof. apply (in_X_to_B_items Glu (grid_of q) (nsupers_of Glu n) dp it (d_diag_count wf)). Qed.

Lemma X_to_B_row_below_n q it :
  In it (X_to_B_rows q) -> 0 <= X_to_B_index it < n /\ supno Glu (X_to_B_index it) = fst it.
Proof.
  intros Hin. apply in_X_to_B_rows in Hin. destruct Hin as (Hk & _ & Hi).
  apply (d_unique wf Hk). destruct it as [k i]. cbn [fst snd] in *.
  unfold X_to_B_index, X_to_B_key, FstBlockC, SuperSize in *. lia.
Qed.

Lemma X_to_B_to_range q it : In it (X_to_B_rows q) -> 0 <= X_to_B_to q it < procs.
Proof.
  intros Hin. destruct (@X_to_B_row_below_n q it Hin) as [Hr _].
  apply (d_owner wf Hr).
Qed.

(** The send buffers of process [p] in X to B. *)
Lemma X_to_B_sent_packed p :
  0 <= p < procs ->
  packed nrhs (X_to_B_to p) X_to_B_index (X_to_B_values p) procs
         (e_sdispls (X_to_B_plan p)) (X_to_B_rows p) (X_to_B_sent p).
Proof.
  intros Hp. destruct (d_X_to_B wf Hp) as (Hsend & _ & Hplan).
  apply (@X_to_B_send_packed double XK_H (x_after p) nrhs (l_ilsum (here p)) Glu (grid_of p)
           owner (nsupers_of Glu n) ndp dp procs
           (e_SendCnt (X_to_B_plan p)) (e_sdispls (X_to_B_plan p))
           (e_sdispls_nrhs (X_to_B_plan p))).
  - exact (d_nrhs wf).
  - intros it Hin. exact (@X_to_B_to_range p it Hin).
  - exact Hsend.
  - intros d Hd. apply (Hplan d Hd).
  - intros d Hd. apply (Hplan d Hd).
Qed.

Definition X_to_B_received_i (q : Z) : array Z :=
  received_i procs X_to_B_plan X_to_B_sent q (l_heap_int (here q)).

Definition X_to_B_received_d (q : Z) : array double :=
  received_d procs X_to_B_plan X_to_B_sent q (l_heap_double (here q)).

(** X to B returns on every process, and [B] is what the unpacking loop
    makes of the rows received. *)
Lemma X_to_B_at_done q :
  0 <= q < procs ->
  exists r, X_to_B_at q = Done r /\
    filled r = fst (for_ 0 (l_m_loc (here q))
                         (X_to_B_unpack (l_ldb (here q)) (l_fst_row (here q)) nrhs
                                        (X_to_B_received_i q) (X_to_B_received_d q))
                         (l_B (here q), 0)).
Proof.
  intros Hq. destruct (d_mesh wf) as (_ & _ & Hmany).
  destruct (@X_to_B_exchanged double XK_H (exchange_env q X_to_B_sent X_to_B_plan)
              (l_B (here q)) (x_after q) n (l_m_loc (here q)) nrhs (l_ldb (here q))
              (l_fst_row (here q)) (l_ilsum (here q)) SP Glu (grid_of q) (SOLVE_of q)
              Hmany (fun size => d_memory wf size Hq)) as (r & Hr & Hfilled).
  fold (X_to_B_at q) in Hr. exists r. split; [exact Hr|]. rewrite Hfilled.
  assert (Ei : alltoallv_i (exchange_env q X_to_B_sent X_to_B_plan)
                 (fst (fst (fst (X_to_B_sent q)))) (e_SendCnt (X_to_B_plan q))
                 (e_sdispls (X_to_B_plan q)) (e_RecvCnt (X_to_B_plan q))
                 (e_rdispls (X_to_B_plan q)) = X_to_B_received_i q).
  { cbn [alltoallv_i exchange_env]. unfold X_to_B_received_i, received_i.
    apply alltoallv_ext. intros p Hp.
    destruct (Z.eqb_spec p q) as [->|Hne]; split; reflexivity. }
  assert (Ed : alltoallv_d (exchange_env q X_to_B_sent X_to_B_plan)
                 (snd (fst (fst (X_to_B_sent q)))) (e_SendCnt_nrhs (X_to_B_plan q))
                 (e_sdispls_nrhs (X_to_B_plan q)) (e_RecvCnt_nrhs (X_to_B_plan q))
                 (e_rdispls_nrhs (X_to_B_plan q)) = X_to_B_received_d q).
  { cbn [alltoallv_d exchange_env]. unfold X_to_B_received_d, received_d.
    apply alltoallv_ext. intros p Hp.
    destruct (Z.eqb_spec p q) as [->|Hne]; split; reflexivity. }
  rewrite <- Ei, <- Ed. reflexivity.
Qed.

Let X_to_B_got (q : Z) : Z -> Z -> Z * Z -> Prop :=
  delivered procs nrhs X_to_B_plan X_to_B_sent (fun _ => X_to_B_index) X_to_B_values q
            (l_heap_int (here q)) (l_heap_double (here q)).

Lemma X_to_B_delivers q :
  0 <= q < procs ->
  (forall s, 0 <= s < l_m_loc (here q) ->
     exists p it, 0 <= p < procs /\ In it (X_to_B_rows p) /\ X_to_B_to p it = q /\
                  X_to_B_got q s p it) /\
  (forall p it, 0 <= p < procs -> In it (X_to_B_rows p) -> X_to_B_to p it = q ->
     exists s, 0 <= s < l_m_loc (here q) /\ X_to_B_got q s p it).
Proof.
  intros Hq.
  pose proof (@exchange_delivers (Z * Z) X_to_B_plan X_to_B_rows X_to_B_to
                (fun _ => X_to_B_index) X_to_B_values X_to_B_sent q
                (d_X_to_B wf) X_to_B_sent_packed Hq) as H.
  cbv zeta in H. rewrite (d_X_to_B_total wf Hq) in H. exact H.
Qed.

(** The rows that a process receives in X to B are rows it holds. *)
Lemma X_to_B_local_rows q s :
  0 <= q < procs -> 0 <= s < l_m_loc (here q) ->
  0 <= X_to_B_received_i q s - l_fst_row (here q) < l_ldb (here q).
Proof.
  intros Hq Hs. destruct (X_to_B_delivers Hq) as [Hsent _].
  destruct (Hsent s Hs) as (p & it & Hp & Hin & Hto & Hkey & _).
  fold (X_to_B_received_i q) in Hkey. rewrite Hkey.
  destruct (@X_to_B_row_below_n p it Hin) as [Hr _].
  destruct (d_owner wf Hr) as [_ Hlocal].
  unfold X_to_B_to, X_to_B_dest in Hto. fold X_to_B_index in Hto. rewrite Hto in Hlocal.
  pose proof (d_ldb wf Hq). lia.
Qed.

(** A row received twice in X to B brings the same values. *)
Lemma X_to_B_consistent q s s' j :
  0 <= q < procs -> 0 <= s < l_m_loc (here q) -> 0 <= s' < l_m_loc (here q) ->
  0 <= j < nrhs ->
  X_to_B_received_i q s = X_to_B_received_i q s' ->
  X_to_B_received_d q (s * nrhs + j) = X_to_B_received_d q (s' * nrhs + j).
Proof.
  intros Hq Hs Hs' Hj Hsame. destruct (X_to_B_delivers Hq) as [Hsent _].
  destruct (Hsent s Hs) as (p & it & Hp & Hin & _ & Hkey & Hval).
  destruct (Hsent s' Hs') as (p' & it' & Hp' & Hin' & _ & Hkey' & Hval').
  fold (X_to_B_received_i q) in Hkey, Hkey'. fold (X_to_B_received_d q) in Hval, Hval'.
  rewrite (Hval j Hj), (Hval' j Hj). rewrite Hkey, Hkey' in Hsame.
  destruct (@X_to_B_row_below_n p it Hin) as [_ Hk].
  destruct (@X_to_B_row_below_n p' it' Hin') as [_ Hk'].
  assert (Hit : it = it').
  { destruct it as [k i], it' as [k' i']. cbn [fst] in Hk, Hk'.
    rewrite Hsame, Hk' in Hk. subst k'.
    unfold X_to_B_index, X_to_B_key in Hsame. f_equal. lia. }
  subst it'.
  apply in_X_to_B_rows in Hin, Hin'.
  destruct Hin as (_ & Hdiag & _). destruct Hin' as (_ & Hdiag' & _).
  rewrite <- Hdiag' in Hdiag. subst p'. reflexivity.
Qed.

(** Between processes, [pdReDistribute_X_to_B] after
    [pdReDistribute_B_to_X] puts the value of row [i] and column [j] of the
    part of [B] that process [p] holds in column [j] of the row
    [perm_c[perm_r[fst_row + i]]], on the process that holds that row. *)
Lemma B_returns_between_processes p i j :
  0 <= p < procs -> 0 <= i < l_m_loc (here p) -> 0 <= j < nrhs ->
  let irow := permuted_row SP (l_fst_row (here p)) i in
  let r := owner irow in
  0 <= r < procs /\
  exists res,
    X_to_B_at r = Done res /\
    filled res (irow - l_fst_row (here r) + j * l_ldb (here r))
      = l_B (here p) (i + j * l_ldb (here p)).
Proof.
  intros Hp Hi Hj irow r.
  destruct (local_row_supernode Hp Hi) as (Hr & Hk & Hin). fold irow in Hr, Hk, Hin.
  destruct (d_owner wf Hr) as [Hrange _]. fold r in Hrange.
  split; [exact Hrange|].
  set (k := supno Glu irow) in *.
  set (q := B_to_X_to p i).
  pose proof (B_to_X_to_range Hp Hi) as Hq. fold q in Hq.
  set (it := (k, irow - xsup Glu k)).
  assert (Hit : In it (X_to_B_rows q)).
  { apply in_X_to_B_rows. cbn [fst snd it]. split; [exact Hk|]. split.
    - rewrite (d_diag wf Hk). unfold q, B_to_X_to, B_to_X_dest. cbv zeta.
      rewrite B_to_X_key_row. reflexivity.
    - unfold SuperSize. lia. }
  assert (Hindex : X_to_B_index it = irow).
  { unfold X_to_B_index, X_to_B_key, it, FstBlockC. lia. }
  assert (Hto : X_to_B_to q it = r).
  { unfold X_to_B_to, X_to_B_dest. fold X_to_B_index. rewrite Hindex. reflexivity. }
  destruct (X_to_B_delivers Hrange) as [_ Harrives].
  destruct (Harrives q it Hq Hit Hto) as (s & Hs & Hkey & Hval).
  fold (X_to_B_received_i r) in Hkey. fold (X_to_B_received_d r) in Hval.
  destruct (X_to_B_at_done Hrange) as (res & Hres & Hfilled).
  exists res. split; [exact Hres|]. rewrite Hfilled.
  rewrite <- Hindex, <- Hkey.
  rewrite (@unpacked_values double (l_ldb (here r)) (l_fst_row (here r)) nrhs
             (l_m_loc (here r)) (X_to_B_received_i r) (X_to_B_received_d r) (d_nrhs wf)
             (fun s' Hs' => X_to_B_local_rows Hrange Hs')
             (fun s1 s2 j' H1 H2 Hj' Hsame => X_to_B_consistent Hrange H1 H2 Hj' Hsame)
             (l_B (here r)) s j Hs Hj).
  rewrite (Hval j Hj).
  exact (x_after_values Hp Hi Hj).
Qed.

(** *** Each redistribution between the processes *)

(** X24.  On a mesh of several processes, with [MPI_Alltoallv] carrying the
    send buffers, [pdReDistribute_B_to_X] returns on the diagonal process [q]
    of the supernode [k] of every row of [B], and there the cell
    [X_BLK(lk) + (irow - FstBlockC(k)) + j * SuperSize(k)] of [x] holds
    [B[i + j*ldb]] of the process [p] that held the row, [irow] being
    [perm_c[perm_r[fst_row + i]]] and [lk] the local block [LBi(k)]. *)
Theorem B_to_X_between_processes p i j :
  0 <= p < procs -> 0 <= i < l_m_loc (here p) -> 0 <= j < nrhs ->
  let irow := permuted_row SP (l_fst_row (here p)) i in
  let k := BlockNum (supno Glu) irow in
  let q := PNUM (PROW k (grid_of p)) (PCOL k (grid_of p)) (grid_of p) in
  0 <= q < procs /\
  exists r,
    B_to_X_at q = Done r /\
    filled r (X_BLK XK_H (l_ilsum (here q)) nrhs (LBi k (grid_of q))
              + (irow - FstBlockC (xsup Glu) k) + j * SuperSize (xsup Glu) k)
      = l_B (here p) (i + j * l_ldb (here p)).
Proof.
  intros Hp Hi Hj irow k q.
  assert (Eq : q = B_to_X_to p i).
  { unfold q, k, irow, B_to_X_to, B_to_X_dest. cbv zeta. now rewrite B_to_X_key_row. }
  pose proof (B_to_X_to_range Hp Hi) as Hq. rewrite <- Eq in Hq.
  split; [exact Hq|].
  destruct (B_to_X_at_done Hq) as [[r Hr] _]. exists r. split; [exact Hr|].
  pose proof (x_after_values Hp Hi Hj) as Hval. cbv zeta in Hval. rewrite <- Eq in Hval.
  unfold x_after in Hval. rewrite Hr in Hval. exact Hval.
Qed.

(** X25.  On a mesh of several processes, [pdReDistribute_X_to_B] takes
    every row of [x] to the process that holds that row of [B]: for row [i]
    of supernode [k] and column [j], the process [row_to_proc[xsup[k] + i]]
    returns with [B[xsup[k] + i - fst_row + j*ldb]] holding what
    [x[X_BLK(lk) + i + j * SuperSize(k)]] holds on the diagonal process
    [diag_procs[k mod num_diag_procs]] of the supernode. *)
Theorem X_to_B_between_processes k i j :
  0 <= k < nsupers_of Glu n -> 0 <= i < SuperSize (xsup Glu) k -> 0 <= j < nrhs ->
  let irow := FstBlockC (xsup Glu) k + i in
  let q := dp (k mod ndp) in
  let r := owner irow in
  0 <= q < procs /\ 0 <= r < procs /\
  exists res,
    X_to_B_at r = Done res /\
    filled res (irow - l_fst_row (here r) + j * l_ldb (here r))
      = x_after q (X_BLK XK_H (l_ilsum (here q)) nrhs (LBi k (grid_of q))
                   + i + j * SuperSize (xsup Glu) k).
Proof.
  intros Hk Hi Hj irow q r.
  destruct (d_mesh wf) as (HPr & HPc & _).
  assert (Hq : 0 <= q < procs).
  { unfold q. rewrite (d_diag wf Hk).
    apply (@diagonal_process_range (grid_of 0)); [exact HPr | exact HPc | lia]. }
  assert (Hrow : 0 <= irow < n /\ supno Glu irow = k).
  { apply (d_unique wf Hk). unfold irow, FstBlockC, SuperSize in *. lia. }
  destruct (d_owner wf (proj1 Hrow)) as [Hr _]. fold r in Hr.
  split; [exact Hq|]. split; [exact Hr|].
  set (it := (k, i)).
  assert (Hit : In it (X_to_B_rows q)).
  { apply in_X_to_B_rows. cbn [fst snd it]. repeat split; try lia; reflexivity. }
  assert (Hto : X_to_B_to q it = r) by reflexivity.
  destruct (X_to_B_delivers Hr) as [_ Harrives].
  destruct (Harrives q it Hq Hit Hto) as (s & Hs & Hkey & Hval).
  fold (X_to_B_received_i r) in Hkey. fold (X_to_B_received_d r) in Hval.
  destruct (X_to_B_at_done Hr) as (res & Hres & Hfilled).
  exists res. split; [exact Hres|]. rewrite Hfilled.
  change irow with (X_to_B_index it). rewrite <- Hkey.
  rewrite (@unpacked_values double (l_ldb (here r)) (l_fst_row (here r)) nrhs
             (l_m_loc (here r)) (X_to_B_received_i r) (X_to_B_received_d r) (d_nrhs wf)
             (fun s' Hs' => X_to_B_local_rows Hr Hs')
             (fun s1 s2 j' H1 H2 Hj' Hsame => X_to_B_consistent Hr H1 H2 Hj' Hsame)
             (l_B (here r)) s j Hs Hj).
  rewrite (Hval j Hj). reflexivity.
Qed.

End Distributed.

(** * The diagonal-block inverter and the solve *)

(** ** The factor structures *)

(** A broadcast or reduction tree handle, as far as the solve asks it:
    [BcTree_IsRoot] / [RdTree_IsRoot], [BcTree_getDestCount] /
    [RdTree_GetDestCount] and [BcTree_GetMsgSize] / [RdTree_GetMsgSize]. *)
Record tree := {
  is_root : bool;
  dest_count : Z;
  msg_size : Z
}.

Section Solve.
Context {double : Type}.
Variable of_int : Z -> double.
(** [(int) d] for a double [d], as in [k = *recvbuf0]. *)
Variable to_int : double -> Z.
Variables zero one : double.
Variable dadd : double -> double -> double.
(** The header lengths of superlu_defs.h. *)
Variables XK_H LSUM_H : Z.

(** The fields of [LocalLU_t] that the routines read.  A pointer that can be
    [NULL] is an [option]. *)
Record LocalLU_t := {
  Lrowind_bc_ptr : array (option (array Z));
  Lnzval_bc_ptr : array (array double);
  Llu_fmod : array Z;      (* Llu->fmod *)
  Llu_bmod : array Z;      (* Llu->bmod *)
  Llu_ilsum : array Z;     (* Llu->ilsum *)
  ldalsum : Z;
  nfrecvx : Z;
  nbrecvx : Z;
  nfsendx : Z;
  nbsendx : Z;
  LBtree_ptr : array (option tree);
  LRtree_ptr : array (option tree);
  UBtree_ptr : array (option tree);
  URtree_ptr : array (option tree);
  Urbs : array Z
}.

(** The fields of [LocalLU_t] that [pdCompute_Diag_Inv] writes. *)
Record diag_inverses := {
  Linv_bc_ptr : array (array double);
  Uinv_bc_ptr : array (array double);
  Llu_inv : Z              (* Llu->inv *)
}.

(** [lsub[i]] for [lsub = Lrowind_bc_ptr[lk]]; the routines dereference it
    only where the block column is not empty, and the model reads 0 through
    a [NULL] pointer. *)
Definition lsub_at (Llu : LocalLU_t) (lk i : Z) : Z :=
  match Lrowind_bc_ptr Llu lk with
  | Some lsub => lsub i
  | None => 0
  end.

(** ** pdCompute_Diag_Inv *)

(** LAPACK's [dtrtri_(uplo, diag, n, A, lda, info)]: the inverted matrix and
    the status it stores through [info]. *)
Variable dtrtri_ : string -> string -> Z -> array double -> Z -> array double * Z.

(** Lines 614 to 629: [Linv] and [Uinv] are zeroed, then filled with the unit
    lower and the upper triangle of the diagonal block of [lusup]. *)
Definition diag_block_copy (knsupc nsupr : Z) (lusup : array double)
    (LU : array double * array double) : array double * array double :=
  let LU :=
    for_ 0 knsupc
      (fun j LU =>
         for_ 0 knsupc
           (fun i '(Linv, Uinv) =>
              (store Linv (j * knsupc + i) zero, store Uinv (j * knsupc + i) zero))
           LU)
      LU in
  for_ 0 knsupc
    (fun j '(Linv, Uinv) =>
       let Linv := store Linv (j * knsupc + j) one in
       let Linv :=
         for_ (j + 1) knsupc
           (fun i Linv => store Linv (j * knsupc + i) (lusup (j * nsupr + i))) Linv in
       let Uinv :=
         for_ 0 (j + 1)
           (fun i Uinv => store Uinv (j * knsupc + i) (lusup (j * nsupr + i))) Uinv in
       (Linv, Uinv))
    LU.

(** Body of the loop over the supernodes (lines 600 to 637); the state is
    the inverses and the local variable [INFO]. *)
Definition diag_inv_step (Llu : LocalLU_t) (Glu : Glu_persist_t) (grid : gridinfo_t)
    (myrow mycol : Z) (k : Z) (st : diag_inverses * Z) : diag_inverses * Z :=
  let '(D, INFO) := st in
  let krow := PROW k grid in
  if myrow =? krow then
    let kcol := PCOL k grid in
    if mycol =? kcol then  (* diagonal process *)
      let lk := LBj k grid in
      let lusup := Lnzval_bc_ptr Llu lk in
      let nsupr := lsub_at Llu lk 1 in
      let knsupc := SuperSize (xsup Glu) k in
      let '(Linv, Uinv) :=
        diag_block_copy knsupc nsupr lusup (Linv_bc_ptr D lk, Uinv_bc_ptr D lk) in
      (* Triangular inversion *)
      let '(Linv, INFO) := dtrtri_ "L" "U" knsupc Linv knsupc in
      let '(Uinv, INFO) := dtrtri_ "U" "N" knsupc Uinv knsupc in
      ({| Linv_bc_ptr := store (Linv_bc_ptr D) lk Linv;
          Uinv_bc_ptr := store (Uinv_bc_ptr D) lk Uinv;
          Llu_inv := Llu_inv D |}, INFO)
    else st
  else st.

(** [pdCompute_Diag_Inv(n, LUstruct, grid, stat, info)].  [HAVE_LAPACK] is
    the build flag; [INFO] is what the local variable holds on entry (it is
    not initialised) and [info] what [*info] holds.  The result is the
    inverses, the final [INFO] and the final [*info]. *)
Definition pdCompute_Diag_Inv (HAVE_LAPACK : bool) (n : Z) (Llu : LocalLU_t)
    (D : diag_inverses) (Glu : Glu_persist_t) (grid : gridinfo_t)
    (INFO : Z) (info : Z) : diag_inverses * Z * Z :=
  if HAVE_LAPACK then
    let myrow := MYROW (iam grid) grid in
    let mycol := MYCOL (iam grid) grid in
    let nsupers := supno Glu (n - 1) + 1 in
    let D := {| Linv_bc_ptr := Linv_bc_ptr D; Uinv_bc_ptr := Uinv_bc_ptr D;
                Llu_inv := 1 |} in
    let '(D, INFO) := for_ 0 nsupers (diag_inv_step Llu Glu grid myrow mycol) (D, INFO) in
    (D, INFO, info)
  else (D, INFO, info).

(** ** pdgstrs: what it works on *)

(** The tags of the solve messages. *)
Inductive tag : Type := BC_L | RD_L | BC_U | RD_U.

(** A message handed to a tree for forwarding: the tag, the local block
    number of the tree, the buffer passed and the message length. *)
Record message := {
  msg_tag : tag;
  msg_tree : Z;
  msg_buf : array double;
  msg_len : Z
}.

(** The working arrays of a solve: [x], [lsum], [rtemp], the modification
    counters, the lists of pending sends, and the messages sent so far. *)
Record workspace := {
  w_x : array double;
  w_lsum : array double;
  w_rtemp : array double;
  w_fmod : array Z;
  w_bmod : array Z;
  w_leaf_send : array Z;
  w_nleaf_send : Z;
  w_root_send : array Z;
  w_nroot_send : Z;
  w_sent : list message
}.

Definition set_x (w : workspace) (x : array double) : workspace :=
  {| w_x := x; w_lsum := w_lsum w; w_rtemp := w_rtemp w; w_fmod := w_fmod w;
     w_bmod := w_bmod w; w_leaf_send := w_leaf_send w; w_nleaf_send := w_nleaf_send w;
     w_root_send := w_root_send w; w_nroot_send := w_nroot_send w; w_sent := w_sent w |}.

Definition set_lsum (w : workspace) (lsum : array double) : workspace :=
  {| w_x := w_x w; w_lsum := lsum; w_rtemp := w_rtemp w; w_fmod := w_fmod w;
     w_bmod := w_bmod w; w_leaf_send := w_leaf_send w; w_nleaf_send := w_nleaf_send w;
     w_root_send := w_root_send w; w_nroot_send := w_nroot_send w; w_sent := w_sent w |}.

Definition set_rtemp (w : workspace) (rtemp : array double) : workspace :=
  {| w_x := w_x w; w_lsum := w_lsum w; w_rtemp := rtemp; w_fmod := w_fmod w;
     w_bmod := w_bmod w; w_leaf_send := w_leaf_send w; w_nleaf_send := w_nleaf_send w;
     w_root_send := w_root_send w; w_nroot_send := w_nroot_send w; w_sent := w_sent w |}.

Definition set_fmod (w : workspace) (fmod : array Z) : workspace :=
  {| w_x := w_x w; w_lsum := w_lsum w; w_rtemp := w_rtemp w; w_fmod := fmod;
     w_bmod := w_bmod w; w_leaf_send := w_leaf_send w; w_nleaf_send := w_nleaf_send w;
     w_root_send := w_root_send w; w_nroot_send := w_nroot_send w; w_sent := w_sent w |}.

Definition set_bmod (w : workspace) (bmod : array Z) : workspace :=
  {| w_x := w_x w; w_lsum := w_lsum w; w_rtemp := w_rtemp w; w_fmod := w_fmod w;
     w_bmod := bmod; w_leaf_send := w_leaf_send w; w_nleaf_send := w_nleaf_send w;
     w_root_send := w_root_send w; w_nroot_send := w_nroot_send w; w_sent := w_sent w |}.

(** [n = ++nleaf_send; leaf_send[(n-1)*aln_i] = lk]. *)
Definition push_leaf_send (aln_i : Z) (w : workspace) (lk : Z) : workspace :=
  let n := w_nleaf_send w + 1 in
  {| w_x := w_x w; w_lsum := w_lsum w; w_rtemp := w_rtemp w; w_fmod := w_fmod w;
     w_bmod := w_bmod w; w_leaf_send := store (w_leaf_send w) ((n - 1) * aln_i) lk;
     w_nleaf_send := n;
     w_root_send := w_root_send w; w_nroot_send := w_nroot_send w; w_sent := w_sent w |}.

(** [n = ++nroot_send; root_send[(n-1)*aln_i] = lk]. *)
Definition push_root_send (aln_i : Z) (w : workspace) (lk : Z) : workspace :=
  let n := w_nroot_send w + 1 in
  {| w_x := w_x w; w_lsum := w_lsum w; w_rtemp := w_rtemp w; w_fmod := w_fmod w;
     w_bmod := w_bmod w; w_leaf_send := w_leaf_send w; w_nleaf_send := w_nleaf_send w;
     w_root_send := store (w_root_send w) ((n - 1) * aln_i) lk; w_nroot_send := n;
     w_sent := w_sent w |}.

(** A tree forwards a message: it joins the messages sent. *)
Definition forward (w : workspace) (m : message) : workspace :=
  {| w_x := w_x w; w_lsum := w_lsum w; w_rtemp := w_rtemp w; w_fmod := w_fmod w;
     w_bmod := w_bmod w; w_leaf_send := w_leaf_send w; w_nleaf_send := w_nleaf_send w;
     w_root_send := w_root_send w; w_nroot_send := w_nroot_send w;
     w_sent := w_sent w ++ [m] |}.

(** [BcTree_GetMsgSize] / [RdTree_GetMsgSize] and the destination count of a
    tree pointer; the solve asks them of trees that exist. *)
Definition tree_msg_size (t : option tree) : Z :=
  match t with Some t => msg_size t | None => 0 end.

Definition tree_dest_count (t : option tree) : Z :=
  match t with Some t => dest_count t | None => 0 end.

(** ** The kernels outside this file *)

(** BLAS: [dgemm_] gives the new [C], [dtrsm_] the new [B]. *)
Variable dgemm_ : string -> string -> Z -> Z -> Z -> double -> array double -> Z ->
                  array double -> Z -> double -> array double -> Z -> array double.
Variable dtrsm_ : string -> string -> string -> string -> Z -> Z -> double ->
                  array double -> Z -> array double -> Z -> array double.

(** The local block modifications of [pdgstrs_lsum.c],
    [lsum[i] -= L_i,k * X[k]] and [lsum[i] -= U_i,k * X[k]], with what they
    trigger; the arguments kept are [nrhs], [k] and the block [X[k]]. *)
Variable dlsum_fmod_inv : Z -> Z -> array double -> workspace -> workspace.
Variable dlsum_bmod_inv : Z -> Z -> array double -> workspace -> workspace.
Variable dlsum_bmod_inv_master : Z -> Z -> array double -> workspace -> workspace.

(** [sp_ienv_dist]. *)
Variable sp_ienv_dist : Z -> Z.

(** [MPI_Recv(recvbuf0, maxrecvsz, MPI_DOUBLE, MPI_ANY_SOURCE, MPI_ANY_TAG,
    ...)]: the buffer and the tag of the message that the receive number [i]
    of the backward solve matches. *)
Variable MPI_Recv : Z -> array double * tag.

(** ** pdgstrs: the input test *)

(** Lines 886 to 888: [*info = 0; if (n < 0) *info = -1;
    else if (nrhs < 0) *info = -9;]. *)
Definition test_input_parameters (n nrhs : Z) : Z :=
  let info := 0 in
  if n <? 0 then -1 else if nrhs <? 0 then -9 else info.

(** ** pdgstrs: the modification counts *)

(** [for (i = 0; i < nlb; ++i) fmod[i*aln_i] = Llu->fmod[i];] and the same
    for [bmod]; [fresh] is what the allocated array holds. *)
Definition save_counts (aln_i nlb : Z) (saved fresh : array Z) : array Z :=
  for_ 0 nlb (fun i m => store m (i * aln_i) (saved i)) fresh.

(** What the set-up of a solve computes besides the counters: the counts to
    receive, the leaves (or roots), and the number of reduction trees. *)
Record forward_counts := {
  fmod : array Z;
  frecv : array Z;
  nfrecvmod : Z;
  leafsups : array Z;
  nleaf : Z;
  f_nrtree : Z
}.

Record backward_counts := {
  bmod : array Z;
  brecv : array Z;
  nbrecvmod : Z;
  rootsups : array Z;
  nroot : Z;
  b_nrtree : Z
}.

(** The state of the loops over the local block rows:
    [(recv, nrecvmod, sups, nsups, nrtree)]. *)
Definition counts : Type := (array Z * Z * array Z * Z * Z)%type.

(** Lines 1059 to 1067, the loop body when [procs == 1]. *)
Definition leaf_step_single (grid : gridinfo_t) (myrow nsupers aln_i : Z)
    (fmod : array Z) (lk : Z) (st : counts) : counts :=
  let '(frecv, nfrecvmod, leafsups, nleaf, nrtree) := st in
  let gb := myrow + lk * nprow grid in
  if gb <? nsupers then
    if fmod (lk * aln_i) =? 0 then
      (frecv, nfrecvmod, store leafsups nleaf gb, nleaf + 1, nrtree)
    else st
  else st.

(** Lines 1069 to 1087 and 1933 to 1953, the loop body over the reduction
    trees: a row with a tree expects as many messages as the tree has
    destinations; a row without one, on its diagonal process and with
    nothing to wait for, is a leaf (a root in the backward solve). *)
Definition tree_step (grid : gridinfo_t) (myrow mycol nsupers aln_i : Z)
    (trees : array (option tree)) (mod_ : array Z) (lk : Z) (st : counts) : counts :=
  let '(recv, nrecvmod, sups, nsups, nrtree) := st in
  match trees lk with
  | Some t =>
      let nrtree := nrtree + 1 in
      let recv := store recv lk (dest_count t) in
      (recv, nrecvmod + recv lk, sups, nsups, nrtree)
  | None =>
      let gb := myrow + lk * nprow grid in
      if gb <? nsupers then
        let kcol := PCOL gb grid in
        if mycol =? kcol then  (* diagonal process *)
          if mod_ (lk * aln_i) =? 0 then
            (recv, nrecvmod, store sups nsups gb, nsups + 1, nrtree)
          else st
        else st
      else st
  end.

(** [for (i = 0; i < nlb; ++i) fmod[i*aln_i] += frecv[i];]. *)
Definition add_recv (aln_i nlb : Z) (recv mod_ : array Z) : array Z :=
  for_ 0 nlb (fun i m => store m (i * aln_i) (m (i * aln_i) + recv i)) mod_.

(** The counters of the forward solve, lines 925 to 930 and 1048 to 1095.
    [frecv] and [leafsups] come from [intCalloc_dist]: zeros. *)
Definition forward_setup (grid : gridinfo_t) (Llu : LocalLU_t)
    (myrow mycol nsupers nlb aln_i : Z) (fresh : array Z) : forward_counts :=
  let procs := nprow grid * npcol grid in
  let fmod := save_counts aln_i nlb (Llu_fmod Llu) fresh in
  let frecv : array Z := fun _ => 0 in
  let nsupers_i := CEILING nsupers (nprow grid) in  (* number of local block rows *)
  let leafsups : array Z := fun _ => 0 in
  let '(frecv, nfrecvmod, leafsups, nleaf, nrtree) :=
    if procs =? 1 then
      for_ 0 nsupers_i (leaf_step_single grid myrow nsupers aln_i fmod)
           (frecv, 0, leafsups, 0, 0)
    else
      for_ 0 nsupers_i (tree_step grid myrow mycol nsupers aln_i (LRtree_ptr Llu) fmod)
           (frecv, 0, leafsups, 0, 0) in
  let fmod := add_recv aln_i nlb frecv fmod in
  {| fmod := fmod; frecv := frecv; nfrecvmod := nfrecvmod;
     leafsups := leafsups; nleaf := nleaf; f_nrtree := nrtree |}.

(** The counters of the backward solve, lines 1824 to 1829 and 1927 to
    1958. *)
Definition backward_setup (grid : gridinfo_t) (Llu : LocalLU_t)
    (myrow mycol nsupers nlb aln_i : Z) (fresh : array Z) : backward_counts :=
  let bmod := save_counts aln_i nlb (Llu_bmod Llu) fresh in
  let brecv : array Z := fun _ => 0 in
  let nsupers_i := CEILING nsupers (nprow grid) in  (* number of local block rows *)
  let rootsups : array Z := fun _ => 0 in
  let '(brecv, nbrecvmod, rootsups, nroot, nrtree) :=
    for_ 0 nsupers_i (tree_step grid myrow mycol nsupers aln_i (URtree_ptr Llu) bmod)
         (brecv, 0, rootsups, 0, 0) in
  let bmod := add_recv aln_i nlb brecv bmod in
  {| bmod := bmod; brecv := brecv; nbrecvmod := nbrecvmod;
     rootsups := rootsups; nroot := nroot; b_nrtree := nrtree |}.

(** ** pdgstrs: the pieces of the two solves *)

(** [for (ii = 0; ii < len; ii++) a[ii] = zero;]. *)
Definition zero_fill (len : Z) (a : array double) : array double :=
  for_ 0 len (fun ii a => store a ii zero) a.

(** Lines 1022 to 1029: the headers of [lsum]. *)
Definition lsum_headers (grid : gridinfo_t) (myrow nsupers nrhs : Z)
    (ilsum : array Z) (lsum : array double) : array double :=
  for_ 0 nsupers
    (fun k lsum =>
       let krow := PROW k grid in
       if myrow =? krow then
         let lk := LBi k grid in
         let il := LSUM_BLK LSUM_H ilsum nrhs lk in
         store lsum (il - LSUM_H) (of_int k)
       else lsum)
    lsum.

(** [for (i = 0; i < len; i++) x[ii+i] = src[i];], the copy of a solved
    block back into [x]. *)
Definition store_block (ii len : Z) (src x : array double) : array double :=
  for_ 0 len (fun i x => store x (ii + i) (src i)) x.

(** What [dtrsm_] leaves in the [m] by [n] panel at [&x[ii]], of leading
    dimension [ld]. *)
Definition store_panel (ii m n ld : Z) (src x : array double) : array double :=
  for_ 0 n (fun j x => for_ 0 m (fun i x => store x (ii + i + j * ld) (src (i + j * ld))) x) x.

(** The solve of a diagonal block: [x[k] = inv * x[k]] with the inverse
    precomputed, a triangular solve otherwise.  [inv_bc_ptr] is [Linv_bc_ptr]
    or [Uinv_bc_ptr], [uplo] and [diag] are the arguments of [dtrsm_]. *)
Definition diag_solve (Glu : Glu_persist_t) (Llu : LocalLU_t) (D : diag_inverses)
    (inv_bc_ptr : array (array double)) (uplo diag : string)
    (nrhs k ii lk : Z) (w : workspace) : workspace :=
  let knsupc := SuperSize (xsup Glu) k in
  let lusup := Lnzval_bc_ptr Llu lk in
  let nsupr := lsub_at Llu lk 1 in
  if Llu_inv D =? 1 then
    let rtemp_loc :=
      dgemm_ "N" "N" knsupc nrhs knsupc one (inv_bc_ptr lk) knsupc
             (shift (w_x w) ii) knsupc zero (w_rtemp w) knsupc in
    let w := set_rtemp w rtemp_loc in
    set_x w (store_block ii (knsupc * nrhs) rtemp_loc (w_x w))
  else
    let xk := dtrsm_ "L" uplo "N" diag knsupc nrhs one lusup nsupr
                     (shift (w_x w) ii) knsupc in
    set_x w (store_panel ii knsupc nrhs knsupc xk (w_x w)).

(** Lines 1256 to 1319 and 1325 to 1383: the solve of leaf [k]. *)
Definition leaf_solve (grid : gridinfo_t) (Glu : Glu_persist_t) (Llu : LocalLU_t)
    (D : diag_inverses) (nrhs aln_i : Z) (k : Z) (w : workspace) : workspace :=
  let lk := LBi k grid in
  let ii := X_BLK XK_H (Llu_ilsum Llu) nrhs lk in
  let lk := LBj k grid in  (* local block number, column-wise *)
  let w := diag_solve Glu Llu D (Linv_bc_ptr D) "L" "U" nrhs k ii lk w in
  (* Send Xk to process column Pc[k]. *)
  match LBtree_ptr Llu lk with
  | Some _ => push_leaf_send aln_i w lk
  | None => w
  end.

(** Lines 1404 to 1418: the local block modifications of leaf [k]. *)
Definition leaf_update (grid : gridinfo_t) (Llu : LocalLU_t) (nrhs : Z)
    (k : Z) (w : workspace) : workspace :=
  let lk := LBi k grid in
  let ii := X_BLK XK_H (Llu_ilsum Llu) nrhs lk in
  dlsum_fmod_inv nrhs k (shift (w_x w) ii) w.

(** Lines 1422 to 1442: entry [i] of [leaf_send] is forwarded, a block of
    [x] down its broadcast tree or a block of [lsum] up its reduction
    tree. *)
Definition leaf_forward (grid : gridinfo_t) (Llu : LocalLU_t)
    (mycol nrhs aln_i : Z) (i : Z) (w : workspace) : workspace :=
  let lk := w_leaf_send w (i * aln_i) in
  if 0 <=? lk then  (* this is a bcast forwarding *)
    let gb := mycol + lk * npcol grid in
    let lib := LBi gb grid in
    let ii := X_BLK XK_H (Llu_ilsum Llu) nrhs lib in
    forward w {| msg_tag := BC_L; msg_tree := lk; msg_buf := shift (w_x w) (ii - XK_H);
                 msg_len := tree_msg_size (LBtree_ptr Llu lk) * nrhs + XK_H |}
  else  (* this is a reduce forwarding *)
    let lk := - lk - 1 in
    let il := LSUM_BLK LSUM_H (Llu_ilsum Llu) nrhs lk in
    forward w {| msg_tag := RD_L; msg_tree := lk; msg_buf := shift (w_lsum w) (il - LSUM_H);
                 msg_len := tree_msg_size (LRtree_ptr Llu lk) * nrhs + LSUM_H |}.

(** Lines 2002 to 2090: the solve of root [k]. *)
Definition root_solve (grid : gridinfo_t) (Glu : Glu_persist_t) (Llu : LocalLU_t)
    (D : diag_inverses) (nrhs aln_i : Z) (k : Z) (w : workspace) : workspace :=
  let lk := LBi k grid in
  let ii := X_BLK XK_H (Llu_ilsum Llu) nrhs lk in
  let lk := LBj k grid in  (* local block number, column-wise *)
  let w := diag_solve Glu Llu D (Uinv_bc_ptr D) "U" "N" nrhs k ii lk w in
  (* Send Xk to process column Pc[k]. *)
  match UBtree_ptr Llu lk with
  | Some _ => push_root_send aln_i w lk
  | None => w
  end.

(** Lines 2106 to 2120: the local block modifications of root [k]. *)
Definition root_update (grid : gridinfo_t) (Llu : LocalLU_t) (nrhs : Z)
    (k : Z) (w : workspace) : workspace :=
  let lk := LBi k grid in
  let ii := X_BLK XK_H (Llu_ilsum Llu) nrhs lk in
  let lk := LBj k grid in
  if Urbs Llu lk =? 0 then w
  else dlsum_bmod_inv nrhs k (shift (w_x w) ii) w.

(** Lines 2125 to 2137: entry [i] of [root_send] is forwarded. *)
Definition root_forward (grid : gridinfo_t) (Llu : LocalLU_t)
    (mycol nrhs aln_i : Z) (i : Z) (w : workspace) : workspace :=
  let lk := w_root_send w (i * aln_i) in
  if 0 <=? lk then  (* this is a bcast forwarding *)
    let gb := mycol + lk * npcol grid in
    let lib := LBi gb grid in
    let ii := X_BLK XK_H (Llu_ilsum Llu) nrhs lib in
    forward w {| msg_tag := BC_U; msg_tree := lk; msg_buf := shift (w_x w) (ii - XK_H);
                 msg_len := tree_msg_size (UBtree_ptr Llu lk) * nrhs + XK_H |}
  else  (* this is a reduce forwarding *)
    let lk := - lk - 1 in
    let il := LSUM_BLK LSUM_H (Llu_ilsum Llu) nrhs lk in
    forward w {| msg_tag := RD_U; msg_tree := lk; msg_buf := shift (w_lsum w) (il - LSUM_H);
                 msg_len := tree_msg_size (URtree_ptr Llu lk) * nrhs + LSUM_H |}.

(** Lines 1856 to 1870: the bodies of the blocks of [lsum] are zeroed again
    before the backward solve (the build without OpenMP). *)
Definition lsum_rezero (grid : gridinfo_t) (Glu : Glu_persist_t) (myrow nsupers nrhs : Z)
    (ilsum : array Z) (num_thread sizelsum : Z) (lsum : array double) : array double :=
  for_ 0 nsupers
    (fun k lsum =>
       let krow := PROW k grid in
       if myrow =? krow then
         let knsupc := SuperSize (xsup Glu) k in
         let lk := LBi k grid in
         let il := LSUM_BLK LSUM_H ilsum nrhs lk in
         for_ 0 num_thread
           (fun jj lsum =>
              for_ 0 nrhs
                (fun j lsum =>
                   for_ 0 knsupc
                     (fun i lsum => store lsum (il + (i + j * knsupc + jj * sizelsum)) zero)
                     lsum)
                lsum)
           lsum
       else lsum)
    lsum.

(** ** pdgstrs: the progress loops *)

Definition tree_is_root (t : option tree) : bool :=
  match t with Some t => is_root t | None => false end.

(** [lsum[il + i + j*knsupc] += tempv[i + j*knsupc]] over a block: a
    received partial sum is accumulated ([thread_id] is 0 in the loop). *)
Definition accumulate (il knsupc nrhs : Z) (tempv lsum : array double) : array double :=
  for_ 0 nrhs
    (fun j lsum =>
       for_ 0 knsupc
         (fun i lsum =>
            store lsum (i + il + j * knsupc)
                  (dadd (lsum (i + il + j * knsupc)) (tempv (i + j * knsupc))))
         lsum)
    lsum.

(** [for (ii = 1; ii < num_thread; ii++) for (jj = 0; jj < knsupc*nrhs; jj++)
    lsum[il + jj] += lsum[il + jj + ii*sizelsum];]. *)
Definition sum_threads (il knsupc nrhs num_thread sizelsum : Z) (lsum : array double)
    : array double :=
  for_ 1 num_thread
    (fun ii lsum =>
       for_ 0 (knsupc * nrhs)
         (fun jj lsum =>
            store lsum (il + jj) (dadd (lsum (il + jj)) (lsum (il + jj + ii * sizelsum))))
         lsum)
    lsum.

(** [x[i + ii + j*knsupc] += lsum[i + il + j*knsupc]] over a block. *)
Definition fold_lsum (ii il knsupc nrhs : Z) (lsum x : array double) : array double :=
  for_ 0 nrhs
    (fun j x =>
       for_ 0 knsupc
         (fun i x =>
            store x (i + ii + j * knsupc)
                  (dadd (x (i + ii + j * knsupc)) (lsum (i + il + j * knsupc))))
         x)
    x.

(** One iteration of the loop of the backward solve (lines 2158 to 2327):
    a message is received and handled by its tag.  The state is the
    workspace and [nbrecvx_buf]. *)
Definition backward_receive (grid : gridinfo_t) (Glu : Glu_persist_t) (Llu : LocalLU_t)
    (D : diag_inverses) (nrhs aln_i num_thread sizelsum : Z)
    (nbrecv : Z) (st : workspace * Z) : workspace * Z :=
  let '(w, nbrecvx_buf) := st in
  (* Receive a message. *)
  let '(recvbuf0, TAG) := MPI_Recv nbrecv in
  let k := to_int (recvbuf0 0) in
  match TAG with
  | BC_U =>
      let nbrecvx_buf := nbrecvx_buf + 1 in
      let lk := LBj k grid in  (* local block number *)
      let w :=
        if 0 <? tree_dest_count (UBtree_ptr Llu lk) then
          forward w {| msg_tag := BC_U; msg_tree := lk; msg_buf := recvbuf0;
                       msg_len := tree_msg_size (UBtree_ptr Llu lk) * nrhs + XK_H |}
        else w in
      (dlsum_bmod_inv_master nrhs k (shift recvbuf0 XK_H) w, nbrecvx_buf)
  | RD_U =>
      let lk := LBi k grid in  (* local block number, row-wise *)
      let knsupc := SuperSize (xsup Glu) k in
      let tempv := shift recvbuf0 LSUM_H in
      let il := LSUM_BLK LSUM_H (Llu_ilsum Llu) nrhs lk in
      let w := set_lsum w (accumulate il knsupc nrhs tempv (w_lsum w)) in
      let bmod_tmp := w_bmod w (lk * aln_i) - 1 in
      let w := set_bmod w (store (w_bmod w) (lk * aln_i) bmod_tmp) in
      if bmod_tmp =? 0 then
        if tree_is_root (URtree_ptr Llu lk) then
          let w := set_lsum w (sum_threads il knsupc nrhs num_thread sizelsum (w_lsum w)) in
          let ii := X_BLK XK_H (Llu_ilsum Llu) nrhs lk in
          let w := set_x w (fold_lsum ii il knsupc nrhs (w_lsum w) (w_x w)) in
          let lk := LBj k grid in  (* local block number, column-wise *)
          let w := diag_solve Glu Llu D (Uinv_bc_ptr D) "U" "N" nrhs k ii lk w in
          (* Send Xk to process column Pc[k]. *)
          let w :=
            match UBtree_ptr Llu lk with
            | Some t =>
                forward w {| msg_tag := BC_U; msg_tree := lk;
                             msg_buf := shift (w_x w) (ii - XK_H);
                             msg_len := msg_size t * nrhs + XK_H |}
            | None => w
            end in
          (* Perform local block modifications. *)
          let w :=
            if Urbs Llu lk =? 0 then w
            else dlsum_bmod_inv_master nrhs k (shift (w_x w) ii) w in
          (w, nbrecvx_buf)
        else
          let w := set_lsum w (sum_threads il knsupc nrhs num_thread sizelsum (w_lsum w)) in
          (forward w {| msg_tag := RD_U; msg_tree := lk;
                        msg_buf := shift (w_lsum w) (il - LSUM_H);
                        msg_len := tree_msg_size (URtree_ptr Llu lk) * nrhs + LSUM_H |},
           nbrecvx_buf)
      else (w, nbrecvx_buf)
  | _ => (w, nbrecvx_buf)
  end.

(** Line 2151, [for (nbrecv = 0; nbrecv < nbrecvx+nbrecvmod; nbrecv++)]:
    the loop of the backward solve; with the workspace it gives the final
    value of the counter [nbrecv]. *)
Definition backward_loop (grid : gridinfo_t) (Glu : Glu_persist_t) (Llu : LocalLU_t)
    (D : diag_inverses) (nrhs aln_i num_thread sizelsum : Z)
    (nbrecvmod : Z) (w : workspace) : workspace * Z :=
  let '(w, _, nbrecv) :=
    for_ 0 (nbrecvx Llu + nbrecvmod)
      (fun nbrecv '(w, nbrecvx_buf, _) =>
         let '(w, nbrecvx_buf) :=
           backward_receive grid Glu Llu D nrhs aln_i num_thread sizelsum nbrecv
                            (w, nbrecvx_buf) in
         (w, nbrecvx_buf, nbrecv + 1))
      (w, 0, 0) in
  (w, nbrecv).

(** *** The one-sided loop of the forward solve

    The transport writes into the window [recvbuf_oneside]; its first
    [Pr + Pc] cells count the messages put by each process of the column
    and of the row.  [window s] is what the window holds at sweep [s] of the
    loop. *)
Variable window : nat -> array double.

(** What the loop keeps besides the counter [nfrecv]: the numbers of
    messages already handled per origin, and the workspace. *)
Record drained := {
  BCis_solved : array Z;
  RDis_solved : array Z;
  d_work : workspace
}.

(** The body of the loop over [tidx] (lines 1516 to 1739), whose arguments
    are the window, [BC_subtotal_all], [BC_subtotal] and [tidx]; it handles
    the messages found in the window and advances [BCis_solved] and
    [RDis_solved].  It assigns neither [nfrecv], nor [tidx], nor the
    totals. *)
Variable oneside_task : array double -> Z -> array Z -> Z -> drained -> drained.

(** Lines 1493 to 1499; the state is [(nfrecv, BC_subtotal, BC_subtotal_all)]. *)
Definition sweep_BC (Pr : Z) (recvbuf_oneside : array double) (d : drained)
    (st : Z * array Z * Z) : Z * array Z * Z :=
  for_ 0 Pr
    (fun i '(nfrecv, BC_subtotal, BC_subtotal_all) =>
       let BC_subtotal := store BC_subtotal i (to_int (recvbuf_oneside i)) in
       let nfrecv := nfrecv + BCis_solved d i in
       (nfrecv, BC_subtotal, BC_subtotal_all + (BC_subtotal i - BCis_solved d i)))
    st.

(** Lines 1501 to 1507; the state is [(nfrecv, RD_subtotal, RD_subtotal_all)].
    The source indexes [RD_subtotal] and [RDis_solved] from [Pr]. *)
Definition sweep_RD (Pr Pc : Z) (recvbuf_oneside : array double) (d : drained)
    (st : Z * array Z * Z) : Z * array Z * Z :=
  for_ Pr (Pc + Pr)
    (fun i '(nfrecv, RD_subtotal, RD_subtotal_all) =>
       let RD_subtotal := store RD_subtotal i (to_int (recvbuf_oneside i)) in
       let nfrecv := nfrecv + RDis_solved d i in
       (nfrecv, RD_subtotal, RD_subtotal_all + (RD_subtotal i - RDis_solved d i)))
    st.

(** Line 1487, [while (nfrecv <= nfrecvx+nfrecvmod)], with a bound on the
    number of sweeps: [None] when the loop is still running after [fuel]
    sweeps. *)
Fixpoint oneside_loop (fuel : nat) (sweep : nat) (Pr Pc nfrecvx nfrecvmod : Z)
    (BC_subtotal RD_subtotal : array Z) (nfrecv : Z) (d : drained)
    : option (Z * drained) :=
  match fuel with
  | O => None
  | S fuel =>
      if nfrecv <=? nfrecvx + nfrecvmod then
        let recvbuf_oneside := window sweep in
        let '(nfrecv, BC_subtotal, BC_subtotal_all) :=
          sweep_BC Pr recvbuf_oneside d (nfrecv, BC_subtotal, 0) in
        let '(nfrecv, RD_subtotal, RD_subtotal_all) :=
          sweep_RD Pr Pc recvbuf_oneside d (nfrecv, RD_subtotal, 0) in
        let d :=
          for_ 0 (BC_subtotal_all + RD_subtotal_all)
               (oneside_task recvbuf_oneside BC_subtotal_all BC_subtotal) d in
        oneside_loop fuel (S sweep) Pr Pc nfrecvx nfrecvmod BC_subtotal RD_subtotal nfrecv d
      else Some (nfrecv, d)
  end.

(** ** pdgstrs *)

(** What the caller of [pdgstrs] can observe afterwards: [B], [*info], the
    reports of [pxerr_dist], the scratch pointers of [gstrs_comm],
    [Llu->SolveMsgSent], and the messages sent.  [s_x] is not for the
    caller: it keeps what the working array [x] of the call held after each
    phase of the solve, the latest first, for the properties that are about
    [x]. *)
Record solve_state := {
  s_B : array double;
  s_info : Z;
  s_errors : list (string * Z);
  s_ptr_to_ibuf : array Z;
  s_ptr_to_dbuf : array Z;
  s_SolveMsgSent : Z;
  s_sent : list message;
  s_x : list (array double)
}.

(** How a call of [pdgstrs] ends: by [return], by [exit(status)], by
    [ABORT], or not at all within the sweeps allowed to the one-sided
    loop. *)
Inductive outcome : Type :=
| Returned (s : solve_state)
| Exited (status : Z) (s : solve_state)
| Aborted (msg : string)
| Spinning.

(** A statement either passes control on, with a value, or ends the call. *)
Inductive control (A : Type) : Type :=
| Next (a : A)
| Stop (o : outcome).
Arguments Stop {A} o.

Definition and_then {A C} (c : control A) (f : A -> control C) : control C :=
  match c with
  | Next a => f a
  | Stop o => Stop o
  end.

Notation "'step' x <- c ; k" := (and_then c (fun x => k))
  (at level 10, x pattern, c at level 100, k at level 200).

(** [if (!(p = malloc(size))) ABORT(msg);]. *)
Definition allocate (env : @environment double) (size : Z) (msg : string) : control unit :=
  if can_alloc env size then Next tt else Stop (Aborted msg).

(** A call of a redistribution routine, which can abort. *)
Definition call {A} (r : result A) : control A :=
  match r with
  | Done a => Next a
  | Abort msg => Stop (Aborted msg)
  end.

(** [exit(status)]. *)
Definition exit_ (status : Z) (s : solve_state) : control unit :=
  Stop (Exited status s).

Definition ended (c : control outcome) : outcome :=
  match c with
  | Next o => o
  | Stop o => o
  end.

(** [((size + (aln - 1)) / aln) * aln], a size rounded up to the cache
    line. *)
Definition round_up (size aln : Z) : Z := Z.quot (size + (aln - 1)) aln * aln.

Definition entry_state (B : array double) (info : Z) (SOLVEstruct : SOLVEstruct_t)
    (SolveMsgSent : Z) : solve_state :=
  {| s_B := B; s_info := info; s_errors := [];
     s_ptr_to_ibuf := ptr_to_ibuf (gstrs_comm SOLVEstruct);
     s_ptr_to_dbuf := ptr_to_dbuf (gstrs_comm SOLVEstruct);
     s_SolveMsgSent := SolveMsgSent; s_sent := []; s_x := [] |}.

Definition with_info (s : solve_state) (info : Z) : solve_state :=
  {| s_B := s_B s; s_info := info; s_errors := s_errors s;
     s_ptr_to_ibuf := s_ptr_to_ibuf s; s_ptr_to_dbuf := s_ptr_to_dbuf s;
     s_SolveMsgSent := s_SolveMsgSent s; s_sent := s_sent s; s_x := s_x s |}.

(** [pxerr_dist(srname, grid, info)] reports an illegal argument. *)
Definition pxerr_dist (s : solve_state) (srname : string) (info : Z) : solve_state :=
  {| s_B := s_B s; s_info := s_info s; s_errors := s_errors s ++ [(srname, info)];
     s_ptr_to_ibuf := s_ptr_to_ibuf s; s_ptr_to_dbuf := s_ptr_to_dbuf s;
     s_SolveMsgSent := s_SolveMsgSent s; s_sent := s_sent s; s_x := s_x s |}.

Definition with_SolveMsgSent (s : solve_state) (v : Z) : solve_state :=
  {| s_B := s_B s; s_info := s_info s; s_errors := s_errors s;
     s_ptr_to_ibuf := s_ptr_to_ibuf s; s_ptr_to_dbuf := s_ptr_to_dbuf s;
     s_SolveMsgSent := v; s_sent := s_sent s; s_x := s_x s |}.

(** What a redistribution leaves in [gstrs_comm], and in [B] when it is the
    array filled. *)
Definition with_scratch (s : solve_state) (r : @redistributed double) : solve_state :=
  {| s_B := s_B s; s_info := s_info s; s_errors := s_errors s;
     s_ptr_to_ibuf := ibuf_ptr r; s_ptr_to_dbuf := dbuf_ptr r;
     s_SolveMsgSent := s_SolveMsgSent s; s_sent := s_sent s; s_x := s_x s |}.

Definition with_B (s : solve_state) (B : array double) : solve_state :=
  {| s_B := B; s_info := s_info s; s_errors := s_errors s;
     s_ptr_to_ibuf := s_ptr_to_ibuf s; s_ptr_to_dbuf := s_ptr_to_dbuf s;
     s_SolveMsgSent := s_SolveMsgSent s; s_sent := s_sent s; s_x := s_x s |}.

Definition with_sent (s : solve_state) (sent : list message) : solve_state :=
  {| s_B := s_B s; s_info := s_info s; s_errors := s_errors s;
     s_ptr_to_ibuf := s_ptr_to_ibuf s; s_ptr_to_dbuf := s_ptr_to_dbuf s;
     s_SolveMsgSent := s_SolveMsgSent s; s_sent := sent; s_x := s_x s |}.

(** [x] as a phase of the solve leaves it. *)
Definition with_x (s : solve_state) (x : array double) : solve_state :=
  {| s_B := s_B s; s_info := s_info s; s_errors := s_errors s;
     s_ptr_to_ibuf := s_ptr_to_ibuf s; s_ptr_to_dbuf := s_ptr_to_dbuf s;
     s_SolveMsgSent := s_SolveMsgSent s; s_sent := s_sent s; s_x := x :: s_x s |}.

(** [SOLVEstruct] with the scratch pointers as the solve state has them. *)
Definition scratch_of (SOLVEstruct : SOLVEstruct_t) (s : solve_state) : SOLVEstruct_t :=
  {| gstrs_comm :=
       {| B_to_X_SendCnt := B_to_X_SendCnt (gstrs_comm SOLVEstruct);
          X_to_B_SendCnt := X_to_B_SendCnt (gstrs_comm SOLVEstruct);
          ptr_to_ibuf := s_ptr_to_ibuf s;
          ptr_to_dbuf := s_ptr_to_dbuf s |};
     row_to_proc := row_to_proc SOLVEstruct;
     diag_procs := diag_procs SOLVEstruct;
     num_diag_procs := num_diag_procs SOLVEstruct |}.

(** [memset(a, 0, len * sizeof(int))] on a fresh array. *)
Definition memset0 (len : Z) (a : array Z) : array Z :=
  for_ 0 len (fun i a => store a i 0) a.

(** [pdgstrs(n, LUstruct, ScalePermstruct, grid, B, m_loc, fst_row, ldb,
    nrhs, SOLVEstruct, stat, info)], for the build without OpenMP and without
    the print, debug and profile levels.  [oneside] is the build flag of the
    one-sided transport, [fuel] bounds the sweeps of its loop; [aln_i] and
    [aln_d] are the cache-line paddings; [info] and [SolveMsgSent] are what
    [*info] and [Llu->SolveMsgSent] hold on entry.  Barriers, timers,
    statistics, the requests of the trees and the creation of the one-sided
    window leave no trace in the state and are left out; the calls of [free]
    as well.  The lines [with_x] are no statements of the source: they note
    what [x] holds after the redistribution, after each loop over the leaves
    or the roots, and after each progress loop. *)
Definition pdgstrs (fuel : nat) (oneside : bool) (env : @environment double)
    (aln_i aln_d num_thread : Z)
    (n : Z) (Glu : Glu_persist_t) (Llu : LocalLU_t) (D : diag_inverses)
    (ScalePermstruct : ScalePermstruct_t) (grid : gridinfo_t)
    (B : array double) (m_loc fst_row ldb nrhs : Z)
    (SOLVEstruct : SOLVEstruct_t) (info SolveMsgSent : Z) : outcome :=
  ended (
    let s := entry_state B info SOLVEstruct SolveMsgSent in
    (* Test input parameters. *)
    let s := with_info s (test_input_parameters n nrhs) in
    step _ <- (if negb (s_info s =? 0)
               then Stop (Returned (pxerr_dist s "PDGSTRS" (- s_info s)))
               else Next tt);
    (* Initialization. *)
    let Pc := npcol grid in
    let Pr := nprow grid in
    let myrow := MYROW (iam grid) grid in
    let mycol := MYCOL (iam grid) grid in
    let nsupers := supno Glu (n - 1) + 1 in
    let nlb := CEILING nsupers Pr in  (* number of local block rows *)
    let s := with_SolveMsgSent s 0 in
    step _ <- allocate env (nlb * aln_i) "Calloc fails for fmod[].";
    step _ <- allocate env nlb "Malloc fails for frecv[].";
    step _ <- allocate env ((CEILING nsupers Pr + CEILING nsupers Pc) * aln_i)
                       "Malloc fails for leaf_send[].";
    step _ <- allocate env ((CEILING nsupers Pr + CEILING nsupers Pc) * aln_i)
                       "Malloc fails for root_send[].";
    let ilsum := Llu_ilsum Llu in
    let ldalsum := ldalsum Llu in
    (* Allocate working storage. *)
    let knsupc := sp_ienv_dist 3 in
    let maxrecvsz := knsupc * nrhs + SUPERLU_MAX XK_H LSUM_H in
    let sizelsum := round_up (ldalsum * nrhs + nlb * LSUM_H) aln_d in
    step _ <- allocate env (sizelsum * num_thread) "Malloc fails for lsum[].";
    let lsum := zero_fill (sizelsum * num_thread) (heap_double env) in
    step _ <- allocate env (ldalsum * nrhs + nlb * XK_H) "Calloc fails for x[].";
    let x := heap_double env in
    let sizertemp := round_up (ldalsum * nrhs) aln_d in
    step _ <- allocate env (sizertemp * num_thread) "Malloc fails for rtemp[].";
    let rtemp := zero_fill (sizertemp * num_thread) (heap_double env) in
    step _ <- allocate env num_thread "Malloc fails for stat_loc[].";
    (* Forward solve Ly = b. *)
    (* Redistribute B into X on the diagonal processes. *)
    step r <- call (pdReDistribute_B_to_X of_int XK_H env (s_B s) m_loc nrhs ldb fst_row
                      ilsum x ScalePermstruct Glu grid (scratch_of SOLVEstruct s));
    let s := with_scratch s r in
    let x := filled r in
    let s := with_x s x in
    (* Set up the headers in lsum[]. *)
    let lsum := lsum_headers grid myrow nsupers nrhs ilsum lsum in
    (* Initialize the async Bcast trees on all processes. *)
    let nsupers_i := CEILING nsupers (nprow grid) in  (* number of local block rows *)
    step _ <- allocate env nsupers_i "Calloc fails for leafsups.";
    let fc := forward_setup grid Llu myrow mycol nsupers nlb aln_i (heap_int env) in
    step _ <- (if oneside then Next tt
               else allocate env (maxrecvsz * (nfrecvx Llu + 1))
                             "Malloc fails for recvbuf_BC_fwd[].");
    let w := {| w_x := x; w_lsum := lsum; w_rtemp := rtemp; w_fmod := fmod fc;
                w_bmod := heap_int env;
                w_leaf_send := heap_int env; w_nleaf_send := 0;
                w_root_send := heap_int env; w_nroot_send := 0;
                w_sent := s_sent s |} in
    (* Solve the leaf nodes first by all the diagonal processes. *)
    let w := for_ 0 (nleaf fc)
               (fun jj w => leaf_solve grid Glu Llu D nrhs aln_i (leafsups fc jj) w) w in
    let s := with_x s (w_x w) in
    let w := for_ 0 (nleaf fc)
               (fun jj w => leaf_update grid Llu nrhs (leafsups fc jj) w) w in
    let s := with_x s (w_x w) in
    let w := for_ 0 (w_nleaf_send w) (leaf_forward grid Llu mycol nrhs aln_i) w in
    (* Compute the internal nodes asynchronously by all processes. *)
    step w <- (if oneside then
                 match oneside_loop fuel 0 Pr Pc (nfrecvx Llu) (nfrecvmod fc)
                         (heap_int env) (heap_int env) 0
                         {| BCis_solved := memset0 Pr (heap_int env);
                            RDis_solved := memset0 Pc (heap_int env);
                            d_work := w |} with
                 | Some (_, d) => Next (d_work d)
                 | None => Stop Spinning
                 end
               else Next w);
    let s := with_x (with_sent s (w_sent w)) (w_x w) in
    (* MPI_Barrier(MPI_COMM_WORLD); exit(0); *)
    step _ <- exit_ 0 s;
    (* Back solve Ux = y. *)
    step _ <- allocate env (nlb * aln_i) "Calloc fails for bmod[].";
    step _ <- allocate env nlb "Malloc fails for brecv[].";
    (* Re-initialize lsum to zero. Each block header is already in place. *)
    let lsum := lsum_rezero grid Glu myrow nsupers nrhs ilsum num_thread sizelsum
                            (w_lsum w) in
    (* Initialize the async Bcast trees on all processes. *)
    step _ <- allocate env nsupers_i "Calloc fails for rootsups.";
    let bc := backward_setup grid Llu myrow mycol nsupers nlb aln_i (heap_int env) in
    step _ <- allocate env (maxrecvsz * (nbrecvx Llu + 1))
                       "Malloc fails for recvbuf_BC_fwd[].";
    let w := set_bmod (set_lsum w lsum) (bmod bc) in
    (* Solve the roots first by all the diagonal processes. *)
    let w := for_ 0 (nroot bc)
               (fun jj w => root_solve grid Glu Llu D nrhs aln_i (rootsups bc jj) w) w in
    let s := with_x s (w_x w) in
    let w := for_ 0 (nroot bc)
               (fun jj w => root_update grid Llu nrhs (rootsups bc jj) w) w in
    let s := with_x s (w_x w) in
    let w := for_ 0 (w_nroot_send w) (root_forward grid Llu mycol nrhs aln_i) w in
    (* Compute the internal nodes asychronously by all processes. *)
    let '(w, _) := backward_loop grid Glu Llu D nrhs aln_i num_thread sizelsum
                                 (nbrecvmod bc) w in
    let s := with_x (with_sent s (w_sent w)) (w_x w) in
    step r <- call (pdReDistribute_X_to_B XK_H env n (s_B s) m_loc ldb fst_row nrhs
                      (w_x w) ilsum ScalePermstruct Glu grid (scratch_of SOLVEstruct s));
    let s := with_B (with_scratch s r) (filled r) in
    Next (Returned s)).

(** * Properties of the solve *)

(** ** The input test *)

Lemma test_input_parameters_cases n nrhs :
  (n < 0 /\ test_input_parameters n nrhs = -1) \/
  (0 <= n /\ nrhs < 0 /\ test_input_parameters n nrhs = -9) \/
  (0 <= n /\ 0 <= nrhs /\ test_input_parameters n nrhs = 0).
Proof.
  unfold test_input_parameters.
  destruct (Z.ltb_spec n 0); [left; lia|].
  destruct (Z.ltb_spec nrhs 0); [right; left; lia | right; right; lia].
Qed.

Section PdgstrsControl.
Variables (fuel : nat) (oneside : bool) (env : @environment double).
Variables (aln_i aln_d num_thread n : Z).
Variables (Glu : Glu_persist_t) (Llu : LocalLU_t) (D : diag_inverses).
Variables (SP : ScalePermstruct_t) (grid : gridinfo_t) (B : array double).
Variables (m_loc fst_row ldb nrhs : Z) (SOLVE : SOLVEstruct_t) (info SolveMsgSent : Z).

Let run := pdgstrs fuel oneside env aln_i aln_d num_thread n Glu Llu D SP grid
                   B m_loc fst_row ldb nrhs SOLVE info SolveMsgSent.

(** A rejected call returns at once, with the entry state but for [*info]
    and the report. *)
Lemma pdgstrs_rejected :
  test_input_parameters n nrhs <> 0 ->
  run = Returned (pxerr_dist (with_info (entry_state B info SOLVE SolveMsgSent)
                                        (test_input_parameters n nrhs))
                             "PDGSTRS" (- test_input_parameters n nrhs)).
Proof.
  intros Hbad. unfold run, pdgstrs. cbv zeta. cbn [s_info with_info].
  apply Z.eqb_neq in Hbad. rewrite Hbad. reflexivity.
Qed.

(** An accepted call ends by [exit(0)], unless an allocation fails or the
    one-sided loop keeps running; [B] is as on entry then. *)
Lemma pdgstrs_accepted :
  test_input_parameters n nrhs = 0 ->
  match run with
  | Returned _ => False
  | Exited status s => status = 0 /\ s_B s = B /\ s_info s = 0
  | Aborted _ => True
  | Spinning => oneside = true
  end.
Proof.
  intros Hok. unfold run, pdgstrs. cbv zeta. cbn [s_info with_info].
  rewrite Hok. cbn [Z.eqb negb and_then].
  repeat (unfold allocate at 1;
          match goal with
          | |- context [can_alloc env ?sz] => destruct (can_alloc env sz)
          end; [cbn [and_then] | exact I]).
  match goal with
  | |- context [call ?c] => destruct c as [r|msg]; [cbn [call and_then] | exact I]
  end.
  unfold allocate at 1.
  match goal with
  | |- context [can_alloc env ?sz] => destruct (can_alloc env sz)
  end; [cbn [and_then] | exact I].
  destruct oneside.
  - cbn [and_then].
    match goal with
    | |- context [oneside_loop ?a ?b ?c ?d ?e ?f ?g ?h ?i ?j] =>
        destruct (oneside_loop a b c d e f g h i j) as [[nf dr]|]
    end; [cbn; auto | reflexivity].
  - unfold allocate at 1.
    match goal with
    | |- context [can_alloc env ?sz] => destruct (can_alloc env sz)
    end; [cbn; auto | exact I].
Qed.

(** With enough memory and the two-sided transport, an accepted call ends
    by [exit(0)]. *)
Lemma pdgstrs_exits :
  test_input_parameters n nrhs = 0 ->
  (forall size, can_alloc env size = true) ->
  oneside = false ->
  exists s, run = Exited 0 s /\ s_B s = B /\ s_info s = 0.
Proof.
  intros Hok Hmem Htwo. unfold run, pdgstrs. cbv zeta. cbn [s_info with_info].
  rewrite Hok, Htwo. cbn [Z.eqb negb and_then]. unfold allocate. rewrite !Hmem.
  cbn [and_then].
  match goal with
  | |- context [call (pdReDistribute_B_to_X _ _ _ ?b ?ml ?nr ?ld ?fr ?il ?x ?sp ?gl ?gr ?so)] =>
      destruct (@B_to_X_done _ of_int XK_H env b x ml nr ld fr il sp gl gr so Hmem)
        as [r Hr]; rewrite Hr
  end.
  cbn [call and_then exit_ ended]. eexists. split; [reflexivity|]. cbn. auto.
Qed.

End PdgstrsControl.

(** ** The modification counts *)

(** A cell that iteration [j0] updates from its content and no other
    iteration touches. *)
Lemma for_update {A} (body : Z -> array A -> array A) lo hi x c j0 (f : A -> A) :
  lo <= j0 < hi ->
  (forall y, body j0 y c = f (y c)) ->
  (forall j y, lo <= j < hi -> j <> j0 -> body j y c = y c) ->
  for_ lo hi body x c = f (x c).
Proof.
  intros Hj0 Hupd Hother.
  assert (H : (hi <= j0 -> for_ lo hi body x c = x c) /\
              (j0 < hi -> for_ lo hi body x c = f (x c))).
  { apply (for_inv (fun j y => (j <= j0 -> y c = x c) /\ (j0 < j -> y c = f (x c))));
      [lia | split; [reflexivity | lia] |].
    intros j t Hj [Hbefore Hafter]. split.
    - intros Hle. rewrite Hother by lia. apply Hbefore. lia.
    - intros Hlt. destruct (Z.eq_dec j j0) as [->|Hne].
      + rewrite Hupd, Hbefore by lia. reflexivity.
      + rewrite Hother by lia. apply Hafter. lia. }
  apply H. lia.
Qed.

Lemma save_counts_at aln_i nlb saved fresh lk :
  0 < aln_i -> 0 <= lk < nlb ->
  save_counts aln_i nlb saved fresh (lk * aln_i) = saved lk.
Proof.
  intros Haln Hlk. unfold save_counts.
  apply for_set with (j0 := lk); [exact Hlk | intros y; apply store_same |].
  intros j y Hj. apply store_other. nia.
Qed.

Lemma add_recv_at aln_i nlb recv mod_ lk :
  0 < aln_i -> 0 <= lk < nlb ->
  add_recv aln_i nlb recv mod_ (lk * aln_i) = mod_ (lk * aln_i) + recv lk.
Proof.
  intros Haln Hlk. unfold add_recv.
  apply for_update with (j0 := lk) (f := fun v => v + recv lk); [exact Hlk | |].
  - intros y. apply store_same.
  - intros j y Hj Hne. apply store_other. nia.
Qed.

(** The counts to receive, in the state of the set-up loops. *)
Definition recv_of (st : counts) : array Z :=
  let '(recv, _, _, _, _) := st in recv.

Lemma leaf_step_single_recv grid myrow nsupers aln_i mod_ lk st :
  recv_of (leaf_step_single grid myrow nsupers aln_i mod_ lk st) = recv_of st.
Proof.
  destruct st as [[[[recv nrecvmod] sups] nsups] nrtree]. unfold leaf_step_single.
  destruct (_ <? _); [destruct (_ =? _)|]; reflexivity.
Qed.

Lemma tree_step_recv grid myrow mycol nsupers aln_i trees mod_ lk st :
  recv_of (tree_step grid myrow mycol nsupers aln_i trees mod_ lk st)
    = match trees lk with
      | Some t => store (recv_of st) lk (dest_count t)
      | None => recv_of st
      end.
Proof.
  destruct st as [[[[recv nrecvmod] sups] nsups] nrtree]. unfold tree_step.
  destruct (trees lk); [reflexivity|].
  destruct (_ <? _); [destruct (_ =? _); [destruct (_ =? _)|]|]; reflexivity.
Qed.

(** After the loop over the reduction trees, a row expects as many messages
    as its tree has destinations. *)
Lemma tree_loop_recv grid myrow mycol nsupers aln_i trees mod_ hi st lk :
  0 <= lk < hi ->
  recv_of (for_ 0 hi (tree_step grid myrow mycol nsupers aln_i trees mod_) st) lk
    = match trees lk with
      | Some t => dest_count t
      | None => recv_of st lk
      end.
Proof.
  intros Hlk.
  set (final := for_ 0 hi (tree_step grid myrow mycol nsupers aln_i trees mod_) st).
  assert (H : forall l,
    (0 <= l < hi ->
     recv_of final l = match trees l with Some t => dest_count t | None => recv_of st l end) /\
    (hi <= l -> recv_of final l = recv_of st l)).
  { apply (for_inv (fun j s => forall l,
      (0 <= l < j -> recv_of s l
         = match trees l with Some t => dest_count t | None => recv_of st l end) /\
      (j <= l -> recv_of s l = recv_of st l))).
    - lia.
    - intros l. split; [lia | reflexivity].
    - intros j s Hj IH l. rewrite tree_step_recv. split.
      + intros Hl. destruct (Z.eq_dec l j) as [->|Hne].
        * destruct (trees j); [apply store_same | apply IH; lia].
        * destruct (trees j); [rewrite store_other by exact Hne|]; apply IH; lia.
      + intros Hl. destruct (trees j); [rewrite store_other by lia|]; apply IH; lia. }
  apply H. exact Hlk.
Qed.

Lemma leaf_loop_recv grid myrow nsupers aln_i mod_ hi st :
  recv_of (for_ 0 hi (leaf_step_single grid myrow nsupers aln_i mod_) st) = recv_of st.
Proof.
  destruct (Z_le_gt_dec 0 hi) as [Hle|Hgt]; [|now rewrite for_empty by lia].
  apply (for_inv (fun _ s => recv_of s = recv_of st)); [exact Hle | reflexivity |].
  intros j s _ IH. now rewrite leaf_step_single_recv.
Qed.

Lemma forward_setup_counts grid Llu myrow mycol nsupers aln_i fresh lk :
  0 < aln_i ->
  0 <= lk < CEILING nsupers (nprow grid) ->
  let fc := forward_setup grid Llu myrow mycol nsupers
                          (CEILING nsupers (nprow grid)) aln_i fresh in
  fmod fc (lk * aln_i) = Llu_fmod Llu lk + frecv fc lk /\
  frecv fc lk = if nprow grid * npcol grid =? 1 then 0
                else tree_dest_count (LRtree_ptr Llu lk).
Proof.
  intros Haln Hlk fc. subst fc. unfold forward_setup.
  set (t := if nprow grid * npcol grid =? 1 then _ else _).
  assert (Hrecv : recv_of t lk
                  = if nprow grid * npcol grid =? 1 then 0
                    else tree_dest_count (LRtree_ptr Llu lk));
    [subst t | destruct t as [[[[recv nrecvmod] sups] nsups] nrtree]].
  - destruct (nprow grid * npcol grid =? 1).
    + rewrite leaf_loop_recv. reflexivity.
    + rewrite tree_loop_recv by exact Hlk. unfold tree_dest_count.
      destruct (LRtree_ptr Llu lk); reflexivity.
  - cbn [fmod frecv recv_of] in *.
    rewrite add_recv_at, save_counts_at by assumption. split; [reflexivity | exact Hrecv].
Qed.

Lemma backward_setup_counts grid Llu myrow mycol nsupers aln_i fresh lk :
  0 < aln_i ->
  0 <= lk < CEILING nsupers (nprow grid) ->
  let bc := backward_setup grid Llu myrow mycol nsupers
                           (CEILING nsupers (nprow grid)) aln_i fresh in
  bmod bc (lk * aln_i) = Llu_bmod Llu lk + brecv bc lk /\
  brecv bc lk = tree_dest_count (URtree_ptr Llu lk).
Proof.
  intros Haln Hlk bc. subst bc. unfold backward_setup.
  set (t := for_ 0 _ (tree_step _ _ _ _ _ _ _) _).
  assert (Hrecv : recv_of t lk = tree_dest_count (URtree_ptr Llu lk));
    [subst t | destruct t as [[[[recv nrecvmod] sups] nsups] nrtree]].
  - rewrite tree_loop_recv by exact Hlk. unfold tree_dest_count.
    destruct (URtree_ptr Llu lk); reflexivity.
  - cbn [bmod brecv recv_of] in *.
    rewrite add_recv_at, save_counts_at by assumption. split; [reflexivity | exact Hrecv].
Qed.

(** ** The progress loops *)

(** The one-sided loop is left only with the counter beyond the number of
    messages to receive. *)
Lemma oneside_loop_exit :
  forall fuel sweep Pr Pc nfrecvx nfrecvmod BC_subtotal RD_subtotal nfrecv d nfrecv' d',
    oneside_loop fuel sweep Pr Pc nfrecvx nfrecvmod BC_subtotal RD_subtotal nfrecv d
      = Some (nfrecv', d') ->
    nfrecvx + nfrecvmod < nfrecv'.
Proof.
  induction fuel as [|fuel IH]; intros sweep Pr Pc nfrecvx nfrecvmod BCs RDs nfrecv d
                                       nfrecv' d'; cbn [oneside_loop].
  - discriminate.
  - destruct (Z.leb_spec nfrecv (nfrecvx + nfrecvmod)) as [Hle|Hgt].
    + destruct (sweep_BC _ _ _ _) as [[nf1 BCs1] BCall].
      destruct (sweep_RD _ _ _ _ _) as [[nf2 RDs2] RDall].
      apply IH.
    + intros H. injection H as <- <-. exact Hgt.
Qed.

(** The loop of the backward solve ends with its counter at the number of
    messages to receive. *)
Lemma backward_loop_counter grid Glu Llu D nrhs aln_i num_thread sizelsum nbrecvmod w :
  snd (backward_loop grid Glu Llu D nrhs aln_i num_thread sizelsum nbrecvmod w)
    = Z.max 0 (nbrecvx Llu + nbrecvmod).
Proof.
  unfold backward_loop.
  set (body := fun (nbrecv : Z) (st : workspace * Z * Z) => _).
  assert (H : let '(_, _, c) := for_ 0 (nbrecvx Llu + nbrecvmod) body (w, 0, 0) in
              c = Z.max 0 (nbrecvx Llu + nbrecvmod)).
  { destruct (Z_le_gt_dec 0 (nbrecvx Llu + nbrecvmod)) as [Hle|Hgt].
    - replace (Z.max 0 (nbrecvx Llu + nbrecvmod)) with (nbrecvx Llu + nbrecvmod) by lia.
      apply (for_inv (fun j (st : workspace * Z * Z) => let '(_, _, c) := st in c = j));
        [exact Hle | reflexivity |].
      intros j [[w' b'] c'] Hj Hc. subst body. cbv beta iota.
      destruct (backward_receive _ _ _ _ _ _ _ _ _ _). reflexivity.
    - rewrite for_empty by lia. lia. }
  destruct (for_ _ _ _ _) as [[w' b'] c']. exact H.
Qed.

(** ** The inversion of the diagonal blocks *)

(** [*info] is never assigned. *)
Lemma pdCompute_Diag_Inv_info HAVE_LAPACK n Llu D Glu grid INFO info :
  snd (pdCompute_Diag_Inv HAVE_LAPACK n Llu D Glu grid INFO info) = info.
Proof.
  unfold pdCompute_Diag_Inv. destruct HAVE_LAPACK; [|reflexivity].
  destruct (for_ _ _ _ _). reflexivity.
Qed.

(** ** Where the solve writes into [x] *)

Lemma store_block_outside ii len src x c :
  c < ii \/ ii + len <= c -> store_block ii len src x c = x c.
Proof.
  intros Hc. unfold store_block. apply for_frame.
  intros i y Hi. apply store_other. lia.
Qed.

Lemma store_panel_outside ii m n src x c :
  c < ii \/ ii + m * n <= c -> store_panel ii m n m src x c = x c.
Proof.
  intros Hc. unfold store_panel. apply for_frame.
  intros j y Hj. apply for_frame. intros i z Hi. apply store_other. nia.
Qed.

Lemma fold_lsum_outside ii il knsupc nrhs lsum x c :
  c < ii \/ ii + knsupc * nrhs <= c -> fold_lsum ii il knsupc nrhs lsum x c = x c.
Proof.
  intros Hc. unfold fold_lsum. apply for_frame.
  intros j y Hj. apply for_frame. intros i z Hi. apply store_other. nia.
Qed.

(** The solve of a diagonal block writes the body of the block only. *)
Lemma diag_solve_outside Glu Llu D inv_bc_ptr uplo diag nrhs k ii lk w c :
  c < ii \/ ii + SuperSize (xsup Glu) k * nrhs <= c ->
  w_x (diag_solve Glu Llu D inv_bc_ptr uplo diag nrhs k ii lk w) c = w_x w c.
Proof.
  intros Hc. unfold diag_solve. destruct (Llu_inv D =? 1); cbn [w_x set_x set_rtemp].
  - now apply store_block_outside.
  - now apply store_panel_outside.
Qed.

Lemma leaf_solve_writes grid Glu Llu D nrhs aln_i k w size :
  size (LBi k grid) = SuperSize (xsup Glu) k ->
  writes_block XK_H (Llu_ilsum Llu) size nrhs (LBi k grid)
               (w_x w) (w_x (leaf_solve grid Glu Llu D nrhs aln_i k w)).
Proof.
  intros Hsize c Hc. rewrite Hsize in Hc. unfold leaf_solve.
  destruct (LBtree_ptr Llu (LBj k grid)); cbn [w_x push_leaf_send];
    now apply diag_solve_outside.
Qed.

Lemma root_solve_writes grid Glu Llu D nrhs aln_i k w size :
  size (LBi k grid) = SuperSize (xsup Glu) k ->
  writes_block XK_H (Llu_ilsum Llu) size nrhs (LBi k grid)
               (w_x w) (w_x (root_solve grid Glu Llu D nrhs aln_i k w)).
Proof.
  intros Hsize c Hc. rewrite Hsize in Hc. unfold root_solve.
  destruct (UBtree_ptr Llu (LBj k grid)); cbn [w_x push_root_send];
    now apply diag_solve_outside.
Qed.

Lemma fold_lsum_writes grid Glu Llu nrhs k lsum x size :
  size (LBi k grid) = SuperSize (xsup Glu) k ->
  writes_block XK_H (Llu_ilsum Llu) size nrhs (LBi k grid) x
    (fold_lsum (X_BLK XK_H (Llu_ilsum Llu) nrhs (LBi k grid))
               (LSUM_BLK LSUM_H (Llu_ilsum Llu) nrhs (LBi k grid))
               (SuperSize (xsup Glu) k) nrhs lsum x).
Proof.
  intros Hsize c Hc. rewrite Hsize in Hc. now apply fold_lsum_outside.
Qed.

(** ** What the specification states about the solve *)

(** The state is as on entry, but for [*info] and the reports. *)
Definition untouched (B : array double) (SOLVE : SOLVEstruct_t) (SolveMsgSent : Z)
    (s : solve_state) : Prop :=
  s_B s = B /\
  s_ptr_to_ibuf s = ptr_to_ibuf (gstrs_comm SOLVE) /\
  s_ptr_to_dbuf s = ptr_to_dbuf (gstrs_comm SOLVE) /\
  s_SolveMsgSent s = SolveMsgSent /\
  s_sent s = [].

(** C4.  [pdgstrs] tests its arguments first: with [n < 0] it sets [*info] to
    -1, otherwise with [nrhs < 0] to -9, and in both cases it reports the
    argument and returns with [B], the scratch of [gstrs_comm] and
    [Llu->SolveMsgSent] as they were and no message sent; with [n >= 0] and
    [nrhs >= 0] the test leaves 0 in [*info], whatever it held on entry:
    every state in which the call then ends has [*info = 0], and with enough
    memory and the two-sided transport the call does end in such a state. *)
Theorem pdgstrs_tests_its_input
    fuel oneside env aln_i aln_d num_thread n Glu Llu D SP grid B
    m_loc fst_row ldb nrhs SOLVE info SolveMsgSent :
  let run := pdgstrs fuel oneside env aln_i aln_d num_thread n Glu Llu D SP grid
                     B m_loc fst_row ldb nrhs SOLVE info SolveMsgSent in
  (n < 0 ->
   exists s, run = Returned s /\ s_info s = -1 /\ s_errors s = [("PDGSTRS"%string, 1)] /\
             untouched B SOLVE SolveMsgSent s) /\
  (0 <= n -> nrhs < 0 ->
   exists s, run = Returned s /\ s_info s = -9 /\ s_errors s = [("PDGSTRS"%string, 9)] /\
             untouched B SOLVE SolveMsgSent s) /\
  (0 <= n -> 0 <= nrhs ->
   (forall s, run = Returned s -> s_info s = 0) /\
   (forall status s, run = Exited status s -> s_info s = 0) /\
   ((forall size, can_alloc env size = true) -> oneside = false ->
    exists s, run = Exited 0 s /\ s_info s = 0)).
Proof.
  intros run.
  destruct (test_input_parameters_cases n nrhs)
    as [[Hn Ht] | [(Hn & Hr & Ht) | (Hn & Hr & Ht)]].
  - split; [|split; intros; lia]. intros _. subst run.
    rewrite pdgstrs_rejected by lia. rewrite Ht. eexists. split; [reflexivity|].
    cbn. unfold untouched. cbn. auto 10.
  - split; [intros; lia|]. split; [|intros; lia]. intros _ _. subst run.
    rewrite pdgstrs_rejected by lia. rewrite Ht. eexists. split; [reflexivity|].
    cbn. unfold untouched. cbn. auto 10.
  - split; [intros; lia|]. split; [intros; lia|]. intros _ _.
    pose proof (pdgstrs_accepted fuel oneside env aln_i aln_d num_thread n Glu Llu D SP grid
                  B m_loc fst_row ldb nrhs SOLVE info SolveMsgSent Ht) as Hacc.
    fold run in Hacc. split; [|split].
    + intros s Hs. rewrite Hs in Hacc. contradiction.
    + intros status s Hs. rewrite Hs in Hacc. apply Hacc.
    + intros Hmem Htwo.
      assert (Hex : exists s, run = Exited 0 s /\ s_B s = B /\ s_info s = 0)
        by (subst run; now apply pdgstrs_exits).
      destruct Hex as (s & Hs & _ & Hinfo).
      exists s. split; [exact Hs | exact Hinfo].
Qed.

(** C1, on the code.  With [n >= 0] and [nrhs >= 0], [pdgstrs] never returns:
    the call ends in [exit(0)] after the forward solve (or aborts, or stays in
    the one-sided loop), and with enough memory and the two-sided transport it
    does end in [exit(0)], [B] being as on entry. *)
Theorem pdgstrs_exits_after_forward_solve
    fuel oneside env aln_i aln_d num_thread n Glu Llu D SP grid B
    m_loc fst_row ldb nrhs SOLVE info SolveMsgSent :
  0 <= n -> 0 <= nrhs ->
  let run := pdgstrs fuel oneside env aln_i aln_d num_thread n Glu Llu D SP grid
                     B m_loc fst_row ldb nrhs SOLVE info SolveMsgSent in
  (forall s, run <> Returned s) /\
  (forall status s, run = Exited status s -> status = 0 /\ s_B s = B /\ s_info s = 0) /\
  ((forall size, can_alloc env size = true) -> oneside = false ->
   exists s, run = Exited 0 s /\ s_B s = B /\ s_info s = 0).
Proof.
  intros Hn Hr run.
  assert (Ht : test_input_parameters n nrhs = 0).
  { destruct (test_input_parameters_cases n nrhs) as [[? ?] | [(? & ? & ?) | (? & ? & ?)]];
      [lia | lia | assumption]. }
  pose proof (pdgstrs_accepted fuel oneside env aln_i aln_d num_thread n Glu Llu D SP grid
                B m_loc fst_row ldb nrhs SOLVE info SolveMsgSent Ht) as Hacc.
  fold run in Hacc. split; [|split].
  - intros s Hs. rewrite Hs in Hacc. exact Hacc.
  - intros status s Hs. rewrite Hs in Hacc. exact Hacc.
  - intros Hmem Htwo. subst run. now apply pdgstrs_exits.
Qed.

(** C9, on the code.  With [nrhs = 0] and [n >= 0], [pdgstrs] does not
    return either: with enough memory and the two-sided transport the call
    ends in [exit(0)], with [*info = 0] and [B] unchanged. *)
Theorem pdgstrs_without_right_hand_side
    fuel oneside env aln_i aln_d num_thread n Glu Llu D SP grid B
    m_loc fst_row ldb SOLVE info SolveMsgSent :
  0 <= n ->
  let run := pdgstrs fuel oneside env aln_i aln_d num_thread n Glu Llu D SP grid
                     B m_loc fst_row ldb 0 SOLVE info SolveMsgSent in
  (forall s, run <> Returned s) /\
  ((forall size, can_alloc env size = true) -> oneside = false ->
   exists s, run = Exited 0 s /\ s_B s = B /\ s_info s = 0).
Proof.
  intros Hn run.
  assert (Ht : test_input_parameters n 0 = 0).
  { destruct (test_input_parameters_cases n 0) as [[? ?] | [(? & ? & ?) | (? & ? & ?)]];
      [lia | lia | assumption]. }
  split.
  - intros s Hs.
    pose proof (pdgstrs_accepted fuel oneside env aln_i aln_d num_thread n Glu Llu D SP grid
                  B m_loc fst_row ldb 0 SOLVE info SolveMsgSent Ht) as Hacc.
    fold run in Hacc. rewrite Hs in Hacc. exact Hacc.
  - intros Hmem Htwo. subst run. now apply pdgstrs_exits.
Qed.

(** C5, on the code.  [pdCompute_Diag_Inv] leaves [*info] as it found it,
    whatever [dtrtri_] returns: the status goes to the local variable [INFO],
    which the next call overwrites, and the loop goes on. *)
Theorem pdCompute_Diag_Inv_drops_the_status
    HAVE_LAPACK n Llu D Glu grid INFO info :
  snd (pdCompute_Diag_Inv HAVE_LAPACK n Llu D Glu grid INFO info) = info.
Proof. apply pdCompute_Diag_Inv_info. Qed.

(** C6, as amended.  After the set-up of the forward solve, the counter of
    every local block row [lk] is [Llu->fmod[lk] + frecv[lk]]; on several
    processes [frecv[lk]] is the destination count of [LRtree_ptr[lk]], zero
    without a tree, and on one process, where the set-up does not look at the
    trees, it is zero.  After the set-up of the backward solve, which has
    no branch for one process, the counter is [Llu->bmod[lk] + brecv[lk]] and
    [brecv[lk]] the destination count of [URtree_ptr[lk]].  The counter of
    row [lk] is the cell [lk * aln_i]. *)
Theorem modification_counts_initialised
    grid Llu myrow mycol nsupers aln_i fresh_f fresh_b lk :
  0 < aln_i ->
  0 <= lk < CEILING nsupers (nprow grid) ->
  let nlb := CEILING nsupers (nprow grid) in
  let fc := forward_setup grid Llu myrow mycol nsupers nlb aln_i fresh_f in
  let bc := backward_setup grid Llu myrow mycol nsupers nlb aln_i fresh_b in
  fmod fc (lk * aln_i) = Llu_fmod Llu lk + frecv fc lk /\
  frecv fc lk = (if nprow grid * npcol grid =? 1 then 0
                 else tree_dest_count (LRtree_ptr Llu lk)) /\
  bmod bc (lk * aln_i) = Llu_bmod Llu lk + brecv bc lk /\
  brecv bc lk = tree_dest_count (URtree_ptr Llu lk).
Proof.
  intros Haln Hlk nlb fc bc.
  destruct (forward_setup_counts grid Llu myrow mycol nsupers fresh_f Haln Hlk)
    as [Hf Hfr].
  destruct (backward_setup_counts grid Llu myrow mycol nsupers fresh_b Haln Hlk)
    as [Hb Hbr].
  fold nlb in Hf, Hfr, Hb, Hbr. fold fc in Hf, Hfr. fold bc in Hb, Hbr.
  repeat split; assumption.
Qed.

(** C8, on the code.  The loop of the backward solve ends with its counter at
    [nbrecvx + nbrecvmod], one message received per iteration; the one-sided
    loop of the forward solve is left only with its counter beyond
    [nfrecvx + nfrecvmod], never at it. *)
Theorem progress_loop_counters
    grid Glu Llu D nrhs aln_i num_thread sizelsum nbrecvmod w
    fuel sweep Pr Pc nfrecvmod BC_subtotal RD_subtotal nfrecv d :
  snd (backward_loop grid Glu Llu D nrhs aln_i num_thread sizelsum nbrecvmod w)
    = Z.max 0 (nbrecvx Llu + nbrecvmod) /\
  (forall nfrecv' d',
     oneside_loop fuel sweep Pr Pc (nfrecvx Llu) nfrecvmod BC_subtotal RD_subtotal nfrecv d
       = Some (nfrecv', d') ->
     nfrecvx Llu + nfrecvmod < nfrecv').
Proof.
  split; [apply backward_loop_counter|].
  intros nfrecv' d'. apply oneside_loop_exit.
Qed.

(** * Further properties of the solve *)

(** ** Loops whose state holds an array *)

(** A cell that iteration [j0] sets to [v] and that every later iteration
    leaves at [v]; [proj] selects the array in the state of the loop. *)
Lemma for_kept_in {St A} (proj : St -> array A) (body : Z -> St -> St) lo hi s c j0 v :
  lo <= j0 < hi ->
  (forall t, proj (body j0 t) c = v) ->
  (forall j t, j0 < j < hi -> proj t c = v -> proj (body j t) c = v) ->
  proj (for_ lo hi body s) c = v.
Proof.
  intros Hj0 Hset Hlater.
  assert (H : hi <= j0 \/ proj (for_ lo hi body s) c = v).
  { apply (for_inv (fun j t => j <= j0 \/ proj t c = v)); [lia | left; lia |].
    intros j t Hj [Hle | Hv].
    - destruct (Z.eq_dec j j0) as [->|Hne]; [right; apply Hset | left; lia].
    - destruct (Z_le_gt_dec j j0) as [Hle|Hgt].
      + destruct (Z.eq_dec j j0) as [->|Hne]; [right; apply Hset | left; lia].
      + right. apply Hlater; [lia | exact Hv]. }
  destruct H as [H|H]; [lia | exact H].
Qed.

Lemma for_set_in {St A} (proj : St -> array A) (body : Z -> St -> St) lo hi s c j0 v :
  lo <= j0 < hi ->
  (forall t, proj (body j0 t) c = v) ->
  (forall j t, j0 < j < hi -> proj (body j t) c = proj t c) ->
  proj (for_ lo hi body s) c = v.
Proof.
  intros Hj0 Hset Hlater. apply for_kept_in with (j0 := j0); [exact Hj0 | exact Hset |].
  intros j t Hj Hv. now rewrite Hlater.
Qed.

(** ** The copy of a diagonal block *)

(** Two cells of a [knsupc] by [knsupc] block, column major. *)
Lemma square_cells_distinct knsupc i j i' j' :
  0 <= i < knsupc -> 0 <= i' < knsupc ->
  j * knsupc + i = j' * knsupc + i' -> j = j' /\ i = i'.
Proof.
  intros Hi Hi' Heq. assert (j = j') by nia. subst j'. split; [reflexivity | lia].
Qed.

(** The first pair of loops of [diag_block_copy]: the block is zeroed. *)
Definition diag_block_zero (knsupc : Z) (LU : array double * array double)
    : array double * array double :=
  for_ 0 knsupc
    (fun j LU =>
       for_ 0 knsupc
         (fun i '(Linv, Uinv) =>
            (store Linv (j * knsupc + i) zero, store Uinv (j * knsupc + i) zero))
         LU)
    LU.

Lemma diag_block_zero_inside knsupc L U i j :
  0 <= i < knsupc -> 0 <= j < knsupc ->
  fst (diag_block_zero knsupc (L, U)) (j * knsupc + i) = zero /\
  snd (diag_block_zero knsupc (L, U)) (j * knsupc + i) = zero.
Proof.
  intros Hi Hj. unfold diag_block_zero. split.
  - apply for_set_in with (j0 := j); [exact Hj | |].
    + intros t. apply for_set_in with (j0 := i); [exact Hi | |].
      * intros [a b]. apply store_same.
      * intros i' [a b] Hi'. cbn [fst]. apply store_other. lia.
    + intros j' t Hj'. apply for_frame_in. intros i' [a b] Hi'. cbn [fst].
      apply store_other. intros Heq.
      destruct (@square_cells_distinct knsupc i j i' j') as [Hjj _]; [lia | lia | exact Heq | lia].
  - apply for_set_in with (j0 := j); [exact Hj | |].
    + intros t. apply for_set_in with (j0 := i); [exact Hi | |].
      * intros [a b]. apply store_same.
      * intros i' [a b] Hi'. cbn [snd]. apply store_other. lia.
    + intros j' t Hj'. apply for_frame_in. intros i' [a b] Hi'. cbn [snd].
      apply store_other. intros Heq.
      destruct (@square_cells_distinct knsupc i j i' j') as [Hjj _]; [lia | lia | exact Heq | lia].
Qed.

Lemma diag_block_zero_outside knsupc L U c :
  c < 0 \/ knsupc * knsupc <= c ->
  fst (diag_block_zero knsupc (L, U)) c = L c /\
  snd (diag_block_zero knsupc (L, U)) c = U c.
Proof.
  intros Hc. unfold diag_block_zero. split.
  - change (L c) with (fst (L, U) c). apply for_frame_in. intros j t Hj.
    apply for_frame_in. intros i [a b] Hi. cbn [fst]. apply store_other. nia.
  - change (U c) with (snd (L, U) c). apply for_frame_in. intros j t Hj.
    apply for_frame_in. intros i [a b] Hi. cbn [snd]. apply store_other. nia.
Qed.

(** X1.  [diag_block_copy] splits the diagonal block of [lusup], of leading
    dimension [nsupr], into its two triangles: cell [(i, j)] of [Linv] holds
    1 on the diagonal, [lusup[j*nsupr + i]] below it and 0 above it; cell
    [(i, j)] of [Uinv] holds [lusup[j*nsupr + i]] on and above the diagonal
    and 0 below it; the cells of [Linv] and [Uinv] outside the [knsupc] by
    [knsupc] block are left as they were. *)
Theorem diag_block_copy_splits_the_triangles knsupc nsupr lusup L U :
  let LU := diag_block_copy knsupc nsupr lusup (L, U) in
  (forall i j, 0 <= i < knsupc -> 0 <= j < knsupc ->
     fst LU (j * knsupc + i)
       = (if i =? j then one else if j <? i then lusup (j * nsupr + i) else zero) /\
     snd LU (j * knsupc + i)
       = (if i <=? j then lusup (j * nsupr + i) else zero)) /\
  (forall c, c < 0 \/ knsupc * knsupc <= c -> fst LU c = L c /\ snd LU c = U c).
Proof.
  intros LU. subst LU. unfold diag_block_copy. fold (diag_block_zero knsupc (L, U)).
  set (Z0 := diag_block_zero knsupc (L, U)).
  set (body := fun (j : Z) (LU : array double * array double) => _).
  assert (HframeL : forall j t c,
            (forall i, j <= i < knsupc -> c <> j * knsupc + i) -> 0 <= j < knsupc ->
            fst (body j t) c = fst t c).
  { intros j [a b] c Hc Hj. subst body. cbn [fst]. rewrite for_frame.
    - apply store_other. apply Hc. lia.
    - intros i y Hi. apply store_other. apply Hc. lia. }
  assert (HframeU : forall j t c,
            (forall i, 0 <= i <= j -> c <> j * knsupc + i) ->
            snd (body j t) c = snd t c).
  { intros j [a b] c Hc. subst body. cbn [snd]. apply for_frame.
    intros i y Hi. apply store_other. apply Hc. lia. }
  assert (HsetL : forall j t i, 0 <= j < knsupc -> j <= i < knsupc ->
            fst (body j t) (j * knsupc + i)
              = if i =? j then one else lusup (j * nsupr + i)).
  { intros j [a b] i Hj Hi. subst body. cbn [fst].
    destruct (Z.eqb_spec i j) as [->|Hne].
    - rewrite for_frame; [apply store_same|].
      intros i' y Hi'. apply store_other. lia.
    - apply for_set with (j0 := i); [lia | intros y; apply store_same |].
      intros i' y Hi'. apply store_other. lia. }
  assert (HsetU : forall j t i, 0 <= i <= j ->
            snd (body j t) (j * knsupc + i) = lusup (j * nsupr + i)).
  { intros j [a b] i Hi. subst body. cbn [snd].
    apply for_set with (j0 := i); [lia | intros y; apply store_same |].
    intros i' y Hi'. apply store_other. lia. }
  clearbody body. split.
  - intros i j Hi Hj.
    destruct (diag_block_zero_inside L U Hi Hj) as [HzL HzU]. fold Z0 in HzL, HzU.
    split.
    + destruct (Z_le_gt_dec j i) as [Hle|Hgt].
      * replace (j <? i) with (negb (i =? j)) by (destruct (Z.eqb_spec i j); cbn; lia).
        transitivity (if i =? j then one else lusup (j * nsupr + i));
          [|destruct (i =? j); reflexivity].
        apply for_set_in with (j0 := j); [exact Hj | intros t; apply HsetL; lia |].
        intros j' t Hj'. apply HframeL; [|lia]. intros i' Hi' Heq.
        destruct (@square_cells_distinct knsupc i j i' j') as [Hjj _]; [lia | lia | exact Heq | lia].
      * replace (i =? j) with false by (symmetry; apply Z.eqb_neq; lia).
        replace (j <? i) with false by (symmetry; apply Z.ltb_ge; lia).
        rewrite <- HzL. apply for_frame_in. intros j' t Hj'. apply HframeL; [|lia].
        intros i' Hi' Heq.
        destruct (@square_cells_distinct knsupc i j i' j') as [Hjj Hii]; [lia | lia | exact Heq | lia].
    + destruct (Z_le_gt_dec i j) as [Hle|Hgt].
      * replace (i <=? j) with true by (symmetry; apply Z.leb_le; lia).
        apply for_set_in with (j0 := j); [exact Hj | intros t; apply HsetU; lia |].
        intros j' t Hj'. apply HframeU. intros i' Hi' Heq.
        destruct (Z_lt_ge_dec i' knsupc) as [Hlt|Hge]; [|nia].
        destruct (@square_cells_distinct knsupc i j i' j') as [Hjj _]; [lia | lia | exact Heq | lia].
      * replace (i <=? j) with false by (symmetry; apply Z.leb_gt; lia).
        rewrite <- HzU. apply for_frame_in. intros j' t Hj'. apply HframeU.
        intros i' Hi' Heq.
        destruct (@square_cells_distinct knsupc i j i' j') as [Hjj Hii]; [lia | lia | exact Heq | lia].
  - intros c Hc. destruct (@diag_block_zero_outside knsupc L U c Hc) as [HoL HoU].
    fold Z0 in HoL, HoU. split.
    + rewrite <- HoL. apply for_frame_in. intros j t Hj. apply HframeL; [|lia].
      intros i Hi. nia.
    + rewrite <- HoU. apply for_frame_in. intros j t Hj. apply HframeU.
      intros i Hi. nia.
Qed.

(** ** The inverses of the diagonal blocks *)

(** Two supernodes of one process column with the same local block column
    are the same supernode. *)
Lemma block_column_inj grid k k' :
  PCOL k grid = PCOL k' grid -> LBj k grid = LBj k' grid -> k = k'.
Proof.
  unfold PCOL, LBj. intros Hrem Hquot.
  pose proof (Z.quot_rem' k (npcol grid)) as Hk.
  pose proof (Z.quot_rem' k' (npcol grid)) as Hk'.
  rewrite Hrem, Hquot in Hk. lia.
Qed.

(** What [pdCompute_Diag_Inv] stores for supernode [k], from the inverses
    [D] it finds: [dtrtri_] applied to the two triangles of the diagonal
    block. *)
Definition inverted_block (Llu : LocalLU_t) (Glu : Glu_persist_t) (grid : gridinfo_t)
    (D : diag_inverses) (k : Z) : array double * array double :=
  let lk := LBj k grid in
  let knsupc := SuperSize (xsup Glu) k in
  let LU := diag_block_copy knsupc (lsub_at Llu lk 1) (Lnzval_bc_ptr Llu lk)
                            (Linv_bc_ptr D lk, Uinv_bc_ptr D lk) in
  (fst (dtrtri_ "L" "U" knsupc (fst LU) knsupc),
   fst (dtrtri_ "U" "N" knsupc (snd LU) knsupc)).

(** The loop over the supernodes: the blocks of the diagonal supernodes of
    the process are inverted, the others are as they were. *)
Lemma diag_inv_loop Llu Glu grid myrow mycol nsupers D INFO :
  let st := for_ 0 nsupers (diag_inv_step Llu Glu grid myrow mycol) (D, INFO) in
  Llu_inv (fst st) = Llu_inv D /\
  (forall k, 0 <= k < nsupers -> PROW k grid = myrow -> PCOL k grid = mycol ->
     Linv_bc_ptr (fst st) (LBj k grid) = fst (inverted_block Llu Glu grid D k) /\
     Uinv_bc_ptr (fst st) (LBj k grid) = snd (inverted_block Llu Glu grid D k)) /\
  (forall lk,
     (forall k, 0 <= k < nsupers -> PROW k grid = myrow -> PCOL k grid = mycol ->
        LBj k grid <> lk) ->
     Linv_bc_ptr (fst st) lk = Linv_bc_ptr D lk /\
     Uinv_bc_ptr (fst st) lk = Uinv_bc_ptr D lk).
Proof.
  intros st. subst st.
  destruct (Z_le_gt_dec 0 nsupers) as [Hle|Hgt];
    [|rewrite for_empty by lia; cbn [fst]; repeat split; intros; lia].
  apply (for_inv (fun j (st : diag_inverses * Z) =>
    Llu_inv (fst st) = Llu_inv D /\
    (forall k, 0 <= k < j -> PROW k grid = myrow -> PCOL k grid = mycol ->
       Linv_bc_ptr (fst st) (LBj k grid) = fst (inverted_block Llu Glu grid D k) /\
       Uinv_bc_ptr (fst st) (LBj k grid) = snd (inverted_block Llu Glu grid D k)) /\
    (forall lk,
       (forall k, 0 <= k < j -> PROW k grid = myrow -> PCOL k grid = mycol ->
          LBj k grid <> lk) ->
       Linv_bc_ptr (fst st) lk = Linv_bc_ptr D lk /\
       Uinv_bc_ptr (fst st) lk = Uinv_bc_ptr D lk))); [exact Hle | |].
  - cbn [fst]. split; [reflexivity|]. split; [intros; lia | intros; split; reflexivity].
  - intros j [D' I'] Hj (Hinv & Hdone & Hrest). cbn [fst] in Hinv, Hdone, Hrest.
    unfold diag_inv_step.
    destruct (Z.eqb_spec myrow (PROW j grid)) as [Hrow|Hrow];
      [destruct (Z.eqb_spec mycol (PCOL j grid)) as [Hcol|Hcol]|].
    + (* the diagonal process of supernode [j] *)
      assert (Hfresh : Linv_bc_ptr D' (LBj j grid) = Linv_bc_ptr D (LBj j grid) /\
                       Uinv_bc_ptr D' (LBj j grid) = Uinv_bc_ptr D (LBj j grid)).
      { apply Hrest. intros k Hk Hkr Hkc Heq.
        assert (k = j) by (apply (@block_column_inj grid); [congruence | exact Heq]). lia. }
      destruct Hfresh as [HL HU]. rewrite HL, HU. cbv zeta.
      pose proof (eq_refl (inverted_block Llu Glu grid D j)) as Hnew.
      unfold inverted_block at 2 in Hnew. cbv zeta in Hnew.
      destruct (diag_block_copy _ _ _ _) as [L1 U1]. cbn [fst snd] in Hnew.
      destruct (dtrtri_ "L" "U" _ L1 _) as [L2 I2].
      destruct (dtrtri_ "U" "N" _ U1 _) as [U2 I3]. cbn [fst snd] in Hnew |- *.
      cbn [Linv_bc_ptr Uinv_bc_ptr Llu_inv].
      split; [exact Hinv|]. split.
      * intros k Hk Hkr Hkc. destruct (Z.eq_dec k j) as [->|Hne].
        -- rewrite !store_same, Hnew. split; reflexivity.
        -- rewrite !store_other; [apply Hdone; [lia | exact Hkr | exact Hkc] | |];
             intros Heq; apply Hne; apply (@block_column_inj grid); congruence.
      * intros lk Hlk.
        rewrite !store_other; [apply Hrest; intros k Hk; apply Hlk; lia | |];
          intros Heq; apply (Hlk j); try lia; congruence.
    + cbn [fst]. split; [exact Hinv|]. split.
      * intros k Hk Hkr Hkc. apply Hdone; [|exact Hkr | exact Hkc].
        destruct (Z.eq_dec k j) as [->|Hne]; [congruence | lia].
      * intros lk Hlk. apply Hrest. intros k Hk. apply Hlk. lia.
    + cbn [fst]. split; [exact Hinv|]. split.
      * intros k Hk Hkr Hkc. apply Hdone; [|exact Hkr | exact Hkc].
        destruct (Z.eq_dec k j) as [->|Hne]; [congruence | lia].
      * intros lk Hlk. apply Hrest. intros k Hk. apply Hlk. lia.
Qed.

(** X2.  With LAPACK, [pdCompute_Diag_Inv] sets [Llu->inv] to 1 and, for
    every supernode [k] whose diagonal block the process owns, leaves in
    [Linv_bc_ptr[LBj(k)]] what [dtrtri_("L", "U", ...)] makes of the unit
    lower triangle of the block, and in [Uinv_bc_ptr[LBj(k)]] what
    [dtrtri_("U", "N", ...)] makes of its upper triangle. *)
Theorem pdCompute_Diag_Inv_inverts_the_owned_blocks n Llu D Glu grid INFO info k :
  0 <= k < supno Glu (n - 1) + 1 ->
  PROW k grid = MYROW (iam grid) grid ->
  PCOL k grid = MYCOL (iam grid) grid ->
  let D' := fst (fst (pdCompute_Diag_Inv true n Llu D Glu grid INFO info)) in
  let lk := LBj k grid in
  let knsupc := SuperSize (xsup Glu) k in
  let LU := diag_block_copy knsupc (lsub_at Llu lk 1) (Lnzval_bc_ptr Llu lk)
                            (Linv_bc_ptr D lk, Uinv_bc_ptr D lk) in
  Llu_inv D' = 1 /\
  Linv_bc_ptr D' lk = fst (dtrtri_ "L" "U" knsupc (fst LU) knsupc) /\
  Uinv_bc_ptr D' lk = fst (dtrtri_ "U" "N" knsupc (snd LU) knsupc).
Proof.
  intros Hk Hrow Hcol D' lk knsupc LU. subst D'. unfold pdCompute_Diag_Inv. cbv zeta.
  pose proof (@diag_inv_loop Llu Glu grid (MYROW (iam grid) grid) (MYCOL (iam grid) grid)
                (supno Glu (n - 1) + 1)
                {| Linv_bc_ptr := Linv_bc_ptr D; Uinv_bc_ptr := Uinv_bc_ptr D; Llu_inv := 1 |}
                INFO) as H.
  cbv zeta in H. destruct (for_ _ _ _ _) as [D1 I1]. cbn [fst snd] in H |- *.
  destruct H as (Hinv & Hdone & _). split; [exact Hinv|].
  exact (Hdone k Hk Hrow Hcol).
Qed.

(** X3.  [pdCompute_Diag_Inv] touches the inverses of the diagonal blocks of
    the process only: a block column that is not the local block column of
    a supernode whose diagonal block the process owns keeps its [Linv] and
    its [Uinv].  In a build without LAPACK the routine does nothing at all:
    the inverses and [Llu->inv] are as on entry. *)
Theorem pdCompute_Diag_Inv_keeps_the_other_blocks HAVE_LAPACK n Llu D Glu grid INFO info :
  let D' := fst (fst (pdCompute_Diag_Inv HAVE_LAPACK n Llu D Glu grid INFO info)) in
  (forall lk,
     (forall k, 0 <= k < supno Glu (n - 1) + 1 ->
        PROW k grid = MYROW (iam grid) grid -> PCOL k grid = MYCOL (iam grid) grid ->
        LBj k grid <> lk) ->
     Linv_bc_ptr D' lk = Linv_bc_ptr D lk /\ Uinv_bc_ptr D' lk = Uinv_bc_ptr D lk) /\
  (HAVE_LAPACK = false -> D' = D).
Proof.
  intros D'. subst D'. unfold pdCompute_Diag_Inv. cbv zeta.
  destruct HAVE_LAPACK; [|split; [intros; split; reflexivity | reflexivity]].
  pose proof (@diag_inv_loop Llu Glu grid (MYROW (iam grid) grid) (MYCOL (iam grid) grid)
                (supno Glu (n - 1) + 1)
                {| Linv_bc_ptr := Linv_bc_ptr D; Uinv_bc_ptr := Uinv_bc_ptr D; Llu_inv := 1 |}
                INFO) as H.
  cbv zeta in H. destruct (for_ _ _ _ _) as [D1 I1]. cbn [fst snd] in H |- *.
  destruct H as (_ & _ & Hrest). split; [|discriminate].
  intros lk Hlk. exact (Hrest lk Hlk).
Qed.

(** ** The working storage of [pdgstrs] *)

(** What a signed integer of [bits] bits holds when the value [v] is stored
    in it, on the two's complement machines the library is built for: [v]
    itself when it fits, [v] modulo [2 ^ bits] otherwise. *)
Definition wrap (bits v : Z) : Z := (v + 2 ^ (bits - 1)) mod 2 ^ bits - 2 ^ (bits - 1).

(** Lines 954 and 975, [size = ((size + (aln_d - 1)) / aln_d) * aln_d], in
    the arithmetic of [int_t], a signed integer of [bits] bits: [sizelsum],
    [sizertemp] and [aln_d] are declared [int_t] (line 850). *)
Definition round_up_int_t (bits size aln : Z) : Z :=
  let sum := wrap bits (size + wrap bits (aln - 1)) in
  wrap bits (wrap bits (Z.quot sum aln) * aln).

Lemma wrap_small bits v :
  0 < bits -> - 2 ^ (bits - 1) <= v < 2 ^ (bits - 1) -> wrap bits v = v.
Proof.
  intros Hbits Hv. unfold wrap.
  assert (E : 2 ^ bits = 2 * 2 ^ (bits - 1)).
  { replace bits with (bits - 1 + 1) at 1 by lia. rewrite Z.pow_add_r by lia. lia. }
  rewrite Z.mod_small by lia. lia.
Qed.

(** X4.  The rounding of [sizelsum] and of [sizertemp] to the cache line,
    [((size + (aln_d - 1)) / aln_d) * aln_d] in the arithmetic of [int_t]:
    for the size that the variable holds before the line, not negative, a
    positive [aln_d], and [size + (aln_d - 1)] within the range of [int_t],
    the result is the least multiple of [aln_d] that is not below the size,
    so the padded array has room for the size and wastes less than [aln_d]
    cells.  Without the bound the sum wraps around. *)
Theorem round_up_is_the_next_multiple bits size aln :
  0 < bits -> 0 <= size -> 0 < aln -> size + (aln - 1) < 2 ^ (bits - 1) ->
  round_up_int_t bits size aln = round_up size aln /\
  size <= round_up_int_t bits size aln < size + aln /\
  Z.rem (round_up_int_t bits size aln) aln = 0 /\
  (forall m, size <= m -> Z.rem m aln = 0 -> round_up_int_t bits size aln <= m).
Proof.
  intros Hbits Hsize Haln Hfit.
  pose proof (Z.pow_pos_nonneg 2 (bits - 1) ltac:(lia) ltac:(lia)) as Hpow.
  pose proof (Z.div_mod (size + (aln - 1)) aln ltac:(lia)) as Hdm.
  pose proof (Z.mod_pos_bound (size + (aln - 1)) aln Haln) as Hmod.
  assert (Hq : 0 <= (size + (aln - 1)) / aln) by (apply Z.div_pos; lia).
  assert (Hle : (size + (aln - 1)) / aln * aln <= size + (aln - 1)) by nia.
  assert (Hqle : (size + (aln - 1)) / aln <= size + (aln - 1)) by nia.
  assert (E : round_up_int_t bits size aln = round_up size aln).
  { unfold round_up_int_t, round_up. cbv zeta.
    rewrite (wrap_small (v := aln - 1)) by lia.
    rewrite (wrap_small (v := size + (aln - 1))) by lia.
    rewrite Z.quot_div_nonneg by lia.
    rewrite (wrap_small (v := (size + (aln - 1)) / aln)) by lia.
    apply wrap_small; lia. }
  split; [exact E|]. rewrite E. unfold round_up.
  rewrite Z.quot_div_nonneg by lia.
  split; [nia|]. split.
  - rewrite Z.rem_mul; lia.
  - intros m Hm Hrem.
    pose proof (Z.quot_rem' m aln) as Hqr. rewrite Hrem in Hqr.
    assert (Hlt : (size + (aln - 1)) / aln < Z.quot m aln + 1); [|nia].
    apply Z.div_lt_upper_bound; [lia | nia].
Qed.

(** Two supernodes of one process row with the same local block row are
    the same supernode. *)
Lemma block_row_inj grid k k' :
  PROW k grid = PROW k' grid -> LBi k grid = LBi k' grid -> k = k'.
Proof.
  unfold PROW, LBi. intros Hrem Hquot.
  pose proof (Z.quot_rem' k (nprow grid)) as Hk.
  pose proof (Z.quot_rem' k' (nprow grid)) as Hk'.
  rewrite Hrem, Hquot in Hk. lia.
Qed.

(** A supernode is one of the [CEILING(nsupers, Pr)] local block rows of its
    process row. *)
Lemma local_block_row grid nsupers k :
  0 < nprow grid -> 0 <= k < nsupers ->
  0 <= LBi k grid < CEILING nsupers (nprow grid) /\
  k = PROW k grid + LBi k grid * nprow grid.
Proof.
  intros Hr Hk. unfold LBi, PROW, CEILING.
  pose proof (Z.quot_rem' k (nprow grid)) as Hqk.
  pose proof (Z.quot_rem' nsupers (nprow grid)) as Hqn.
  pose proof (Z.rem_bound_pos k (nprow grid) ltac:(lia) Hr) as Hrk.
  pose proof (Z.rem_bound_pos nsupers (nprow grid) ltac:(lia) Hr) as Hrn.
  assert (0 <= Z.quot k (nprow grid)) by (apply Z.quot_pos; lia).
  assert (0 <= Z.quot nsupers (nprow grid)) by (apply Z.quot_pos; lia).
  split; [|lia]. split; [assumption|].
  destruct (Z.eqb_spec (Z.rem nsupers (nprow grid)) 0) as [Hz|Hnz]; nia.
Qed.

(** X5.  After the set-up of [lsum] (the loop that zeroes it, lines 967 and
    968, and the loop over the supernodes, lines 1022 to 1029), the header cell
    [LSUM_BLK(lk) - LSUM_H] of every supernode [k] of the process row holds
    [k], [lk] being [LBi(k)], and every other cell below the length zeroed
    holds 0. *)
Theorem lsum_is_zero_but_for_its_headers grid myrow nsupers nrhs ilsum len heap size :
  1 <= LSUM_H -> 0 <= nrhs -> 0 < nprow grid ->
  blocks_laid_out ilsum size (CEILING nsupers (nprow grid)) ->
  let lsum := lsum_headers grid myrow nsupers nrhs ilsum (zero_fill len heap) in
  (forall k, 0 <= k < nsupers -> PROW k grid = myrow ->
     lsum (LSUM_BLK LSUM_H ilsum nrhs (LBi k grid) - LSUM_H) = of_int k) /\
  (forall c, 0 <= c < len ->
     (forall k, 0 <= k < nsupers -> PROW k grid = myrow ->
        c <> LSUM_BLK LSUM_H ilsum nrhs (LBi k grid) - LSUM_H) ->
     lsum c = zero).
Proof.
  intros Hh Hnrhs Hr Hlay lsum. subst lsum. unfold lsum_headers. split.
  - intros k Hk Hrow.
    apply for_set with (j0 := k); [exact Hk | |].
    + intros y. rewrite Hrow, Z.eqb_refl. apply store_same.
    + intros k' y Hk'. destruct (Z.eqb_spec myrow (PROW k' grid)) as [Hrow'|]; [|reflexivity].
      apply store_other. intros Heq.
      assert (Hlk : LBi k grid = LBi k' grid).
      { apply (headers_distinct Hh Hnrhs Hlay);
          [apply local_block_row; [exact Hr | lia] | apply local_block_row; [exact Hr | lia] |].
        exact Heq. }
      assert (k = k') by (apply (@block_row_inj grid); congruence). lia.
  - intros c Hc Hnot. rewrite for_frame.
    + unfold zero_fill. apply for_set with (j0 := c); [exact Hc | intros y; apply store_same |].
      intros j y Hj. apply store_other. lia.
    + intros k y Hk. destruct (Z.eqb_spec myrow (PROW k grid)) as [Hrow|]; [|reflexivity].
      apply store_other. apply Hnot; [exact Hk | congruence].
Qed.

(** A loop of stores of [zero] leaves at [zero] a cell that holds it. *)
Lemma for_zero_kept (body : Z -> array double -> array double) lo hi x c :
  (forall j y, lo <= j < hi -> y c = zero -> body j y c = zero) ->
  x c = zero -> for_ lo hi body x c = zero.
Proof.
  intros Hbody Hx. destruct (Z_le_gt_dec lo hi) as [Hle|Hgt].
  - apply (for_inv (fun _ y => y c = zero)); [exact Hle | exact Hx |].
    intros j t Hj Ht. now apply Hbody.
  - rewrite for_empty by lia. exact Hx.
Qed.

Lemma store_zero_kept (y : array double) c c' : y c = zero -> store y c' zero c = zero.
Proof.
  intros Hy. unfold store. destruct (c =? c'); [reflexivity | exact Hy].
Qed.

(** X6.  The loops that zero [lsum] again before the backward solve (lines
    1856 to 1870) leave the header of every block in place, as the comment
    at line 1833 says, and leave 0 in every body cell of every supernode of
    the process row, in the copy of every thread.  The copies of the threads
    lie [sizelsum] cells apart, and one copy has room for all the blocks. *)
Theorem lsum_rezero_keeps_the_headers
    grid Glu myrow nsupers nrhs ilsum num_thread sizelsum lsum :
  1 <= LSUM_H -> 0 <= nrhs -> 0 < nprow grid ->
  let nlb := CEILING nsupers (nprow grid) in
  blocks_laid_out ilsum (owned_size grid Glu myrow) nlb ->
  0 <= ilsum 0 ->
  ilsum nlb * nrhs + nlb * LSUM_H <= sizelsum ->
  let lsum' := lsum_rezero grid Glu myrow nsupers nrhs ilsum num_thread sizelsum lsum in
  (forall k, 0 <= k < nsupers -> PROW k grid = myrow ->
     lsum' (LSUM_BLK LSUM_H ilsum nrhs (LBi k grid) - LSUM_H)
       = lsum (LSUM_BLK LSUM_H ilsum nrhs (LBi k grid) - LSUM_H)) /\
  (forall k i j jj, 0 <= k < nsupers -> PROW k grid = myrow ->
     0 <= i < SuperSize (xsup Glu) k -> 0 <= j < nrhs -> 0 <= jj < num_thread ->
     lsum' (LSUM_BLK LSUM_H ilsum nrhs (LBi k grid)
            + (i + j * SuperSize (xsup Glu) k + jj * sizelsum)) = zero).
Proof.
  intros Hh Hnrhs Hr nlb Hlay Hil0 Hroom lsum'. subst lsum'. unfold lsum_rezero.
  assert (Hown : forall k, 0 <= k < nsupers -> PROW k grid = myrow ->
            0 <= LBi k grid < nlb /\
            owned_size grid Glu myrow (LBi k grid) = SuperSize (xsup Glu) k).
  { intros k Hk Hrow. destruct (@local_block_row grid nsupers k Hr Hk) as [Hlk Ek].
    split; [exact Hlk|]. unfold owned_size. rewrite <- Hrow, <- Ek. reflexivity. }
  assert (Hpos : forall b, 0 <= b <= nlb -> 0 <= ilsum b).
  { intros b Hb. destruct (Z.eq_dec b 0) as [->|Hne]; [exact Hil0|].
    pose proof (@ilsum_chain ilsum (owned_size grid Glu myrow) nlb Hlay 0 b
                  ltac:(lia) ltac:(lia) ltac:(lia)) as Hc.
    destruct (Hlay 0 ltac:(lia)) as [Hs _]. lia. }
  split.
  - intros k Hk Hrow. destruct (Hown k Hk Hrow) as [Ha _].
    apply for_frame. intros k' y Hk'.
    destruct (Z.eqb_spec myrow (PROW k' grid)) as [Hrow'|]; [|reflexivity].
    destruct (Hown k' Hk' (eq_sym Hrow')) as [Hb Hsize].
    apply for_frame. intros jj y1 Hjj. apply for_frame. intros j y2 Hj.
    apply for_frame. intros i y3 Hi. apply store_other.
    rewrite <- Hsize in Hi |- *.
    destruct (Z.eq_dec jj 0) as [->|Hne].
    + pose proof (@header_not_in_body LSUM_H ilsum (owned_size grid Glu myrow) nrhs nlb
                    Hh Hnrhs Hlay (LBi k grid) (LBi k' grid) i j Ha Hb Hi Hj) as Hd.
      unfold X_BLK in Hd. unfold LSUM_BLK. lia.
    + assert (Hhead : ilsum (LBi k grid) <= ilsum nlb).
      { pose proof (@ilsum_chain ilsum (owned_size grid Glu myrow) nlb Hlay (LBi k grid) nlb
                      ltac:(lia) ltac:(lia) ltac:(lia)) as Hc.
        destruct (Hlay (LBi k grid) Ha) as [Hs _]. lia. }
      pose proof (Hpos (LBi k' grid) ltac:(lia)) as Hb0.
      pose proof (Hpos nlb ltac:(lia)) as Hn0.
      assert (ilsum (LBi k grid) * nrhs <= ilsum nlb * nrhs) by nia.
      assert (LBi k grid * LSUM_H <= (nlb - 1) * LSUM_H) by nia.
      assert (0 <= ilsum (LBi k' grid) * nrhs) by nia.
      assert (0 <= j * owned_size grid Glu myrow (LBi k' grid)) by nia.
      assert (0 <= ilsum nlb * nrhs) by nia.
      assert (0 <= nlb * LSUM_H) by nia.
      assert (sizelsum <= jj * sizelsum) by nia.
      assert (0 <= LBi k' grid * LSUM_H) by nia.
      unfold LSUM_BLK. lia.
  - intros k i j jj Hk Hrow Hi Hj Hjj.
    apply for_kept_in with (proj := fun y : array double => y) (j0 := k); [exact Hk | |].
    + intros y. rewrite Hrow, Z.eqb_refl.
      apply for_kept_in with (proj := fun y : array double => y) (j0 := jj); [exact Hjj | |].
      * intros y1.
        apply for_kept_in with (proj := fun y : array double => y) (j0 := j); [exact Hj | |].
        -- intros y2.
           apply for_kept_in with (proj := fun y : array double => y) (j0 := i);
             [exact Hi | intros y3; apply store_same |].
           intros i' y3 Hi' Hz. now apply store_zero_kept.
        -- intros j' y2 Hj' Hz. apply for_zero_kept; [|exact Hz].
           intros i' y3 Hi' Hz3. now apply store_zero_kept.
      * intros jj' y1 Hjj' Hz. apply for_zero_kept; [|exact Hz].
        intros j' y2 Hj' Hz2. apply for_zero_kept; [|exact Hz2].
        intros i' y3 Hi' Hz3. now apply store_zero_kept.
    + intros k' y Hk' Hz.
      destruct (myrow =? PROW k' grid); [|exact Hz].
      apply for_zero_kept; [|exact Hz].
      intros jj' y1 Hjj' Hz1. apply for_zero_kept; [|exact Hz1].
      intros j' y2 Hj' Hz2. apply for_zero_kept; [|exact Hz2].
      intros i' y3 Hi' Hz3. now apply store_zero_kept.
Qed.

(** ** The leaves, the roots and the messages to expect *)

Definition nrecvmod_of (st : counts) : Z := let '(_, nrecvmod, _, _, _) := st in nrecvmod.
Definition sups_of (st : counts) : array Z := let '(_, _, sups, _, _) := st in sups.
Definition nsups_of (st : counts) : Z := let '(_, _, _, nsups, _) := st in nsups.
Definition nrtree_of (st : counts) : Z := let '(_, _, _, _, nrtree) := st in nrtree.

(** A loop body that appends [gb lk] to the list when the test [leaf lk]
    holds, and leaves the list as it is otherwise. *)
Definition collects (leaf : Z -> bool) (gb : Z -> Z) (body : Z -> counts -> counts) : Prop :=
  forall lk st,
    sups_of (body lk st)
      = (if leaf lk then store (sups_of st) (nsups_of st) (gb lk) else sups_of st) /\
    nsups_of (body lk st) = (if leaf lk then nsups_of st + 1 else nsups_of st).

Lemma collected leaf gb body hi st :
  collects leaf gb body -> nsups_of st = 0 ->
  (forall a b, a < b -> gb a < gb b) ->
  let st' := for_ 0 hi body st in
  0 <= nsups_of st' <= Z.max 0 hi /\
  (forall jj, 0 <= jj < nsups_of st' ->
     exists lk, 0 <= lk < hi /\ sups_of st' jj = gb lk /\ leaf lk = true) /\
  (forall lk, 0 <= lk < hi -> leaf lk = true ->
     exists jj, 0 <= jj < nsups_of st' /\ sups_of st' jj = gb lk) /\
  (forall jj jj', 0 <= jj -> jj < jj' -> jj' < nsups_of st' ->
     sups_of st' jj < sups_of st' jj').
Proof.
  intros Hstep H0 Hmono st'. subst st'.
  destruct (Z_le_gt_dec 0 hi) as [Hle|Hgt];
    [|rewrite for_empty by lia; rewrite H0; repeat split; intros; lia].
  replace (Z.max 0 hi) with hi by lia.
  apply (for_inv (fun j s =>
    0 <= nsups_of s <= j /\
    (forall jj, 0 <= jj < nsups_of s ->
       exists lk, 0 <= lk < j /\ sups_of s jj = gb lk /\ leaf lk = true) /\
    (forall lk, 0 <= lk < j -> leaf lk = true ->
       exists jj, 0 <= jj < nsups_of s /\ sups_of s jj = gb lk) /\
    (forall jj jj', 0 <= jj -> jj < jj' -> jj' < nsups_of s ->
       sups_of s jj < sups_of s jj'))); [exact Hle | rewrite H0; repeat split; intros; lia |].
  intros j s Hj (Hn & Hsound & Hall & Hsorted).
  destruct (Hstep j s) as [Es En]. rewrite Es, En.
  destruct (leaf j) eqn:Eleaf.
  - split; [lia|]. split; [|split].
    + intros jj Hjj. destruct (Z.eq_dec jj (nsups_of s)) as [->|Hne].
      * exists j. rewrite store_same. repeat split; [lia | lia | exact Eleaf].
      * rewrite store_other by exact Hne.
        destruct (Hsound jj ltac:(lia)) as (lk & Hlk & Hjjlk & Hl).
        exists lk. repeat split; [lia | lia | exact Hjjlk | exact Hl].
    + intros lk Hlk Hl. destruct (Z.eq_dec lk j) as [->|Hne].
      * exists (nsups_of s). rewrite store_same. split; [lia | reflexivity].
      * destruct (Hall lk ltac:(lia) Hl) as (jj & Hjj & E).
        exists jj. rewrite store_other by lia. split; [lia | exact E].
    + intros jj jj' Hjj Hlt Hjj'.
      rewrite (store_other _ _ (j := jj)) by lia.
      destruct (Z.eq_dec jj' (nsups_of s)) as [->|Hne].
      * rewrite store_same.
        destruct (Hsound jj ltac:(lia)) as (lk & Hlk & -> & _). apply Hmono. lia.
      * rewrite store_other by exact Hne. apply Hsorted; lia.
  - split; [lia|]. split; [|split].
    + intros jj Hjj. destruct (Hsound jj Hjj) as (lk & Hlk & E & Hl).
      exists lk. repeat split; [lia | lia | exact E | exact Hl].
    + intros lk Hlk Hl. apply Hall; [|exact Hl].
      destruct (Z.eq_dec lk j) as [->|Hne]; [congruence | lia].
    + exact Hsorted.
Qed.

(** The test of the loop over the reduction trees. *)
Definition tree_leaf (grid : gridinfo_t) (myrow mycol nsupers aln_i : Z)
    (trees : array (option tree)) (mod_ : array Z) (lk : Z) : bool :=
  match trees lk with
  | Some _ => false
  | None =>
      (myrow + lk * nprow grid <? nsupers)
      && (mycol =? PCOL (myrow + lk * nprow grid) grid)
      && (mod_ (lk * aln_i) =? 0)
  end.

Lemma tree_step_collects grid myrow mycol nsupers aln_i trees mod_ :
  collects (tree_leaf grid myrow mycol nsupers aln_i trees mod_)
           (fun lk => myrow + lk * nprow grid)
           (tree_step grid myrow mycol nsupers aln_i trees mod_).
Proof.
  intros lk [[[[recv nrecvmod] sups] nsups] nrtree]. unfold tree_step, tree_leaf.
  destruct (trees lk); [split; reflexivity|].
  destruct (_ <? _); [destruct (_ =? _); [destruct (_ =? _)|]|]; split; reflexivity.
Qed.

Lemma leaf_step_single_collects grid myrow nsupers aln_i mod_ :
  collects (fun lk => (myrow + lk * nprow grid <? nsupers) && (mod_ (lk * aln_i) =? 0))
           (fun lk => myrow + lk * nprow grid)
           (leaf_step_single grid myrow nsupers aln_i mod_).
Proof.
  intros lk [[[[recv nrecvmod] sups] nsups] nrtree]. unfold leaf_step_single.
  destruct (_ <? _); [destruct (_ =? _)|]; split; reflexivity.
Qed.

Lemma tree_leaf_spec grid myrow mycol nsupers aln_i trees mod_ lk :
  tree_leaf grid myrow mycol nsupers aln_i trees mod_ lk = true <->
  trees lk = None /\ myrow + lk * nprow grid < nsupers /\
  mycol = PCOL (myrow + lk * nprow grid) grid /\ mod_ (lk * aln_i) = 0.
Proof.
  unfold tree_leaf. destruct (trees lk).
  - split; [discriminate | intros [H _]; discriminate].
  - rewrite !Bool.andb_true_iff, Z.ltb_lt, !Z.eqb_eq. split.
    + intros [[Hlt Hc] Hz]. repeat split; assumption.
    + intros (_ & Hlt & Hc & Hz). repeat split; assumption.
Qed.

(** X7.  The set-up of the forward solve lists the leaves in [leafsups]:
    entry [jj] below [nleaf] is a supernode [myrow + lk * Pr] below
    [nsupers] whose count [Llu->fmod[lk]] is 0 and, on more than one
    process, that has no reduction tree and whose diagonal block the process
    owns; every such block row [lk] is listed; and the list is in
    increasing order, so no supernode is listed twice. *)
Theorem forward_setup_lists_the_leaves grid Llu myrow mycol nsupers aln_i fresh :
  0 < aln_i -> 0 < nprow grid ->
  let nlb := CEILING nsupers (nprow grid) in
  let fc := forward_setup grid Llu myrow mycol nsupers nlb aln_i fresh in
  let gb lk := myrow + lk * nprow grid in
  let leaf lk :=
    gb lk < nsupers /\ Llu_fmod Llu lk = 0 /\
    (nprow grid * npcol grid <> 1 ->
     LRtree_ptr Llu lk = None /\ mycol = PCOL (gb lk) grid) in
  0 <= nleaf fc <= Z.max 0 nlb /\
  (forall jj, 0 <= jj < nleaf fc ->
     exists lk, 0 <= lk < nlb /\ leafsups fc jj = gb lk /\ leaf lk) /\
  (forall lk, 0 <= lk < nlb -> leaf lk ->
     exists jj, 0 <= jj < nleaf fc /\ leafsups fc jj = gb lk) /\
  (forall jj jj', 0 <= jj -> jj < jj' -> jj' < nleaf fc ->
     leafsups fc jj < leafsups fc jj').
Proof.
  intros Haln Hr nlb fc gb leaf. subst fc. unfold forward_setup.
  set (mod_ := save_counts aln_i nlb (Llu_fmod Llu) fresh).
  assert (Hmod : forall lk, 0 <= lk < nlb -> mod_ (lk * aln_i) = Llu_fmod Llu lk)
    by (intros lk Hlk; now apply save_counts_at).
  assert (Hmono : forall a b, a < b -> gb a < gb b) by (intros a b Hab; unfold gb; nia).
  fold nlb.
  destruct (Z.eqb_spec (nprow grid * npcol grid) 1) as [Hone|Hmany].
  - pose proof (@collected _ gb _ nlb ((fun _ => 0) : array Z, 0, (fun _ => 0) : array Z, 0, 0)
                  (leaf_step_single_collects grid myrow nsupers aln_i mod_)
                  eq_refl Hmono) as H.
    cbv zeta in H. destruct (for_ _ _ _ _) as [[[[recv nrecvmod] sups] nsups] nrtree].
    cbn [nsups_of sups_of nleaf leafsups] in H |- *.
    destruct H as (Hn & Hsound & Hall & Hsorted).
    split; [exact Hn|]. split; [|split; [|exact Hsorted]].
    + intros jj Hjj. destruct (Hsound jj Hjj) as (lk & Hlk & E & Hl).
      exists lk. split; [exact Hlk|]. split; [exact E|].
      apply Bool.andb_true_iff in Hl. destruct Hl as [Hlt Hz].
      apply Z.ltb_lt in Hlt. apply Z.eqb_eq in Hz. rewrite Hmod in Hz by exact Hlk.
      unfold leaf. split; [exact Hlt|]. split; [exact Hz | intros; contradiction].
    + intros lk Hlk (Hlt & Hz & _). apply Hall; [exact Hlk|].
      apply Bool.andb_true_iff. split; [apply Z.ltb_lt; exact Hlt|].
      apply Z.eqb_eq. rewrite Hmod by exact Hlk. exact Hz.
  - pose proof (@collected _ gb _ nlb ((fun _ => 0) : array Z, 0, (fun _ => 0) : array Z, 0, 0)
                  (tree_step_collects grid myrow mycol nsupers aln_i (LRtree_ptr Llu) mod_)
                  eq_refl Hmono) as H.
    cbv zeta in H. destruct (for_ _ _ _ _) as [[[[recv nrecvmod] sups] nsups] nrtree].
    cbn [nsups_of sups_of nleaf leafsups] in H |- *.
    destruct H as (Hn & Hsound & Hall & Hsorted).
    split; [exact Hn|]. split; [|split; [|exact Hsorted]].
    + intros jj Hjj. destruct (Hsound jj Hjj) as (lk & Hlk & E & Hl).
      exists lk. split; [exact Hlk|]. split; [exact E|].
      apply tree_leaf_spec in Hl. destruct Hl as (Ht & Hlt & Hc & Hz).
      rewrite Hmod in Hz by exact Hlk.
      unfold leaf. split; [exact Hlt|]. split; [exact Hz | intros _; split; assumption].
    + intros lk Hlk (Hlt & Hz & Hrest). destruct (Hrest Hmany) as [Ht Hc].
      apply Hall; [exact Hlk|]. apply tree_leaf_spec.
      rewrite Hmod by exact Hlk. repeat split; assumption.
Qed.

(** X8.  The set-up of the backward solve lists the roots in [rootsups]:
    entry [jj] below [nroot] is a supernode [myrow + lk * Pr] below
    [nsupers] that has no reduction tree in [URtree_ptr], whose diagonal
    block the process owns and whose count [Llu->bmod[lk]] is 0; every such
    block row is listed, and the list is in increasing order.  Unlike the
    forward set-up, this one has no branch for a single process. *)
Theorem backward_setup_lists_the_roots grid Llu myrow mycol nsupers aln_i fresh :
  0 < aln_i -> 0 < nprow grid ->
  let nlb := CEILING nsupers (nprow grid) in
  let bc := backward_setup grid Llu myrow mycol nsupers nlb aln_i fresh in
  let gb lk := myrow + lk * nprow grid in
  let root lk :=
    URtree_ptr Llu lk = None /\ gb lk < nsupers /\
    mycol = PCOL (gb lk) grid /\ Llu_bmod Llu lk = 0 in
  0 <= nroot bc <= Z.max 0 nlb /\
  (forall jj, 0 <= jj < nroot bc ->
     exists lk, 0 <= lk < nlb /\ rootsups bc jj = gb lk /\ root lk) /\
  (forall lk, 0 <= lk < nlb -> root lk ->
     exists jj, 0 <= jj < nroot bc /\ rootsups bc jj = gb lk) /\
  (forall jj jj', 0 <= jj -> jj < jj' -> jj' < nroot bc ->
     rootsups bc jj < rootsups bc jj').
Proof.
  intros Haln Hr nlb bc gb root. subst bc. unfold backward_setup.
  set (mod_ := save_counts aln_i nlb (Llu_bmod Llu) fresh).
  assert (Hmod : forall lk, 0 <= lk < nlb -> mod_ (lk * aln_i) = Llu_bmod Llu lk)
    by (intros lk Hlk; now apply save_counts_at).
  assert (Hmono : forall a b, a < b -> gb a < gb b) by (intros a b Hab; unfold gb; nia).
  fold nlb.
  pose proof (@collected _ gb _ nlb ((fun _ => 0) : array Z, 0, (fun _ => 0) : array Z, 0, 0)
                (tree_step_collects grid myrow mycol nsupers aln_i (URtree_ptr Llu) mod_)
                eq_refl Hmono) as H.
  cbv zeta in H. destruct (for_ _ _ _ _) as [[[[recv nrecvmod] sups] nsups] nrtree].
  cbn [nsups_of sups_of nroot rootsups] in H |- *.
  destruct H as (Hn & Hsound & Hall & Hsorted).
  split; [exact Hn|]. split; [|split; [|exact Hsorted]].
  - intros jj Hjj. destruct (Hsound jj Hjj) as (lk & Hlk & E & Hl).
    exists lk. split; [exact Hlk|]. split; [exact E|].
    apply tree_leaf_spec in Hl. rewrite Hmod in Hl by exact Hlk. exact Hl.
  - intros lk Hlk Hroot. apply Hall; [exact Hlk|]. apply tree_leaf_spec.
    rewrite Hmod by exact Hlk. exact Hroot.
Qed.

(** [f lo + f (lo + 1) + ... + f (hi - 1)]. *)
Definition sum_between (lo hi : Z) (f : Z -> Z) : Z := for_ lo hi (fun i acc => acc + f i) 0.

Definition sum_below (f : Z -> Z) (hi : Z) : Z := sum_between 0 hi f.

Lemma sum_between_snoc lo hi f :
  lo <= hi -> sum_between lo (hi + 1) f = sum_between lo hi f + f hi.
Proof. intros Hhi. unfold sum_between. now rewrite for_snoc. Qed.

Lemma sum_below_snoc f hi : 0 <= hi -> sum_below f (hi + 1) = sum_below f hi + f hi.
Proof. apply sum_between_snoc. Qed.

Definition has_tree (t : option tree) : Z :=
  match t with Some _ => 1 | None => 0 end.

(** The loop over the reduction trees adds up the destination counts of the
    trees and counts the trees. *)
Lemma tree_loop_totals grid myrow mycol nsupers aln_i trees mod_ hi recv sups :
  let st := for_ 0 hi (tree_step grid myrow mycol nsupers aln_i trees mod_)
                 (recv, 0, sups, 0, 0) in
  nrecvmod_of st = sum_below (fun lk => tree_dest_count (trees lk)) hi /\
  nrtree_of st = sum_below (fun lk => has_tree (trees lk)) hi.
Proof.
  intros st. subst st.
  destruct (Z_le_gt_dec 0 hi) as [Hle|Hgt];
    [|unfold sum_below, sum_between; rewrite !for_empty by lia; split; reflexivity].
  apply (for_inv (fun j s =>
    nrecvmod_of s = sum_below (fun lk => tree_dest_count (trees lk)) j /\
    nrtree_of s = sum_below (fun lk => has_tree (trees lk)) j));
    [exact Hle | split; reflexivity |].
  intros j [[[[r m] s] ns] nt] Hj [Hm Hnt]. cbn [nrecvmod_of nrtree_of] in Hm, Hnt.
  rewrite !sum_below_snoc by lia. cbv beta. unfold tree_step.
  destruct (trees j) as [t|]; cbn [tree_dest_count has_tree].
  - cbn [nrecvmod_of nrtree_of]. rewrite store_same. split; lia.
  - destruct (_ <? _); [destruct (_ =? _); [destruct (_ =? _)|]|];
      cbn [nrecvmod_of nrtree_of]; split; lia.
Qed.

(** X9.  The set-up loops add up the messages that the reduction trees will
    bring: on more than one process [nfrecvmod] is the sum of the destination
    counts of the trees of [LRtree_ptr] over the local block rows and
    [nrtree] the number of these trees, and on one process both stay 0;
    [nbrecvmod] is the same sum over [URtree_ptr], on any number of
    processes.  The loop of the backward solve then receives [nbrecvx] plus
    that sum of messages. *)
Theorem setup_counts_the_messages_of_the_trees
    grid Glu Llu D myrow mycol nsupers nlb aln_i fresh_f fresh_b
    nrhs num_thread sizelsum w :
  let nsupers_i := CEILING nsupers (nprow grid) in
  let fc := forward_setup grid Llu myrow mycol nsupers nlb aln_i fresh_f in
  let bc := backward_setup grid Llu myrow mycol nsupers nlb aln_i fresh_b in
  nfrecvmod fc = (if nprow grid * npcol grid =? 1 then 0
                  else sum_below (fun lk => tree_dest_count (LRtree_ptr Llu lk)) nsupers_i) /\
  f_nrtree fc = (if nprow grid * npcol grid =? 1 then 0
                 else sum_below (fun lk => has_tree (LRtree_ptr Llu lk)) nsupers_i) /\
  nbrecvmod bc = sum_below (fun lk => tree_dest_count (URtree_ptr Llu lk)) nsupers_i /\
  b_nrtree bc = sum_below (fun lk => has_tree (URtree_ptr Llu lk)) nsupers_i /\
  snd (backward_loop grid Glu Llu D nrhs aln_i num_thread sizelsum (nbrecvmod bc) w)
    = Z.max 0 (nbrecvx Llu
               + sum_below (fun lk => tree_dest_count (URtree_ptr Llu lk)) nsupers_i).
Proof.
  intros nsupers_i fc bc.
  assert (Hb : nbrecvmod bc = sum_below (fun lk => tree_dest_count (URtree_ptr Llu lk)) nsupers_i
               /\ b_nrtree bc = sum_below (fun lk => has_tree (URtree_ptr Llu lk)) nsupers_i).
  { subst bc. unfold backward_setup. fold nsupers_i.
    pose proof (@tree_loop_totals grid myrow mycol nsupers aln_i (URtree_ptr Llu)
                  (save_counts aln_i nlb (Llu_bmod Llu) fresh_b) nsupers_i
                  (fun _ => 0) (fun _ => 0)) as H.
    cbv zeta in H. destruct (for_ _ _ _ _) as [[[[r m] s] ns] nt].
    cbn [nrecvmod_of nrtree_of nbrecvmod b_nrtree] in H |- *. exact H. }
  destruct Hb as [Hbm Hbt].
  split; [|split]; [| |split; [exact Hbm | split; [exact Hbt|]]].
  - subst fc. unfold forward_setup. fold nsupers_i.
    destruct (Z.eqb_spec (nprow grid * npcol grid) 1) as [Hone|Hmany].
    + assert (H : nrecvmod_of (for_ 0 nsupers_i
                     (leaf_step_single grid myrow nsupers aln_i
                        (save_counts aln_i nlb (Llu_fmod Llu) fresh_f))
                     ((fun _ => 0) : array Z, 0, (fun _ => 0) : array Z, 0, 0)) = 0).
      { destruct (Z_le_gt_dec 0 nsupers_i) as [Hle|Hgt]; [|now rewrite for_empty by lia].
        apply (for_inv (fun _ s => nrecvmod_of s = 0)); [exact Hle | reflexivity |].
        intros j [[[[r m] s] ns] nt] Hj Hm. unfold leaf_step_single.
        destruct (_ <? _); [destruct (_ =? _)|]; exact Hm. }
      destruct (for_ _ _ _ _) as [[[[r m] s] ns] nt]. exact H.
    + pose proof (@tree_loop_totals grid myrow mycol nsupers aln_i (LRtree_ptr Llu)
                    (save_counts aln_i nlb (Llu_fmod Llu) fresh_f) nsupers_i
                    (fun _ => 0) (fun _ => 0)) as H.
      cbv zeta in H. destruct (for_ _ _ _ _) as [[[[r m] s] ns] nt].
      cbn [nrecvmod_of nfrecvmod] in H |- *. exact (proj1 H).
  - subst fc. unfold forward_setup. fold nsupers_i.
    destruct (Z.eqb_spec (nprow grid * npcol grid) 1) as [Hone|Hmany].
    + assert (H : nrtree_of (for_ 0 nsupers_i
                     (leaf_step_single grid myrow nsupers aln_i
                        (save_counts aln_i nlb (Llu_fmod Llu) fresh_f))
                     ((fun _ => 0) : array Z, 0, (fun _ => 0) : array Z, 0, 0)) = 0).
      { destruct (Z_le_gt_dec 0 nsupers_i) as [Hle|Hgt]; [|now rewrite for_empty by lia].
        apply (for_inv (fun _ s => nrtree_of s = 0)); [exact Hle | reflexivity |].
        intros j [[[[r m] s] ns] nt] Hj Hm. unfold leaf_step_single.
        destruct (_ <? _); [destruct (_ =? _)|]; exact Hm. }
      destruct (for_ _ _ _ _) as [[[[r m] s] ns] nt]. exact H.
    + pose proof (@tree_loop_totals grid myrow mycol nsupers aln_i (LRtree_ptr Llu)
                    (save_counts aln_i nlb (Llu_fmod Llu) fresh_f) nsupers_i
                    (fun _ => 0) (fun _ => 0)) as H.
      cbv zeta in H. destruct (for_ _ _ _ _) as [[[[r m] s] ns] nt].
      cbn [nrtree_of f_nrtree] in H |- *. exact (proj2 H).
  - rewrite backward_loop_counter, Hbm. reflexivity.
Qed.

(** ** The solve of a diagonal block *)

Lemma store_block_inside ii len src (x : array double) i :
  0 <= i < len -> store_block ii len src x (ii + i) = src i.
Proof.
  intros Hi. unfold store_block.
  apply for_set with (j0 := i); [exact Hi | intros y; apply store_same |].
  intros i' y Hi'. apply store_other. lia.
Qed.

(** With the inverses at hand, the solve of a diagonal block is a product
    by the inverse, computed in [rtemp] and copied into the block of [x]. *)
Lemma diag_solve_by_the_inverse Glu Llu D inv_bc_ptr uplo diag nrhs k ii lk w :
  Llu_inv D = 1 ->
  let knsupc := SuperSize (xsup Glu) k in
  let prod := dgemm_ "N" "N" knsupc nrhs knsupc one (inv_bc_ptr lk) knsupc
                     (shift (w_x w) ii) knsupc zero (w_rtemp w) knsupc in
  let w' := diag_solve Glu Llu D inv_bc_ptr uplo diag nrhs k ii lk w in
  (forall i, 0 <= i < knsupc * nrhs -> w_x w' (ii + i) = prod i) /\
  w_rtemp w' = prod /\
  w_lsum w' = w_lsum w /\ w_fmod w' = w_fmod w /\ w_bmod w' = w_bmod w /\
  w_sent w' = w_sent w /\
  w_leaf_send w' = w_leaf_send w /\ w_nleaf_send w' = w_nleaf_send w /\
  w_root_send w' = w_root_send w /\ w_nroot_send w' = w_nroot_send w.
Proof.
  intros Hinv knsupc prod w'. subst w'. unfold diag_solve. rewrite Hinv. cbn [Z.eqb Pos.eqb].
  fold knsupc. fold prod. cbn. split; [|repeat split].
  intros i Hi. now apply store_block_inside.
Qed.

(** X10.  With [Llu->inv == 1] the solve of a leaf [k] replaces the block of
    [x] by the product that [dgemm_] makes of [Linv_bc_ptr[LBj(k)]] and the
    block, through [rtemp]; it queues the block column [LBj(k)] in
    [leaf_send] when the column has a broadcast tree and queues nothing
    otherwise; [lsum], the counters and the messages sent are as before.
    The solve of a root does the same with [Uinv_bc_ptr], [UBtree_ptr] and
    [root_send]. *)
Theorem leaf_and_root_solve_by_the_inverse grid Glu Llu D nrhs aln_i k w :
  Llu_inv D = 1 ->
  let ii := X_BLK XK_H (Llu_ilsum Llu) nrhs (LBi k grid) in
  let lk := LBj k grid in
  let knsupc := SuperSize (xsup Glu) k in
  let prod inv := dgemm_ "N" "N" knsupc nrhs knsupc one inv knsupc
                         (shift (w_x w) ii) knsupc zero (w_rtemp w) knsupc in
  let wl := leaf_solve grid Glu Llu D nrhs aln_i k w in
  let wr := root_solve grid Glu Llu D nrhs aln_i k w in
  ((forall i, 0 <= i < knsupc * nrhs -> w_x wl (ii + i) = prod (Linv_bc_ptr D lk) i) /\
   w_rtemp wl = prod (Linv_bc_ptr D lk) /\
   w_lsum wl = w_lsum w /\ w_fmod wl = w_fmod w /\ w_sent wl = w_sent w /\
   match LBtree_ptr Llu lk with
   | Some _ => w_nleaf_send wl = w_nleaf_send w + 1 /\
               w_leaf_send wl = store (w_leaf_send w) (w_nleaf_send w * aln_i) lk
   | None => w_nleaf_send wl = w_nleaf_send w /\ w_leaf_send wl = w_leaf_send w
   end) /\
  ((forall i, 0 <= i < knsupc * nrhs -> w_x wr (ii + i) = prod (Uinv_bc_ptr D lk) i) /\
   w_rtemp wr = prod (Uinv_bc_ptr D lk) /\
   w_lsum wr = w_lsum w /\ w_bmod wr = w_bmod w /\ w_sent wr = w_sent w /\
   match UBtree_ptr Llu lk with
   | Some _ => w_nroot_send wr = w_nroot_send w + 1 /\
               w_root_send wr = store (w_root_send w) (w_nroot_send w * aln_i) lk
   | None => w_nroot_send wr = w_nroot_send w /\ w_root_send wr = w_root_send w
   end).
Proof.
  intros Hinv ii lk knsupc prod wl wr. split.
  - subst wl. unfold leaf_solve. cbv zeta. fold ii. fold lk.
    pose proof (@diag_solve_by_the_inverse Glu Llu D (Linv_bc_ptr D) "L" "U" nrhs k ii lk w Hinv)
      as H. cbv zeta in H. fold knsupc in H.
    destruct H as (Hx & Hr & Hl & Hf & Hb & Hs & Hls & Hnl & Hrs & Hnr).
    destruct (LBtree_ptr Llu lk); cbn [push_leaf_send w_x w_rtemp w_lsum w_fmod w_sent
                                       w_nleaf_send w_leaf_send].
    + rewrite Hnl, Hls. replace (w_nleaf_send w + 1 - 1) with (w_nleaf_send w) by lia.
      repeat split; assumption.
    + repeat split; assumption.
  - subst wr. unfold root_solve. cbv zeta. fold ii. fold lk.
    pose proof (@diag_solve_by_the_inverse Glu Llu D (Uinv_bc_ptr D) "U" "N" nrhs k ii lk w Hinv)
      as H. cbv zeta in H. fold knsupc in H.
    destruct H as (Hx & Hr & Hl & Hf & Hb & Hs & Hls & Hnl & Hrs & Hnr).
    destruct (UBtree_ptr Llu lk); cbn [push_root_send w_x w_rtemp w_lsum w_bmod w_sent
                                       w_nroot_send w_root_send].
    + rewrite Hnr, Hrs. replace (w_nroot_send w + 1 - 1) with (w_nroot_send w) by lia.
      repeat split; assumption.
    + repeat split; assumption.
Qed.

(** ** The messages handed to the trees *)

(** What entry [lk] of [leaf_send] or of [root_send] makes the loop send: a
    nonnegative entry is a block column, whose block of [x] goes down its
    broadcast tree with its header; a negative entry [-lk - 1] stands for
    the block row [lk], whose block of [lsum] goes up its reduction tree. *)
Definition entry_message (grid : gridinfo_t) (Llu : LocalLU_t) (mycol nrhs : Z)
    (bc rd : tag) (Btree Rtree : array (option tree)) (w : workspace) (lk : Z)
    (m : message) : Prop :=
  if 0 <=? lk then
    msg_tag m = bc /\ msg_tree m = lk /\
    msg_buf m = shift (w_x w) (X_BLK XK_H (Llu_ilsum Llu) nrhs
                                     (LBi (mycol + lk * npcol grid) grid) - XK_H) /\
    msg_len m = tree_msg_size (Btree lk) * nrhs + XK_H
  else
    msg_tag m = rd /\ msg_tree m = - lk - 1 /\
    msg_buf m = shift (w_lsum w) (LSUM_BLK LSUM_H (Llu_ilsum Llu) nrhs (- lk - 1) - LSUM_H) /\
    msg_len m = tree_msg_size (Rtree (- lk - 1)) * nrhs + LSUM_H.

(** The workspace but for the messages sent. *)
Definition same_but_sent (w w' : workspace) : Prop :=
  w_x w' = w_x w /\ w_lsum w' = w_lsum w /\ w_rtemp w' = w_rtemp w /\
  w_fmod w' = w_fmod w /\ w_bmod w' = w_bmod w /\
  w_leaf_send w' = w_leaf_send w /\ w_nleaf_send w' = w_nleaf_send w /\
  w_root_send w' = w_root_send w /\ w_nroot_send w' = w_nroot_send w.

(** A loop that hands one message per iteration to a tree. *)
Lemma forwarding_loop (body : Z -> workspace -> workspace)
    (sends : workspace -> Z -> message -> Prop) n w :
  (forall i w1, same_but_sent w w1 ->
     exists m, body i w1 = forward w1 m /\ sends w i m) ->
  let w' := for_ 0 n body w in
  same_but_sent w w' /\
  exists sent,
    w_sent w' = w_sent w ++ sent /\
    Z.of_nat (List.length sent) = Z.max 0 n /\
    forall i, 0 <= i < n -> exists m, nth_error sent (Z.to_nat i) = Some m /\ sends w i m.
Proof.
  intros Hbody w'. subst w'.
  assert (Hrefl : same_but_sent w w) by (unfold same_but_sent; repeat split).
  destruct (Z_le_gt_dec 0 n) as [Hle|Hgt].
  - replace (Z.max 0 n) with n by lia.
    apply (for_inv (fun j w1 =>
      same_but_sent w w1 /\
      exists sent,
        w_sent w1 = w_sent w ++ sent /\
        Z.of_nat (List.length sent) = j /\
        forall i, 0 <= i < j ->
          exists m, nth_error sent (Z.to_nat i) = Some m /\ sends w i m)); [exact Hle | |].
    + split; [exact Hrefl|]. exists []. rewrite app_nil_r.
      split; [reflexivity|]. split; [reflexivity | intros; lia].
    + intros j w1 Hj (Hsame & sent & Hsent & Hlen & Hall).
      destruct (Hbody j w1 Hsame) as (m & -> & Hm). split.
      * unfold same_but_sent in *. cbn [forward w_x w_lsum w_rtemp w_fmod w_bmod w_leaf_send
                                        w_nleaf_send w_root_send w_nroot_send]. exact Hsame.
      * exists (sent ++ [m]). cbn [forward w_sent]. rewrite Hsent, app_assoc.
        split; [reflexivity|]. split; [rewrite length_app; cbn [List.length]; lia|].
        intros i Hi. destruct (Z.eq_dec i j) as [->|Hne].
        -- exists m. split; [|exact Hm].
           rewrite nth_error_app2 by lia.
           replace (Z.to_nat j - List.length sent)%nat with O by lia. reflexivity.
        -- destruct (Hall i ltac:(lia)) as (m' & Hnth & Hm'). exists m'.
           split; [|exact Hm']. rewrite nth_error_app1 by lia. exact Hnth.
  - rewrite for_empty by lia. split; [exact Hrefl|]. exists []. rewrite app_nil_r.
    split; [reflexivity|]. split; [cbn; lia | intros; lia].
Qed.

(** X11.  The loop over [leaf_send] (lines 1422 to 1442) hands one message
    per entry to a tree, in the order of the entries, and changes nothing
    else: a nonnegative entry [lk] sends the block of [x] of block column
    [lk] with its header, tagged [BC_L], [GetMsgSize * nrhs + XK_H] long;
    a negative entry sends the block of [lsum] of block row [-lk - 1] with
    its header, tagged [RD_L], [GetMsgSize * nrhs + LSUM_H] long.  The loop
    over [root_send] (lines 2125 to 2137) does the same with the tags
    [BC_U] and [RD_U] and the trees of the backward solve. *)
Theorem forwarding_sends_one_message_per_entry grid Llu mycol nrhs aln_i n w :
  let wl := for_ 0 n (leaf_forward grid Llu mycol nrhs aln_i) w in
  let wr := for_ 0 n (root_forward grid Llu mycol nrhs aln_i) w in
  (same_but_sent w wl /\
   exists sent,
     w_sent wl = w_sent w ++ sent /\ Z.of_nat (List.length sent) = Z.max 0 n /\
     forall i, 0 <= i < n ->
       exists m, nth_error sent (Z.to_nat i) = Some m /\
         entry_message grid Llu mycol nrhs BC_L RD_L (LBtree_ptr Llu) (LRtree_ptr Llu)
                       w (w_leaf_send w (i * aln_i)) m) /\
  (same_but_sent w wr /\
   exists sent,
     w_sent wr = w_sent w ++ sent /\ Z.of_nat (List.length sent) = Z.max 0 n /\
     forall i, 0 <= i < n ->
       exists m, nth_error sent (Z.to_nat i) = Some m /\
         entry_message grid Llu mycol nrhs BC_U RD_U (UBtree_ptr Llu) (URtree_ptr Llu)
                       w (w_root_send w (i * aln_i)) m).
Proof.
  intros wl wr. split.
  - apply (@forwarding_loop (leaf_forward grid Llu mycol nrhs aln_i)
             (fun w0 i m => entry_message grid Llu mycol nrhs BC_L RD_L
                              (LBtree_ptr Llu) (LRtree_ptr Llu) w0
                              (w_leaf_send w0 (i * aln_i)) m)).
    intros i w1 (Hx & Hl & _ & _ & _ & Hls & _). unfold leaf_forward, entry_message.
    rewrite Hls, Hx, Hl.
    destruct (0 <=? w_leaf_send w (i * aln_i)); eexists; (split; [reflexivity|]);
      cbn [msg_tag msg_tree msg_buf msg_len]; repeat split.
  - apply (@forwarding_loop (root_forward grid Llu mycol nrhs aln_i)
             (fun w0 i m => entry_message grid Llu mycol nrhs BC_U RD_U
                              (UBtree_ptr Llu) (URtree_ptr Llu) w0
                              (w_root_send w0 (i * aln_i)) m)).
    intros i w1 (Hx & Hl & _ & _ & _ & _ & _ & Hrs & _). unfold root_forward, entry_message.
    rewrite Hrs, Hx, Hl.
    destruct (0 <=? w_root_send w (i * aln_i)); eexists; (split; [reflexivity|]);
      cbn [msg_tag msg_tree msg_buf msg_len]; repeat split.
Qed.

(** ** The partial sums *)

(** A loop over the cells [base + i + j * knsupc] of a block that adds
    [src i j] to each. *)
Lemma block_added (src : Z -> Z -> double) base knsupc nrhs (a : array double) :
  let a' :=
    for_ 0 nrhs
      (fun j a =>
         for_ 0 knsupc
           (fun i a => store a (i + base + j * knsupc)
                             (dadd (a (i + base + j * knsupc)) (src i j))) a) a in
  (forall i j, 0 <= i < knsupc -> 0 <= j < nrhs ->
     a' (i + base + j * knsupc) = dadd (a (i + base + j * knsupc)) (src i j)) /\
  (forall c, c < base \/ base + knsupc * nrhs <= c -> a' c = a c).
Proof.
  intros a'. subst a'. split.
  - intros i j Hi Hj.
    apply for_update with (j0 := j) (f := fun v => dadd v (src i j)); [exact Hj | |].
    + intros y. apply for_update with (j0 := i) (f := fun v => dadd v (src i j)); [exact Hi | |].
      * intros z. apply store_same.
      * intros i' z Hi' Hne. apply store_other. lia.
    + intros j' y Hj' Hne. apply for_frame. intros i' z Hi'. apply store_other. nia.
  - intros c Hc. apply for_frame. intros j y Hj. apply for_frame. intros i z Hi.
    apply store_other. nia.
Qed.

(** X12.  The two loops that add a block cell by cell do so: after
    [lsum[i + il + j*knsupc] += tempv[i + j*knsupc]] every cell of the
    block of [lsum] holds its old value plus the value received, and after
    [x[i + ii + j*knsupc] += lsum[i + il + j*knsupc]] every cell of the
    block of [x] holds its old value plus the partial sum; the cells outside
    the block are as before. *)
Theorem partial_sums_are_added_cell_by_cell il ii knsupc nrhs tempv lsum x :
  let lsum' := accumulate il knsupc nrhs tempv lsum in
  let x' := fold_lsum ii il knsupc nrhs lsum x in
  (forall i j, 0 <= i < knsupc -> 0 <= j < nrhs ->
     lsum' (i + il + j * knsupc)
       = dadd (lsum (i + il + j * knsupc)) (tempv (i + j * knsupc)) /\
     x' (i + ii + j * knsupc)
       = dadd (x (i + ii + j * knsupc)) (lsum (i + il + j * knsupc))) /\
  (forall c, c < il \/ il + knsupc * nrhs <= c -> lsum' c = lsum c) /\
  (forall c, c < ii \/ ii + knsupc * nrhs <= c -> x' c = x c).
Proof.
  intros lsum' x'.
  pose proof (@block_added (fun i j => tempv (i + j * knsupc)) il knsupc nrhs lsum) as Hl.
  pose proof (@block_added (fun i j => lsum (i + il + j * knsupc)) ii knsupc nrhs x) as Hx.
  cbv zeta in Hl, Hx. destruct Hl as [Hl1 Hl2]. destruct Hx as [Hx1 Hx2].
  split; [|split].
  - intros i j Hi Hj. split; [apply (Hl1 i j Hi Hj) | apply (Hx1 i j Hi Hj)].
  - exact Hl2.
  - exact Hx2.
Qed.

Lemma counter_from_snoc :
  forall n i, counter_from (S n) i = counter_from n i ++ [i + Z.of_nat n].
Proof.
  induction n as [|n IH]; intros i.
  - cbn. now replace (i + 0) with i by lia.
  - change (counter_from (S (S n)) i) with (i :: counter_from (S n) (i + 1)).
    rewrite IH. cbn [counter_from app]. do 3 f_equal. lia.
Qed.

Lemma counter_snoc lo hi : lo <= hi -> counter lo (hi + 1) = counter lo hi ++ [hi].
Proof.
  intros Hle. unfold counter.
  replace (Z.to_nat (hi + 1 - lo)) with (S (Z.to_nat (hi - lo))) by lia.
  rewrite counter_from_snoc. do 2 f_equal. lia.
Qed.

(** X13.  The loop that gathers the copies of the threads,
    [lsum[il + jj] += lsum[il + jj + ii*sizelsum]] for [ii] from 1 below
    [num_thread], leaves in every cell of the block the sum of the cell and
    of its copies, added in the order of the threads, and leaves the copies
    as they were; the copies lie [sizelsum] cells apart, one block at least. *)
Theorem sum_threads_gathers_the_copies il knsupc nrhs num_thread sizelsum lsum :
  knsupc * nrhs <= sizelsum ->
  let lsum' := sum_threads il knsupc nrhs num_thread sizelsum lsum in
  (forall jj, 0 <= jj < knsupc * nrhs ->
     lsum' (il + jj)
       = fold_left (fun acc ii => dadd acc (lsum (il + jj + ii * sizelsum)))
                   (counter 1 num_thread) (lsum (il + jj))) /\
  (forall c, c < il \/ il + knsupc * nrhs <= c -> lsum' c = lsum c).
Proof.
  intros Hroom lsum'. subst lsum'. unfold sum_threads.
  destruct (Z_le_gt_dec 1 num_thread) as [Hle|Hgt].
  - apply (for_inv (fun t y =>
      (forall jj, 0 <= jj < knsupc * nrhs ->
         y (il + jj)
           = fold_left (fun acc ii => dadd acc (lsum (il + jj + ii * sizelsum)))
                       (counter 1 t) (lsum (il + jj))) /\
      (forall c, c < il \/ il + knsupc * nrhs <= c -> y c = lsum c))); [exact Hle | |].
    + split; [intros jj Hjj; reflexivity | intros c Hc; reflexivity].
    + intros t y Ht [Hin Hout].
      assert (Hinner :
        (forall jj, 0 <= jj < knsupc * nrhs ->
           for_ 0 (knsupc * nrhs)
             (fun jj y => store y (il + jj) (dadd (y (il + jj)) (y (il + jj + t * sizelsum)))) y
             (il + jj) = dadd (y (il + jj)) (y (il + jj + t * sizelsum))) /\
        (forall c, c < il \/ il + knsupc * nrhs <= c ->
           for_ 0 (knsupc * nrhs)
             (fun jj y => store y (il + jj) (dadd (y (il + jj)) (y (il + jj + t * sizelsum)))) y
             c = y c)).
      { split.
        - intros jj Hjj.
          assert (H : forall m, 0 <= m <= knsupc * nrhs ->
                    let z := for_ 0 m
                       (fun jj y => store y (il + jj)
                                      (dadd (y (il + jj)) (y (il + jj + t * sizelsum)))) y in
                    (forall c, c < il \/ il + m <= c -> z c = y c) /\
                    (jj < m -> z (il + jj) = dadd (y (il + jj)) (y (il + jj + t * sizelsum)))).
          { intros m Hm z. subst z.
            apply (for_inv (fun m z =>
              (forall c, c < il \/ il + m <= c -> z c = y c) /\
              (jj < m -> z (il + jj) = dadd (y (il + jj)) (y (il + jj + t * sizelsum)))));
              [lia | split; [reflexivity | lia] |].
            intros m' z Hm' [Hfar Hdone]. split.
            - intros c Hc. rewrite store_other by lia. apply Hfar. lia.
            - intros Hlt. destruct (Z.eq_dec jj m') as [<-|Hne].
              + rewrite store_same. rewrite !Hfar; [reflexivity | nia | lia].
              + rewrite store_other by lia. apply Hdone. lia. }
          apply (H (knsupc * nrhs)); lia.
        - intros c Hc. apply for_frame. intros jj z Hjj. apply store_other. lia. }
      destruct Hinner as [Hadd Hkeep]. split.
      * intros jj Hjj. rewrite Hadd by exact Hjj. rewrite counter_snoc by lia.
        rewrite fold_left_app. cbn [fold_left]. rewrite Hin by exact Hjj.
        rewrite Hout by nia. reflexivity.
      * intros c Hc. rewrite Hkeep by exact Hc. apply Hout. exact Hc.
  - rewrite for_empty by lia. split; [|reflexivity].
    intros jj Hjj. unfold counter. replace (Z.to_nat (num_thread - 1)) with O by lia.
    reflexivity.
Qed.

(** ** The sweeps of the one-sided loop *)

(** Lines 1501 to 1507 with the lengths of the arrays: [RD_subtotal] and
    [RDis_solved] are allocated with [Pc] cells (lines 1471 and 1476), and
    the sweep is [None] once it has read or written a cell beyond them, where
    the C program has no defined behaviour. *)
Definition sweep_RD_checked (Pr Pc : Z) (recvbuf_oneside : array double) (d : drained)
    (st : Z * array Z * Z) : option (Z * array Z * Z) :=
  for_ Pr (Pc + Pr)
    (fun i st =>
       match st with
       | None => None
       | Some (nfrecv, RD_subtotal, RD_subtotal_all) =>
           if (0 <=? i) && (i <? Pc) then
             let RD_subtotal := store RD_subtotal i (to_int (recvbuf_oneside i)) in
             let nfrecv := nfrecv + RDis_solved d i in
             Some (nfrecv, RD_subtotal, RD_subtotal_all + (RD_subtotal i - RDis_solved d i))
           else None
       end)
    (Some st).

(** X14.  One sweep of the one-sided loop.  The first loop (lines 1493 to
    1499) stays within [BC_subtotal] and [BCis_solved], of [Pr] cells: it
    copies the counts of the window into [BC_subtotal[0 .. Pr)], adds to
    [nfrecv] all that [BCis_solved] holds, the messages handled since the
    loop began and not since the last sweep, and counts in
    [BC_subtotal_all] what the window holds beyond them.  The second loop
    (lines 1501 to 1507) indexes [RD_subtotal] and [RDis_solved], of [Pc]
    cells, from [Pr] to [Pc + Pr - 1]: on a mesh with [Pr >= 1] and
    [Pc >= 1] it runs past their end. *)
Theorem sweep_RD_runs_past_its_arrays Pr Pc recvbuf_oneside d nfrecv BCs RDs :
  (let '(nf1, BCs1, BCall) := sweep_BC Pr recvbuf_oneside d (nfrecv, BCs, 0) in
   nf1 = nfrecv + sum_between 0 Pr (BCis_solved d) /\
   BCall = sum_between 0 Pr (fun i => to_int (recvbuf_oneside i) - BCis_solved d i) /\
   (forall i, BCs1 i = if (0 <=? i) && (i <? Pr)
                       then to_int (recvbuf_oneside i) else BCs i)) /\
  (0 < Pr -> 0 < Pc ->
   sweep_RD_checked Pr Pc recvbuf_oneside d (nfrecv, RDs, 0) = None) /\
  (Pr = 0 ->
   sweep_RD_checked Pr Pc recvbuf_oneside d (nfrecv, RDs, 0)
     = Some (sweep_RD Pr Pc recvbuf_oneside d (nfrecv, RDs, 0))).
Proof.
  split; [|split].
  - unfold sweep_BC.
    destruct (Z_le_gt_dec 0 Pr) as [Hle|Hgt].
    + apply (for_inv (fun j (st : Z * array Z * Z) =>
        let '(nf, S1, all) := st in
        nf = nfrecv + sum_between 0 j (BCis_solved d) /\
        all = sum_between 0 j (fun i => to_int (recvbuf_oneside i) - BCis_solved d i) /\
        (forall i, S1 i = if (0 <=? i) && (i <? j)
                          then to_int (recvbuf_oneside i) else BCs i))); [exact Hle | |].
      * unfold sum_between. rewrite !for_empty by lia. split; [lia|]. split; [reflexivity|].
        intros i. destruct (Z.leb_spec 0 i); destruct (Z.ltb_spec i 0); cbn;
          try reflexivity; lia.
      * intros j [[nf S1] all] Hj (Hnf & Hall & HS). cbv zeta.
        rewrite !sum_between_snoc by lia. rewrite store_same. split; [lia|]. split; [lia|].
        intros i. destruct (Z.eq_dec i j) as [->|Hne].
        -- rewrite store_same.
           replace (0 <=? j) with true by (symmetry; apply Z.leb_le; lia).
           replace (j <? j + 1) with true by (symmetry; apply Z.ltb_lt; lia). reflexivity.
        -- rewrite store_other by exact Hne. rewrite HS.
           destruct (Z.leb_spec 0 i); cbn [andb]; [|reflexivity].
           destruct (Z.ltb_spec i j); destruct (Z.ltb_spec i (j + 1)); try reflexivity; lia.
    + rewrite for_empty by lia. unfold sum_between. rewrite !for_empty by lia.
      split; [lia|]. split; [reflexivity|].
      intros i. destruct (Z.leb_spec 0 i); destruct (Z.ltb_spec i Pr); cbn;
        try reflexivity; lia.
  - intros HPr HPc. unfold sweep_RD_checked.
    replace (Pc + Pr) with (Pc + Pr - 1 + 1) by lia. rewrite for_snoc by lia.
    destruct (for_ Pr (Pc + Pr - 1) _ _) as [[[nf S1] all]|]; [|reflexivity].
    replace (Pc + Pr - 1 <? Pc) with false by (symmetry; apply Z.ltb_ge; lia).
    rewrite Bool.andb_false_r. reflexivity.
  - intros ->. unfold sweep_RD_checked, sweep_RD. rewrite !Z.add_0_r.
    destruct (Z_le_gt_dec 0 Pc) as [Hle|Hgt]; [|now rewrite !for_empty by lia].
    set (body := fun (i : Z) (st : Z * array Z * Z) => _).
    set (checked := fun (i : Z) (st : option (Z * array Z * Z)) => _).
    apply (for_inv (fun j st => st = Some (for_ 0 j body (nfrecv, RDs, 0))));
      [exact Hle | now rewrite for_empty by lia |].
    intros j st Hj ->. rewrite for_snoc by lia. subst checked. cbv beta iota.
    destruct (for_ 0 j body (nfrecv, RDs, 0)) as [[nf S1] all].
    replace (0 <=? j) with true by (symmetry; apply Z.leb_le; lia).
    replace (j <? Pc) with true by (symmetry; apply Z.ltb_lt; lia).
    reflexivity.
Qed.

(** ** How a call of [pdgstrs] can end *)

(** [pdReDistribute_B_to_X] aborts only when an allocation fails. *)
Lemma B_to_X_aborts_without_memory (env : @environment double) B m_loc nrhs ldb fst_row
    ilsum x SP Glu grid SOLVE msg :
  pdReDistribute_B_to_X of_int XK_H env B m_loc nrhs ldb fst_row ilsum x SP Glu grid SOLVE
    = Abort msg ->
  exists size, can_alloc env size = false.
Proof.
  unfold pdReDistribute_B_to_X. cbv zeta.
  destruct (_ =? 1); [discriminate|].
  repeat match goal with
         | |- context [can_alloc env ?sz] =>
             destruct (can_alloc env sz) eqn:?; cbn [negb];
             [|intros _; eexists; eassumption]
         end.
  destruct (B_to_X_send _ _ _ _ _ _ _ _ _ _ _ _ _ _ _) as [[[sib sdb] pi] pd].
  destruct (B_to_X_receive _ _ _ _ _ _ _ _ _ _ _ _ _) as [[x' ii] jj]. discriminate.
Qed.

(** X15.  A call of [pdgstrs] aborts only when an allocation fails, its own
    or one of [pdReDistribute_B_to_X]; and a call that ends in [exit] has
    reset [Llu->SolveMsgSent] to 0 and has reported no illegal argument. *)
Theorem pdgstrs_aborts_only_without_memory
    fuel oneside env aln_i aln_d num_thread n Glu Llu D SP grid B
    m_loc fst_row ldb nrhs SOLVE info SolveMsgSent :
  let run := pdgstrs fuel oneside env aln_i aln_d num_thread n Glu Llu D SP grid
                     B m_loc fst_row ldb nrhs SOLVE info SolveMsgSent in
  (forall msg, run = Aborted msg -> exists size, can_alloc env size = false) /\
  (forall status s, run = Exited status s -> s_SolveMsgSent s = 0 /\ s_errors s = []).
Proof.
  intros run.
  assert (H : match run with
              | Returned _ => True
              | Exited _ s => s_SolveMsgSent s = 0 /\ s_errors s = []
              | Aborted _ => exists size, can_alloc env size = false
              | Spinning => True
              end).
  { subst run. unfold pdgstrs. cbv zeta. cbn [s_info with_info].
    destruct (negb (test_input_parameters n nrhs =? 0)); [exact I|]. cbn [and_then].
    repeat (unfold allocate at 1;
            match goal with
            | |- context [can_alloc env ?sz] => destruct (can_alloc env sz) eqn:?
            end; [cbn [and_then] | cbn [and_then ended]; eexists; eassumption]).
    match goal with
    | |- context [call ?c] => destruct c as [r|msg] eqn:Hcall; cbn [call and_then]
    end; [|cbn [ended]; eapply B_to_X_aborts_without_memory; exact Hcall].
    unfold allocate at 1.
    match goal with
    | |- context [can_alloc env ?sz] => destruct (can_alloc env sz) eqn:?
    end; [cbn [and_then] | cbn [and_then ended]; eexists; eassumption].
    destruct oneside.
    - cbn [and_then].
      match goal with
      | |- context [oneside_loop ?a ?b ?c ?d ?e ?f ?g ?h ?i ?j] =>
          destruct (oneside_loop a b c d e f g h i j) as [[nf dr]|]
      end; [cbn; auto | exact I].
    - unfold allocate at 1.
      match goal with
      | |- context [can_alloc env ?sz] => destruct (can_alloc env sz) eqn:?
      end; [cbn; auto | cbn [and_then ended]; eexists; eassumption]. }
  split.
  - intros msg Hrun. rewrite Hrun in H. exact H.
  - intros status s Hrun. rewrite Hrun in H. exact H.
Qed.

(** ** The headers of [x] through the solve *)

(** Writes into bodies of blocks, followed by more of them. *)
Lemma block_writes_app ilsum size nrhs nlb (x x' x'' : array double) :
  block_writes XK_H ilsum size nrhs nlb x x' ->
  block_writes XK_H ilsum size nrhs nlb x' x'' ->
  block_writes XK_H ilsum size nrhs nlb x x''.
Proof.
  intros H1 H2. induction H1 as [x | x y z lk Hlk Hw H1 IH]; [exact H2|].
  apply write_then with (x' := y) (lk := lk); [exact Hlk | exact Hw | apply IH; exact H2].
Qed.

(** A loop whose iterations write into bodies of blocks. *)
Lemma for_block_writes {St} (proj : St -> array double) (body : Z -> St -> St)
    ilsum size nrhs nlb lo hi s :
  (forall j t, lo <= j < hi ->
     block_writes XK_H ilsum size nrhs nlb (proj t) (proj (body j t))) ->
  block_writes XK_H ilsum size nrhs nlb (proj s) (proj (for_ lo hi body s)).
Proof.
  intros Hbody. destruct (Z_le_gt_dec lo hi) as [Hle|Hgt].
  - apply (for_inv (fun _ t => block_writes XK_H ilsum size nrhs nlb (proj s) (proj t)));
      [exact Hle | apply no_write |].
    intros j t Hj Ht. apply block_writes_app with (x' := proj t); [exact Ht|].
    now apply Hbody.
  - rewrite for_empty by lia. apply no_write.
Qed.

(** Every entry of [leafsups] is a supernode [myrow + lk * Pr] below
    [nsupers], for a local block row [lk]. *)
Lemma leaves_are_local grid Llu myrow mycol nsupers nlb aln_i fresh jj :
  0 < nprow grid ->
  let fc := forward_setup grid Llu myrow mycol nsupers nlb aln_i fresh in
  0 <= jj < nleaf fc ->
  exists lk, 0 <= lk < CEILING nsupers (nprow grid) /\
             leafsups fc jj = myrow + lk * nprow grid /\
             myrow + lk * nprow grid < nsupers.
Proof.
  intros Hr fc. subst fc. unfold forward_setup.
  set (mod_ := save_counts aln_i nlb (Llu_fmod Llu) fresh).
  assert (Hmono : forall a b, a < b -> myrow + a * nprow grid < myrow + b * nprow grid)
    by (intros a b Hab; nia).
  destruct (nprow grid * npcol grid =? 1).
  - pose proof (@collected _ (fun lk => myrow + lk * nprow grid) _
                  (CEILING nsupers (nprow grid))
                  ((fun _ => 0) : array Z, 0, (fun _ => 0) : array Z, 0, 0)
                  (leaf_step_single_collects grid myrow nsupers aln_i mod_) eq_refl Hmono) as H.
    cbv zeta in H. destruct (for_ _ _ _ _) as [[[[recv nrecvmod] sups] nsups] nrtree].
    cbn [nsups_of sups_of nleaf leafsups] in H |- *.
    intros Hjj. destruct H as (_ & Hsound & _). destruct (Hsound jj Hjj) as (lk & Hlk & E & Hl).
    exists lk. split; [exact Hlk|]. split; [exact E|].
    apply Bool.andb_true_iff in Hl. destruct Hl as [Hlt _]. now apply Z.ltb_lt in Hlt.
  - pose proof (@collected _ (fun lk => myrow + lk * nprow grid) _
                  (CEILING nsupers (nprow grid))
                  ((fun _ => 0) : array Z, 0, (fun _ => 0) : array Z, 0, 0)
                  (tree_step_collects grid myrow mycol nsupers aln_i (LRtree_ptr Llu) mod_)
                  eq_refl Hmono) as H.
    cbv zeta in H. destruct (for_ _ _ _ _) as [[[[recv nrecvmod] sups] nsups] nrtree].
    cbn [nsups_of sups_of nleaf leafsups] in H |- *.
    intros Hjj. destruct H as (_ & Hsound & _). destruct (Hsound jj Hjj) as (lk & Hlk & E & Hl).
    exists lk. split; [exact Hlk|]. split; [exact E|].
    apply tree_leaf_spec in Hl. apply Hl.
Qed.

(** The local block row of [myrow + lk * Pr]. *)
Lemma LBi_of_local_block grid myrow lk :
  0 < nprow grid -> 0 <= myrow < nprow grid -> 0 <= lk ->
  LBi (myrow + lk * nprow grid) grid = lk.
Proof.
  intros Hr Hm Hlk. unfold LBi.
  rewrite Z.quot_div_nonneg by nia.
  rewrite Z.div_add by lia. rewrite Z.div_small by lia. lia.
Qed.

Section SolveWrites.
Variables (fuel : nat) (env : @environment double).
Variables (aln_i aln_d num_thread n : Z).
Variables (Glu : Glu_persist_t) (Llu : LocalLU_t) (D : diag_inverses).
Variables (SP : ScalePermstruct_t) (grid : gridinfo_t) (B : array double).
Variables (m_loc fst_row ldb nrhs : Z) (SOLVE : SOLVEstruct_t) (info SolveMsgSent : Z).
(** The sizes of the local blocks of [x], and a bound on their number. *)
Variables (size : array Z) (nlb : Z).

Let myrow := MYROW (iam grid) grid.
Let nsupers := supno Glu (n - 1) + 1.
Let writes : array double -> array double -> Prop :=
  block_writes XK_H (Llu_ilsum Llu) size nrhs nlb.

Hypothesis accepted : test_input_parameters n nrhs = 0.
Hypothesis memory : forall sz, can_alloc env sz = true.
Hypothesis mesh_rows : 0 < nprow grid.
Hypothesis my_row : 0 <= myrow < nprow grid.
Hypothesis blocks : CEILING nsupers (nprow grid) <= nlb.
Hypothesis sizes : forall lk, 0 <= lk -> myrow + lk * nprow grid < nsupers ->
                     size lk = SuperSize (xsup Glu) (myrow + lk * nprow grid).
(** The kernel, whose code is in another file, writes into bodies of blocks
    of [x] only. *)
Hypothesis kernel : forall nr k xk w, writes (w_x w) (w_x (dlsum_fmod_inv nr k xk w)).

(** In the two-sided build an accepted call with enough memory ends in
    [exit(0)], and what [x] holds after each phase comes from what
    [pdReDistribute_B_to_X] left by writes into bodies of blocks. *)
Lemma pdgstrs_writes_bodies :
  exists r s,
    pdReDistribute_B_to_X of_int XK_H env B m_loc nrhs ldb fst_row (Llu_ilsum Llu)
      (heap_double env) SP Glu grid SOLVE = Done r /\
    pdgstrs fuel false env aln_i aln_d num_thread n Glu Llu D SP grid
            B m_loc fst_row ldb nrhs SOLVE info SolveMsgSent = Exited 0 s /\
    List.length (s_x s) = 4%nat /\
    forall x', In x' (s_x s) -> writes (filled r) x'.
Proof.
  destruct (@B_to_X_done _ of_int XK_H env B (heap_double env) m_loc nrhs ldb fst_row
              (Llu_ilsum Llu) SP Glu grid SOLVE memory) as [r Hr].
  exists r. unfold pdgstrs. cbv zeta. cbn [s_info with_info].
  rewrite accepted. cbn [Z.eqb negb and_then]. unfold allocate. rewrite !memory.
  cbn [and_then].
  change (pdReDistribute_B_to_X of_int XK_H env _ m_loc nrhs ldb fst_row (Llu_ilsum Llu)
            (heap_double env) SP Glu grid _)
    with (pdReDistribute_B_to_X of_int XK_H env B m_loc nrhs ldb fst_row (Llu_ilsum Llu)
            (heap_double env) SP Glu grid SOLVE).
  rewrite Hr. cbn [call and_then exit_ ended].
  fold nsupers. fold myrow.
  set (fc := forward_setup grid Llu myrow (MYCOL (iam grid) grid) nsupers
                           (CEILING nsupers (nprow grid)) aln_i (heap_int env)).
  set (w0 := {| w_x := filled r |}).
  set (w1 := for_ 0 (nleaf fc) (fun jj w => leaf_solve grid Glu Llu D nrhs aln_i
                                              (leafsups fc jj) w) w0).
  set (w2 := for_ 0 (nleaf fc) (fun jj w => leaf_update grid Llu nrhs (leafsups fc jj) w) w1).
  set (w3 := for_ 0 (w_nleaf_send w2) (leaf_forward grid Llu
                                          (MYCOL (iam grid) grid) nrhs aln_i) w2).
  eexists. split; [reflexivity|]. split; [reflexivity|].
  cbn [s_x with_x with_sent with_scratch with_SolveMsgSent with_info entry_state].
  split; [reflexivity|].
  assert (H1 : writes (filled r) (w_x w1)).
  { change (filled r) with (w_x w0). subst w1.
    apply for_block_writes with (proj := @w_x). intros jj t Hjj.
    destruct (@leaves_are_local grid Llu myrow (MYCOL (iam grid) grid) nsupers
                (CEILING nsupers (nprow grid)) aln_i (heap_int env) jj mesh_rows Hjj)
      as (lk & Hlk & E & Hlt).
    fold fc in E. rewrite E.
    apply write_then with (x' := w_x (leaf_solve grid Glu Llu D nrhs aln_i
                                        (myrow + lk * nprow grid) t)) (lk := lk);
      [lia | | apply no_write].
    pose proof (@leaf_solve_writes grid Glu Llu D nrhs aln_i (myrow + lk * nprow grid) t size)
      as Hw.
    rewrite LBi_of_local_block in Hw by lia. apply Hw. apply sizes; lia. }
  assert (H2 : writes (filled r) (w_x w2)).
  { apply block_writes_app with (x' := w_x w1); [exact H1|]. subst w2.
    apply for_block_writes with (proj := @w_x). intros jj t Hjj.
    unfold leaf_update. apply kernel. }
  assert (H3 : w_x w3 = w_x w2).
  { subst w3. destruct (Z_le_gt_dec 0 (w_nleaf_send w2)) as [Hle|Hgt];
      [|now rewrite for_empty by lia].
    apply (for_inv (fun _ t => w_x t = w_x w2)); [exact Hle | reflexivity |].
    intros i t _ Ht. unfold leaf_forward.
    destruct (0 <=? w_leaf_send t (i * aln_i)); cbn [forward w_x]; exact Ht. }
  intros x' [<- | [<- | [<- | [<- | []]]]].
  - rewrite H3. exact H2.
  - exact H2.
  - exact H1.
  - apply no_write.
Qed.

End SolveWrites.


End Solve.

(** C3, as amended.  When [Pr * Pc == 1], [pdReDistribute_B_to_X] returns
    without any MPI call; for every local row [i] and column [j] the cell
    [X_BLK(k) + (irow - FstBlockC(k)) + j * SuperSize(k)] of [x] holds
    [B[i + j*ldb]], with [irow = perm_c[perm_r[fst_row + i]]] and
    [k = BlockNum(irow)]; the header cell [X_BLK(k) - XK_H] holds [k]; and
    the value cells of distinct rows are distinct. *)
Theorem pdReDistribute_B_to_X_single_process :
  forall (double : Type) (of_int : Z -> double) (XK_H : Z) (env : @environment double)
         (B : array double) (m_loc nrhs ldb fst_row : Z) (ilsum : array Z)
         (x : array double) (SP : ScalePermstruct_t) (Glu : Glu_persist_t)
         (grid : gridinfo_t) (SOLVE : SOLVEstruct_t) (n : Z),
    single_process_input XK_H grid Glu SP ilsum n m_loc nrhs fst_row ->
    exists r,
      pdReDistribute_B_to_X of_int XK_H env B m_loc nrhs ldb fst_row ilsum x
        SP Glu grid SOLVE = Done r /\
      mpi_calls r = [] /\
      (forall i j, 0 <= i < m_loc -> 0 <= j < nrhs ->
         filled r (X_cell XK_H ilsum nrhs Glu SP fst_row i j) = B (i + j * ldb)) /\
      (forall i, 0 <= i < m_loc ->
         let k := BlockNum (supno Glu) (permuted_row SP fst_row i) in
         filled r (X_BLK XK_H ilsum nrhs k - XK_H) = of_int k) /\
      (forall i i' j j', 0 <= i < m_loc -> 0 <= i' < m_loc ->
         0 <= j < nrhs -> 0 <= j' < nrhs -> i <> i' ->
         X_cell XK_H ilsum nrhs Glu SP fst_row i j
           <> X_cell XK_H ilsum nrhs Glu SP fst_row i' j').
Proof.
  intros double of_int XK_H env B m_loc nrhs ldb fst_row ilsum x SP Glu grid SOLVE n wf.
  unfold pdReDistribute_B_to_X.
  rewrite (sp_nprow wf), (sp_npcol wf). cbn [Z.mul Pos.mul Z.eqb Pos.eqb].
  eexists. split; [reflexivity|]. cbn [mpi_calls filled].
  destruct (rows_copied of_int ldb B wf x) as [Hdata Hhdr].
  split; [reflexivity|]. split; [exact Hdata|]. split; [exact Hhdr|].
  intros i i' j j' Hi Hi' Hj Hj' Hne Heq.
  destruct (cells_distinct wf Hi Hi' Hj Hj' Heq) as [Hii _]. contradiction.
Qed.

(** C2.  [pdReDistribute_X_to_B] after [pdReDistribute_B_to_X] keeps the
    values of [B], up to the permutation of the rows: every value
    [B[i + j*ldb]] ends in column [j] of the row
    [perm_c[perm_r[fst_row + i]]], and distinct rows go to distinct rows.
    On one process that row is a row of the same [B]; on a mesh of several
    processes, with [MPI_Alltoallv] carrying the send buffers, it is a row
    of the part of [B] on the process that [row_to_proc] names. *)
Theorem redistribute_round_trip :
  forall (double : Type) (of_int : Z -> double) (XK_H : Z),
    (forall (env : @environment double) (B : array double) (m_loc nrhs ldb fst_row : Z)
            (ilsum : array Z) (x : array double) (SP : ScalePermstruct_t)
            (Glu : Glu_persist_t) (grid : gridinfo_t) (SOLVE : SOLVEstruct_t) (n : Z),
       single_process_input XK_H grid Glu SP ilsum n m_loc nrhs fst_row ->
       single_process_output Glu n m_loc ldb fst_row ->
       exists r1 r2,
         pdReDistribute_B_to_X of_int XK_H env B m_loc nrhs ldb fst_row ilsum x
           SP Glu grid SOLVE = Done r1 /\
         pdReDistribute_X_to_B XK_H env n B m_loc ldb fst_row nrhs (filled r1) ilsum
           SP Glu grid SOLVE = Done r2 /\
         (forall i j, 0 <= i < m_loc -> 0 <= j < nrhs ->
            filled r2 (permuted_row SP fst_row i - fst_row + j * ldb) = B (i + j * ldb)) /\
         (forall i i', 0 <= i < m_loc -> 0 <= i' < m_loc ->
            permuted_row SP fst_row i = permuted_row SP fst_row i' -> i = i')) /\
    (forall (Pr Pc : Z) (SP : ScalePermstruct_t) (Glu : Glu_persist_t) (n nrhs nlb : Z)
            (owner : array Z) (ndp : Z) (dp : array Z) (here : Z -> local double),
       distributed_input XK_H Pr Pc SP Glu n nrhs nlb owner ndp dp here ->
       (forall p i j, 0 <= p < Pr * Pc -> 0 <= i < l_m_loc (here p) -> 0 <= j < nrhs ->
          let irow := permuted_row SP (l_fst_row (here p)) i in
          let r := owner irow in
          0 <= r < Pr * Pc /\
          exists res,
            X_to_B_at of_int XK_H Pr Pc SP Glu n nrhs owner ndp dp here r = Done res /\
            filled res (irow - l_fst_row (here r) + j * l_ldb (here r))
              = l_B (here p) (i + j * l_ldb (here p))) /\
       (forall p p' i i', 0 <= p < Pr * Pc -> 0 <= p' < Pr * Pc ->
          0 <= i < l_m_loc (here p) -> 0 <= i' < l_m_loc (here p') ->
          permuted_row SP (l_fst_row (here p)) i
            = permuted_row SP (l_fst_row (here p')) i' ->
          p = p' /\ i = i')).
Proof.
  intros double of_int XK_H. split.
  - intros env B m_loc nrhs ldb fst_row ilsum x SP Glu grid SOLVE n wf wfo.
    now apply round_trip_on_one_process.
  - intros Pr Pc SP Glu n nrhs nlb owner ndp dp here wf. split.
    + intros p i j Hp Hi Hj. exact (B_returns_between_processes of_int wf Hp Hi Hj).
    + exact (d_inj wf).
Qed.

(** C10.  [pdReDistribute_B_to_X] and [pdReDistribute_X_to_B] return 0
    whenever they return; a failed allocation aborts instead. *)
Theorem redistributions_return_0 :
  forall (double : Type) (of_int : Z -> double) (XK_H : Z) (env : @environment double)
         (B x : array double) (n m_loc nrhs ldb fst_row : Z) (ilsum : array Z)
         (SP : ScalePermstruct_t) (Glu : Glu_persist_t) (grid : gridinfo_t)
         (SOLVE : SOLVEstruct_t),
    (forall r,
       pdReDistribute_B_to_X of_int XK_H env B m_loc nrhs ldb fst_row ilsum x
         SP Glu grid SOLVE = Done r ->
       returned r = 0) /\
    (forall r,
       pdReDistribute_X_to_B XK_H env n B m_loc ldb fst_row nrhs x ilsum
         SP Glu grid SOLVE = Done r ->
       returned r = 0).
Proof.
  intros. split; intros r Hr.
  - exact (B_to_X_returns_0 _ _ _ _ _ _ _ _ _ _ _ _ _ _ Hr).
  - exact (X_to_B_returns_0 _ _ _ _ _ _ _ _ _ _ _ _ _ _ Hr).
Qed.

(** * Further properties of the redistribution *)

(** The counts, the displacements and the scratch pointers are [int] in the
    source.  The largest [int], for the [int] of 32 bits of the machines the
    library is built for; below it the integers of this development are the
    values the program computes. *)
Definition INT_MAX : Z := 2147483647.

Definition fits_int (v : Z) : Prop := 0 <= v <= INT_MAX.

Section RedistributionOnOneProcess.
Context {double : Type}.
Variable of_int : Z -> double.
Variable XK_H : Z.
Variable env : @environment double.
Variables (B x : array double) (n m_loc nrhs ldb fst_row : Z) (ilsum : array Z).
Variables (SP : ScalePermstruct_t) (Glu : Glu_persist_t) (grid : gridinfo_t).
Variable SOLVE : SOLVEstruct_t.

(** X16.  On one process [pdReDistribute_B_to_X] returns with the scratch
    pointers of [gstrs_comm] as they were and without any MPI call, and it
    writes no cell of [x] but the header cells and the value cells of the
    local rows: every other cell holds what it held.  With [m_loc <= 0] it
    leaves [x] as it is. *)
Theorem B_to_X_on_one_process_writes_only_its_cells :
  nprow grid * npcol grid = 1 ->
  exists r,
    pdReDistribute_B_to_X of_int XK_H env B m_loc nrhs ldb fst_row ilsum x
      SP Glu grid SOLVE = Done r /\
    ibuf_ptr r = ptr_to_ibuf (gstrs_comm SOLVE) /\
    dbuf_ptr r = ptr_to_dbuf (gstrs_comm SOLVE) /\
    mpi_calls r = [] /\
    (forall c,
       (forall i, 0 <= i < m_loc ->
          c <> X_header XK_H ilsum nrhs (BlockNum (supno Glu) (permuted_row SP fst_row i)) /\
          forall j, 0 <= j < nrhs -> c <> X_cell XK_H ilsum nrhs Glu SP fst_row i j) ->
       filled r c = x c) /\
    (m_loc <= 0 -> filled r = x).
Proof.
  intros Hone. unfold pdReDistribute_B_to_X. rewrite Hone. cbn [Z.eqb Pos.eqb].
  eexists. split; [reflexivity|]. cbn [ibuf_ptr dbuf_ptr mpi_calls filled].
  split; [reflexivity|]. split; [reflexivity|]. split; [reflexivity|]. split.
  - intros c Hc. apply for_frame. intros i y Hi. destruct (Hc i Hi) as [Hh Hv].
    unfold B_to_X_row. rewrite for_frame.
    + apply store_other. exact Hh.
    + intros j t Hj. apply store_other. apply (Hv j Hj).
  - intros Hm. apply for_empty. lia.
Qed.

(** X17.  On one process [pdReDistribute_X_to_B] returns with the scratch
    pointers as they were and without any MPI call, and it writes no cell of
    [B] but those of the rows of the supernodes,
    [xsup[k] - fst_row + i + j*ldb]: every other cell, the padding of the
    columns when [ldb] exceeds the number of rows for one, holds what it
    held.  When [supno[n-1] + 1] is not positive it leaves [B] as it is. *)
Theorem X_to_B_on_one_process_writes_only_its_cells :
  nprow grid * npcol grid = 1 ->
  exists r,
    pdReDistribute_X_to_B XK_H env n B m_loc ldb fst_row nrhs x ilsum
      SP Glu grid SOLVE = Done r /\
    ibuf_ptr r = ptr_to_ibuf (gstrs_comm SOLVE) /\
    dbuf_ptr r = ptr_to_dbuf (gstrs_comm SOLVE) /\
    mpi_calls r = [] /\
    (forall c,
       (forall k i j, 0 <= k < nsupers_of Glu n -> 0 <= i < SuperSize (xsup Glu) k ->
          0 <= j < nrhs -> c <> FstBlockC (xsup Glu) k - fst_row + i + j * ldb) ->
       filled r c = B c) /\
    (nsupers_of Glu n <= 0 -> filled r = B).
Proof.
  intros Hone. unfold pdReDistribute_X_to_B. rewrite Hone. cbn [Z.eqb Pos.eqb].
  eexists. split; [reflexivity|]. cbn [ibuf_ptr dbuf_ptr mpi_calls filled].
  split; [reflexivity|]. split; [reflexivity|]. split; [reflexivity|].
  change (supno Glu (n - 1) + 1) with (nsupers_of Glu n). split.
  - intros c Hc. apply for_frame. intros k y Hk.
    unfold X_to_B_block. apply for_frame. intros i t Hi. apply for_frame.
    intros j u Hj. apply store_other. now apply Hc.
  - intros Hn. apply for_empty. lia.
Qed.

(** The number of cells of the index buffers: the rows to send and the rows
    to receive, read from the last displacement and the last count. *)
Definition exchange_cells (cnt : array Z) (procs : Z) : Z :=
  let plan := plan_of cnt procs in
  (e_sdispls plan (procs - 1) + e_SendCnt plan (procs - 1))
  + (e_rdispls plan (procs - 1) + e_RecvCnt plan (procs - 1)).

(** On several processes, a redistribution that returns has made its two
    exchanges, the row indices first. *)
Lemma B_to_X_calls r :
  nprow grid * npcol grid <> 1 ->
  pdReDistribute_B_to_X of_int XK_H env B m_loc nrhs ldb fst_row ilsum x
    SP Glu grid SOLVE = Done r ->
  mpi_calls r = [Alltoallv_int; Alltoallv_double].
Proof.
  intros Hmany. apply Z.eqb_neq in Hmany. unfold pdReDistribute_B_to_X. rewrite Hmany.
  repeat match goal with
         | |- context [can_alloc env ?sz] => destruct (can_alloc env sz); cbn [negb]
         end; try discriminate.
  repeat match goal with
         | |- context [let '(_, _) := ?t in _] => destruct t
         end.
  intros H. injection H as <-. reflexivity.
Qed.

Lemma X_to_B_calls r :
  nprow grid * npcol grid <> 1 ->
  pdReDistribute_X_to_B XK_H env n B m_loc ldb fst_row nrhs x ilsum
    SP Glu grid SOLVE = Done r ->
  mpi_calls r = [Alltoallv_int; Alltoallv_double].
Proof.
  intros Hmany. apply Z.eqb_neq in Hmany. unfold pdReDistribute_X_to_B. rewrite Hmany.
  repeat match goal with
         | |- context [can_alloc env ?sz] => destruct (can_alloc env sz); cbn [negb]
         end; try discriminate.
  repeat match goal with
         | |- context [let '(_, _) := ?t in _] => destruct t
         end.
  intros H. injection H as <-. reflexivity.
Qed.

(** The counts and displacements that the routines add up for the size of
    their buffers are not negative, and the sum fits in an [int]. *)
Definition cells_fit (cnt : array Z) (procs : Z) : Prop :=
  let plan := plan_of cnt procs in
  0 <= e_sdispls plan (procs - 1) /\ 0 <= e_SendCnt plan (procs - 1) /\
  0 <= e_rdispls plan (procs - 1) /\ 0 <= e_RecvCnt plan (procs - 1) /\
  exchange_cells cnt procs <= INT_MAX.

(** X18.  The redistributions allocate on several processes only.  On one
    process both return, whatever the allocator would answer.  On several
    processes the first allocation is that of the index buffers, as many
    cells as rows are sent and received, the sum fitting in an [int]: when
    it fails the routine aborts with [Malloc fails for send_ibuf[].]; and a
    routine that returns got these cells and has made exactly two collective
    calls, the exchange of the row indices and then that of the values. *)
Theorem redistributions_allocate_on_several_processes_only :
  let procs := nprow grid * npcol grid in
  let b2x := pdReDistribute_B_to_X of_int XK_H env B m_loc nrhs ldb fst_row ilsum x
               SP Glu grid SOLVE in
  let x2b := pdReDistribute_X_to_B XK_H env n B m_loc ldb fst_row nrhs x ilsum
               SP Glu grid SOLVE in
  let cells_b := exchange_cells (B_to_X_SendCnt (gstrs_comm SOLVE)) procs in
  let cells_x := exchange_cells (X_to_B_SendCnt (gstrs_comm SOLVE)) procs in
  (procs = 1 -> (exists r, b2x = Done r) /\ (exists r, x2b = Done r)) /\
  (procs <> 1 -> cells_fit (B_to_X_SendCnt (gstrs_comm SOLVE)) procs ->
     (can_alloc env cells_b = false -> b2x = Abort "Malloc fails for send_ibuf[].") /\
     (forall r, b2x = Done r ->
        mpi_calls r = [Alltoallv_int; Alltoallv_double] /\ can_alloc env cells_b = true)) /\
  (procs <> 1 -> cells_fit (X_to_B_SendCnt (gstrs_comm SOLVE)) procs ->
     (can_alloc env cells_x = false -> x2b = Abort "Malloc fails for send_ibuf[].") /\
     (forall r, x2b = Done r ->
        mpi_calls r = [Alltoallv_int; Alltoallv_double] /\ can_alloc env cells_x = true)).
Proof.
  intros procs b2x x2b cells_b cells_x. split; [|split].
  - intros Hone. subst b2x x2b. unfold pdReDistribute_B_to_X, pdReDistribute_X_to_B.
    fold procs. rewrite Hone. cbn [Z.eqb Pos.eqb]. split; eexists; reflexivity.
  - intros Hmany _. pose proof Hmany as Hneq. apply Z.eqb_neq in Hneq.
    assert (Eb : cells_b
                 = shift (B_to_X_SendCnt (gstrs_comm SOLVE)) (4 * procs) (procs - 1)
                   + B_to_X_SendCnt (gstrs_comm SOLVE) (procs - 1)
                   + (shift (B_to_X_SendCnt (gstrs_comm SOLVE)) (6 * procs) (procs - 1)
                      + shift (B_to_X_SendCnt (gstrs_comm SOLVE)) (2 * procs) (procs - 1)))
      by reflexivity.
    clearbody cells_b. split.
    + intros Hno. subst b2x. unfold pdReDistribute_B_to_X. fold procs. cbv zeta.
      rewrite Hneq, <- Eb, Hno. reflexivity.
    + intros r Hr. split; [exact (B_to_X_calls Hmany Hr)|].
      subst b2x. unfold pdReDistribute_B_to_X in Hr. fold procs in Hr. cbv zeta in Hr.
      rewrite Hneq, <- Eb in Hr.
      destruct (can_alloc env cells_b); [reflexivity | discriminate Hr].
  - intros Hmany _. pose proof Hmany as Hneq. apply Z.eqb_neq in Hneq.
    assert (Ex : cells_x
                 = shift (X_to_B_SendCnt (gstrs_comm SOLVE)) (4 * procs) (procs - 1)
                   + X_to_B_SendCnt (gstrs_comm SOLVE) (procs - 1)
                   + (shift (X_to_B_SendCnt (gstrs_comm SOLVE)) (6 * procs) (procs - 1)
                      + shift (X_to_B_SendCnt (gstrs_comm SOLVE)) (2 * procs) (procs - 1)))
      by reflexivity.
    clearbody cells_x. split.
    + intros Hno. subst x2b. unfold pdReDistribute_X_to_B. fold procs. cbv zeta.
      rewrite Hneq, <- Ex, Hno. reflexivity.
    + intros r Hr. split; [exact (X_to_B_calls Hmany Hr)|].
      subst x2b. unfold pdReDistribute_X_to_B in Hr. fold procs in Hr. cbv zeta in Hr.
      rewrite Hneq, <- Ex in Hr.
      destruct (can_alloc env cells_x); [reflexivity | discriminate Hr].
Qed.

End RedistributionOnOneProcess.

(** ** The send buffers and the scratch pointers *)

(** Packing moves the pointer of every process by the rows packed for
    it. *)
Lemma pack_pointers {double item : Type} (nrhs : Z) (dest key : item -> Z)
    (val : item -> Z -> double) (l : list item) :
  forall (st : buffers double) d,
    snd (fst (pack nrhs dest key val l st)) d = snd (fst st) d + sent_to dest l d /\
    snd (pack nrhs dest key val l st) d = snd st d + sent_to dest l d * nrhs.
Proof.
  induction l as [|a l IH]; intros st d.
  - cbn [pack fold_left sent_to]. split; lia.
  - unfold pack. cbn [fold_left]. fold (pack nrhs dest key val l (pack_item nrhs dest key val a st)).
    destruct (IH (pack_item nrhs dest key val a st) d) as [Hi Hd]. rewrite Hi, Hd.
    destruct (pack_item_pointers nrhs dest key val a st) as [-> ->].
    cbn [sent_to]. destruct (Z.eqb_spec (dest a) d) as [<-|Hne].
    + rewrite !store_same. split; lia.
    + rewrite !store_other by (intros Heq; apply Hne; symmetry; exact Heq). split; lia.
Qed.

(** A loop whose iterations change nothing. *)
Lemma for_idle {St} (body : Z -> St -> St) lo hi s :
  (forall j t, lo <= j < hi -> body j t = t) -> for_ lo hi body s = s.
Proof.
  intros Hbody. destruct (Z_le_gt_dec lo hi) as [Hle|Hgt]; [|now apply for_empty; lia].
  apply (for_inv (fun _ t => t = s)); [exact Hle | reflexivity |].
  intros j t Hj ->. now apply Hbody.
Qed.

Section RedistributionOnSeveralProcesses.
Context {double : Type}.
Variable of_int : Z -> double.
Variable XK_H : Z.
Variable env : @environment double.
Variables (B x : array double) (n m_loc nrhs ldb fst_row : Z) (ilsum : array Z).
Variables (SP : ScalePermstruct_t) (Glu : Glu_persist_t) (grid : gridinfo_t).
Variable SOLVE : SOLVEstruct_t.

Let procs := nprow grid * npcol grid.
Let comm := gstrs_comm SOLVE.

(** The send buffers of B to X are those of [pack]. *)
Lemma B_to_X_send_is_pack heap_i heap_d sdispls ptr_i ptr_d :
  B_to_X_send heap_i heap_d B m_loc nrhs ldb fst_row (perm_r SP) (perm_c SP) (supno Glu)
              grid procs sdispls ptr_i ptr_d
    = pack nrhs (B_to_X_dest fst_row SP Glu grid) (B_to_X_key fst_row SP) (B_to_X_val B ldb)
           (counter 0 m_loc)
           (heap_i, heap_d,
            fst (for_ 0 procs (fun p '(a, b) => (store a p (sdispls p),
                                                  store b p (sdispls p * nrhs)))
                      (ptr_i, ptr_d)),
            snd (for_ 0 procs (fun p '(a, b) => (store a p (sdispls p),
                                                  store b p (sdispls p * nrhs)))
                      (ptr_i, ptr_d))).
Proof.
  unfold B_to_X_send. destruct (for_ 0 procs _ (ptr_i, ptr_d)) as [pi pd]. cbn [fst snd].
  rewrite for_fold. unfold pack. apply fold_left_ext.
  intros s a _. apply B_to_X_pack_item.
Qed.

(** The send buffers of X to B are those of [pack]. *)
Lemma X_to_B_send_is_pack heap_i heap_d sdispls sdispls_nrhs ptr_i ptr_d :
  X_to_B_send XK_H heap_i heap_d x nrhs ilsum (xsup Glu) grid (row_to_proc SOLVE)
              (nsupers_of Glu n) procs (num_diag_procs SOLVE) (diag_procs SOLVE)
              sdispls sdispls_nrhs ptr_i ptr_d
    = pack nrhs (X_to_B_dest Glu (row_to_proc SOLVE)) (X_to_B_key Glu)
           (X_to_B_val XK_H x nrhs ilsum Glu grid)
           (X_to_B_items Glu grid (nsupers_of Glu n) (num_diag_procs SOLVE) (diag_procs SOLVE))
           (heap_i, heap_d,
            fst (for_ 0 procs (fun p '(a, b) => (store a p (sdispls p),
                                                  store b p (sdispls_nrhs p)))
                      (ptr_i, ptr_d)),
            snd (for_ 0 procs (fun p '(a, b) => (store a p (sdispls p),
                                                  store b p (sdispls_nrhs p)))
                      (ptr_i, ptr_d))).
Proof.
  unfold X_to_B_send. cbv zeta.
  destruct (for_ 0 procs _ (ptr_i, ptr_d)) as [pi pd]. cbn [fst snd].
  rewrite for_fold. unfold pack, X_to_B_items. rewrite fold_left_flat_map.
  apply fold_left_ext. intros st p _. destruct (iam grid =? diag_procs SOLVE p); [|reflexivity].
  rewrite for_step_fold, fold_left_flat_map.
  apply fold_left_ext. intros s k _. apply X_to_B_pack_rows.
Qed.

(** X19.  On several processes and with memory, each redistribution leaves
    the scratch pointers of [gstrs_comm] at the end of what it packed: for
    every process [d], [ptr_to_ibuf[d]] is [sdispls[d]] plus the number of
    rows packed for [d], and [ptr_to_dbuf[d]] is its start plus [nrhs]
    values per row, the start being [sdispls[d] * nrhs] in B to X and
    [sdispls_nrhs[d]] in X to B.  What the pointers held on entry does not
    matter.  The pointers are [int]: [nrhs] and the displacements are not
    negative, and these sums and products fit in an [int]. *)
Theorem scratch_pointers_count_the_rows_packed :
  procs <> 1 -> (forall size, can_alloc env size = true) -> 0 <= nrhs ->
  let plan_b := plan_of (B_to_X_SendCnt comm) procs in
  let plan_x := plan_of (X_to_B_SendCnt comm) procs in
  let rows_b d := sent_to (B_to_X_dest fst_row SP Glu grid) (counter 0 m_loc) d in
  let rows_x d :=
    sent_to (X_to_B_dest Glu (row_to_proc SOLVE))
            (X_to_B_items Glu grid (nsupers_of Glu n) (num_diag_procs SOLVE)
                          (diag_procs SOLVE)) d in
  ((forall d, 0 <= d < procs ->
      0 <= e_sdispls plan_b d /\ fits_int (e_sdispls plan_b d + rows_b d) /\
      fits_int (e_sdispls plan_b d * nrhs + rows_b d * nrhs)) ->
   exists r,
     pdReDistribute_B_to_X of_int XK_H env B m_loc nrhs ldb fst_row ilsum x
       SP Glu grid SOLVE = Done r /\
     forall d, 0 <= d < procs ->
       ibuf_ptr r d = e_sdispls plan_b d + rows_b d /\
       dbuf_ptr r d = e_sdispls plan_b d * nrhs + rows_b d * nrhs) /\
  ((forall d, 0 <= d < procs ->
      0 <= e_sdispls plan_x d /\ fits_int (e_sdispls plan_x d + rows_x d) /\
      0 <= e_sdispls_nrhs plan_x d /\
      fits_int (e_sdispls_nrhs plan_x d + rows_x d * nrhs)) ->
   exists r,
     pdReDistribute_X_to_B XK_H env n B m_loc ldb fst_row nrhs x ilsum
       SP Glu grid SOLVE = Done r /\
     forall d, 0 <= d < procs ->
       ibuf_ptr r d = e_sdispls plan_x d + rows_x d /\
       dbuf_ptr r d = e_sdispls_nrhs plan_x d + rows_x d * nrhs).
Proof.
  intros Hmany Hmem Hnrhs plan_b plan_x rows_b rows_x.
  pose proof Hmany as Hneq. apply Z.eqb_neq in Hneq. split.
  - intros _. unfold pdReDistribute_B_to_X. cbv zeta. fold procs. fold comm.
    rewrite Hneq, !Hmem. cbn [negb].
    change (shift (B_to_X_SendCnt comm) (4 * procs)) with (e_sdispls plan_b).
    rewrite B_to_X_send_is_pack.
    pose proof (@pack_pointers double Z nrhs (B_to_X_dest fst_row SP Glu grid)
                  (B_to_X_key fst_row SP) (B_to_X_val B ldb) (counter 0 m_loc)) as Hptr.
    pose proof (@pointers_set (e_sdispls plan_b) (fun p => e_sdispls plan_b p * nrhs) procs
                  (ptr_to_ibuf comm) (ptr_to_dbuf comm)) as Hset.
    cbv zeta in Hset.
    set (st0 := (heap_int env, heap_double env, _, _)) in *.
    specialize (Hptr st0).
    destruct (pack _ _ _ _ _ st0) as [[[sib sdb] pi] pd] eqn:Epack.
    cbn [fst snd] in Hptr.
    destruct (B_to_X_receive _ _ _ _ _ _ _ _ _ _ _ _ _) as [[x' ii] jj].
    eexists. split; [reflexivity|]. cbn [ibuf_ptr dbuf_ptr].
    intros d Hd. destruct (Hptr d) as [Hi Hdd]. destruct (Hset d Hd) as [Si Sd].
    subst st0. cbn [fst snd] in Hi, Hdd. rewrite Hi, Hdd, Si, Sd. split; reflexivity.
  - intros _. unfold pdReDistribute_X_to_B. cbv zeta. fold procs. fold comm.
    rewrite Hneq, !Hmem. cbn [negb].
    change (shift (X_to_B_SendCnt comm) (4 * procs)) with (e_sdispls plan_x).
    change (shift (X_to_B_SendCnt comm) (5 * procs)) with (e_sdispls_nrhs plan_x).
    change (supno Glu (n - 1) + 1) with (nsupers_of Glu n).
    rewrite X_to_B_send_is_pack.
    pose proof (@pack_pointers double (Z * Z) nrhs (X_to_B_dest Glu (row_to_proc SOLVE))
                  (X_to_B_key Glu) (X_to_B_val XK_H x nrhs ilsum Glu grid)
                  (X_to_B_items Glu grid (nsupers_of Glu n) (num_diag_procs SOLVE)
                                (diag_procs SOLVE))) as Hptr.
    pose proof (@pointers_set (e_sdispls plan_x) (e_sdispls_nrhs plan_x) procs
                  (ptr_to_ibuf comm) (ptr_to_dbuf comm)) as Hset.
    cbv zeta in Hset.
    set (st0 := (heap_int env, heap_double env, _, _)) in *.
    specialize (Hptr st0).
    destruct (pack _ _ _ _ _ st0) as [[[sib sdb] pi] pd] eqn:Epack.
    cbn [fst snd] in Hptr.
    destruct (for_ 0 m_loc _ (B, 0)) as [B' k'].
    eexists. split; [reflexivity|]. cbn [ibuf_ptr dbuf_ptr].
    intros d Hd. destruct (Hptr d) as [Hi Hdd]. destruct (Hset d Hd) as [Si Sd].
    subst st0. cbn [fst snd] in Hi, Hdd. rewrite Hi, Hdd, Si, Sd. split; reflexivity.
Qed.

(** X20.  The packing loop of B to X (lines 249 to 270) fills the send
    buffers segment by segment.  When the counts [SendCnt] are the numbers of
    local rows going to each process and the displacements their running
    sums, every local row [i] sits in a slot of the segment of the diagonal
    process of its supernode, the row index [perm_c[perm_r[fst_row + i]]] in
    [send_ibuf] and the [nrhs] values [B[i + j*ldb]] side by side in
    [send_dbuf]; and every slot of every segment holds a local row. *)
Theorem B_to_X_packs_every_row_for_its_diagonal_process
    heap_i heap_d ptr_i ptr_d SendCnt sdispls :
  0 <= nrhs ->
  let dest := B_to_X_dest fst_row SP Glu grid in
  (forall i, 0 <= i < m_loc -> 0 <= dest i < procs) ->
  contiguous SendCnt sdispls procs ->
  (forall d, 0 <= d < procs -> SendCnt d = sent_to dest (counter 0 m_loc) d) ->
  let sent := B_to_X_send heap_i heap_d B m_loc nrhs ldb fst_row (perm_r SP) (perm_c SP)
                          (supno Glu) grid procs sdispls ptr_i ptr_d in
  let send_ibuf := fst (fst (fst sent)) in
  let send_dbuf := snd (fst (fst sent)) in
  (forall i, 0 <= i < m_loc ->
     exists t, 0 <= t < SendCnt (dest i) /\
       send_ibuf (sdispls (dest i) + t) = permuted_row SP fst_row i /\
       forall j, 0 <= j < nrhs ->
         send_dbuf ((sdispls (dest i) + t) * nrhs + j) = B (i + j * ldb)) /\
  (forall d t, 0 <= d < procs -> 0 <= t < SendCnt d ->
     exists i, 0 <= i < m_loc /\ dest i = d /\
       send_ibuf (sdispls d + t) = permuted_row SP fst_row i /\
       forall j, 0 <= j < nrhs ->
         send_dbuf ((sdispls d + t) * nrhs + j) = B (i + j * ldb)).
Proof.
  intros Hnrhs dest Hdest Hcont Hcount sent send_ibuf send_dbuf.
  pose proof (@B_to_X_send_packed double B m_loc nrhs ldb fst_row SP Glu grid procs
                SendCnt sdispls Hnrhs Hdest Hcont Hcount heap_i heap_d ptr_i ptr_d)
    as (_ & Hslots & Hitems).
  fold sent in Hslots, Hitems. subst send_ibuf send_dbuf.
  destruct sent as [[[sib sdb] pi] pd]. cbn [fst snd]. unfold holds in Hslots, Hitems.
  split.
  - intros i Hi. destruct (Hitems i) as (t & Ht & Hkey & Hval); [now apply in_counter|].
    exists t. fold dest in Ht, Hkey, Hval. rewrite <- (Hcount (dest i) (Hdest i Hi)) in Ht.
    rewrite B_to_X_key_row in Hkey. repeat split; [lia | lia | exact Hkey | exact Hval].
  - intros d t Hd Ht. rewrite (Hcount d Hd) in Ht.
    destruct (Hslots d t Hd Ht) as (i & Hin & Hdi & Hkey & Hval).
    apply in_counter in Hin. exists i. rewrite B_to_X_key_row in Hkey.
    repeat split; [lia | lia | exact Hdi | exact Hkey | exact Hval].
Qed.

(** X21.  The packing loops of X to B (lines 443 to 476) pack the rows of
    the supernodes [k] whose entry [diag_procs[k mod num_diag_procs]] names
    the process, and no others: under the same reading of the counts and
    displacements, row [i] of such a supernode sits in a slot of the segment
    of the process [row_to_proc[xsup[k] + i]], with its index [xsup[k] + i]
    and its values [x[X_BLK(lk) + i + j*knsupc]]; every slot filled holds
    such a row; and a process that no entry of [diag_procs] names leaves the
    send buffers as they were allocated. *)
Theorem X_to_B_packs_the_rows_of_its_supernodes
    heap_i heap_d ptr_i ptr_d SendCnt sdispls sdispls_nrhs :
  0 <= nrhs -> 0 < num_diag_procs SOLVE ->
  let nsupers := nsupers_of Glu n in
  let mine k := 0 <= k < nsupers /\
                iam grid = diag_procs SOLVE (k mod num_diag_procs SOLVE) in
  (forall k i, mine k -> 0 <= i < SuperSize (xsup Glu) k ->
     0 <= row_to_proc SOLVE (xsup Glu k + i) < procs) ->
  contiguous SendCnt sdispls procs ->
  (forall d, 0 <= d < procs -> sdispls_nrhs d = sdispls d * nrhs) ->
  (forall d, 0 <= d < procs ->
     SendCnt d = sent_to (X_to_B_dest Glu (row_to_proc SOLVE))
                         (X_to_B_items Glu grid nsupers (num_diag_procs SOLVE)
                                       (diag_procs SOLVE)) d) ->
  let sent := X_to_B_send XK_H heap_i heap_d x nrhs ilsum (xsup Glu) grid (row_to_proc SOLVE)
                          nsupers procs (num_diag_procs SOLVE) (diag_procs SOLVE)
                          sdispls sdispls_nrhs ptr_i ptr_d in
  let send_ibuf := fst (fst (fst sent)) in
  let send_dbuf := snd (fst (fst sent)) in
  (forall k i, mine k -> 0 <= i < SuperSize (xsup Glu) k ->
     let q := row_to_proc SOLVE (xsup Glu k + i) in
     exists t, 0 <= t < SendCnt q /\
       send_ibuf (sdispls q + t) = xsup Glu k + i /\
       forall j, 0 <= j < nrhs ->
         send_dbuf ((sdispls q + t) * nrhs + j)
           = x (X_BLK XK_H ilsum nrhs (LBi k grid) + i + j * SuperSize (xsup Glu) k)) /\
  (forall d t, 0 <= d < procs -> 0 <= t < SendCnt d ->
     exists k i, mine k /\ 0 <= i < SuperSize (xsup Glu) k /\
       row_to_proc SOLVE (xsup Glu k + i) = d /\
       send_ibuf (sdispls d + t) = xsup Glu k + i) /\
  ((forall p, 0 <= p < num_diag_procs SOLVE -> iam grid <> diag_procs SOLVE p) ->
   send_ibuf = heap_i /\ send_dbuf = heap_d).
Proof.
  intros Hnrhs Hndp nsupers mine Hdest Hcont Hvals Hcount sent send_ibuf send_dbuf.
  assert (Hin : forall it,
            In it (X_to_B_items Glu grid nsupers (num_diag_procs SOLVE) (diag_procs SOLVE))
            <-> mine (fst it) /\ 0 <= snd it < SuperSize (xsup Glu) (fst it)).
  { intros it. rewrite (in_X_to_B_items Glu grid nsupers (diag_procs SOLVE) it Hndp).
    unfold mine. split.
    - intros (Hk & Hiam & Hi). repeat split; try assumption; lia.
    - intros ((Hk & Hiam) & Hi). repeat split; try assumption; lia. }
  assert (Hrange : forall it,
            In it (X_to_B_items Glu grid nsupers (num_diag_procs SOLVE) (diag_procs SOLVE)) ->
            0 <= X_to_B_dest Glu (row_to_proc SOLVE) it < procs).
  { intros [k i] Hit. apply Hin in Hit. cbn [fst snd] in Hit. destruct Hit as [Hk Hi].
    apply (Hdest k i Hk Hi). }
  pose proof (@X_to_B_send_packed double XK_H x nrhs ilsum Glu grid (row_to_proc SOLVE)
                nsupers (num_diag_procs SOLVE) (diag_procs SOLVE) procs SendCnt sdispls
                sdispls_nrhs Hnrhs Hrange Hcont Hvals Hcount heap_i heap_d ptr_i ptr_d)
    as (_ & Hslots & Hitems).
  fold sent in Hslots, Hitems.
  split; [|split].
  - intros k i Hk Hi q.
    destruct (Hitems (k, i)) as (t & Ht & Hh); [apply Hin; cbn [fst snd]; split; assumption|].
    change (X_to_B_dest Glu (row_to_proc SOLVE) (k, i)) with q in Ht, Hh.
    rewrite <- (Hcount q (Hdest k i Hk Hi)) in Ht.
    subst send_ibuf send_dbuf. destruct sent as [[[sib sdb] pi] pd]. cbn [fst snd].
    destruct Hh as [Hkey Hval]. exists t. split; [exact Ht|]. split; [exact Hkey | exact Hval].
  - intros d t Hd Ht. rewrite (Hcount d Hd) in Ht.
    destruct (Hslots d t Hd Ht) as ([k i] & Hit & Hdi & Hh).
    apply Hin in Hit. cbn [fst snd] in Hit. destruct Hit as [Hk Hi].
    subst send_ibuf. destruct sent as [[[sib sdb] pi] pd]. cbn [fst snd].
    destruct Hh as [Hkey _]. exists k, i.
    split; [exact Hk|]. split; [exact Hi|]. split; [exact Hdi | exact Hkey].
  - intros Hnone. subst send_ibuf send_dbuf sent. unfold X_to_B_send. cbv zeta.
    destruct (for_ 0 procs _ (ptr_i, ptr_d)) as [pi pd].
    rewrite for_idle; [split; reflexivity|].
    intros p st Hp. destruct (Z.eqb_spec (iam grid) (diag_procs SOLVE p)) as [Heq|_];
      [|reflexivity].
    exfalso. exact (Hnone p Hp Heq).
Qed.

(** X22.  On the receiving side of B to X (lines 298 to 317), whatever the
    exchange brings: when the rows received lie in supernodes of the local
    blocks, the values of row [s] start at cell [s * nrhs] of [recv_dbuf],
    and a row received twice brings the same values, then after the routine
    the cell of [x] for row [recv_ibuf[s]] and column [j] holds
    [recv_dbuf[s * nrhs + j]], for every row received. *)
Theorem B_to_X_scatters_the_rows_received myrow nlb :
  procs <> 1 -> (forall size, can_alloc env size = true) ->
  let plan := plan_of (B_to_X_SendCnt comm) procs in
  let sent := B_to_X_send (heap_int env) (heap_double env) B m_loc nrhs ldb fst_row
                          (perm_r SP) (perm_c SP) (supno Glu) grid procs (e_sdispls plan)
                          (ptr_to_ibuf comm) (ptr_to_dbuf comm) in
  let recv_ibuf := alltoallv_i env (fst (fst (fst sent))) (e_SendCnt plan) (e_sdispls plan)
                               (e_RecvCnt plan) (e_rdispls plan) in
  let recv_dbuf := alltoallv_d env (snd (fst (fst sent))) (e_SendCnt_nrhs plan)
                               (e_sdispls_nrhs plan) (e_RecvCnt_nrhs plan)
                               (e_rdispls_nrhs plan) in
  let total := received_rows (e_RecvCnt plan) procs in
  receive_input XK_H grid Glu ilsum nrhs myrow nlb procs (e_RecvCnt plan) recv_ibuf ->
  (forall p, 0 <= p < procs ->
     e_rdispls_nrhs plan p = received_rows (e_RecvCnt plan) p * nrhs) ->
  (forall s s' j, 0 <= s < total -> 0 <= s' < total -> 0 <= j < nrhs ->
     recv_ibuf s = recv_ibuf s' -> recv_dbuf (s * nrhs + j) = recv_dbuf (s' * nrhs + j)) ->
  exists r,
    pdReDistribute_B_to_X of_int XK_H env B m_loc nrhs ldb fst_row ilsum x
      SP Glu grid SOLVE = Done r /\
    forall s j, 0 <= s < total -> 0 <= j < nrhs ->
      filled r (received_cell XK_H ilsum nrhs Glu grid (recv_ibuf s) j)
        = recv_dbuf (s * nrhs + j).
Proof.
  intros Hmany Hmem plan sent recv_ibuf recv_dbuf total Hin Hblocks Hsame.
  destruct (@B_to_X_exchanged double of_int XK_H env B x m_loc nrhs ldb fst_row ilsum
              SP Glu grid SOLVE Hmany Hmem) as (r & Hr & Hfilled).
  exists r. split; [exact Hr|]. intros s j Hs Hj. rewrite Hfilled.
  exact (@received_values double of_int XK_H grid Glu ilsum nrhs myrow nlb procs
           (e_RecvCnt plan) (e_rdispls_nrhs plan) recv_ibuf recv_dbuf Hin Hblocks Hsame
           x s j Hs Hj).
Qed.

(** X23.  On the receiving side of X to B (lines 499 to 505) the routine
    copies [m_loc] rows from the receive buffers, whatever the counts of the
    exchange say: when the rows received are local rows and a row received
    twice brings the same values, then after the routine
    [B[recv_ibuf[s] - fst_row + j*ldb]] holds [recv_dbuf[s * nrhs + j]] for
    every [s] below [m_loc], and the cells of [B] that are no cell of a row
    received hold what they held. *)
Theorem X_to_B_unpacks_m_loc_rows :
  procs <> 1 -> (forall size, can_alloc env size = true) -> 0 <= nrhs ->
  let plan := plan_of (X_to_B_SendCnt comm) procs in
  let sent := X_to_B_send XK_H (heap_int env) (heap_double env) x nrhs ilsum (xsup Glu)
                          grid (row_to_proc SOLVE) (nsupers_of Glu n) procs
                          (num_diag_procs SOLVE) (diag_procs SOLVE)
                          (e_sdispls plan) (e_sdispls_nrhs plan)
                          (ptr_to_ibuf comm) (ptr_to_dbuf comm) in
  let recv_ibuf := alltoallv_i env (fst (fst (fst sent))) (e_SendCnt plan) (e_sdispls plan)
                               (e_RecvCnt plan) (e_rdispls plan) in
  let recv_dbuf := alltoallv_d env (snd (fst (fst sent))) (e_SendCnt_nrhs plan)
                               (e_sdispls_nrhs plan) (e_RecvCnt_nrhs plan)
                               (e_rdispls_nrhs plan) in
  (forall s, 0 <= s < m_loc -> 0 <= recv_ibuf s - fst_row < ldb) ->
  (forall s s' j, 0 <= s < m_loc -> 0 <= s' < m_loc -> 0 <= j < nrhs ->
     recv_ibuf s = recv_ibuf s' -> recv_dbuf (s * nrhs + j) = recv_dbuf (s' * nrhs + j)) ->
  exists r,
    pdReDistribute_X_to_B XK_H env n B m_loc ldb fst_row nrhs x ilsum
      SP Glu grid SOLVE = Done r /\
    (forall s j, 0 <= s < m_loc -> 0 <= j < nrhs ->
       filled r (recv_ibuf s - fst_row + j * ldb) = recv_dbuf (s * nrhs + j)) /\
    (forall c,
       (forall s j, 0 <= s < m_loc -> 0 <= j < nrhs ->
          c <> recv_ibuf s - fst_row + j * ldb) ->
       filled r c = B c).
Proof.
  intros Hmany Hmem Hnrhs plan sent recv_ibuf recv_dbuf Hlocal Hsame.
  destruct (@X_to_B_exchanged double XK_H env B x n m_loc nrhs ldb fst_row ilsum
              SP Glu grid SOLVE Hmany Hmem) as (r & Hr & Hfilled).
  exists r. split; [exact Hr|]. rewrite Hfilled. split.
  - intros s j Hs Hj.
    exact (@unpacked_values double ldb fst_row nrhs m_loc recv_ibuf recv_dbuf Hnrhs
             Hlocal Hsame B s j Hs Hj).
  - intros c Hc.
    change (B c) with (fst (B, 0) c).
    apply (for_frame_in (fun st : array double * Z => fst st)). intros s [y k] Hs.
    unfold X_to_B_unpack. cbv zeta.
    change (y c) with (fst (y, k) c).
    apply (for_frame_in (fun st : array double * Z => fst st)). intros j [z k'] Hj.
    cbn [fst]. apply store_other. apply (Hc s j Hs Hj).
Qed.

End RedistributionOnSeveralProcesses.

(** * A system of order 3 on one process

    Two supernodes, columns 0 and 1 and column 2; two right-hand sides; the
    row permutation is a rotation.  Doubles are read as integers here: the
    routines exercised only copy them. *)

Definition of_list {A} (d : A) (l : list A) : array A :=
  fun i => nth (Z.to_nat i) l d.

Definition ex_of_int : Z -> Z := fun k => k.

Definition ex_grid : gridinfo_t := {| nprow := 1; npcol := 1; iam := 0 |}.

Definition ex_Glu : Glu_persist_t :=
  {| xsup := of_list 3 [0; 2; 3]; supno := of_list 1 [0; 0; 1] |}.

Definition ex_SP : ScalePermstruct_t :=
  {| perm_r := of_list 0 [1; 2; 0]; perm_c := of_list 0 [0; 1; 2] |}.

Definition ex_ilsum : array Z := of_list 3 [0; 2; 3].

(** [B], column major with [ldb = 3]: the columns [11 21 31] and [12 22 32]. *)
Definition ex_B : array Z := of_list 0 [11; 21; 31; 12; 22; 32].

Definition ex_comm : pxgstrs_comm_t :=
  {| B_to_X_SendCnt := fun _ => 0; X_to_B_SendCnt := fun _ => 0;
     ptr_to_ibuf := fun _ => 0; ptr_to_dbuf := fun _ => 0 |}.

Definition ex_SOLVE : SOLVEstruct_t :=
  {| gstrs_comm := ex_comm; row_to_proc := fun _ => 0;
     diag_procs := fun _ => 0; num_diag_procs := 1 |}.

(** Memory never runs out; fresh doubles hold -1; an exchange with oneself
    gives back what was sent. *)
Definition ex_env : @environment Z :=
  {| can_alloc := fun _ => true;
     heap_int := fun _ => 0;
     heap_double := fun _ => -1;
     alltoallv_i := fun buf _ _ _ _ => buf;
     alltoallv_d := fun buf _ _ _ _ => buf |}.

Ltac below3 i :=
  let H := fresh in
  assert (H : i = 0 \/ i = 1 \/ i = 2) by lia;
  destruct H as [-> | [-> | ->]].

Ltac below2 i :=
  let H := fresh in
  assert (H : i = 0 \/ i = 1) by lia;
  destruct H as [-> | ->].

Ltac decide_closed :=
  vm_compute; repeat split; first [reflexivity | intros; discriminate | intros; reflexivity].

Lemma ex_single_process_input :
  single_process_input 1 ex_grid ex_Glu ex_SP ex_ilsum 3 3 2 0.
Proof.
  constructor.
  - reflexivity.
  - reflexivity.
  - lia.
  - lia.
  - intros i Hi. below3 i; decide_closed.
  - intros i i' Hi Hi'. below3 i; below3 i'; decide_closed.
  - intros r Hr. change (nsupers_of ex_Glu 3) with 2. below3 r; decide_closed.
  - intros lk Hlk. change (nsupers_of ex_Glu 3) with 2 in Hlk. below2 lk; decide_closed.
Qed.

(** The first example with the header of two cells that the comments of the
    file draw. *)
Lemma ex_single_process_input_2 :
  single_process_input 2 ex_grid ex_Glu ex_SP ex_ilsum 3 3 2 0.
Proof.
  constructor.
  - reflexivity.
  - reflexivity.
  - lia.
  - lia.
  - intros i Hi. below3 i; decide_closed.
  - intros i i' Hi Hi'. below3 i; below3 i'; decide_closed.
  - intros r Hr. change (nsupers_of ex_Glu 3) with 2. below3 r; decide_closed.
  - intros lk Hlk. change (nsupers_of ex_Glu 3) with 2 in Hlk. below2 lk; decide_closed.
Qed.

Lemma ex_single_process_output : single_process_output ex_Glu 3 3 3 0.
Proof.
  constructor.
  - intros k r Hk Hr. change (nsupers_of ex_Glu 3) with 2 in Hk.
    below2 k;
      repeat match type of Hr with
             | context [xsup ex_Glu ?j] =>
                 let v := eval vm_compute in (xsup ex_Glu j) in
                 change (xsup ex_Glu j) with v in Hr
             end;
      destruct Hr as [Hlo Hhi].
    + assert (Hr : r = 0 \/ r = 1) by lia. destruct Hr as [-> | ->]; reflexivity.
    + assert (r = 2) by lia. subst r. reflexivity.
  - intros k Hk. change (nsupers_of ex_Glu 3) with 2 in Hk. below2 k; decide_closed.
  - lia.
Qed.

(** ** The redistribution of the example *)

Definition ex_x0 : array Z := fun _ => -1.

Definition ex_B_to_X : result (@redistributed Z) :=
  pdReDistribute_B_to_X ex_of_int 1 ex_env ex_B 3 2 3 0 ex_ilsum ex_x0
    ex_SP ex_Glu ex_grid ex_SOLVE.

(** [x] after B to X: header 0, the block of supernode 0 (rows 0 and 1 of the
    permuted system, two columns), header 1, the block of supernode 1. *)
Example ex_B_to_X_value :
  match ex_B_to_X with
  | Done r => map (filled r) [0; 1; 2; 3; 4; 5; 6; 7] = [0; 31; 11; 32; 12; 1; 21; 22]
              /\ returned r = 0 /\ mpi_calls r = []
  | Abort _ => False
  end.
Proof. vm_compute. repeat split. Qed.

(** [B] after X to B: its rows, rotated. *)
Example ex_round_trip_value :
  match ex_B_to_X with
  | Done r1 =>
      match pdReDistribute_X_to_B 1 ex_env 3 ex_B 3 3 0 2 (filled r1) ex_ilsum
              ex_SP ex_Glu ex_grid ex_SOLVE with
      | Done r2 => map (filled r2) [0; 1; 2; 3; 4; 5] = [31; 11; 21; 32; 12; 22]
      | Abort _ => False
      end
  | Abort _ => False
  end.
Proof. vm_compute. reflexivity. Qed.

(** The theorem on the example, with a header of one cell and with the header
    of two cells that the comments of the file draw. *)
Lemma pdReDistribute_B_to_X_single_process_witness :
  (exists r,
     ex_B_to_X = Done r /\
     mpi_calls r = [] /\
     (forall i j, 0 <= i < 3 -> 0 <= j < 2 ->
        filled r (X_cell 1 ex_ilsum 2 ex_Glu ex_SP 0 i j) = ex_B (i + j * 3)) /\
     (forall i, 0 <= i < 3 ->
        let k := BlockNum (supno ex_Glu) (permuted_row ex_SP 0 i) in
        filled r (X_BLK 1 ex_ilsum 2 k - 1) = ex_of_int k) /\
     (forall i i' j j', 0 <= i < 3 -> 0 <= i' < 3 -> 0 <= j < 2 -> 0 <= j' < 2 ->
        i <> i' ->
        X_cell 1 ex_ilsum 2 ex_Glu ex_SP 0 i j <> X_cell 1 ex_ilsum 2 ex_Glu ex_SP 0 i' j')) /\
  (exists r,
     pdReDistribute_B_to_X ex_of_int 2 ex_env ex_B 3 2 3 0 ex_ilsum ex_x0
       ex_SP ex_Glu ex_grid ex_SOLVE = Done r /\
     mpi_calls r = [] /\
     (forall i j, 0 <= i < 3 -> 0 <= j < 2 ->
        filled r (X_cell 2 ex_ilsum 2 ex_Glu ex_SP 0 i j) = ex_B (i + j * 3)) /\
     (forall i, 0 <= i < 3 ->
        let k := BlockNum (supno ex_Glu) (permuted_row ex_SP 0 i) in
        filled r (X_BLK 2 ex_ilsum 2 k - 2) = ex_of_int k) /\
     (forall i i' j j', 0 <= i < 3 -> 0 <= i' < 3 -> 0 <= j < 2 -> 0 <= j' < 2 ->
        i <> i' ->
        X_cell 2 ex_ilsum 2 ex_Glu ex_SP 0 i j <> X_cell 2 ex_ilsum 2 ex_Glu ex_SP 0 i' j')).
Proof.
  split.
  - exact (@pdReDistribute_B_to_X_single_process Z ex_of_int 1 ex_env ex_B 3 2 3 0
             ex_ilsum ex_x0 ex_SP ex_Glu ex_grid ex_SOLVE 3 ex_single_process_input).
  - exact (@pdReDistribute_B_to_X_single_process Z ex_of_int 2 ex_env ex_B 3 2 3 0
             ex_ilsum ex_x0 ex_SP ex_Glu ex_grid ex_SOLVE 3 ex_single_process_input_2).
Defined.

(** Row [i] of the example stores into cell [c] of [x]: the cell changes when
    the row is copied into an [x] that holds -1 everywhere. *)
Definition ex_row_stores (i c : Z) : Prop :=
  B_to_X_row ex_of_int 1 ex_B 2 3 0 ex_ilsum (perm_r ex_SP) (perm_c ex_SP)
             (xsup ex_Glu) (supno ex_Glu) i ex_x0 c <> ex_x0 c.

(** C3 as stated fails: rows 0 and 2 lie in supernode 0 and both store into
    its header cell, [x[0]]: distinct rows do not store into distinct cells
    only.  And the header cell is [X_BLK(k) - XK_H], which is [X_BLK(k) - 1]
    for a header of one cell only: with the header of two cells that the
    comments of the file draw, the routine puts the number of supernode 1 in
    [x[X_BLK(1) - 2]] and leaves [x[X_BLK(1) - 1]] as it found it. *)
Lemma B_to_X_rows_share_the_header_cell :
  ~ (forall i i' c, 0 <= i < 3 -> 0 <= i' < 3 -> i <> i' ->
       ex_row_stores i c -> ex_row_stores i' c -> False) /\
  (exists r,
     pdReDistribute_B_to_X ex_of_int 2 ex_env ex_B 3 2 3 0 ex_ilsum ex_x0
       ex_SP ex_Glu ex_grid ex_SOLVE = Done r /\
     filled r (X_BLK 2 ex_ilsum 2 1 - 2) = ex_of_int 1 /\
     filled r (X_BLK 2 ex_ilsum 2 1 - 1) = ex_x0 (X_BLK 2 ex_ilsum 2 1 - 1) /\
     filled r (X_BLK 2 ex_ilsum 2 1 - 1) <> ex_of_int 1).
Proof.
  split.
  - intros H. apply (H 0 2 0); try lia; unfold ex_row_stores; vm_compute; discriminate.
  - eexists. split; [reflexivity|]. vm_compute. repeat split; discriminate.
Qed.

Lemma redistributions_return_0_witness :
  exists r, ex_B_to_X = Done r /\ returned r = 0.
Proof.
  destruct (@B_to_X_done Z ex_of_int 1 ex_env ex_B ex_x0 3 2 3 0 ex_ilsum ex_SP ex_Glu
              ex_grid ex_SOLVE (fun _ => eq_refl)) as [r Hr].
  exists r. split; [exact Hr|].
  exact (proj1 (@redistributions_return_0 Z ex_of_int 1 ex_env ex_B ex_x0 3 3 2 3 0
                  ex_ilsum ex_SP ex_Glu ex_grid ex_SOLVE) r Hr).
Defined.

(** ** The solve of the example *)

Definition ex_Llu : @LocalLU_t Z :=
  {| Lrowind_bc_ptr := fun _ => Some (fun _ => 3);
     Lnzval_bc_ptr := fun _ _ => 0;
     Llu_fmod := fun _ => 0;
     Llu_bmod := fun _ => 0;
     Llu_ilsum := ex_ilsum;
     ldalsum := 3;
     nfrecvx := 0;
     nbrecvx := 0;
     nfsendx := 0;
     nbsendx := 0;
     LBtree_ptr := fun _ => None;
     LRtree_ptr := fun _ => None;
     UBtree_ptr := fun _ => None;
     URtree_ptr := fun _ => None;
     Urbs := fun _ => 0 |}.

Definition ex_D : @diag_inverses Z :=
  {| Linv_bc_ptr := fun _ _ => 0; Uinv_bc_ptr := fun _ _ => 0; Llu_inv := 1 |}.

(** Kernels that leave their operands as they are, and a [dtrtri_] that
    reports a singular block. *)
Definition ex_dgemm (_ _ : string) (_ _ _ : Z) (_ : Z) (_ : array Z) (_ : Z)
    (_ : array Z) (_ : Z) (_ : Z) (C : array Z) (_ : Z) : array Z := C.

Definition ex_dtrsm (_ _ _ _ : string) (_ _ : Z) (_ : Z) (_ : array Z) (_ : Z)
    (Bk : array Z) (_ : Z) : array Z := Bk.

Definition ex_dlsum (_ _ : Z) (_ : array Z) (w : @workspace Z) : @workspace Z := w.

Definition ex_dtrtri (_ _ : string) (_ : Z) (A : array Z) (_ : Z) : array Z * Z := (A, 1).

Definition ex_MPI_Recv (_ : Z) : array Z * tag := (fun _ => 0, BC_U).

(** A window in which one message of the process above has arrived, and a
    task that handles every broadcast message counted. *)
Definition ex_window (_ : nat) : array Z := of_list 0 [0; 1; 0].

Definition ex_task (_ : array Z) (_ : Z) (BC_subtotal : array Z) (_ : Z)
    (d : @drained Z) : @drained Z :=
  {| BCis_solved := BC_subtotal; RDis_solved := RDis_solved d; d_work := d_work d |}.

(** The call of the example: [*info] holds 7 and [Llu->SolveMsgSent] 5 on
    entry. *)
Definition ex_pdgstrs (fuel : nat) (oneside : bool) (n nrhs : Z) : @outcome Z :=
  pdgstrs ex_of_int (fun d => d) 0 1 Z.add 1 1 ex_dgemm ex_dtrsm ex_dlsum ex_dlsum ex_dlsum
          (fun _ => 4) ex_MPI_Recv ex_window ex_task
          fuel oneside ex_env 16 8 1 n ex_Glu ex_Llu ex_D ex_SP ex_grid
          ex_B 3 0 3 nrhs ex_SOLVE 7 5.

(** The call with [n = 3] and [nrhs = 2] ends by [exit(0)]: [B] holds what it
    held on entry, not the solution. *)
Example ex_pdgstrs_exits :
  match ex_pdgstrs 0 false 3 2 with
  | Exited status s =>
      status = 0 /\ s_info s = 0 /\
      map (s_B s) [0; 1; 2; 3; 4; 5] = [11; 21; 31; 12; 22; 32]
  | _ => False
  end.
Proof. vm_compute. repeat split. Qed.

(** The call with [nrhs = 0] ends by [exit(0)] as well. *)
Example ex_pdgstrs_nrhs_0_exits :
  match ex_pdgstrs 0 false 3 0 with
  | Exited status s =>
      status = 0 /\ s_info s = 0 /\
      map (s_B s) [0; 1; 2; 3; 4; 5] = [11; 21; 31; 12; 22; 32]
  | _ => False
  end.
Proof. vm_compute. repeat split. Qed.

(** The call with [n = -1] returns with [*info = -1]. *)
Example ex_pdgstrs_rejects :
  match ex_pdgstrs 0 false (-1) 2 with
  | Returned s => s_info s = -1 /\ s_errors s = [("PDGSTRS"%string, 1)] /\ s_SolveMsgSent s = 5
  | _ => False
  end.
Proof. vm_compute. repeat split. Qed.

(** The three cases of the test on the example, [*info] holding 7 on entry:
    [n = -1]; [n = 3] with [nrhs = -1]; and [n = 3] with [nrhs = 2], where
    the call ends with [*info = 0]. *)
Lemma pdgstrs_tests_its_input_witness :
  (exists s, ex_pdgstrs 0 false (-1) 2 = Returned s /\ s_info s = -1 /\
             s_errors s = [("PDGSTRS"%string, 1)] /\ untouched ex_B ex_SOLVE 5 s) /\
  (exists s, ex_pdgstrs 0 false 3 (-1) = Returned s /\ s_info s = -9 /\
             s_errors s = [("PDGSTRS"%string, 9)] /\ untouched ex_B ex_SOLVE 5 s) /\
  (exists s, ex_pdgstrs 0 false 3 2 = Exited 0 s /\ s_info s = 0).
Proof.
  split; [|split].
  - refine (proj1 (pdgstrs_tests_its_input ex_of_int (fun d => d) 0 1 Z.add 1 1
                     ex_dgemm ex_dtrsm ex_dlsum ex_dlsum ex_dlsum (fun _ => 4) ex_MPI_Recv
                     ex_window ex_task 0 false ex_env 16 8 1 (-1) ex_Glu ex_Llu ex_D ex_SP
                     ex_grid ex_B 3 0 3 2 ex_SOLVE 7 5) _).
    lia.
  - refine (proj1 (proj2 (pdgstrs_tests_its_input ex_of_int (fun d => d) 0 1 Z.add 1 1
                     ex_dgemm ex_dtrsm ex_dlsum ex_dlsum ex_dlsum (fun _ => 4) ex_MPI_Recv
                     ex_window ex_task 0 false ex_env 16 8 1 3 ex_Glu ex_Llu ex_D ex_SP
                     ex_grid ex_B 3 0 3 (-1) ex_SOLVE 7 5)) _ _); lia.
  - refine (proj2 (proj2 (proj2 (proj2 (pdgstrs_tests_its_input ex_of_int (fun d => d) 0 1
                     Z.add 1 1 ex_dgemm ex_dtrsm ex_dlsum ex_dlsum ex_dlsum (fun _ => 4)
                     ex_MPI_Recv ex_window ex_task 0 false ex_env 16 8 1 3 ex_Glu ex_Llu ex_D
                     ex_SP ex_grid ex_B 3 0 3 2 ex_SOLVE 7 5)) _ _)) _ _);
      [lia | lia | intros size; reflexivity | reflexivity].
Defined.

Lemma pdgstrs_exits_after_forward_solve_witness :
  (forall s, ex_pdgstrs 0 false 3 2 <> Returned s) /\
  (forall status s, ex_pdgstrs 0 false 3 2 = Exited status s ->
     status = 0 /\ s_B s = ex_B /\ s_info s = 0) /\
  ((forall size, can_alloc ex_env size = true) -> false = false ->
   exists s, ex_pdgstrs 0 false 3 2 = Exited 0 s /\ s_B s = ex_B /\ s_info s = 0).
Proof.
  unfold ex_pdgstrs. apply pdgstrs_exits_after_forward_solve; lia.
Defined.

Lemma pdgstrs_without_right_hand_side_witness :
  (forall s, ex_pdgstrs 0 false 3 0 <> Returned s) /\
  ((forall size, can_alloc ex_env size = true) -> false = false ->
   exists s, ex_pdgstrs 0 false 3 0 = Exited 0 s /\ s_B s = ex_B /\ s_info s = 0).
Proof.
  unfold ex_pdgstrs. apply pdgstrs_without_right_hand_side; lia.
Defined.

(** ** The inversion of the diagonal blocks of the example

    Every call of [dtrtri_] reports the status 1; [*info], 0 on entry, is 0
    on exit, and the last status is in the local [INFO]. *)
Example ex_pdCompute_Diag_Inv_status :
  let '(_, INFO, info) :=
    pdCompute_Diag_Inv 0 1 ex_dtrtri true 3 ex_Llu ex_D ex_Glu ex_grid 0 0 in
  INFO = 1 /\ info = 0.
Proof. vm_compute. split; reflexivity. Qed.

(** ** Counters on a mesh of one row and two columns

    Two block rows; the first has a reduction tree with two destinations. *)
Definition ex_grid_1x2 : gridinfo_t := {| nprow := 1; npcol := 2; iam := 0 |}.

Definition ex_tree : tree := {| is_root := true; dest_count := 2; msg_size := 2 |}.

Definition ex_Llu_trees : @LocalLU_t Z :=
  {| Lrowind_bc_ptr := fun _ => None;
     Lnzval_bc_ptr := fun _ _ => 0;
     Llu_fmod := of_list 0 [1; 0];
     Llu_bmod := of_list 0 [0; 1];
     Llu_ilsum := ex_ilsum;
     ldalsum := 3;
     nfrecvx := 1;
     nbrecvx := 1;
     nfsendx := 0;
     nbsendx := 0;
     LBtree_ptr := fun _ => None;
     LRtree_ptr := of_list None [Some ex_tree];
     UBtree_ptr := fun _ => None;
     URtree_ptr := of_list None [None; Some ex_tree];
     Urbs := fun _ => 0 |}.

(** On the mesh of one row and two columns the tree of block row 0 counts:
    [frecv[0]] is 2; on the mesh of one process the same tree does not. *)
Lemma modification_counts_initialised_witness :
  (let fc := forward_setup ex_grid_1x2 ex_Llu_trees 0 0 2 2 16 (fun _ => 0) in
   let bc := backward_setup ex_grid_1x2 ex_Llu_trees 0 0 2 2 16 (fun _ => 0) in
   fmod fc (0 * 16) = Llu_fmod ex_Llu_trees 0 + frecv fc 0 /\
   frecv fc 0 = 2 /\
   bmod bc (0 * 16) = Llu_bmod ex_Llu_trees 0 + brecv bc 0 /\
   brecv bc 0 = 0) /\
  (let fc := forward_setup ex_grid ex_Llu_trees 0 0 2 2 16 (fun _ => 0) in
   let bc := backward_setup ex_grid ex_Llu_trees 0 0 2 2 16 (fun _ => 0) in
   fmod fc (1 * 16) = Llu_fmod ex_Llu_trees 1 + frecv fc 1 /\
   frecv fc 1 = 0 /\
   bmod bc (1 * 16) = Llu_bmod ex_Llu_trees 1 + brecv bc 1 /\
   brecv bc 1 = 2).
Proof.
  split.
  - refine (@modification_counts_initialised Z ex_grid_1x2 ex_Llu_trees 0 0 2 16
              (fun _ => 0) (fun _ => 0) 0 _ _).
    + lia.
    + split; [lia | reflexivity].
  - refine (@modification_counts_initialised Z ex_grid ex_Llu_trees 0 0 2 16
              (fun _ => 0) (fun _ => 0) 1 _ _).
    + lia.
    + split; [lia | reflexivity].
Defined.

(** C6 as stated fails on one process: block row 0 has a reduction tree with
    two destinations, and the set-up of the forward solve leaves [frecv[0]]
    at 0 and [fmod[0]] at [Llu->fmod[0]], which is 1, not at 1 + 2. *)
Lemma single_process_ignores_the_reduction_trees :
  let fc := forward_setup ex_grid ex_Llu_trees 0 0 2 2 16 (fun _ => 0) in
  tree_dest_count (LRtree_ptr ex_Llu_trees 0) = 2 /\
  frecv fc 0 = 0 /\
  fmod fc (0 * 16) = 1 /\
  ~ (frecv fc 0 = tree_dest_count (LRtree_ptr ex_Llu_trees 0)) /\
  ~ (fmod fc (0 * 16)
     = Llu_fmod ex_Llu_trees 0 + tree_dest_count (LRtree_ptr ex_Llu_trees 0)).
Proof. vm_compute. repeat split; discriminate. Qed.

Example ex_forward_counts :
  let fc := forward_setup ex_grid_1x2 ex_Llu_trees 0 0 2 2 16 (fun _ => 0) in
  map (fmod fc) [0; 16] = [3; 0] /\ map (frecv fc) [0; 1] = [2; 0] /\
  nfrecvmod fc = 2 /\ nleaf fc = 0.
Proof. vm_compute. repeat split. Qed.

(** ** The one-sided loop on a mesh of two rows and one column

    One broadcast message is expected.  It is found in the window at the
    first sweep and handled; the second sweep brings the counter to 1, the
    number expected, and the loop goes on; the third brings it to 2; the
    loop is left then. *)
Definition ex_drained : @drained Z :=
  {| BCis_solved := fun _ => 0; RDis_solved := fun _ => 0;
     d_work := {| w_x := ex_x0; w_lsum := ex_x0; w_rtemp := ex_x0;
                  w_fmod := fun _ => 0; w_bmod := fun _ => 0;
                  w_leaf_send := fun _ => 0; w_nleaf_send := 0;
                  w_root_send := fun _ => 0; w_nroot_send := 0; w_sent := [] |} |}.

Definition ex_oneside_loop (fuel : nat) : option (Z * @drained Z) :=
  oneside_loop (fun d => d) ex_window ex_task fuel 0 2 1 (nfrecvx ex_Llu_trees) 0
               (fun _ => 0) (fun _ => 0) 0 ex_drained.

Example ex_oneside_loop_sweeps :
  ex_oneside_loop 3 = None /\
  match ex_oneside_loop 4 with
  | Some (nfrecv, d) => nfrecv = 2 /\ map (BCis_solved d) [0; 1] = [0; 1]
  | None => False
  end.
Proof. vm_compute. repeat split. Qed.

Lemma progress_loop_counters_witness :
  exists nfrecv d, ex_oneside_loop 4 = Some (nfrecv, d) /\ 1 + 0 < nfrecv.
Proof.
  destruct (ex_oneside_loop 4) as [[nfrecv d]|] eqn:E; [|discriminate E].
  exists nfrecv, d. split; [reflexivity|].
  exact (proj2 (progress_loop_counters (fun d => d) 0 1 Z.add 1 1 ex_dgemm ex_dtrsm ex_dlsum
                  ex_MPI_Recv ex_window ex_task ex_grid ex_Glu ex_Llu_trees ex_D 2 16 1 8 0
                  (d_work ex_drained) 4 0 2 1 0 (fun _ => 0) (fun _ => 0) 0 ex_drained)
               nfrecv d E).
Defined.

(** On the mesh of two rows and one column the second loop of a sweep has
    [i = 2] only, and [RD_subtotal] and [RDis_solved] have one cell. *)
Lemma sweep_RD_runs_past_its_arrays_witness :
  0 < 2 /\ 0 < 1 /\
  sweep_RD_checked (fun d => d) 2 1 (ex_window 0) ex_drained (0, fun _ => 0, 0) = None.
Proof.
  split; [lia|]. split; [lia|].
  apply (proj1 (proj2 (sweep_RD_runs_past_its_arrays (fun d => d) 2 1 (ex_window 0)
                         ex_drained 0 (fun _ => 0) (fun _ => 0)))); lia.
Defined.

(** With no message expected and none arriving, the one-sided loop is never
    left: its counter is 0, the number expected, and stays there. *)
Lemma oneside_loop_idle :
  forall fuel sweep BC_subtotal RD_subtotal,
    oneside_loop (fun d => d) (fun _ _ => 0) ex_task fuel sweep 1 1 0 0
                 BC_subtotal RD_subtotal 0 ex_drained = None.
Proof.
  induction fuel as [|fuel IH]; intros sweep BCs RDs; [reflexivity|].
  cbn [oneside_loop]. change (0 <=? 0 + 0) with true. cbv iota.
  unfold sweep_BC, sweep_RD, for_. cbn [BCis_solved RDis_solved ex_drained].
  change (Z.to_nat (1 - 0)) with 1%nat. change (Z.to_nat (1 + 1 - 1)) with 1%nat.
  cbn [for_from]. rewrite !store_same.
  change (Z.to_nat (0 + (0 - 0) + (0 + (0 - 0)) - 0)) with 0%nat.
  cbn [for_from]. apply IH.
Qed.

(** The loop of the backward solve with one message to receive: one
    iteration. *)
Example ex_backward_loop_counter :
  snd (backward_loop (fun d => d) 0 1 Z.add 1 1 ex_dgemm ex_dtrsm ex_dlsum ex_MPI_Recv
                     ex_grid ex_Glu ex_Llu_trees ex_D 2 16 1 8 0 (d_work ex_drained)) = 1.
Proof. vm_compute. reflexivity. Qed.

(** ** The receiving side on a mesh of two rows and one column

    Supernode 0 is column 0 and supernode 1 columns 1 and 2; the process of
    mesh row 1 owns supernode 1 as its local block 0.  It receives row 2 from
    process 0 and row 1 from process 1, two values each. *)
Definition rx_grid : gridinfo_t := {| nprow := 2; npcol := 1; iam := 1 |}.

Definition rx_Glu : Glu_persist_t :=
  {| xsup := of_list 3 [0; 1; 3]; supno := of_list 1 [0; 1; 1] |}.

Definition rx_ilsum : array Z := of_list 2 [0; 2].

Definition rx_RecvCnt : array Z := of_list 0 [1; 1].

Definition rx_rdispls_nrhs : array Z := of_list 0 [0; 2].

Definition rx_recv_ibuf : array Z := of_list 0 [2; 1].

Definition rx_recv_dbuf : array Z := of_list 0 [11; 12; 31; 32].

Definition rx_x : array Z :=
  fst (fst (B_to_X_receive ex_of_int 1 2 rx_ilsum (xsup rx_Glu) (supno rx_Glu) rx_grid 2
                           rx_RecvCnt rx_rdispls_nrhs rx_recv_ibuf rx_recv_dbuf ex_x0)).

(** [x] after the receiving loops: the header, 1, and the block of supernode
    1, two rows and two columns. *)
Example rx_x_value : map rx_x [0; 1; 2; 3; 4; 5] = [1; 31; 11; 32; 12; -1].
Proof. vm_compute. reflexivity. Qed.

Lemma rx_receive_input :
  receive_input 1 rx_grid rx_Glu rx_ilsum 2 (MYROW (iam rx_grid) rx_grid) 1 2
                rx_RecvCnt rx_recv_ibuf.
Proof.
  constructor.
  - lia.
  - lia.
  - intros lk Hlk. assert (lk = 0) by lia. subst lk. decide_closed.
  - intros t Ht. change (received_rows rx_RecvCnt 2) with 2 in Ht.
    below2 t; decide_closed.
Qed.

(** A write into the body of a block: a value in the first cell of the body
    of local block 0. *)
Lemma store_writes_block (XK_H : Z) (ilsum size : array Z) (nlb : Z) (x : array Z) (v : Z) :
  0 < size 0 -> 0 < nlb ->
  block_writes XK_H ilsum size 2 nlb x (store x (X_BLK XK_H ilsum 2 0) v).
Proof.
  intros Hsize Hnlb.
  apply write_then with (x' := store x (X_BLK XK_H ilsum 2 0) v) (lk := 0).
  - lia.
  - intros c Hc. apply store_other. lia.
  - apply no_write.
Qed.

(** ** A system of order 3 on a mesh of two rows and one column

    Supernode 0 is row 0, on process 0; supernode 1 is rows 1 and 2, on
    process 1.  Process 0 holds rows 0 and 1 of [B], process 1 row 2; the
    row permutation is the rotation of the first example. *)
Definition mp_comm (B_to_X X_to_B : list Z) : pxgstrs_comm_t :=
  {| B_to_X_SendCnt := of_list 0 B_to_X; X_to_B_SendCnt := of_list 0 X_to_B;
     ptr_to_ibuf := fun _ => 0; ptr_to_dbuf := fun _ => 0 |}.

Definition mp_here (q : Z) : local Z :=
  if q =? 0 then
    {| l_B := of_list 0 [11; 21; 12; 22]; l_m_loc := 2; l_ldb := 2; l_fst_row := 0;
       l_ilsum := of_list 1 [0; 1]; l_x := ex_x0;
       (* SendCnt, SendCnt_nrhs, RecvCnt, RecvCnt_nrhs, sdispls, sdispls_nrhs,
          rdispls, rdispls_nrhs *)
       l_comm := mp_comm [0; 2;  0; 4;  0; 1;  0; 2;  0; 0;  0; 0;  0; 0;  0; 0]
                         [1; 0;  2; 0;  1; 1;  2; 2;  0; 1;  0; 2;  0; 1;  0; 2];
       l_can_alloc := fun _ => true; l_heap_int := fun _ => 0;
       l_heap_double := fun _ => -1 |}
  else
    {| l_B := of_list 0 [31; 32]; l_m_loc := 1; l_ldb := 1; l_fst_row := 2;
       l_ilsum := of_list 2 [0; 2]; l_x := ex_x0;
       l_comm := mp_comm [1; 0;  2; 0;  2; 0;  4; 0;  0; 1;  0; 2;  0; 2;  0; 4]
                         [1; 1;  2; 2;  0; 1;  0; 2;  0; 1;  0; 2;  0; 0;  0; 0];
       l_can_alloc := fun _ => true; l_heap_int := fun _ => 0;
       l_heap_double := fun _ => -1 |}.

Definition mp_owner : array Z := of_list 1 [0; 0; 1].

Definition mp_diag_procs : array Z := of_list 0 [0; 1].

Definition mp_B_to_X (q : Z) : result (@redistributed Z) :=
  B_to_X_at ex_of_int 1 2 1 ex_SP rx_Glu 2 mp_owner 2 mp_diag_procs mp_here q.

Definition mp_X_to_B (q : Z) : result (@redistributed Z) :=
  X_to_B_at ex_of_int 1 2 1 ex_SP rx_Glu 3 2 mp_owner 2 mp_diag_procs mp_here q.

Ltac mp_sizes :=
  change (nsupers_of rx_Glu 3) with 2 in *;
  change (l_m_loc (mp_here 0)) with 2 in *;
  change (l_m_loc (mp_here 1)) with 1 in *.

Ltac mp_xsup H :=
  repeat match type of H with
         | context [xsup rx_Glu ?j] =>
             let v := eval vm_compute in (xsup rx_Glu j) in
             change (xsup rx_Glu j) with v in H
         end.

Lemma mp_planned_B_to_X :
  planned 2 1 2 (B_to_X_plan 2 1 mp_here) (B_to_X_rows mp_here)
          (B_to_X_to 2 1 ex_SP rx_Glu mp_here).
Proof.
  intros q Hq. below2 q.
  - split; [intros p Hp; below2 p; decide_closed|].
    split; [intros p Hp; below2 p; decide_closed|].
    intros p Hp; below2 p; decide_closed.
  - split; [intros p Hp; below2 p; decide_closed|].
    split; [intros p Hp; below2 p; decide_closed|].
    intros p Hp; below2 p; decide_closed.
Qed.

Lemma mp_planned_X_to_B :
  planned 2 1 2 (X_to_B_plan 2 1 mp_here) (X_to_B_rows 2 1 rx_Glu 3 2 mp_diag_procs)
          (X_to_B_to rx_Glu mp_owner).
Proof.
  intros q Hq. below2 q.
  - split; [intros p Hp; below2 p; decide_closed|].
    split; [intros p Hp; below2 p; decide_closed|].
    intros p Hp; below2 p; decide_closed.
  - split; [intros p Hp; below2 p; decide_closed|].
    split; [intros p Hp; below2 p; decide_closed|].
    intros p Hp; below2 p; decide_closed.
Qed.

Lemma mp_distributed_input :
  distributed_input 1 2 1 ex_SP rx_Glu 3 2 1 mp_owner 2 mp_diag_procs mp_here.
Proof.
  constructor.
  - lia.
  - lia.
  - lia.
  - intros q size _. unfold mp_here. destruct (q =? 0); reflexivity.
  - intros p i Hp Hi. below2 p; mp_sizes; [below2 i | assert (i = 0) by lia; subst i];
      decide_closed.
  - intros p p' i i' Hp Hp' Hi Hi' Heq.
    below2 p; below2 p'; mp_sizes;
      [below2 i; below2 i' | below2 i; assert (i' = 0) by lia; subst i'
       | assert (i = 0) by lia; subst i; below2 i'
       | assert (i = 0) by lia; subst i; assert (i' = 0) by lia; subst i'];
      vm_compute in Heq; first [discriminate Heq | split; reflexivity].
  - intros r Hr. mp_sizes. below3 r; decide_closed.
  - intros k r Hk Hr. mp_sizes. below2 k; mp_xsup Hr.
    + assert (r = 0) by lia. subst r. decide_closed.
    + assert (Hr' : r = 1 \/ r = 2) by lia. destruct Hr' as [-> | ->]; decide_closed.
  - intros r Hr. below3 r; decide_closed.
  - intros q Hq. below2 q; decide_closed.
  - intros q Hq lk Hlk. assert (lk = 0) by lia. subst lk. below2 q; decide_closed.
  - intros k Hk. mp_sizes. below2 k; decide_closed.
  - lia.
  - intros k Hk. mp_sizes. below2 k; reflexivity.
  - exact mp_planned_B_to_X.
  - exact mp_planned_X_to_B.
  - intros q Hq. below2 q; reflexivity.
Qed.

(** [x] after B to X: on process 0 the header and the block of supernode 0,
    on process 1 those of supernode 1. *)
Example mp_B_to_X_value :
  match mp_B_to_X 0, mp_B_to_X 1 with
  | Done r0, Done r1 =>
      map (filled r0) [0; 1; 2] = [0; 31; 32] /\
      map (filled r1) [0; 1; 2; 3; 4] = [1; 11; 21; 12; 22]
  | _, _ => False
  end.
Proof. vm_compute. split; reflexivity. Qed.

(** [B] after X to B: the rows of [B], rotated across the two processes. *)
Example mp_X_to_B_value :
  match mp_X_to_B 0, mp_X_to_B 1 with
  | Done r0, Done r1 =>
      map (filled r0) [0; 1; 2; 3] = [31; 11; 32; 12] /\
      map (filled r1) [0; 1] = [21; 22]
  | _, _ => False
  end.
Proof. vm_compute. split; reflexivity. Qed.

Lemma redistribute_round_trip_witness :
  (exists r1 r2,
     ex_B_to_X = Done r1 /\
     pdReDistribute_X_to_B 1 ex_env 3 ex_B 3 3 0 2 (filled r1) ex_ilsum
       ex_SP ex_Glu ex_grid ex_SOLVE = Done r2 /\
     (forall i j, 0 <= i < 3 -> 0 <= j < 2 ->
        filled r2 (permuted_row ex_SP 0 i - 0 + j * 3) = ex_B (i + j * 3)) /\
     (forall i i', 0 <= i < 3 -> 0 <= i' < 3 ->
        permuted_row ex_SP 0 i = permuted_row ex_SP 0 i' -> i = i')) /\
  (forall p i j, 0 <= p < 2 * 1 -> 0 <= i < l_m_loc (mp_here p) -> 0 <= j < 2 ->
     let irow := permuted_row ex_SP (l_fst_row (mp_here p)) i in
     let r := mp_owner irow in
     0 <= r < 2 * 1 /\
     exists res,
       mp_X_to_B r = Done res /\
       filled res (irow - l_fst_row (mp_here r) + j * l_ldb (mp_here r))
         = l_B (mp_here p) (i + j * l_ldb (mp_here p))).
Proof.
  destruct (@redistribute_round_trip Z ex_of_int 1) as [Hone Hmany].
  split.
  - exact (Hone ex_env ex_B 3 2 3 0 ex_ilsum ex_x0 ex_SP ex_Glu ex_grid ex_SOLVE 3
             ex_single_process_input ex_single_process_output).
  - exact (proj1 (Hmany 2 1 ex_SP rx_Glu 3 2 1 mp_owner 2 mp_diag_procs mp_here
                    mp_distributed_input)).
Defined.

(** ** The headers of [x] through the solve of the examples *)

(** A kernel that writes: it puts 99 in the first cell of the body of local
    block 0, which is [x[2]] with a header of two cells. *)
Definition ex_dlsum_writes (_ _ : Z) (_ : array Z) (w : @workspace Z) : @workspace Z :=
  set_x w (store (w_x w) (X_BLK 2 ex_ilsum 2 0) 99).

(** The first example with the header of two cells and that kernel. *)
Definition ex_pdgstrs_2 : @outcome Z :=
  pdgstrs ex_of_int (fun d => d) 0 1 Z.add 2 2 ex_dgemm ex_dtrsm ex_dlsum_writes ex_dlsum
          ex_dlsum (fun _ => 4) ex_MPI_Recv ex_window ex_task
          0 false ex_env 16 8 1 3 ex_Glu ex_Llu ex_D ex_SP ex_grid
          ex_B 3 0 3 2 ex_SOLVE 7 5.

(** [x[0 .. 9]] after each phase of that call, the latest first: the
    headers are [x[0]] and [x[6]], and [x[1]] and [x[7]] are their second
    cells. *)
Example ex_pdgstrs_2_value :
  match ex_pdgstrs_2 with
  | Exited status s =>
      status = 0 /\
      map (fun x' : array Z => map x' [0; 1; 2; 3; 4; 5; 6; 7; 8; 9]) (s_x s)
        = [[0; -1; 99; 0; 0; 0; 1; -1; 0; 0];
           [0; -1; 99; 0; 0; 0; 1; -1; 0; 0];
           [0; -1; 0; 0; 0; 0; 1; -1; 0; 0];
           [0; -1; 31; 11; 32; 12; 1; -1; 21; 22]]
  | _ => False
  end.
Proof. vm_compute. repeat split. Qed.

(** What process [q] of the mesh of two rows and one column holds of the
    factor: no tree, no count to wait for. *)
Definition mp_Llu (q : Z) : @LocalLU_t Z :=
  {| Lrowind_bc_ptr := fun _ => Some (fun _ => 3);
     Lnzval_bc_ptr := fun _ _ => 0;
     Llu_fmod := fun _ => 0;
     Llu_bmod := fun _ => 0;
     Llu_ilsum := l_ilsum (mp_here q);
     ldalsum := 3;
     nfrecvx := 0;
     nbrecvx := 0;
     nfsendx := 0;
     nbsendx := 0;
     LBtree_ptr := fun _ => None;
     LRtree_ptr := fun _ => None;
     UBtree_ptr := fun _ => None;
     URtree_ptr := fun _ => None;
     Urbs := fun _ => 0 |}.

Definition mp_pdgstrs (q : Z) : @outcome Z :=
  pdgstrs ex_of_int (fun d => d) 0 1 Z.add 1 1 ex_dgemm ex_dtrsm ex_dlsum ex_dlsum ex_dlsum
          (fun _ => 4) ex_MPI_Recv ex_window ex_task
          0 false
          (exchange_env 2 1 mp_here q (B_to_X_sent 2 1 ex_SP rx_Glu 2 mp_here)
                        (B_to_X_plan 2 1 mp_here))
          16 8 1 3 rx_Glu (mp_Llu q) ex_D ex_SP (grid_of 2 1 q)
          (l_B (mp_here q)) (l_m_loc (mp_here q)) (l_fst_row (mp_here q)) (l_ldb (mp_here q)) 2
          (SOLVE_of mp_owner 2 mp_diag_procs mp_here q) 7 5.



(** * The further properties on the examples *)

(** ** The inverses of the diagonal blocks *)

(** A 2 by 2 diagonal block in a panel of leading dimension 3, column
    major: the columns [4 5 6] and [7 8 9]. *)
Definition ex_lusup : array Z := of_list 0 [4; 5; 6; 7; 8; 9].

(** The unit lower triangle [1 5; 0 1] and the upper triangle [4 0; 7 8],
    column by column, and the cell after the block untouched. *)
Lemma diag_block_copy_splits_the_triangles_witness :
  map (fst (diag_block_copy 0 1 2 3 ex_lusup (ex_x0, ex_x0))) [0; 1; 2; 3; 4] = [1; 5; 0; 1; -1] /\
  map (snd (diag_block_copy 0 1 2 3 ex_lusup (ex_x0, ex_x0))) [0; 1; 2; 3; 4] = [4; 0; 7; 8; -1].
Proof.
  destruct (@diag_block_copy_splits_the_triangles Z 0 1 2 3 ex_lusup ex_x0 ex_x0)
    as [Hin Hout].
  destruct (Hin 0 0 ltac:(lia) ltac:(lia)) as [L00 U00].
  destruct (Hin 1 0 ltac:(lia) ltac:(lia)) as [L10 U10].
  destruct (Hin 0 1 ltac:(lia) ltac:(lia)) as [L01 U01].
  destruct (Hin 1 1 ltac:(lia) ltac:(lia)) as [L11 U11].
  destruct (Hout 4 ltac:(lia)) as [L4 U4].
  cbn [map]. split.
  - exact (f_equal2 cons L00 (f_equal2 cons L10 (f_equal2 cons L01
             (f_equal2 cons L11 (f_equal2 cons L4 eq_refl))))).
  - exact (f_equal2 cons U00 (f_equal2 cons U10 (f_equal2 cons U01
             (f_equal2 cons U11 (f_equal2 cons U4 eq_refl))))).
Defined.

(** On the mesh of one process, with a factor whose column 1 holds the
    block [3], the process owns the diagonal block of supernode 1: the
    routine leaves there what [dtrtri_] returned for the 1 by 1 triangles. *)
Definition ex_Llu_diag : @LocalLU_t Z :=
  {| Lrowind_bc_ptr := fun _ => Some (fun _ => 3);
     Lnzval_bc_ptr := fun _ _ => 3;
     Llu_fmod := fun _ => 0;
     Llu_bmod := fun _ => 0;
     Llu_ilsum := ex_ilsum;
     ldalsum := 3;
     nfrecvx := 0;
     nbrecvx := 0;
     nfsendx := 0;
     nbsendx := 0;
     LBtree_ptr := fun _ => None;
     LRtree_ptr := fun _ => None;
     UBtree_ptr := fun _ => None;
     URtree_ptr := fun _ => None;
     Urbs := fun _ => 0 |}.

Lemma pdCompute_Diag_Inv_inverts_the_owned_blocks_witness :
  let D' := fst (fst (pdCompute_Diag_Inv 0 1 ex_dtrtri true 3 ex_Llu_diag ex_D ex_Glu ex_grid
                                         0 0)) in
  Llu_inv D' = 1 /\ Linv_bc_ptr D' 1 0 = 1 /\ Uinv_bc_ptr D' 1 0 = 3.
Proof.
  destruct (@pdCompute_Diag_Inv_inverts_the_owned_blocks Z 0 1 ex_dtrtri 3 ex_Llu_diag ex_D
              ex_Glu ex_grid 0 0 1) as (Hinv & HL & HU).
  - split; [lia | reflexivity].
  - reflexivity.
  - reflexivity.
  - cbv zeta. split; [exact Hinv|].
    split; [exact (f_equal (fun a : array Z => a 0) HL)
           | exact (f_equal (fun a : array Z => a 0) HU)].
Defined.

(** Block column 5 is that of no supernode: its inverses are as on entry;
    and without LAPACK everything is. *)
Lemma pdCompute_Diag_Inv_keeps_the_other_blocks_witness :
  Linv_bc_ptr (fst (fst (pdCompute_Diag_Inv 0 1 ex_dtrtri true 3 ex_Llu_diag ex_D ex_Glu
                                            ex_grid 0 0))) 5
    = Linv_bc_ptr ex_D 5 /\
  fst (fst (pdCompute_Diag_Inv 0 1 ex_dtrtri false 3 ex_Llu_diag ex_D ex_Glu ex_grid 0 0))
    = ex_D.
Proof.
  split.
  - refine (proj1 (proj1 (@pdCompute_Diag_Inv_keeps_the_other_blocks Z 0 1 ex_dtrtri true 3
                             ex_Llu_diag ex_D ex_Glu ex_grid 0 0) 5 _)).
    intros k Hk _ _. change (supno ex_Glu (3 - 1) + 1) with 2 in Hk.
    below2 k; vm_compute; discriminate.
  - exact (proj2 (@pdCompute_Diag_Inv_keeps_the_other_blocks Z 0 1 ex_dtrtri false 3
                    ex_Llu_diag ex_D ex_Glu ex_grid 0 0) eq_refl).
Defined.

(** ** The working storage *)

(** A size of 11 cells padded to lines of 8, in an [int_t] of 32 bits: 16
    cells. *)
Lemma round_up_is_the_next_multiple_witness :
  round_up_int_t 32 11 8 = round_up 11 8 /\
  11 <= round_up_int_t 32 11 8 < 11 + 8 /\ Z.rem (round_up_int_t 32 11 8) 8 = 0 /\
  round_up_int_t 32 11 8 <= 24.
Proof.
  destruct (@round_up_is_the_next_multiple 32 11 8 ltac:(lia) ltac:(lia) ltac:(lia)
              ltac:(reflexivity)) as (He & Hb & Hr & Hleast).
  split; [exact He|]. split; [exact Hb|]. split; [exact Hr|].
  apply Hleast; [lia | reflexivity].
Defined.

(** Beyond the bound: a size four cells short of [2 ^ 31], in an [int_t] of
    32 bits, is rounded to a negative number. *)
Example ex_round_up_wraps :
  round_up_int_t 32 (2 ^ 31 - 4) 8 = - 2147483640 /\ round_up (2 ^ 31 - 4) 8 = 2 ^ 31.
Proof. vm_compute. split; reflexivity. Qed.

(** And the size itself can wrap before the line: with [ldalsum = 2 ^ 20]
    and [nrhs = 2 ^ 12] the product [ldalsum * nrhs] of line 974, of two
    [int] of 32 bits, is 0, and so is [sizertemp] after the rounding. *)
Example ex_sizertemp_wraps :
  wrap 32 (1048576 * 4096) = 0 /\ round_up_int_t 32 (wrap 32 (1048576 * 4096)) 8 = 0.
Proof. vm_compute. split; reflexivity. Qed.

Lemma ex_lsum_layout : blocks_laid_out ex_ilsum (SuperSize (xsup ex_Glu)) 2.
Proof. intros lk Hlk. below2 lk; decide_closed. Qed.

(** [lsum] of the first example, eleven cells with [LSUM_H = 2]: the
    headers of the two supernodes are the cells 0 and 6. *)
Lemma lsum_is_zero_but_for_its_headers_witness :
  let lsum := lsum_headers ex_of_int 2 ex_grid 0 2 2 ex_ilsum (zero_fill 0 11 ex_x0) in
  lsum 0 = 0 /\ lsum 6 = 1 /\ lsum 3 = 0.
Proof.
  destruct (@lsum_is_zero_but_for_its_headers Z ex_of_int 0 2 ex_grid 0 2 2 ex_ilsum 11 ex_x0
              (SuperSize (xsup ex_Glu)) ltac:(lia) ltac:(lia) ltac:(reflexivity)
              ex_lsum_layout) as [Hhead Hzero].
  cbv zeta. split; [|split].
  - exact (Hhead 0 ltac:(lia) eq_refl).
  - exact (Hhead 1 ltac:(lia) eq_refl).
  - apply (Hzero 3); [lia|]. intros k Hk _. below2 k; vm_compute; discriminate.
Defined.

Lemma ex_lsum_owned_layout : blocks_laid_out ex_ilsum (owned_size ex_grid ex_Glu 0) 2.
Proof. intros lk Hlk. below2 lk; decide_closed. Qed.

(** The same [lsum] with 7 in every cell, zeroed again for one thread: the
    header of supernode 1 keeps its 7, the body cells hold 0. *)
Lemma lsum_rezero_keeps_the_headers_witness :
  let lsum' := lsum_rezero 0 2 ex_grid ex_Glu 0 2 2 ex_ilsum 1 16 (fun _ => 7) in
  lsum' 6 = 7 /\ lsum' 8 = 0.
Proof.
  destruct (@lsum_rezero_keeps_the_headers Z 0 2 ex_grid ex_Glu 0 2 2 ex_ilsum 1 16
              (fun _ => 7) ltac:(lia) ltac:(lia) ltac:(reflexivity) ex_lsum_owned_layout
              ltac:(vm_compute; discriminate) ltac:(vm_compute; discriminate))
    as [Hhead Hzero].
  cbv zeta. split.
  - exact (Hhead 1 ltac:(lia) eq_refl).
  - exact (Hzero 1 0 0 0 ltac:(lia) eq_refl ltac:(vm_compute; split; [discriminate | reflexivity])
             ltac:(lia) ltac:(lia)).
Defined.

(** ** The leaves and the roots *)

(** On the mesh of one row and two columns, the process of column 0 owns
    the diagonal block of supernode 0, which has a reduction tree in the
    forward solve, and not that of supernode 1: it has no leaf; in the
    backward solve supernode 0 has no tree and a count of 0: it is the
    root. *)
Lemma forward_setup_lists_the_leaves_witness :
  nleaf (forward_setup ex_grid_1x2 ex_Llu_trees 0 0 2 2 16 (fun _ => 0)) = 0.
Proof.
  destruct (@forward_setup_lists_the_leaves Z ex_grid_1x2 ex_Llu_trees 0 0 2 16 (fun _ => 0)
              ltac:(lia) ltac:(reflexivity)) as (Hn & Hsound & _).
  cbv zeta in Hn, Hsound.
  destruct (Z.eq_dec (nleaf (forward_setup ex_grid_1x2 ex_Llu_trees 0 0 2
                                           (CEILING 2 (nprow ex_grid_1x2)) 16 (fun _ => 0))) 0)
    as [E|E]; [exact E|].
  exfalso. destruct (Hsound 0 ltac:(lia)) as (lk & Hlk & _ & _ & Hfmod & Htree).
  change (CEILING 2 (nprow ex_grid_1x2)) with 2 in Hlk.
  below2 lk.
  - vm_compute in Hfmod. discriminate Hfmod.
  - destruct (Htree ltac:(vm_compute; discriminate)) as [_ Hcol].
    vm_compute in Hcol. discriminate Hcol.
Defined.

Lemma backward_setup_lists_the_roots_witness :
  exists jj, 0 <= jj < nroot (backward_setup ex_grid_1x2 ex_Llu_trees 0 0 2 2 16 (fun _ => 0)) /\
             rootsups (backward_setup ex_grid_1x2 ex_Llu_trees 0 0 2 2 16 (fun _ => 0)) jj = 0.
Proof.
  destruct (@backward_setup_lists_the_roots Z ex_grid_1x2 ex_Llu_trees 0 0 2 16 (fun _ => 0)
              ltac:(lia) ltac:(reflexivity)) as (_ & _ & Hall & _).
  cbv zeta in Hall.
  exact (Hall 0 ltac:(vm_compute; split; [discriminate | reflexivity])
              ltac:(vm_compute; repeat split)).
Defined.

(** ** The pieces of the solve *)

(** A [dgemm_] that returns the block of [x] with 100 added to every
    value. *)
Definition ex_dgemm_100 (_ _ : string) (_ _ _ : Z) (_ : Z) (_ : array Z) (_ : Z)
    (Bk : array Z) (_ : Z) (_ : Z) (_ : array Z) (_ : Z) : array Z :=
  fun i => 100 + Bk i.

Definition ex_work : @workspace Z :=
  {| w_x := of_list 0 [0; 31; 11; 32; 12; 1; 21; 22]; w_lsum := ex_x0; w_rtemp := ex_x0;
     w_fmod := fun _ => 0; w_bmod := fun _ => 0;
     w_leaf_send := of_list 0 [1; -1]; w_nleaf_send := 0;
     w_root_send := of_list 0 [-2; 0]; w_nroot_send := 0; w_sent := [] |}.

(** The solve of leaf 0, whose block is the cells 1 to 4 of [x]: the first
    cell holds 131 afterwards, and nothing is queued, the column having no
    tree. *)
Lemma leaf_and_root_solve_by_the_inverse_witness :
  w_x (leaf_solve 0 1 1 ex_dgemm_100 ex_dtrsm ex_grid ex_Glu ex_Llu ex_D 2 1 0 ex_work) 1 = 131 /\
  w_nleaf_send (leaf_solve 0 1 1 ex_dgemm_100 ex_dtrsm ex_grid ex_Glu ex_Llu ex_D 2 1 0 ex_work)
    = 0 /\
  w_x (root_solve 0 1 1 ex_dgemm_100 ex_dtrsm ex_grid ex_Glu ex_Llu ex_D 2 1 0 ex_work) 4 = 112.
Proof.
  destruct (@leaf_and_root_solve_by_the_inverse Z 0 1 1 ex_dgemm_100 ex_dtrsm ex_grid ex_Glu
              ex_Llu ex_D 2 1 0 ex_work eq_refl)
    as [(Hxl & _ & _ & _ & _ & Hql) (Hxr & _)].
  split; [|split].
  - exact (Hxl 0 ltac:(vm_compute; split; [discriminate | reflexivity])).
  - exact (proj1 Hql).
  - exact (Hxr 3 ltac:(vm_compute; split; [discriminate | reflexivity])).
Defined.

(** Two entries of [leaf_send], the block column 1 and the block row 0
    (written -1): a broadcast and a reduction are sent, in this order. *)
Lemma forwarding_sends_one_message_per_entry_witness :
  exists sent,
    w_sent (for_ 0 2 (leaf_forward 1 1 ex_grid ex_Llu 0 2 1) ex_work) = [] ++ sent /\
    (exists m, nth_error sent 0 = Some m /\ msg_tag m = BC_L /\ msg_tree m = 1) /\
    (exists m, nth_error sent 1 = Some m /\ msg_tag m = RD_L /\ msg_tree m = 0).
Proof.
  destruct (@forwarding_sends_one_message_per_entry Z 1 1 ex_grid ex_Llu 0 2 1 2 ex_work)
    as [(_ & sent & Hsent & _ & Hall) _].
  exists sent. split; [exact Hsent|]. split.
  - destruct (Hall 0 ltac:(lia)) as (m & Hnth & Htag & Htree & _).
    exists m. split; [exact Hnth|]. split; [exact Htag | exact Htree].
  - destruct (Hall 1 ltac:(lia)) as (m & Hnth & Htag & Htree & _).
    exists m. split; [exact Hnth|]. split; [exact Htag | exact Htree].
Defined.

(** A block of two cells at [lsum[1]] and the values 5 and 6 received. *)
Lemma partial_sums_are_added_cell_by_cell_witness :
  accumulate Z.add 1 2 1 (of_list 0 [5; 6]) (of_list 0 [9; 10; 20]) 2 = 20 + 6 /\
  fold_lsum Z.add 1 1 2 1 (of_list 0 [9; 10; 20]) (of_list 0 [0; 1; 2]) 1 = 1 + 10 /\
  accumulate Z.add 1 2 1 (of_list 0 [5; 6]) (of_list 0 [9; 10; 20]) 0 = 9.
Proof.
  destruct (@partial_sums_are_added_cell_by_cell Z Z.add 1 1 2 1 (of_list 0 [5; 6])
              (of_list 0 [9; 10; 20]) (of_list 0 [0; 1; 2])) as (Hadd & Hout & _).
  split; [|split].
  - exact (proj1 (Hadd 1 0 ltac:(lia) ltac:(lia))).
  - exact (proj2 (Hadd 0 0 ltac:(lia) ltac:(lia))).
  - exact (Hout 0 ltac:(lia)).
Defined.

(** Three threads, their copies four cells apart: the two cells of the
    block gather 1 + 10 + 100 and 2 + 20 + 200. *)
Lemma sum_threads_gathers_the_copies_witness :
  sum_threads Z.add 0 2 1 3 4 (of_list 0 [1; 2; 0; 0; 10; 20; 0; 0; 100; 200]) 1 = 222 /\
  sum_threads Z.add 0 2 1 3 4 (of_list 0 [1; 2; 0; 0; 10; 20; 0; 0; 100; 200]) 5 = 20.
Proof.
  destruct (@sum_threads_gathers_the_copies Z Z.add 0 2 1 3 4
              (of_list 0 [1; 2; 0; 0; 10; 20; 0; 0; 100; 200]) ltac:(lia)) as [Hin Hout].
  split.
  - exact (Hin 1 ltac:(lia)).
  - exact (Hout 5 ltac:(lia)).
Defined.

(** ** How a call of [pdgstrs] ends *)

(** An allocator that has nothing to give. *)
Definition ex_env_poor : @environment Z :=
  {| can_alloc := fun _ => false;
     heap_int := fun _ => 0;
     heap_double := fun _ => -1;
     alltoallv_i := fun buf _ _ _ _ => buf;
     alltoallv_d := fun buf _ _ _ _ => buf |}.

Definition ex_pdgstrs_poor : @outcome Z :=
  pdgstrs ex_of_int (fun d => d) 0 1 Z.add 1 1 ex_dgemm ex_dtrsm ex_dlsum ex_dlsum ex_dlsum
          (fun _ => 4) ex_MPI_Recv ex_window ex_task
          0 false ex_env_poor 16 8 1 3 ex_Glu ex_Llu ex_D ex_SP ex_grid
          ex_B 3 0 3 2 ex_SOLVE 7 5.

(** Without memory the call aborts at its first allocation; with memory it
    ends in [exit] with [Llu->SolveMsgSent], 5 on entry, at 0. *)
Lemma pdgstrs_aborts_only_without_memory_witness :
  ex_pdgstrs_poor = Aborted "Calloc fails for fmod[]." /\
  (exists size, can_alloc ex_env_poor size = false) /\
  (exists s, ex_pdgstrs 0 false 3 2 = Exited 0 s /\ s_SolveMsgSent s = 0 /\ s_errors s = []).
Proof.
  assert (Hrun : ex_pdgstrs_poor = Aborted "Calloc fails for fmod[].") by reflexivity.
  split; [exact Hrun|]. split.
  - exact (proj1 (@pdgstrs_aborts_only_without_memory Z ex_of_int (fun d => d) 0 1 Z.add 1 1
                    ex_dgemm ex_dtrsm ex_dlsum ex_dlsum ex_dlsum (fun _ => 4) ex_MPI_Recv
                    ex_window ex_task 0 false ex_env_poor 16 8 1 3 ex_Glu ex_Llu ex_D ex_SP
                    ex_grid ex_B 3 0 3 2 ex_SOLVE 7 5) _ Hrun).
  - destruct (ex_pdgstrs 0 false 3 2) as [s|status s|msg|] eqn:E;
      try (vm_compute in E; discriminate E).
    assert (Hstatus : status = 0) by (vm_compute in E; injection E as <- _; reflexivity).
    subst status. exists s. split; [reflexivity|].
    exact (proj2 (@pdgstrs_aborts_only_without_memory Z ex_of_int (fun d => d) 0 1 Z.add 1 1
                    ex_dgemm ex_dtrsm ex_dlsum ex_dlsum ex_dlsum (fun _ => 4) ex_MPI_Recv
                    ex_window ex_task 0 false ex_env 16 8 1 3 ex_Glu ex_Llu ex_D ex_SP
                    ex_grid ex_B 3 0 3 2 ex_SOLVE 7 5) 0 s E).
Defined.

(** ** The redistribution on one process *)

(** [x] of the first example has the cells 0 to 7; cell 8 is none of a local
    row. *)
Lemma B_to_X_on_one_process_writes_only_its_cells_witness :
  exists r, ex_B_to_X = Done r /\ filled r 8 = ex_x0 8 /\ mpi_calls r = [].
Proof.
  destruct (@B_to_X_on_one_process_writes_only_its_cells Z ex_of_int 1 ex_env ex_B ex_x0
              3 2 3 0 ex_ilsum ex_SP ex_Glu ex_grid ex_SOLVE eq_refl)
    as (r & Hr & _ & _ & Hcalls & Hframe & _).
  exists r. split; [exact Hr|]. split; [|exact Hcalls].
  apply Hframe. intros i Hi. split.
  - below3 i; vm_compute; discriminate.
  - intros j Hj. below3 i; below2 j; vm_compute; discriminate.
Defined.

(** [B] with a leading dimension of 4 for three rows: cell 3, the padding of
    the first column, keeps its 99. *)
Lemma X_to_B_on_one_process_writes_only_its_cells_witness :
  exists r,
    pdReDistribute_X_to_B 1 ex_env 3 (fun _ => 99) 3 4 0 2 (w_x ex_work) ex_ilsum
      ex_SP ex_Glu ex_grid ex_SOLVE = Done r /\
    filled r 3 = 99.
Proof.
  destruct (@X_to_B_on_one_process_writes_only_its_cells Z 1 ex_env (fun _ => 99) (w_x ex_work)
              3 3 2 4 0 ex_ilsum ex_SP ex_Glu ex_grid ex_SOLVE eq_refl)
    as (r & Hr & _ & _ & _ & Hframe & _).
  exists r. split; [exact Hr|].
  apply (Hframe 3). intros k i j Hk Hi Hj.
  change (nsupers_of ex_Glu 3) with 2 in Hk.
  below2 k.
  - change (SuperSize (xsup ex_Glu) 0) with 2 in Hi. below2 i; below2 j; vm_compute; discriminate.
  - change (SuperSize (xsup ex_Glu) 1) with 1 in Hi. assert (i = 0) by lia. subst i.
    below2 j; vm_compute; discriminate.
Defined.

(** Without memory both routines return on one process, and B to X aborts
    on the mesh of two rows and one column. *)
Lemma redistributions_allocate_on_several_processes_only_witness :
  (exists r, pdReDistribute_B_to_X ex_of_int 1 ex_env_poor ex_B 3 2 3 0 ex_ilsum ex_x0
               ex_SP ex_Glu ex_grid ex_SOLVE = Done r) /\
  pdReDistribute_B_to_X ex_of_int 1 ex_env_poor (l_B (mp_here 0)) 2 2 2 0
    (l_ilsum (mp_here 0)) ex_x0 ex_SP rx_Glu (grid_of 2 1 0)
    (SOLVE_of mp_owner 2 mp_diag_procs mp_here 0) = Abort "Malloc fails for send_ibuf[]."%string /\
  (exists r, mp_X_to_B 0 = Done r /\ mpi_calls r = [Alltoallv_int; Alltoallv_double]).
Proof.
  split; [|split].
  - exact (proj1 (proj1 (@redistributions_allocate_on_several_processes_only Z ex_of_int 1
                           ex_env_poor ex_B ex_x0 3 3 2 3 0 ex_ilsum ex_SP ex_Glu ex_grid
                           ex_SOLVE) eq_refl)).
  - refine (proj1 (proj1 (proj2 (@redistributions_allocate_on_several_processes_only Z
                            ex_of_int 1 ex_env_poor (l_B (mp_here 0)) ex_x0 3 2 2 2 0
                            (l_ilsum (mp_here 0)) ex_SP rx_Glu (grid_of 2 1 0)
                            (SOLVE_of mp_owner 2 mp_diag_procs mp_here 0))) _ _) eq_refl).
    + vm_compute. discriminate.
    + unfold cells_fit. vm_compute. repeat split; discriminate.
  - destruct (mp_X_to_B 0) as [r|msg] eqn:E; [|vm_compute in E; discriminate E].
    exists r. split; [reflexivity|].
    refine (proj1 (proj2 (proj2 (proj2 (@redistributions_allocate_on_several_processes_only Z
                            ex_of_int 1
                            (exchange_env 2 1 mp_here 0
                               (X_to_B_sent ex_of_int 1 2 1 ex_SP rx_Glu 3 2 mp_owner 2
                                            mp_diag_procs mp_here)
                               (X_to_B_plan 2 1 mp_here))
                            (l_B (mp_here 0))
                            (x_after ex_of_int 1 2 1 ex_SP rx_Glu 2 mp_owner 2 mp_diag_procs
                                     mp_here 0)
                            3 2 2 2 0 (l_ilsum (mp_here 0)) ex_SP rx_Glu (grid_of 2 1 0)
                            (SOLVE_of mp_owner 2 mp_diag_procs mp_here 0))) _ _) r E)).
    + vm_compute. discriminate.
    + unfold cells_fit. vm_compute. repeat split; discriminate.
Defined.

(** ** The redistribution on the mesh of two rows and one column *)

Ltac in_range := vm_compute; split; [discriminate | reflexivity].

(** Process 0 packs its two rows for process 1 in B to X and row 0 for
    itself in X to B. *)
Lemma scratch_pointers_count_the_rows_packed_witness :
  (exists r,
     pdReDistribute_B_to_X ex_of_int 1 ex_env (l_B (mp_here 0)) 2 2 2 0 (l_ilsum (mp_here 0))
       ex_x0 ex_SP rx_Glu (grid_of 2 1 0) (SOLVE_of mp_owner 2 mp_diag_procs mp_here 0)
       = Done r /\
     ibuf_ptr r 1 = 0 + 2 /\ dbuf_ptr r 1 = 0 * 2 + 2 * 2) /\
  (exists r,
     pdReDistribute_X_to_B 1 ex_env 3 (l_B (mp_here 0)) 2 2 0 2 ex_x0 (l_ilsum (mp_here 0))
       ex_SP rx_Glu (grid_of 2 1 0) (SOLVE_of mp_owner 2 mp_diag_procs mp_here 0)
       = Done r /\
     ibuf_ptr r 0 = 0 + 1 /\ dbuf_ptr r 0 = 0 + 1 * 2).
Proof.
  destruct (@scratch_pointers_count_the_rows_packed Z ex_of_int 1 ex_env (l_B (mp_here 0))
              ex_x0 3 2 2 2 0 (l_ilsum (mp_here 0)) ex_SP rx_Glu (grid_of 2 1 0)
              (SOLVE_of mp_owner 2 mp_diag_procs mp_here 0)
              ltac:(vm_compute; discriminate) (fun _ => eq_refl) ltac:(lia))
    as [Hb Hx].
  split.
  - destruct Hb as (rb & Hrb & Hb).
    + intros d Hd. assert (Hd' : 0 <= d < 2) by exact Hd.
      below2 d; unfold fits_int; vm_compute; repeat split; discriminate.
    + exists rb. split; [exact Hrb|]. exact (Hb 1 ltac:(in_range)).
  - destruct Hx as (rx & Hrx & Hx).
    + intros d Hd. assert (Hd' : 0 <= d < 2) by exact Hd.
      below2 d; unfold fits_int; vm_compute; repeat split; discriminate.
    + exists rx. split; [exact Hrx|]. exact (Hx 0 ltac:(in_range)).
Defined.

(** Process 0 holds the rows 0 and 1 of [B], which the permutation takes to
    the rows 1 and 2 of supernode 1, on process 1: row 0 sits in one of the
    two slots of the segment of process 1, and both slots hold a local
    row. *)
Lemma B_to_X_packs_every_row_for_its_diagonal_process_witness :
  let sent := B_to_X_send (fun _ => 0) (fun _ => -1) (l_B (mp_here 0)) 2 2 2 0
                          (perm_r ex_SP) (perm_c ex_SP) (supno rx_Glu) (grid_of 2 1 0) (2 * 1)
                          (of_list 0 [0; 0]) (fun _ => 0) (fun _ => 0) in
  (exists t, 0 <= t < 2 /\
     fst (fst (fst sent)) (0 + t) = 1 /\ snd (fst (fst sent)) ((0 + t) * 2 + 1) = 12) /\
  (exists i, 0 <= i < 2 /\ fst (fst (fst sent)) (0 + 1) = permuted_row ex_SP 0 i).
Proof.
  intros sent.
  destruct (@B_to_X_packs_every_row_for_its_diagonal_process Z (l_B (mp_here 0)) 2 2 2 0
              ex_SP rx_Glu (grid_of 2 1 0) (fun _ => 0) (fun _ => -1) (fun _ => 0) (fun _ => 0)
              (of_list 0 [0; 2]) (of_list 0 [0; 0])) as [Hrows Hslots].
  - lia.
  - intros i Hi. below2 i; decide_closed.
  - intros p Hp. assert (Hp' : 0 <= p < 2) by exact Hp. below2 p; decide_closed.
  - intros d Hd. assert (Hd' : 0 <= d < 2) by exact Hd. below2 d; decide_closed.
  - split.
    + destruct (Hrows 0 ltac:(lia)) as (t & Ht & Hkey & Hval).
      exists t. split; [exact Ht|]. split; [exact Hkey | exact (Hval 1 ltac:(lia))].
    + destruct (Hslots 1 1 ltac:(in_range) ltac:(in_range)) as (i & Hi & _ & Hkey & _).
      exists i. split; [exact Hi | exact Hkey].
Defined.

(** Process 0 is the diagonal process of supernode 0, the row 0, which goes
    back to process 0; with [x] holding the header and the values 31 and 32,
    the slot of the row holds 32 for the second column. *)
Lemma X_to_B_packs_the_rows_of_its_supernodes_witness :
  let sent := X_to_B_send 1 (fun _ => 0) (fun _ => -1) (of_list 0 [0; 31; 32]) 2
                          (l_ilsum (mp_here 0)) (xsup rx_Glu) (grid_of 2 1 0) mp_owner
                          (nsupers_of rx_Glu 3) (2 * 1) 2 mp_diag_procs
                          (of_list 0 [0; 1]) (of_list 0 [0; 2]) (fun _ => 0) (fun _ => 0) in
  exists t, 0 <= t < 1 /\
    fst (fst (fst sent)) (0 + t) = 0 /\ snd (fst (fst sent)) ((0 + t) * 2 + 1) = 32.
Proof.
  intros sent.
  destruct (@X_to_B_packs_the_rows_of_its_supernodes Z 1 (of_list 0 [0; 31; 32]) 3 2
              (l_ilsum (mp_here 0)) rx_Glu (grid_of 2 1 0)
              (SOLVE_of mp_owner 2 mp_diag_procs mp_here 0)
              (fun _ => 0) (fun _ => -1) (fun _ => 0) (fun _ => 0)
              (of_list 0 [1; 0]) (of_list 0 [0; 1]) (of_list 0 [0; 2])) as (Hrows & _ & _).
  - lia.
  - reflexivity.
  - intros k i [Hk Hmine] Hi. mp_sizes. below2 k.
    + change (SuperSize (xsup rx_Glu) 0) with 1 in Hi. assert (i = 0) by lia. subst i.
      decide_closed.
    + vm_compute in Hmine. discriminate Hmine.
  - intros p Hp. assert (Hp' : 0 <= p < 2) by exact Hp. below2 p; decide_closed.
  - intros d Hd. assert (Hd' : 0 <= d < 2) by exact Hd. below2 d; reflexivity.
  - intros d Hd. assert (Hd' : 0 <= d < 2) by exact Hd. below2 d; decide_closed.
  - destruct (Hrows 0 0 ltac:(split; [in_range | reflexivity]) ltac:(in_range))
      as (t & Ht & Hkey & Hval).
    exists t. split; [exact Ht|]. split; [exact Hkey | exact (Hval 1 ltac:(lia))].
Defined.

(** Process 1 receives the rows 1 and 2 from process 0: the second value of
    the first row received, 12, lands in [x[3]]. *)
Lemma B_to_X_scatters_the_rows_received_witness :
  exists r, mp_B_to_X 1 = Done r /\ filled r 3 = 12.
Proof.
  destruct (@B_to_X_scatters_the_rows_received Z ex_of_int 1
              (exchange_env 2 1 mp_here 1 (B_to_X_sent 2 1 ex_SP rx_Glu 2 mp_here)
                            (B_to_X_plan 2 1 mp_here))
              (l_B (mp_here 1)) (l_x (mp_here 1)) (l_m_loc (mp_here 1)) 2 (l_ldb (mp_here 1))
              (l_fst_row (mp_here 1)) (l_ilsum (mp_here 1)) ex_SP rx_Glu (grid_of 2 1 1)
              (SOLVE_of mp_owner 2 mp_diag_procs mp_here 1) 1 1) as (r & Hr & Hval).
  - vm_compute. discriminate.
  - intros size. reflexivity.
  - constructor.
    + lia.
    + lia.
    + intros lk Hlk. assert (lk = 0) by lia. subst lk. decide_closed.
    + intros t Ht. assert (Ht' : 0 <= t < 2) by exact Ht. below2 t; decide_closed.
  - intros p Hp. assert (Hp' : 0 <= p < 2) by exact Hp. below2 p; decide_closed.
  - intros s s' j Hs Hs' Hj. assert (Hs2 : 0 <= s < 2) by exact Hs.
    assert (Hs2' : 0 <= s' < 2) by exact Hs'.
    below2 s; below2 s'; below2 j; decide_closed.
  - exists r. split; [exact Hr|].
    etransitivity; [exact (Hval 0 1 ltac:(in_range) ltac:(lia)) | vm_compute; reflexivity].
Defined.

(** Process 0 receives row 0 from itself and row 1 from process 1: the
    second value of row 0, 32, lands in [B[2]], and [B[7]], beyond the two
    rows, keeps its value. *)
Lemma X_to_B_unpacks_m_loc_rows_witness :
  exists r, mp_X_to_B 0 = Done r /\ filled r 2 = 32 /\ filled r 7 = l_B (mp_here 0) 7.
Proof.
  destruct (@X_to_B_unpacks_m_loc_rows Z 1
              (exchange_env 2 1 mp_here 0
                 (X_to_B_sent ex_of_int 1 2 1 ex_SP rx_Glu 3 2 mp_owner 2 mp_diag_procs mp_here)
                 (X_to_B_plan 2 1 mp_here))
              (l_B (mp_here 0))
              (x_after ex_of_int 1 2 1 ex_SP rx_Glu 2 mp_owner 2 mp_diag_procs mp_here 0)
              3 2 2 2 0 (l_ilsum (mp_here 0)) ex_SP rx_Glu (grid_of 2 1 0)
              (SOLVE_of mp_owner 2 mp_diag_procs mp_here 0)) as (r & Hr & Hval & Hframe).
  - vm_compute. discriminate.
  - intros size. reflexivity.
  - lia.
  - intros s Hs. below2 s; decide_closed.
  - intros s s' j Hs Hs' Hj. below2 s; below2 s'; below2 j; decide_closed.
  - exists r. split; [exact Hr|]. split.
    + etransitivity; [exact (Hval 0 1 ltac:(lia) ltac:(lia)) | vm_compute; reflexivity].
    + apply (Hframe 7). intros s j Hs Hj. below2 s; below2 j; vm_compute; discriminate.
Defined.

(** Row 0 of process 1 is row 2 of [B], which the permutation takes to row
    0, of supernode 0 on process 0: its first value, 31, is in [x[1]]
    there. *)
Lemma B_to_X_between_processes_witness :
  0 <= 0 < 2 * 1 /\ exists r, mp_B_to_X 0 = Done r /\ filled r 1 = 31.
Proof.
  destruct (@B_to_X_between_processes Z ex_of_int 1 2 1 ex_SP rx_Glu 3 2 1 mp_owner 2
              mp_diag_procs mp_here mp_distributed_input 1 0 0
              ltac:(lia) ltac:(in_range) ltac:(lia)) as (Hq & r & Hr & Hval).
  split; [exact Hq|]. exists r. split; [exact Hr|].
  etransitivity; [exact Hval | vm_compute; reflexivity].
Defined.

(** Row 1 of supernode 1 is row 2, held on process 1, which is also the
    diagonal process of the supernode: [B[0]] there ends with the 21 that
    [x[2]] holds after B to X. *)
Lemma X_to_B_between_processes_witness :
  exists res, mp_X_to_B 1 = Done res /\ filled res 0 = 21.
Proof.
  destruct (@X_to_B_between_processes Z ex_of_int 1 2 1 ex_SP rx_Glu 3 2 1 mp_owner 2
              mp_diag_procs mp_here mp_distributed_input 1 1 0
              ltac:(in_range) ltac:(in_range) ltac:(lia)) as (_ & _ & res & Hres & Hval).
  exists res. split; [exact Hres|].
  etransitivity; [exact Hval | vm_compute; reflexivity].
Defined.
